(** * Web snapshots: a shallow embedding of src/web-snapshot/web-snapshot.cc

    The development follows the layout of the C++ file: the pieces shared by
    the serializer and the deserializer (function flags, attribute flags), the
    binary codec, the serializer (discovery, source compaction, the table
    writers) and the deserializer (the table readers, deferred references, the
    export installer).  Definitions come first, statements about them after. *)

From Stdlib Require Import ZArith Lia Bool String Ascii.
From Stdlib Require Import Strings.Byte.
From stdpp Require Import base option list gmap.

Local Open Scope Z_scope.

(** ** Integers of the C++ code

    [uint32_t] values are kept in [Z]; arithmetic that can wrap is written
    with [wrap32]. [to_int] is [static_cast<int>] of a [uint32_t]. *)

Definition two32 : Z := 4294967296.
Definition wrap32 (z : Z) : Z := z mod two32.
Definition to_int (z : Z) : Z := if z <? 2147483648 then z else z - two32.
Definition kMaxUint32 : Z := two32 - 1.

(** ** Bytes *)

Definition bytes := list byte.

Definition byte_of_Z (z : Z) : byte :=
  match Byte.of_N (Z.to_N (z mod 256)) with
  | Some b => b
  | None => x00
  end.

Definition Z_of_byte (b : byte) : Z := Z.of_N (Byte.to_N b).

Fixpoint bytes_eqb (a b : bytes) : bool :=
  match a, b with
  | [], [] => true
  | x :: a', y :: b' => Byte.eqb x y && bytes_eqb a' b'
  | _, _ => false
  end.

Definition bytes_of_string (s : string) : bytes := list_byte_of_string s.

(** The line feed that ends two of the messages of web-snapshot.cc. *)
Definition LF : string := String "010"%char EmptyString.

(** ** The binary codec *)

Module Codec.

(** Modelled from the spec: the codec (ValueSerializer / ValueDeserializer)
    is declared outside src/.  Section 6 of the specification fixes the
    layout: plain integers are 32 bits, little-endian; zigzag integers are
    variable-length; doubles are eight raw bytes; strings carry a length
    prefix.  A reader returns the value and the rest of the input, or [None]
    when the input is too short; a failed read consumes nothing. *)

Definition WriteUint32 (v : Z) : bytes :=
  [ byte_of_Z v; byte_of_Z (v / 256); byte_of_Z (v / 65536);
    byte_of_Z (v / 16777216) ].

Definition ReadUint32 (b : bytes) : option (Z * bytes) :=
  match b with
  | b0 :: b1 :: b2 :: b3 :: rest =>
      Some (Z_of_byte b0 + 256 * Z_of_byte b1 + 65536 * Z_of_byte b2
            + 16777216 * Z_of_byte b3, rest)
  | _ => None
  end.

Definition WriteRawBytes (src : bytes) : bytes := src.

Definition ReadRawBytes (n : nat) (b : bytes) : option (bytes * bytes) :=
  if (n <=? length b)%nat then Some (take n b, drop n b) else None.

(** Base-128 varint, least significant group first, high bit = continue. *)
Fixpoint WriteVarint_fuel (fuel : nat) (v : Z) : bytes :=
  match fuel with
  | O => []
  | S fuel' =>
      if v <? 128 then [byte_of_Z v]
      else byte_of_Z (Z.lor (Z.land v 127) 128) :: WriteVarint_fuel fuel' (Z.shiftr v 7)
  end.

Definition WriteVarint (v : Z) : bytes := WriteVarint_fuel 5 (wrap32 v).

Fixpoint ReadVarint_from (shift : Z) (acc : Z) (b : bytes) : option (Z * bytes) :=
  match b with
  | [] => None
  | x :: rest =>
      let v := Z_of_byte x in
      let acc' := if shift <? 32
                  then Z.lor acc (wrap32 (Z.shiftl (Z.land v 127) shift))
                  else acc in
      if Z.testbit v 7 then ReadVarint_from (shift + 7) acc' rest
      else Some (acc', rest)
  end.

Definition ReadVarint (b : bytes) : option (Z * bytes) := ReadVarint_from 0 0 b.

(** [WriteZigZag<int32_t>]: the sign moves to the lowest bit. *)
Definition WriteZigZag (v : Z) : bytes :=
  WriteVarint (Z.lxor (wrap32 (Z.shiftl v 1)) (wrap32 (Z.shiftr v 31))).

Definition ReadZigZag (b : bytes) : option (Z * bytes) :=
  match ReadVarint b with
  | Some (u, rest) =>
      Some (to_int (Z.lxor (Z.shiftr u 1) (wrap32 (- (Z.land u 1)))), rest)
  | None => None
  end.

(** A double travels as its eight bytes; the model never looks inside. *)
Definition WriteDouble (bits : bytes) : bytes := take 8 bits.

Definition ReadDouble (b : bytes) : option (bytes * bytes) := ReadRawBytes 8 b.

Definition ReadUtf8String (b : bytes) : option (bytes * bytes) :=
  match ReadUint32 b with
  | Some (len, rest) => ReadRawBytes (Z.to_nat len) rest
  | None => None
  end.

End Codec.

(** ** Function kinds and the flag word (shared base class) *)

Module Flags.

(** The kinds that web-snapshot.cc names: the ten it serializes, the two
    derived constructors of the decoder's table, the six method kinds of its
    TODO notes, and [kInvalid]. *)
Inductive FunctionKind :=
  | kNormalFunction
  | kArrowFunction
  | kGeneratorFunction
  | kAsyncFunction
  | kAsyncArrowFunction
  | kAsyncGeneratorFunction
  | kBaseConstructor
  | kDefaultBaseConstructor
  | kConciseMethod
  | kAsyncConciseMethod
  | kDerivedConstructor
  | kDefaultDerivedConstructor
  | kConciseGeneratorMethod
  | kAsyncConciseGeneratorMethod
  | kStaticConciseMethod
  | kStaticAsyncConciseMethod
  | kStaticConciseGeneratorMethod
  | kStaticAsyncConciseGeneratorMethod
  | kInvalid.

Definition FunctionKind_eqb (a b : FunctionKind) : bool :=
  match a, b with
  | kNormalFunction, kNormalFunction
  | kArrowFunction, kArrowFunction
  | kGeneratorFunction, kGeneratorFunction
  | kAsyncFunction, kAsyncFunction
  | kAsyncArrowFunction, kAsyncArrowFunction
  | kAsyncGeneratorFunction, kAsyncGeneratorFunction
  | kBaseConstructor, kBaseConstructor
  | kDefaultBaseConstructor, kDefaultBaseConstructor
  | kConciseMethod, kConciseMethod
  | kAsyncConciseMethod, kAsyncConciseMethod
  | kDerivedConstructor, kDerivedConstructor
  | kDefaultDerivedConstructor, kDefaultDerivedConstructor
  | kConciseGeneratorMethod, kConciseGeneratorMethod
  | kAsyncConciseGeneratorMethod, kAsyncConciseGeneratorMethod
  | kStaticConciseMethod, kStaticConciseMethod
  | kStaticAsyncConciseMethod, kStaticAsyncConciseMethod
  | kStaticConciseGeneratorMethod, kStaticConciseGeneratorMethod
  | kStaticAsyncConciseGeneratorMethod, kStaticAsyncConciseGeneratorMethod
  | kInvalid, kInvalid => true
  | _, _ => false
  end.

(** Modelled from the spec: the trait predicates of a function kind
    (function-kind.h is not in src/).  The specification lists the eight
    traits of the flag word: async, generator, arrow, method, static,
    is-constructor, is-default-constructor, is-derived-constructor. *)
Definition IsAsyncFunction (k : FunctionKind) : bool :=
  match k with
  | kAsyncFunction | kAsyncArrowFunction | kAsyncGeneratorFunction
  | kAsyncConciseMethod | kAsyncConciseGeneratorMethod
  | kStaticAsyncConciseMethod | kStaticAsyncConciseGeneratorMethod => true
  | _ => false
  end.

Definition IsGeneratorFunction (k : FunctionKind) : bool :=
  match k with
  | kGeneratorFunction | kAsyncGeneratorFunction
  | kConciseGeneratorMethod | kAsyncConciseGeneratorMethod
  | kStaticConciseGeneratorMethod | kStaticAsyncConciseGeneratorMethod => true
  | _ => false
  end.

Definition IsArrowFunction (k : FunctionKind) : bool :=
  match k with
  | kArrowFunction | kAsyncArrowFunction => true
  | _ => false
  end.

Definition IsConciseMethod (k : FunctionKind) : bool :=
  match k with
  | kConciseMethod | kAsyncConciseMethod
  | kConciseGeneratorMethod | kAsyncConciseGeneratorMethod
  | kStaticConciseMethod | kStaticAsyncConciseMethod
  | kStaticConciseGeneratorMethod | kStaticAsyncConciseGeneratorMethod => true
  | _ => false
  end.

Definition IsStatic (k : FunctionKind) : bool :=
  match k with
  | kStaticConciseMethod | kStaticAsyncConciseMethod
  | kStaticConciseGeneratorMethod | kStaticAsyncConciseGeneratorMethod => true
  | _ => false
  end.

Definition IsClassConstructor (k : FunctionKind) : bool :=
  match k with
  | kBaseConstructor | kDefaultBaseConstructor
  | kDerivedConstructor | kDefaultDerivedConstructor => true
  | _ => false
  end.

Definition IsDefaultConstructor (k : FunctionKind) : bool :=
  match k with
  | kDefaultBaseConstructor | kDefaultDerivedConstructor => true
  | _ => false
  end.

Definition IsDerivedConstructor (k : FunctionKind) : bool :=
  match k with
  | kDerivedConstructor | kDefaultDerivedConstructor => true
  | _ => false
  end.

(** Modelled from the spec: the bit fields of the flag word are declared in
    the header, which is not in src/.  Each trait is one bit, in the order in
    which the specification lists the traits. *)
Record BitField := { kShift : Z }.

Definition kMask (f : BitField) : Z := Z.shiftl 1 (kShift f).
Definition encode (f : BitField) (b : bool) : Z :=
  if b then Z.shiftl 1 (kShift f) else 0.
Definition decode (f : BitField) (flags : Z) : bool :=
  negb (Z.shiftr (Z.land flags (kMask f)) (kShift f) =? 0).

Definition AsyncFunctionBitField := {| kShift := 0 |}.
Definition GeneratorFunctionBitField := {| kShift := 1 |}.
Definition ArrowFunctionBitField := {| kShift := 2 |}.
Definition MethodBitField := {| kShift := 3 |}.
Definition StaticBitField := {| kShift := 4 |}.
Definition ClassConstructorBitField := {| kShift := 5 |}.
Definition DefaultConstructorBitField := {| kShift := 6 |}.
Definition DerivedConstructorBitField := {| kShift := 7 |}.

Definition b2z (b : bool) : Z := if b then 1 else 0.

(** The switch at the head of [FunctionKindToFunctionFlags]. *)
Definition supported_kind (k : FunctionKind) : bool :=
  match k with
  | kNormalFunction | kArrowFunction | kGeneratorFunction | kAsyncFunction
  | kAsyncArrowFunction | kAsyncGeneratorFunction | kBaseConstructor
  | kDefaultBaseConstructor | kConciseMethod | kAsyncConciseMethod => true
  | _ => false
  end.

(** [FunctionKindToFunctionFlags]: the flag word, and the message handed to
    [Throw] when the kind is outside the switch (the word is computed all the
    same). *)
Definition FunctionKindToFunctionFlags (kind : FunctionKind) : Z * option string :=
  let thrown := if supported_kind kind then None
                else Some "Unsupported function kind"%string in
  let flags :=
    Z.lor (encode AsyncFunctionBitField (IsAsyncFunction kind))
    (Z.lor (encode GeneratorFunctionBitField (IsGeneratorFunction kind))
    (Z.lor (encode ArrowFunctionBitField (IsArrowFunction kind))
    (Z.lor (encode MethodBitField (IsConciseMethod kind))
    (Z.lor (encode StaticBitField (IsStatic kind))
    (Z.lor (encode ClassConstructorBitField (IsClassConstructor kind))
    (Z.lor (encode DefaultConstructorBitField (IsDefaultConstructor kind))
           (encode DerivedConstructorBitField (IsDerivedConstructor kind)))))))) in
  (flags, thrown).

Definition IsFunctionOrMethod (flags : Z) : bool :=
  let mask :=
    Z.lor (kMask AsyncFunctionBitField)
    (Z.lor (kMask GeneratorFunctionBitField)
    (Z.lor (kMask ArrowFunctionBitField)
    (Z.lor (kMask MethodBitField) (kMask StaticBitField)))) in
  Z.land flags mask =? flags.

Definition IsConstructor (flags : Z) : bool :=
  let mask :=
    Z.lor (kMask ClassConstructorBitField)
    (Z.lor (kMask DefaultConstructorBitField) (kMask DerivedConstructorBitField)) in
  decode ClassConstructorBitField flags && (Z.land flags mask =? flags).

(** The first table of [FunctionFlagsToFunctionKind], indexed by
    async | generator<<1 | (arrow or static)<<2 | method<<3. *)
Definition kFunctionKinds_function : list FunctionKind :=
  [ kNormalFunction; kAsyncFunction; kGeneratorFunction; kAsyncGeneratorFunction;
    kArrowFunction; kAsyncArrowFunction; kInvalid; kInvalid;
    kConciseMethod; kAsyncConciseMethod; kInvalid; kInvalid;
    kInvalid; kInvalid; kInvalid; kInvalid ].

(** The second table, indexed by [flags >> DefaultConstructorBitField::kShift]. *)
Definition kFunctionKinds_constructor : list FunctionKind :=
  [ kBaseConstructor; kDefaultBaseConstructor;
    kDerivedConstructor; kDefaultDerivedConstructor ].

(** [FunctionFlagsToFunctionKind]: the kind, and the message handed to
    [Throw] when the kind is [kInvalid]. *)
Definition FunctionFlagsToFunctionKind (flags : Z) : FunctionKind * option string :=
  let kind :=
    if IsFunctionOrMethod flags then
      if decode ArrowFunctionBitField flags && decode MethodBitField flags
      then kInvalid
      else
        let index :=
          Z.lor (Z.shiftl (b2z (decode AsyncFunctionBitField flags)) 0)
          (Z.lor (Z.shiftl (b2z (decode GeneratorFunctionBitField flags)) 1)
          (Z.lor (Z.shiftl (b2z (decode ArrowFunctionBitField flags
                                 || decode StaticBitField flags)) 2)
                 (Z.shiftl (b2z (decode MethodBitField flags)) 3))) in
        nth (Z.to_nat index) kFunctionKinds_function kInvalid
    else if IsConstructor flags then
      nth (Z.to_nat (Z.shiftr flags (kShift DefaultConstructorBitField)))
          kFunctionKinds_constructor kInvalid
    else kInvalid in
  (kind, if FunctionKind_eqb kind kInvalid
         then Some ("Invalid function flags" ++ LF)%string else None).

(** Attribute flags of a property. *)
Definition ReadOnlyBitField := {| kShift := 0 |}.
Definition ConfigurableBitField := {| kShift := 1 |}.
Definition EnumerableBitField := {| kShift := 2 |}.

Record PropertyDetails := {
  is_field : bool;          (* location() == PropertyLocation::kField *)
  IsReadOnly : bool;
  IsConfigurable : bool;
  IsEnumerable : bool
}.

Definition GetDefaultAttributeFlags : Z :=
  Z.lor (encode ReadOnlyBitField false)
  (Z.lor (encode ConfigurableBitField true) (encode EnumerableBitField true)).

Definition AttributesToFlags (details : PropertyDetails) : Z :=
  Z.lor (encode ReadOnlyBitField (IsReadOnly details))
  (Z.lor (encode ConfigurableBitField (IsConfigurable details))
         (encode EnumerableBitField (IsEnumerable details))).

(** READ_ONLY = 1, DONT_ENUM = 2, DONT_DELETE = 4. *)
Definition FlagsToAttributes (flags : Z) : Z :=
  b2z (decode ReadOnlyBitField flags) * 1
  + b2z (negb (decode ConfigurableBitField flags)) * 4
  + b2z (negb (decode EnumerableBitField flags)) * 2.

(** Modelled from the spec: the enumerators of [ValueType] are declared in
    the header, which is not in src/; they are numbered in the order of the
    switch of [ReadValue].  [ContextType] is 0 = FUNCTION, 1 = BLOCK and
    [PropertyAttributesType] is 0 = DEFAULT, 1 = CUSTOM (section 6). *)
Inductive ValueType :=
  | FALSE_CONSTANT | TRUE_CONSTANT | NULL_CONSTANT | UNDEFINED_CONSTANT
  | INTEGER | DOUBLE | STRING_ID | ARRAY_ID | OBJECT_ID | FUNCTION_ID
  | CLASS_ID | REGEXP.

Definition ValueType_of_Z (z : Z) : option ValueType :=
  match z with
  | 0 => Some FALSE_CONSTANT | 1 => Some TRUE_CONSTANT
  | 2 => Some NULL_CONSTANT | 3 => Some UNDEFINED_CONSTANT
  | 4 => Some INTEGER | 5 => Some DOUBLE | 6 => Some STRING_ID
  | 7 => Some ARRAY_ID | 8 => Some OBJECT_ID | 9 => Some FUNCTION_ID
  | 10 => Some CLASS_ID | 11 => Some REGEXP
  | _ => None
  end.

Definition Z_of_ValueType (t : ValueType) : Z :=
  match t with
  | FALSE_CONSTANT => 0 | TRUE_CONSTANT => 1 | NULL_CONSTANT => 2
  | UNDEFINED_CONSTANT => 3 | INTEGER => 4 | DOUBLE => 5 | STRING_ID => 6
  | ARRAY_ID => 7 | OBJECT_ID => 8 | FUNCTION_ID => 9 | CLASS_ID => 10
  | REGEXP => 11
  end.

Definition ContextType_FUNCTION : Z := 0.
Definition ContextType_BLOCK : Z := 1.
Definition PropertyAttributesType_DEFAULT : Z := 0.
Definition PropertyAttributesType_CUSTOM : Z := 1.

(** The kinds of the switch, as a list. *)
Definition supported_kinds : list FunctionKind :=
  [ kNormalFunction; kArrowFunction; kGeneratorFunction; kAsyncFunction;
    kAsyncArrowFunction; kAsyncGeneratorFunction; kBaseConstructor;
    kDefaultBaseConstructor; kConciseMethod; kAsyncConciseMethod ].

(** The six words that encode no supported kind and yet decode without an
    error: static alone, static + async, static + arrow, static + arrow +
    async (static set, method clear), and the two derived-constructor
    words (is-constructor + is-derived, without and with is-default). *)
Definition stray_words : list Z := [16; 17; 20; 21; 160; 224].

(** A decision used to check the decoder word by word: the word encodes a
    supported kind, or it is one of the six stray words, or decoding it
    throws. *)
Definition narrow_flags_ok (flags : Z) : bool :=
  existsb (fun k => fst (FunctionKindToFunctionFlags k) =? flags) supported_kinds
  || existsb (Z.eqb flags) stray_words
  || match snd (FunctionFlagsToFunctionKind flags) with
     | Some _ => true
     | None => false
     end.

End Flags.

(** ** The deserializer *)

Module Deserializer.
Import Codec Flags.

(** *** Values and heap objects

    A heap object lives at an address of the heap (its position in the list);
    [Value] is a tagged word: an immediate, or a reference to a heap object.
    Strings are kept by content: [VString b] is the string that
    [ReadUtf8String] makes of the bytes [b], which it takes for UTF-8. *)

Definition addr := nat.

Inductive Value :=
  | VInt (z : Z)
  | VDouble (bits : bytes)
  | VFalse
  | VTrue
  | VNull
  | VUndefined
  | VString (s : bytes)
  | VRef (a : addr).

Record Descriptor := {
  d_key : bytes;
  d_field_index : Z;
  d_attributes : Z
}.

Record JSFunctionData := {
  f_kind : FunctionKind;
  f_function_literal_id : Z;
  f_start_position : Z;
  f_end_position : Z;
  f_parameter_count : Z;
  f_context : option addr;          (* None: the native context *)
  f_prototype : option addr
}.

Inductive HeapObject :=
  | HBuiltin (name : string)
  | HMap (descriptors : list Descriptor) (prototype : Value)
         (constructor_or_back_pointer : option addr) (is_prototype_map : bool)
  | HContext (type : Z) (previous : option addr) (local_names : list bytes)
             (slots : list Value)
  | HPropertyArray (values : list Value)
  | HFixedArray (values : list Value)
  | HJSFunction (f : JSFunctionData)
  | HJSObject (map : addr) (properties : addr)
  | HJSArray (elements : addr) (length : Z)
  | HJSRegExp (pattern : bytes) (flags : Z)
  | HGlobalDictionary (capacity : nat) (entries : list (bytes * Value))
  | HScopeInfo (slots : list Value).

(** The two scope types that [CreateScopeInfo] uses. *)
Inductive ScopeType := FUNCTION_SCOPE | CLASS_SCOPE.

(** The seven entity tables of the deserializer ([strings_], [maps_], ...). *)
Inductive Table :=
  | TString | TMap | TContext | TFunction | TClass | TArray | TObject.

Definition Table_eqb (a b : Table) : bool :=
  match a, b with
  | TString, TString | TMap, TMap | TContext, TContext
  | TFunction, TFunction | TClass, TClass | TArray, TArray
  | TObject, TObject => true
  | _, _ => false
  end.

(** *** What the code takes from outside

    Constants and services that web-snapshot.cc uses and that are declared
    elsewhere.  [Throw_is_overridden] says whether the call of [Throw] inside
    the base-class method [FunctionFlagsToFunctionKind] reaches the
    deserializer's own [Throw] (the declaration of [Throw] is in the header,
    which is not in src/). *)
Record Config := {
  kMagicNumber : bytes;
  kMaxItemCount : Z;
  kMaxNumberOfDescriptors : Z;
  ContextHeaderLength : Z;
  kVariablePartIndex : Z;                (* ScopeInfo::kVariablePartIndex *)
  kPositionInfoEntries : Z;              (* ScopeInfo::kPositionInfoEntries *)
  NeedsPositionInfo : ScopeType -> bool; (* ScopeInfo::NeedsPositionInfo *)
  ContextLocalInfo : Z;                  (* the info word of a let variable *)
  SmiIsValid : Z -> bool;                (* Smi::IsValid *)
  DoubleFromInt : Z -> bytes;            (* the double that an int32_t converts to *)
  DoubleToSmiInteger : bytes -> option Z; (* the Smi that a double is, if it is one *)
  FlagsFromString : bytes -> option Z;   (* JSRegExp::FlagsFromString *)
  RegExpNew : bytes -> Z -> bool;        (* JSRegExp::New succeeds *)
  RunScript : bytes -> bool;             (* the trailing script compiles and runs *)
  Throw_is_overridden : bool
}.

(** *** State of a deserializer

    [position_] is the unread part of the buffer ([end_ - position_] bytes).
    [counts], [currents] and [tables] hold [string_count_] ...,
    [current_function_count_] ... and [strings_] ... ; the string, shape and
    context tables have no [current_] counter in the source and their entry
    of [currents] is never used.  [trace] is a ghost field: it records, in
    order, the events that the statements below speak about and is never
    read by the code. *)

Inductive Event :=
  | EvAllocTable (t : Table) (n : Z)      (* NewFixedArray for a table *)
  | EvThrow (message : string)
  | EvReference (t : Table) (id : Z)      (* a reference field was decoded *)
  | EvPrototype (shape : Z) (id : Z)      (* ... the prototype field of a shape record *)
  | EvEmptyShape (shape : Z)              (* the shape record has no property *)
  | EvReserve (n : Z)                     (* GlobalDictionary::EnsureCapacity *)
  | EvDecodeExport (name : bytes) (value : Value)
  | EvInsertExport (name : bytes)         (* GlobalDictionary::Add *)
  | EvPublish.                            (* set_global_dictionary *)

Definition DeferredReference : Type := addr * Z * ValueType * Z.

Record State := {
  position_ : bytes;
  error_message_ : option string;
  deserialized_ : bool;
  counts : Table -> Z;
  currents : Table -> Z;
  tables : Table -> list Value;
  deferred_references_ : list DeferredReference;
  script_source_ : bytes;
  heap : list HeapObject;
  global_dictionary : addr;
  trace : list Event
}.

Definition set_position_ (v : bytes) (s : State) : State :=
  {| position_ := v; error_message_ := error_message_ s;
     deserialized_ := deserialized_ s; counts := counts s;
     currents := currents s; tables := tables s;
     deferred_references_ := deferred_references_ s;
     script_source_ := script_source_ s; heap := heap s;
     global_dictionary := global_dictionary s; trace := trace s |}.

Definition set_error_message_ (v : option string) (s : State) : State :=
  {| position_ := position_ s; error_message_ := v;
     deserialized_ := deserialized_ s; counts := counts s;
     currents := currents s; tables := tables s;
     deferred_references_ := deferred_references_ s;
     script_source_ := script_source_ s; heap := heap s;
     global_dictionary := global_dictionary s; trace := trace s |}.

Definition set_deserialized_ (v : bool) (s : State) : State :=
  {| position_ := position_ s; error_message_ := error_message_ s;
     deserialized_ := v; counts := counts s;
     currents := currents s; tables := tables s;
     deferred_references_ := deferred_references_ s;
     script_source_ := script_source_ s; heap := heap s;
     global_dictionary := global_dictionary s; trace := trace s |}.

Definition set_counts (v : Table -> Z) (s : State) : State :=
  {| position_ := position_ s; error_message_ := error_message_ s;
     deserialized_ := deserialized_ s; counts := v;
     currents := currents s; tables := tables s;
     deferred_references_ := deferred_references_ s;
     script_source_ := script_source_ s; heap := heap s;
     global_dictionary := global_dictionary s; trace := trace s |}.

Definition set_currents (v : Table -> Z) (s : State) : State :=
  {| position_ := position_ s; error_message_ := error_message_ s;
     deserialized_ := deserialized_ s; counts := counts s;
     currents := v; tables := tables s;
     deferred_references_ := deferred_references_ s;
     script_source_ := script_source_ s; heap := heap s;
     global_dictionary := global_dictionary s; trace := trace s |}.

Definition set_tables (v : Table -> list Value) (s : State) : State :=
  {| position_ := position_ s; error_message_ := error_message_ s;
     deserialized_ := deserialized_ s; counts := counts s;
     currents := currents s; tables := v;
     deferred_references_ := deferred_references_ s;
     script_source_ := script_source_ s; heap := heap s;
     global_dictionary := global_dictionary s; trace := trace s |}.

Definition set_deferred_references_ (v : list DeferredReference) (s : State) : State :=
  {| position_ := position_ s; error_message_ := error_message_ s;
     deserialized_ := deserialized_ s; counts := counts s;
     currents := currents s; tables := tables s;
     deferred_references_ := v;
     script_source_ := script_source_ s; heap := heap s;
     global_dictionary := global_dictionary s; trace := trace s |}.

Definition set_script_source_ (v : bytes) (s : State) : State :=
  {| position_ := position_ s; error_message_ := error_message_ s;
     deserialized_ := deserialized_ s; counts := counts s;
     currents := currents s; tables := tables s;
     deferred_references_ := deferred_references_ s;
     script_source_ := v; heap := heap s;
     global_dictionary := global_dictionary s; trace := trace s |}.

Definition set_heap (v : list HeapObject) (s : State) : State :=
  {| position_ := position_ s; error_message_ := error_message_ s;
     deserialized_ := deserialized_ s; counts := counts s;
     currents := currents s; tables := tables s;
     deferred_references_ := deferred_references_ s;
     script_source_ := script_source_ s; heap := v;
     global_dictionary := global_dictionary s; trace := trace s |}.

Definition set_global_dictionary (v : addr) (s : State) : State :=
  {| position_ := position_ s; error_message_ := error_message_ s;
     deserialized_ := deserialized_ s; counts := counts s;
     currents := currents s; tables := tables s;
     deferred_references_ := deferred_references_ s;
     script_source_ := script_source_ s; heap := heap s;
     global_dictionary := v; trace := trace s |}.

Definition set_trace (v : list Event) (s : State) : State :=
  {| position_ := position_ s; error_message_ := error_message_ s;
     deserialized_ := deserialized_ s; counts := counts s;
     currents := currents s; tables := tables s;
     deferred_references_ := deferred_references_ s;
     script_source_ := script_source_ s; heap := heap s;
     global_dictionary := global_dictionary s; trace := v |}.

Definition upd {A : Type} (f : Table -> A) (t : Table) (v : A) : Table -> A :=
  fun t' => if Table_eqb t t' then v else f t'.

Definition has_error (s : State) : bool :=
  match error_message_ s with Some _ => true | None => false end.

(** *** The monad of the deserializer

    A method of the deserializer is a state transformer.  The C++ code has
    four kinds of undefined behaviour in reach of its input-handling paths:
    an access outside a table, an access outside a container that is not a
    table, a cast of a value that is not of the cast's type, and
    [UNREACHABLE()]; a run that meets one stops with [Crash].  [OutOfFuel] is
    no fault of the C++ code: a loop of the model stops with it when its fuel
    is used up while its condition still holds. *)

Inductive Fault :=
  TableOutOfBounds | SlotOutOfBounds | BadCast | Unreachable | OutOfFuel.

Inductive Result (A : Type) :=
  | Done (a : A) (s : State)
  | Crash (f : Fault).
Arguments Done {A} a s.
Arguments Crash {A} f.

Definition M (A : Type) : Type := State -> Result A.

Definition ret {A : Type} (a : A) : M A := fun s => Done a s.

Definition bind {A B : Type} (m : M A) (k : A -> M B) : M B :=
  fun s => match m s with
           | Done a s' => k a s'
           | Crash f => Crash f
           end.

Notation "'let*' x ':=' m 'in' k" := (bind m (fun x => k))
  (at level 10, x name, m at level 100, k at level 200, only parsing).
Notation "'let*' ' p ':=' m 'in' k" := (bind m (fun x => match x with p => k end))
  (at level 10, p pattern, m at level 100, k at level 200, only parsing).
Notation "'do' m ';;;' k" := (bind m (fun _ => k))
  (at level 10, m at level 100, k at level 200, only parsing).

Definition gets {A : Type} (f : State -> A) : M A := fun s => Done (f s) s.
Definition modify (f : State -> State) : M unit := fun s => Done tt (f s).
Definition crash {A : Type} (f : Fault) : M A := fun _ => Crash f.
Definition emit (e : Event) : M unit :=
  modify (fun s => set_trace (trace s ++ [e]) s).

(** [return] inside a loop body leaves the whole method. *)
Inductive Ctl := Next | Return.

(** [for (...; cond; ) body]: [fuel] bounds the number of rounds; the callers
    pass the distance between the counter and its bound at loop entry, which
    the body never increases. *)
Fixpoint loop (fuel : nat) (cond : State -> bool) (body : M Ctl) : M Ctl :=
  match fuel with
  | O => fun s => if cond s then Crash OutOfFuel else Done Next s
  | S fuel' =>
      fun s =>
        if cond s
        then bind body (fun c => match c with
                                 | Next => loop fuel' cond body
                                 | Return => ret Return
                                 end) s
        else Done Next s
  end.

(** [for (i = from; i < bound; ++i) body i] over a local index. *)
Fixpoint for_range (n : nat) (i : Z) (cond : Z -> State -> bool)
    (body : Z -> M Ctl) : M Ctl :=
  match n with
  | O => fun s => if cond i s then Crash OutOfFuel else Done Next s
  | S n' =>
      fun s =>
        if cond i s
        then bind (body i) (fun c => match c with
                                     | Next => for_range n' (i + 1) cond body
                                     | Return => ret Return
                                     end) s
        else Done Next s
  end.

(** *** Reading from the buffer, tables, heap *)

Definition ReadUint32 : M (option Z) :=
  fun s => match Codec.ReadUint32 (position_ s) with
           | Some (v, rest) => Done (Some v) (set_position_ rest s)
           | None => Done None s
           end.

Definition ReadZigZag : M (option Z) :=
  fun s => match Codec.ReadZigZag (position_ s) with
           | Some (v, rest) => Done (Some v) (set_position_ rest s)
           | None => Done None s
           end.

Definition ReadDouble : M (option bytes) :=
  fun s => match Codec.ReadDouble (position_ s) with
           | Some (v, rest) => Done (Some v) (set_position_ rest s)
           | None => Done None s
           end.

Definition ReadUtf8String : M (option bytes) :=
  fun s => match Codec.ReadUtf8String (position_ s) with
           | Some (v, rest) => Done (Some v) (set_position_ rest s)
           | None => Done None s
           end.

Definition ReadRawBytes (n : nat) : M (option bytes) :=
  fun s => match Codec.ReadRawBytes n (position_ s) with
           | Some (v, rest) => Done (Some v) (set_position_ rest s)
           | None => Done None s
           end.

Definition in_bounds (i : Z) (l : list Value) : bool :=
  (0 <=? i) && (i <? Z.of_nat (length l)).

(** [table.get(i)] and [table.set(i, v)] of a FixedArray. *)
Definition table_get (t : Table) (i : Z) : M Value :=
  fun s => if in_bounds i (tables s t)
           then Done (nth (Z.to_nat i) (tables s t) VUndefined) s
           else Crash TableOutOfBounds.

Definition table_set (t : Table) (i : Z) (v : Value) : M unit :=
  fun s => if in_bounds i (tables s t)
           then Done tt (set_tables (upd (tables s) t (<[Z.to_nat i := v]> (tables s t))) s)
           else Crash TableOutOfBounds.

(** [table_handle_ = NewFixedArray(n); table_ = *table_handle_]. *)
Definition NewTable (t : Table) (n : Z) : M unit :=
  do emit (EvAllocTable t n) ;;;
  modify (fun s => set_tables (upd (tables s) t (replicate (Z.to_nat n) VUndefined)) s).

Definition set_count (t : Table) (v : Z) : M unit :=
  modify (fun s => set_counts (upd (counts s) t v) s).

Definition set_current (t : Table) (v : Z) : M unit :=
  modify (fun s => set_currents (upd (currents s) t v) s).

Definition allocate (o : HeapObject) : M addr :=
  fun s => Done (length (heap s)) (set_heap (heap s ++ [o]) s).

Definition heap_get (a : addr) : M HeapObject :=
  fun s => match heap s !! a with
           | Some o => Done o s
           | None => Crash BadCast
           end.

Definition heap_set (a : addr) (o : HeapObject) : M unit :=
  modify (fun s => set_heap (<[a := o]> (heap s)) s).

(** [HeapObject::cast] and friends: the value must be a reference. *)
Definition cast_ref (v : Value) : M addr :=
  match v with
  | VRef a => ret a
  | _ => crash BadCast
  end.

(** Objects that exist before deserialization starts: Object.prototype, the
    Object function, its initial map (the canonical empty shape) and the
    dictionary of the global object. *)
Definition object_prototype : addr := 0%nat.
Definition object_function : addr := 1%nat.
Definition initial_map : addr := 2%nat.

Definition initial_heap (capacity : nat) (entries : list (bytes * Value)) : list HeapObject :=
  [ HBuiltin "Object.prototype";
    HBuiltin "Object";
    HMap [] (VRef object_prototype) (Some object_function) false;
    HGlobalDictionary capacity entries ].

(** The constructor: every count is zero and every table is the empty fixed
    array.  [capacity] and [entries] describe the global object's dictionary
    at that moment. *)
Definition new_deserializer (capacity : nat) (entries : list (bytes * Value))
    (buffer : bytes) : State :=
  {| position_ := buffer; error_message_ := None; deserialized_ := false;
     counts := fun _ => 0; currents := fun _ => 0; tables := fun _ => [];
     deferred_references_ := []; script_source_ := [];
     heap := initial_heap capacity entries; global_dictionary := 3%nat;
     trace := [] |}.

(** [container.set(index, v)] for a PropertyArray, a Context or a
    FixedArray that is not one of the tables. *)
Definition store_slot (container : addr) (index : Z) (v : Value) : M unit :=
  let* o := heap_get container in
  match o with
  | HPropertyArray vals =>
      if in_bounds index vals
      then heap_set container (HPropertyArray (<[Z.to_nat index := v]> vals))
      else crash SlotOutOfBounds
  | HContext ty prev names slots =>
      if in_bounds index slots
      then heap_set container (HContext ty prev names (<[Z.to_nat index := v]> slots))
      else crash SlotOutOfBounds
  | HFixedArray vals =>
      if in_bounds index vals
      then heap_set container (HFixedArray (<[Z.to_nat index := v]> vals))
      else crash SlotOutOfBounds
  | _ => crash BadCast
  end.

(** [Map::set_prototype]. *)
Definition set_prototype (map : addr) (proto : Value) : M unit :=
  let* o := heap_get map in
  match o with
  | HMap ds _ ctor ipm => heap_set map (HMap ds proto ctor ipm)
  | _ => crash BadCast
  end.

(** A step that may leave the method: [None] stands for [return]. *)
Definition or_return {A : Type} (m : M (option A)) (k : A -> M Ctl) : M Ctl :=
  let* r := m in
  match r with
  | Some a => k a
  | None => ret Return
  end.

Notation "'let?' x ':=' m 'in' k" := (or_return m (fun x => k))
  (at level 10, x name, m at level 100, k at level 200, only parsing).

Section WithConfig.

Context (cfg : Config).

(** *** Throw *)

(** [WebSnapshotSerializerDeserializer::Throw]: the first message sticks.
    (Raising the exception on the isolate is outside the model.) *)
Definition BaseThrow (message : string) : M unit :=
  let* err := gets has_error in
  if err then ret tt
  else
    do modify (set_error_message_ (Some message)) ;;;
    emit (EvThrow message).

(** [WebSnapshotDeserializer::Throw]. *)
Definition Throw (message : string) : M unit :=
  do set_count TString 0 ;;;
  do set_count TMap 0 ;;;
  do set_count TContext 0 ;;;
  do set_count TClass 0 ;;;
  do set_count TFunction 0 ;;;
  do set_count TObject 0 ;;;
  do modify (set_deferred_references_ []) ;;;
  (* Make sure we don't read any more data *)
  do modify (set_position_ []) ;;;
  BaseThrow message.

(** [FunctionFlagsToFunctionKind] as the deserializer runs it. *)
Definition FunctionFlagsToFunctionKind (flags : Z) : M FunctionKind :=
  match Flags.FunctionFlagsToFunctionKind flags with
  | (kind, Some message) =>
      do (if Throw_is_overridden cfg then Throw message else BaseThrow message) ;;;
      ret kind
  | (kind, None) => ret kind
  end.

(** [if (!deserializer_.ReadUint32(&x)) { Throw(message); return; }] *)
Definition ReadUint32_or_throw (message : string) : M (option Z) :=
  let* r := ReadUint32 in
  match r with
  | Some v => ret (Some v)
  | None => do Throw message ;;; ret None
  end.

(** [if (bad) { Throw(message); return; }] *)
Definition throw_if (bad : bool) (message : string) : M (option unit) :=
  if bad then do Throw message ;;; ret None else ret (Some tt).

(** [deserializer_.ReadUint32(&count_of_t)]: the count is written only when
    the read succeeds. *)
Definition ReadUint32_into_count (t : Table) : M bool :=
  let* r := ReadUint32 in
  match r with
  | Some v => do set_count t v ;;; ret true
  | None => ret false
  end.

(** *** Strings *)

Definition DeserializeStrings : M unit :=
  let* ok := ReadUint32_into_count TString in
  let* string_count := gets (fun s => counts s TString) in
  if negb ok || (kMaxItemCount cfg <? string_count) then
    Throw "Malformed string table"
  else
    do NewTable TString string_count ;;;
    do for_range (Z.to_nat string_count) 0
         (fun i s => i <? counts s TString)
         (fun i =>
            let* maybe_string := ReadUtf8String in
            match maybe_string with
            | None => do Throw "Malformed string" ;;; ret Return
            | Some str => do table_set TString i (VString str) ;;; ret Next
            end) ;;;
    ret tt.

Definition ReadString (internalize : bool) : M bytes :=
  let* r := ReadUint32 in
  let* string_count := gets (fun s => counts s TString) in
  match r with
  | None => do Throw ("malformed string id" ++ LF)%string ;;; ret []
  | Some string_id =>
      do emit (EvReference TString string_id) ;;;
      if string_count <=? string_id then
        do Throw ("malformed string id" ++ LF)%string ;;; ret []
      else
        let* v := table_get TString string_id in
        match v with
        | VString str =>
            do (if internalize then table_set TString string_id (VString str)
                else ret tt) ;;;
            ret str
        | _ => crash BadCast
        end
  end.

(** *** Deferred references and values *)

Definition AddDeferredReference (container : option addr) (index : Z)
    (target_type : ValueType) (target_index : Z) : M Value :=
  match container with
  | None =>
      let message :=
        match target_type with
        | ARRAY_ID => "Invalid array reference"
        | OBJECT_ID => "Invalid object reference"
        | CLASS_ID => "Invalid class reference"
        | FUNCTION_ID => "Invalid function reference"
        | _ => "Invalid reference"
        end%string in
      do Throw message ;;;
      ret VUndefined
  | Some c =>
      do modify (fun s => set_deferred_references_
                   (deferred_references_ s ++ [(c, index, target_type, target_index)]) s) ;;;
      ret VUndefined
  end.

(** The four id cases of [ReadValue] have one shape: read the id, compare it
    with [limit] ([>=] when [strict], [>] otherwise), take the entity from its
    table when it is already there, defer otherwise. *)
Definition ReadValue_id (t : Table) (target_type : ValueType) (strict : bool)
    (limit : Z) (message : string)
    (object_for_deferred_reference : option addr)
    (index_for_deferred_reference : Z) : M Value :=
  let* r := ReadUint32 in
  match r with
  | None => do Throw message ;;; ret (VInt 0)
  | Some id =>
      do emit (EvReference t id) ;;;
      if (if strict then limit <=? id else limit <? id) then
        do Throw message ;;; ret (VInt 0)
      else
        let* current := gets (fun s => currents s t) in
        if id <? current then table_get t id
        else AddDeferredReference object_for_deferred_reference
                                  index_for_deferred_reference target_type id
  end.

(** [Factory::NewNumberFromInt] and [Factory::NewNumber]: a Smi when the
    number is one, a heap number otherwise.  (The factory is declared
    outside src/; which numbers are Smis is the host's matter.) *)
Definition NewNumberFromInt (value : Z) : Value :=
  if SmiIsValid cfg value then VInt value else VDouble (DoubleFromInt cfg value).

Definition NewNumber (value : bytes) : Value :=
  match DoubleToSmiInteger cfg value with
  | Some int_value => VInt int_value
  | None => VDouble value
  end.

Definition ReadValue (object_for_deferred_reference : option addr)
    (index_for_deferred_reference : Z) : M Value :=
  let* r := ReadUint32 in
  match r with
  | None => do Throw "Malformed variable" ;;; ret (VInt 0)
  | Some value_type =>
      match ValueType_of_Z value_type with
      | Some FALSE_CONSTANT => ret VFalse
      | Some TRUE_CONSTANT => ret VTrue
      | Some NULL_CONSTANT => ret VNull
      | Some UNDEFINED_CONSTANT => ret VUndefined
      | Some INTEGER =>
          let* number := ReadZigZag in
          match number with
          | None => do Throw "Malformed integer" ;;; ret (VInt 0)
          | Some n => ret (NewNumberFromInt n)
          end
      | Some DOUBLE =>
          let* number := ReadDouble in
          match number with
          | None => do Throw "Malformed double" ;;; ret (VInt 0)
          | Some d => ret (NewNumber d)
          end
      | Some STRING_ID =>
          let* str := ReadString false in ret (VString str)
      | Some ARRAY_ID =>
          ReadValue_id TArray ARRAY_ID true (kMaxItemCount cfg) "Malformed variable"
            object_for_deferred_reference index_for_deferred_reference
      | Some OBJECT_ID =>
          ReadValue_id TObject OBJECT_ID false (kMaxItemCount cfg) "Malformed variable"
            object_for_deferred_reference index_for_deferred_reference
      | Some FUNCTION_ID =>
          let* function_count := gets (fun s => counts s TFunction) in
          ReadValue_id TFunction FUNCTION_ID true function_count
            "Malformed object property"
            object_for_deferred_reference index_for_deferred_reference
      | Some CLASS_ID =>
          ReadValue_id TClass CLASS_ID true (kMaxItemCount cfg)
            "Malformed object property"
            object_for_deferred_reference index_for_deferred_reference
      | Some REGEXP =>
          let* pattern := ReadString false in
          let* flags_string := ReadString false in
          match FlagsFromString cfg flags_string with
          | None =>
              do Throw "Malformed flags in regular expression" ;;; ret (VInt 0)
          | Some flags =>
              if RegExpNew cfg pattern flags then
                let* regexp := allocate (HJSRegExp pattern flags) in
                ret (VRef regexp)
              else do Throw "Malformed RegExp" ;;; ret (VInt 0)
          end
      | None => do Throw "Unsupported value type" ;;; ret (VInt 0)
      end
  end.

(** *** Shapes *)

(** The property loop of [DeserializeMaps]; [None] when the method returned.
    ([descriptors->Sort()] reorders the array for lookup and is not modelled:
    a descriptor carries its field index.) *)
Fixpoint read_descriptors (n : nat) (i : Z) (has_custom_property_attributes : bool)
    (descriptors : list Descriptor) : M (option (list Descriptor)) :=
  match n with
  | O => ret (Some descriptors)
  | S n' =>
      let* attributes :=
        (if has_custom_property_attributes then
           let* r := ReadUint32_or_throw "Malformed shape" in
           match r with
           | None => ret None
           | Some flags => ret (Some (FlagsToAttributes flags))
           end
         else ret (Some 0)) in
      match attributes with
      | None => ret None
      | Some attributes =>
          let* key := ReadString true in
          read_descriptors n' (i + 1) has_custom_property_attributes
            (descriptors ++ [ {| d_key := key; d_field_index := i;
                                 d_attributes := attributes |} ])
      end
  end.

(** One round of the loop of [DeserializeMaps], for the shape of id [i]. *)
Definition DeserializeMaps_body (i : Z) : M Ctl :=
  let? map_type := ReadUint32_or_throw "Malformed shape" in
  let? has_custom_property_attributes :=
    (if map_type =? PropertyAttributesType_DEFAULT then ret (Some false)
     else if map_type =? PropertyAttributesType_CUSTOM then ret (Some true)
     else do Throw "Unsupported map type" ;;; ret None) in
  let? prototype_id :=
    (let* r := ReadUint32 in
     match r with
     | None => do Throw "Malformed shape" ;;; ret None
     | Some prototype_id =>
         do (if prototype_id =? 0 then ret tt
             else emit (EvPrototype i (prototype_id - 1))) ;;;
         if kMaxItemCount cfg <? prototype_id
         then do Throw "Malformed shape" ;;; ret None
         else ret (Some prototype_id)
     end) in
  let? property_count := ReadUint32_or_throw "Malformed shape" in
  let? _ := throw_if (kMaxNumberOfDescriptors cfg <? property_count)
                     "Malformed shape: too many properties" in
  if property_count =? 0 then
    (* The prototype id is not used on this path. *)
    do emit (EvEmptyShape i) ;;;
    do table_set TMap i (VRef initial_map) ;;;
    ret Return
  else
    let? descriptors :=
      read_descriptors (Z.to_nat property_count) 0 has_custom_property_attributes [] in
    let* map := allocate (HMap descriptors VNull None false) in
    do (if prototype_id =? 0 then
          (* Use Object.prototype as the prototype. *)
          set_prototype map (VRef object_prototype)
        else
          let prototype_id := prototype_id - 1 in
          let* current_object_count := gets (fun s => currents s TObject) in
          if prototype_id <? current_object_count then
            let* v := table_get TObject prototype_id in
            let* o := cast_ref v in
            set_prototype map (VRef o)
          else
            (* The object hasn't been deserialized yet. *)
            do AddDeferredReference (Some map) 0 OBJECT_ID prototype_id ;;;
            ret tt) ;;;
    do table_set TMap i (VRef map) ;;;
    ret Next.

Definition DeserializeMaps : M unit :=
  let* ok := ReadUint32_into_count TMap in
  let* map_count := gets (fun s => counts s TMap) in
  if negb ok || (kMaxItemCount cfg <? map_count) then
    Throw "Malformed shape table"
  else
    do NewTable TMap map_count ;;;
    do for_range (Z.to_nat map_count) 0
         (fun i s => i <? counts s TMap) DeserializeMaps_body ;;;
    ret tt.

(** *** Contexts *)

(** [scope_info->set(index, v)]. *)
Definition scope_info_set (scope_info : addr) (index : Z) (v : Value) : M unit :=
  let* o := heap_get scope_info in
  match o with
  | HScopeInfo slots =>
      if in_bounds index slots
      then heap_set scope_info (HScopeInfo (<[Z.to_nat index := v]> slots))
      else crash SlotOutOfBounds
  | _ => crash BadCast
  end.

(** [CreateScopeInfo].  [length] is an [int] computed from the [uint32_t]
    [variable_count]: the sum wraps.  The scope info is an array of [length]
    slots, the fixed part first (flags, counts: the slots below
    [kVariablePartIndex]); [set_flags] and the other writes of the fixed
    part fall outside a scope info that is shorter than that.  The values of
    the fixed part, and the position info, are kept by accessors of
    ScopeInfo (outside src/) and are not modelled. *)
Definition CreateScopeInfo (variable_count : Z) (has_parent : bool)
    (context_type : Z) : M addr :=
  let* scope_type :=
    (if context_type =? ContextType_FUNCTION then ret FUNCTION_SCOPE
     else if context_type =? ContextType_BLOCK then ret CLASS_SCOPE
     else
       (* Default to a CLASS_SCOPE, so that the rest of the code can be
          executed without failures. *)
       do Throw "Unsupported context type" ;;; ret CLASS_SCOPE) in
  let length :=
    to_int (wrap32 (kVariablePartIndex cfg
                    + (if NeedsPositionInfo cfg scope_type
                       then kPositionInfoEntries cfg else 0)
                    + (if has_parent then 1 else 0)
                    + 2 * variable_count)) in
  let* scope_info := allocate (HScopeInfo (replicate (Z.to_nat length) VUndefined)) in
  if length <? kVariablePartIndex cfg then crash SlotOutOfBounds
  else ret scope_info.

(** The first variable loop: the names and the info words, written into the
    scope info. *)
Fixpoint read_local_names (n : nat) (variable_index : Z) (scope_info : addr)
    (context_local_base context_local_info_base : Z) (names : list bytes)
    : M (list bytes) :=
  match n with
  | O => ret names
  | S n' =>
      let* name := ReadString true in
      do scope_info_set scope_info (context_local_base + variable_index)
           (VString name) ;;;
      do scope_info_set scope_info (context_local_info_base + variable_index)
           (VInt (ContextLocalInfo cfg)) ;;;
      read_local_names n' (variable_index + 1) scope_info
        context_local_base context_local_info_base (names ++ [name])
  end.

(** The second variable loop: the values, stored into the new context. *)
Fixpoint read_local_values (n : nat) (variable_index : Z) (context : addr) : M unit :=
  match n with
  | O => ret tt
  | S n' =>
      let context_index := ContextHeaderLength cfg + variable_index in
      let* value := ReadValue (Some context) context_index in
      do store_slot context context_index value ;;;
      read_local_values n' (variable_index + 1) context
  end.

(** One round of the loop of [DeserializeContexts], for the context of id [i]. *)
Definition DeserializeContexts_body (i : Z) : M Ctl :=
  let? context_type := ReadUint32_or_throw "Malformed context type" in
  (* Parent context is serialized before child context. Note: not >= on
     purpose, we're going to subtract 1 later. *)
  let? parent_context_id :=
    (let* r := ReadUint32 in
     match r with
     | None => do Throw "Malformed context" ;;; ret None
     | Some parent_context_id =>
         do (if parent_context_id =? 0 then ret tt
             else emit (EvReference TContext (parent_context_id - 1))) ;;;
         if i <? parent_context_id
         then do Throw "Malformed context" ;;; ret None
         else ret (Some parent_context_id)
     end) in
  let? variable_count := ReadUint32_or_throw "Malformed context" in
  let* scope_info :=
    CreateScopeInfo variable_count (0 <? parent_context_id) context_type in
  let* parent_context :=
    (if 0 <? parent_context_id then
       let* v := table_get TContext (parent_context_id - 1) in
       let* parent := cast_ref v in
       let* o := heap_get parent in
       match o with
       | HContext _ _ _ _ => ret (Some parent)
       | _ => crash BadCast
       end
     else ret None) in
  let context_local_base := kVariablePartIndex cfg in
  let context_local_info_base := to_int (wrap32 (context_local_base + variable_count)) in
  let locals := Z.to_nat (to_int variable_count) in
  let* names :=
    read_local_names locals 0 scope_info context_local_base
      context_local_info_base [] in
  let? _ :=
    (if (context_type =? ContextType_FUNCTION) || (context_type =? ContextType_BLOCK)
     then ret (Some tt)
     else do Throw "Unsupported context type" ;;; ret None) in
  let* context :=
    allocate (HContext context_type parent_context names
                (replicate (Z.to_nat (ContextHeaderLength cfg) + locals) VUndefined)) in
  do read_local_values locals 0 context ;;;
  do table_set TContext i (VRef context) ;;;
  ret Next.

Definition DeserializeContexts : M unit :=
  let* ok := ReadUint32_into_count TContext in
  let* context_count := gets (fun s => counts s TContext) in
  if negb ok || (kMaxItemCount cfg <? context_count) then
    Throw "Malformed context table"
  else
    do NewTable TContext context_count ;;;
    do for_range (Z.to_nat context_count) 0
         (fun i s => i <? counts s TContext) DeserializeContexts_body ;;;
    ret tt.

(** *** Functions and classes *)

(** [function->set_context(context)]. *)
Definition set_context (function context : addr) : M unit :=
  let* o := heap_get function in
  match o with
  | HJSFunction fd =>
      heap_set function (HJSFunction
        {| f_kind := f_kind fd;
           f_function_literal_id := f_function_literal_id fd;
           f_start_position := f_start_position fd;
           f_end_position := f_end_position fd;
           f_parameter_count := f_parameter_count fd;
           f_context := Some context;
           f_prototype := f_prototype fd |})
  | _ => crash BadCast
  end.

(** [CreateJSFunction].  The shared function info is folded into the
    function; the script's tables of shared function infos are not
    modelled. *)
Definition CreateJSFunction (shared_function_info_index start_position length
    parameter_count flags context_id : Z) : M addr :=
  let* kind := FunctionFlagsToFunctionKind flags in
  let* function :=
    allocate (HJSFunction
      {| f_kind := kind; f_function_literal_id := shared_function_info_index;
         f_start_position := start_position;
         f_end_position := wrap32 (start_position + length);
         f_parameter_count := parameter_count;
         f_context := None; f_prototype := None |}) in
  do (if 0 <? context_id then
        let* v := table_get TContext (context_id - 1) in
        let* context := cast_ref v in
        set_context function context
      else ret tt) ;;;
  ret function.

Definition SetFunctionPrototype (function prototype : addr) : M bool :=
  let* p := heap_get prototype in
  match p with
  | HJSObject map _ =>
      let* m := heap_get map in
      match m with
      | HMap ds proto ctor _ =>
          do heap_set map (HMap ds proto ctor true) ;;;
          match ctor with
          | Some _ => ret false
          | None =>
              do heap_set map (HMap ds proto (Some function) true) ;;;
              let* f := heap_get function in
              match f with
              | HJSFunction fd =>
                  do heap_set function (HJSFunction
                       {| f_kind := f_kind fd;
                          f_function_literal_id := f_function_literal_id fd;
                          f_start_position := f_start_position fd;
                          f_end_position := f_end_position fd;
                          f_parameter_count := f_parameter_count fd;
                          f_context := f_context fd;
                          f_prototype := Some prototype |}) ;;;
                  ret true
              | _ => crash BadCast
              end
          end
      | _ => crash BadCast
      end
  | _ => crash BadCast
  end.

Definition ReadFunctionPrototype (function : addr) : M unit :=
  let* r := ReadUint32 in
  match r with
  | None => Throw "Malformed class / function"
  | Some object_id =>
      do (if object_id =? 0 then ret tt
          else emit (EvReference TObject (object_id - 1))) ;;;
      if kMaxItemCount cfg + 1 <? object_id then
        Throw "Malformed class / function"
      else if object_id =? 0 then
        (* No prototype. *)
        ret tt
      else
        let object_id := object_id - 1 in
        let* current_object_count := gets (fun s => currents s TObject) in
        if object_id <? current_object_count then
          let* v := table_get TObject object_id in
          let* prototype := cast_ref v in
          let* ok := SetFunctionPrototype function prototype in
          if ok then ret tt else Throw "Can't reuse function prototype"
        else
          (* The object hasn't been deserialized yet. *)
          do AddDeferredReference (Some function) 0 OBJECT_ID object_id ;;;
          ret tt
  end.

(** The four plain fields of a function or class record, read with
    short-circuit [||]. *)
Definition read_function_fields (message : string) : M (option (Z * Z * Z * Z)) :=
  let* r1 := ReadUint32 in
  match r1 with
  | None => do Throw message ;;; ret None
  | Some start_position =>
      let* r2 := ReadUint32 in
      match r2 with
      | None => do Throw message ;;; ret None
      | Some length =>
          let* r3 := ReadUint32 in
          match r3 with
          | None => do Throw message ;;; ret None
          | Some parameter_count =>
              let* r4 := ReadUint32 in
              match r4 with
              | None => do Throw message ;;; ret None
              | Some flags =>
                  ret (Some (start_position, length, parameter_count, flags))
              end
          end
      end
  end.

(** The context field of a function or class record.
    Note: > (not >= on purpose, we will subtract 1). *)
Definition read_context_id (message : string) : M (option Z) :=
  let* r := ReadUint32 in
  match r with
  | None => do Throw message ;;; ret None
  | Some context_id =>
      do (if context_id =? 0 then ret tt
          else emit (EvReference TContext (context_id - 1))) ;;;
      let* context_count := gets (fun s => counts s TContext) in
      if context_count <? context_id
      then do Throw message ;;; ret None
      else ret (Some context_id)
  end.

Definition DeserializeFunctions_body : M Ctl :=
  let? context_id := read_context_id "Malformed function" in
  let* source := ReadString false in
  let* current_function_count := gets (fun s => currents s TFunction) in
  do (if current_function_count =? 0 then modify (set_script_source_ source)
      else ret tt) ;;;
  let? fields := read_function_fields "Malformed function" in
  let '(start_position, length, parameter_count, flags) := fields in
  let* current_function_count := gets (fun s => currents s TFunction) in
  (* Index 0 is reserved for top-level shared function info. *)
  let* function :=
    CreateJSFunction (wrap32 (current_function_count + 1)) start_position length
                     parameter_count flags context_id in
  let* current_function_count := gets (fun s => currents s TFunction) in
  do table_set TFunction current_function_count (VRef function) ;;;
  do ReadFunctionPrototype function ;;;
  ret Next.

(** [for (; current_t < count_t; ++current_t) body]. *)
Definition loop_current (t : Table) (body : M Ctl) : M unit :=
  let* count := gets (fun s => counts s t) in
  let* current := gets (fun s => currents s t) in
  do loop (Z.to_nat (count - current))
       (fun s => currents s t <? counts s t)
       (let* c := body in
        match c with
        | Return => ret Return
        | Next =>
            let* current := gets (fun s => currents s t) in
            do set_current t (wrap32 (current + 1)) ;;;
            ret Next
        end) ;;;
  ret tt.

Definition DeserializeFunctions : M unit :=
  let* ok := ReadUint32_into_count TFunction in
  let* function_count := gets (fun s => counts s TFunction) in
  if negb ok || (kMaxItemCount cfg <? function_count) then
    Throw "Malformed function table"
  else
    do NewTable TFunction function_count ;;;
    do modify (set_script_source_ []) ;;;
    loop_current TFunction DeserializeFunctions_body.

Definition DeserializeClasses_body : M Ctl :=
  let? context_id := read_context_id "Malformed class" in
  let* source := ReadString false in
  let* current_function_count := gets (fun s => currents s TFunction) in
  let* current_class_count := gets (fun s => currents s TClass) in
  do (if wrap32 (current_function_count + current_class_count) =? 0
      then modify (set_script_source_ source)
      else ret tt) ;;;
  let? fields := read_function_fields "Malformed class" in
  let '(start_position, length, parameter_count, flags) := fields in
  let* function_count := gets (fun s => counts s TFunction) in
  let* current_class_count := gets (fun s => currents s TClass) in
  let* function :=
    CreateJSFunction (wrap32 (function_count + current_class_count + 1))
                     start_position length parameter_count flags context_id in
  let* current_class_count := gets (fun s => currents s TClass) in
  do table_set TClass current_class_count (VRef function) ;;;
  do ReadFunctionPrototype function ;;;
  ret Next.

Definition DeserializeClasses : M unit :=
  let* ok := ReadUint32_into_count TClass in
  let* class_count := gets (fun s => counts s TClass) in
  if negb ok || (kMaxItemCount cfg <? class_count) then
    Throw "Malformed class table"
  else
    do NewTable TClass class_count ;;;
    loop_current TClass DeserializeClasses_body.

(** *** Objects and arrays *)

(** The property loop of [DeserializeObjects].  (The representation kept in
    the descriptor only ever goes from None to Tagged and is not modelled.) *)
Fixpoint read_properties (n : nat) (i : Z) (property_array : addr) : M unit :=
  match n with
  | O => ret tt
  | S n' =>
      let* value := ReadValue (Some property_array) i in
      do store_slot property_array i value ;;;
      read_properties n' (i + 1) property_array
  end.

Definition DeserializeObjects_body : M Ctl :=
  let? map_id :=
    (let* r := ReadUint32 in
     match r with
     | None => do Throw "Malformed object" ;;; ret None
     | Some map_id =>
         do emit (EvReference TMap map_id) ;;;
         let* map_count := gets (fun s => counts s TMap) in
         if map_count <=? map_id
         then do Throw "Malformed object" ;;; ret None
         else ret (Some map_id)
     end) in
  let* v := table_get TMap map_id in
  let* map := cast_ref v in
  let* raw_map := heap_get map in
  match raw_map with
  | HMap descriptors _ _ _ =>
      let no_properties := length descriptors in
      let* property_array :=
        allocate (HPropertyArray (replicate no_properties VUndefined)) in
      do read_properties no_properties 0 property_array ;;;
      let* object := allocate (HJSObject map property_array) in
      let* current_object_count := gets (fun s => currents s TObject) in
      do table_set TObject current_object_count (VRef object) ;;;
      ret Next
  | _ => crash BadCast
  end.

Definition DeserializeObjects : M unit :=
  let* ok := ReadUint32_into_count TObject in
  let* object_count := gets (fun s => counts s TObject) in
  if negb ok || (kMaxItemCount cfg <? object_count) then
    Throw "Malformed objects table"
  else
    do NewTable TObject object_count ;;;
    loop_current TObject DeserializeObjects_body.

(** The element loop of [DeserializeArrays].  (The elements kind of the new
    array is not modelled.) *)
Fixpoint read_elements (n : nat) (i : Z) (elements : addr) : M unit :=
  match n with
  | O => ret tt
  | S n' =>
      let* value := ReadValue (Some elements) i in
      do store_slot elements i value ;;;
      read_elements n' (i + 1) elements
  end.

Definition DeserializeArrays_body : M Ctl :=
  let? length :=
    (let* r := ReadUint32 in
     match r with
     | None => do Throw "Malformed array" ;;; ret None
     | Some length =>
         if kMaxItemCount cfg <? length
         then do Throw "Malformed array" ;;; ret None
         else ret (Some length)
     end) in
  let* elements := allocate (HFixedArray (replicate (Z.to_nat length) VUndefined)) in
  do read_elements (Z.to_nat length) 0 elements ;;;
  let* array := allocate (HJSArray elements length) in
  let* current_array_count := gets (fun s => currents s TArray) in
  do table_set TArray current_array_count (VRef array) ;;;
  ret Next.

Definition DeserializeArrays : M unit :=
  let* ok := ReadUint32_into_count TArray in
  let* object_count := gets (fun s => counts s TObject) in
  if negb ok || (kMaxItemCount cfg <? object_count) then
    Throw "Malformed array table"
  else
    let* array_count := gets (fun s => counts s TArray) in
    do NewTable TArray array_count ;;;
    loop_current TArray DeserializeArrays_body.

(** *** Exports *)

(** Modelled from the spec: the global namespace.  GlobalDictionary is
    declared outside src/; the specification speaks of reserving capacity in
    the target namespace and inserting bindings.  A dictionary is a heap
    object with a capacity; [EnsureCapacity] hands back the dictionary it was
    given when that has room for [n] more elements and a grown copy
    otherwise; [Add] makes room for one element and writes the binding into
    the dictionary it then holds. *)
Definition EnsureCapacity (dictionary : addr) (n : Z) : M addr :=
  let* d := heap_get dictionary in
  match d with
  | HGlobalDictionary capacity entries =>
      if Z.of_nat (length entries) + n <=? Z.of_nat capacity then ret dictionary
      else allocate (HGlobalDictionary
                       (Z.to_nat (Z.of_nat (length entries) + n)) entries)
  | _ => crash BadCast
  end.

Definition NumberOfElements (dictionary : addr) : M Z :=
  let* d := heap_get dictionary in
  match d with
  | HGlobalDictionary _ entries => ret (Z.of_nat (length entries))
  | _ => crash BadCast
  end.

Definition GlobalDictionary_Add (dictionary : addr) (name : bytes) (value : Value) : M addr :=
  let* dictionary := EnsureCapacity dictionary 1 in
  let* d := heap_get dictionary in
  match d with
  | HGlobalDictionary capacity entries =>
      do heap_set dictionary (HGlobalDictionary capacity (entries ++ [(name, value)])) ;;;
      ret dictionary
  | _ => crash BadCast
  end.

(** The loop of [DeserializeExports]; the local [dictionary] is threaded
    through, and [None] stands for the [return] after [has_error()]. *)
Fixpoint DeserializeExports_loop (n : nat) (dictionary : addr) : M (option addr) :=
  match n with
  | O => ret (Some dictionary)
  | S n' =>
      let* export_name := ReadString true in
      (* No deferred references should occur at this point, since all
         objects have been deserialized. *)
      let* export_value := ReadValue None 0 in
      do emit (EvDecodeExport export_name export_value) ;;;
      (* Check for the correctness of the snapshot (thus far) before
         producing something observable. *)
      let* err := gets has_error in
      if err then ret None
      else
        let* dictionary := GlobalDictionary_Add dictionary export_name export_value in
        do emit (EvInsertExport export_name) ;;;
        DeserializeExports_loop n' dictionary
  end.

Definition DeserializeExports : M unit :=
  let* r := ReadUint32 in
  match r with
  | None => Throw "Malformed export table"
  | Some count =>
      if kMaxItemCount cfg <? count then Throw "Malformed export table"
      else
        (* Pre-reserve the space for the properties we're going to add to
           the global object. *)
        let* dictionary := gets global_dictionary in
        let* elements := NumberOfElements dictionary in
        let* dictionary := EnsureCapacity dictionary (elements + count) in
        do emit (EvReserve count) ;;;
        let* r := DeserializeExports_loop (Z.to_nat count) dictionary in
        match r with
        | None => ret tt
        | Some dictionary =>
            do modify (set_global_dictionary dictionary) ;;;
            emit EvPublish
        end
  end.

(** *** Deferred references *)

Fixpoint ProcessDeferredReferences_loop (refs : list DeferredReference) : M Ctl :=
  match refs with
  | [] => ret Next
  | (container, index, target_type, target_index) :: rest =>
      let? target :=
        (let lookup (t : Table) (message : string) : M (option Value) :=
           let* count := gets (fun s => counts s t) in
           if count <=? target_index
           then do Throw message ;;; ret None
           else let* v := table_get t target_index in ret (Some v) in
         match target_type with
         | FUNCTION_ID => lookup TFunction "Invalid function reference"%string
         | CLASS_ID => lookup TClass "Invalid class reference"%string
         | ARRAY_ID => lookup TArray "Invalid array reference"%string
         | OBJECT_ID => lookup TObject "Invalid object reference"%string
         | _ => crash Unreachable
         end) in
      let* o := heap_get container in
      let? _ :=
        match o with
        | HPropertyArray _ | HContext _ _ _ _ | HFixedArray _ =>
            do store_slot container index target ;;; ret (Some tt)
        | HJSFunction _ =>
            (* The only deferred reference allowed for a JSFunction is the
               function prototype. *)
            let* prototype := cast_ref target in
            let* ok := SetFunctionPrototype container prototype in
            if ok then ret (Some tt)
            else do Throw "Can't reuse function prototype" ;;; ret None
        | HMap _ _ _ _ =>
            (* The only deferred reference allowed for a Map is the
               __proto__. *)
            let* prototype := cast_ref target in
            do set_prototype container (VRef prototype) ;;; ret (Some tt)
        | _ => crash Unreachable
        end in
      ProcessDeferredReferences_loop rest
  end.

Definition ProcessDeferredReferences : M unit :=
  (* Check for error now, since the FixedArrays below might not have been
     created if there was an error. *)
  let* err := gets has_error in
  if err then ret tt
  else
    let* raw_deferred_references := gets deferred_references_ in
    let* c := ProcessDeferredReferences_loop raw_deferred_references in
    match c with
    | Return => ret tt
    | Next => modify (set_deferred_references_ [])
    end.

(** *** The whole snapshot *)

Definition DeserializeSnapshot : M bool :=
  do modify (set_deferred_references_ []) ;;;
  let* magic_bytes := ReadRawBytes 4 in
  if match magic_bytes with
     | Some m => negb (bytes_eqb m (kMagicNumber cfg))
     | None => true
     end
  then do Throw "Invalid magic number" ;;; ret false
  else
    do DeserializeStrings ;;;
    do DeserializeMaps ;;;
    do DeserializeContexts ;;;
    do DeserializeFunctions ;;;
    do DeserializeArrays ;;;
    do DeserializeObjects ;;;
    do DeserializeClasses ;;;
    do ProcessDeferredReferences ;;;
    do DeserializeExports ;;;
    let* err := gets has_error in
    ret (negb err).

(** [DeserializeScript]: what is left of the buffer is handed to the script
    compiler; its outcome is [RunScript]. *)
Definition DeserializeScript : M bool :=
  let* remaining := gets position_ in
  if match remaining with [] => false | _ => negb (RunScript cfg remaining) end
  then ret false
  else
    let* err := gets has_error in
    ret (negb err).

Definition Deserialize : M bool :=
  let* deserialized := gets deserialized_ in
  if deserialized then
    do Throw "Can't reuse WebSnapshotDeserializer" ;;;
    ret false
  else
    do modify (set_deserialized_ true) ;;;
    let* ok := DeserializeSnapshot in
    if negb ok then ret false
    else DeserializeScript.

End WithConfig.

(** The bindings of the global object: what a script run in the established
    context can see. *)
Definition namespace (s : State) : list (bytes * Value) :=
  match heap s !! global_dictionary s with
  | Some (HGlobalDictionary _ entries) => entries
  | _ => []
  end.

(** *** Invariants of a run of the deserializer *)

(** The faults that the statements about bounds leave open. *)
Definition harmless (f : Fault) : Prop :=
  f <> TableOutOfBounds /\ f <> OutOfFuel.

(** [triple P m Q]: from a state in [P], the method [m] ends in [Q] or
    stops with a fault that is neither an access outside a table nor a loop
    out of fuel. *)
Definition triple {A : Type} (P : State -> Prop) (m : M A) (Q : A -> State -> Prop) : Prop :=
  forall s, P s ->
    match m s with
    | Done a s' => Q a s'
    | Crash f => harmless f
    end.

(** The tables in the order in which [DeserializeSnapshot] reads them. *)
Definition idx (t : Table) : nat :=
  match t with
  | TString => 0 | TMap => 1 | TContext => 2 | TFunction => 3
  | TArray => 4 | TObject => 5 | TClass => 6
  end%nat.

(** The table that a deferred reference of a given type points into. *)
Definition table_of (ty : ValueType) : option Table :=
  match ty with
  | ARRAY_ID => Some TArray
  | OBJECT_ID => Some TObject
  | FUNCTION_ID => Some TFunction
  | CLASS_ID => Some TClass
  | _ => None
  end.

(** A reference waits in the list of deferred references. *)
Definition pending (s : State) (t : Table) (id : Z) : Prop :=
  exists c i ty, In (c, i, ty, id) (deferred_references_ s) /\ table_of ty = Some t.

(** The table and the id that a decoded reference field names. *)
Definition ref_of (e : Event) : option (Table * Z) :=
  match e with
  | EvReference t id => Some (t, id)
  | EvPrototype _ id => Some (TObject, id)
  | _ => None
  end.

(** The one reference field that is not looked at again: the prototype
    field of a shape record that turned out to have no property. *)
Definition dropped (tr : list Event) (e : Event) : Prop :=
  match e with
  | EvPrototype shape _ => In (EvEmptyShape shape) tr
  | _ => False
  end.

(** What a check that is still to come is about: a reference into the
    table [t], or the prototype field of the shape record [shape]. *)
Inductive Awaited :=
  | AwRef (t : Table) (id : Z)
  | AwPrototype (shape : Z) (id : Z).

(** The check of the reference field behind the event [e] is among those
    still to come. *)
Definition awaits (X : list Awaited) (e : Event) : Prop :=
  match e with
  | EvReference t id => In (AwRef t id) X
  | EvPrototype shape id => In (AwPrototype shape id) X \/ In (AwRef TObject id) X
  | _ => False
  end.

(** The events of [DeserializeExports]. *)
Definition is_export_event (e : Event) : bool :=
  match e with
  | EvReserve _ | EvDecodeExport _ _ | EvInsertExport _ | EvPublish => true
  | _ => false
  end.

Definition export_events (tr : list Event) : list Event :=
  List.filter is_export_event tr.

Definition is_dictionary (o : HeapObject) : bool :=
  match o with HGlobalDictionary _ _ => true | _ => false end.

(** What stays fixed while a table is being read: how many tables have been
    read ([phase]), the length of each table, each [current_] counter, the
    count that each table declared, and whether the deferred references have
    been processed. *)
Record Ghost := {
  phase : nat;
  lens : Table -> nat;
  curs : Table -> Z;
  cnts : Table -> Z;
  closed : bool
}.

(** A counter is within the declared count, the declared count within the
    table and within [uint32_t], and a table not read yet declares nothing. *)
Definition WF (γ : Ghost) : Prop :=
  forall t, 0 <= curs γ t <= cnts γ t
            /\ cnts γ t <= Z.of_nat (lens γ t)
            /\ cnts γ t < two32
            /\ ((phase γ <= idx t)%nat -> cnts γ t = 0).

(** The invariant proper.  A count is the declared one unless an error
    zeroed it; unless an error is recorded, every reference decoded so far
    is below the declared count of its table, or deferred (while deferred
    references are still to be processed), or dropped with its empty shape,
    or among those whose check [X] is still to come, and every table that
    has been read was allocated with its declared count.  The ids of
    deferred references are not negative. *)
Record Core (γ : Ghost) (X : list Awaited) (s : State) : Prop := {
  core_lens : forall t, length (tables s t) = lens γ t;
  core_curs : forall t, currents s t = curs γ t;
  core_cnts : forall t, counts s t = cnts γ t \/ (counts s t = 0 /\ has_error s = true);
  core_refs : has_error s = false ->
              forall e t id, In e (trace s) -> ref_of e = Some (t, id) ->
                awaits X e \/ id < cnts γ t
                \/ (closed γ = false /\ pending s t id)
                \/ dropped (trace s) e;
  core_allocs : has_error s = false ->
                forall t, (idx t < phase γ)%nat ->
                  In (EvAllocTable t (cnts γ t)) (trace s);
  core_deferred : forall c i ty id,
                    In (c, i, ty, id) (deferred_references_ s) -> 0 <= id
}.

(** A predicate on the heap, the global dictionary and the export events
    that the steps of decoding leave alone: they only allocate, and write
    into objects that are not dictionaries. *)
Record Frame (D : State -> Prop) : Prop := {
  frame_view : forall s s',
    heap s' = heap s -> global_dictionary s' = global_dictionary s ->
    export_events (trace s') = export_events (trace s) -> D s -> D s';
  frame_alloc : forall s o, D s -> D (set_heap (heap s ++ [o]) s);
  frame_set : forall s a o0 o,
    heap s !! a = Some o0 -> is_dictionary o0 = false ->
    D s -> D (set_heap (<[a := o]> (heap s)) s)
}.

Definition Inv (D : State -> Prop) (γ : Ghost) (X : list Awaited) (s : State) : Prop :=
  Core γ X s /\ D s.

(** Two states that the invariant cannot tell apart. *)
Definition same_view (s s' : State) : Prop :=
  error_message_ s' = error_message_ s
  /\ counts s' = counts s
  /\ currents s' = currents s
  /\ (forall t, length (tables s' t) = length (tables s t))
  /\ trace s' = trace s
  /\ deferred_references_ s' = deferred_references_ s
  /\ heap s' = heap s
  /\ global_dictionary s' = global_dictionary s.

(** The ghost state after the count of table [t] has been read and the table
    allocated, after a table was given up, and after one more entity of
    table [t] has been read. *)
Definition start (γ : Ghost) (t : Table) (v : Z) : Ghost :=
  {| phase := S (phase γ); lens := upd (lens γ) t (Z.to_nat v);
     curs := curs γ; cnts := upd (cnts γ) t v; closed := closed γ |}.

Definition bump (γ : Ghost) : Ghost :=
  {| phase := S (phase γ); lens := lens γ; curs := curs γ; cnts := cnts γ;
     closed := closed γ |}.

Definition advance (γ : Ghost) (t : Table) : Ghost :=
  {| phase := phase γ; lens := lens γ;
     curs := upd (curs γ) t (curs γ t + 1); cnts := cnts γ;
     closed := closed γ |}.

Definition close (γ : Ghost) : Ghost :=
  {| phase := phase γ; lens := lens γ; curs := curs γ; cnts := cnts γ;
     closed := true |}.

(** [n] tables have been read. *)
Definition Stage (D : State -> Prop) (n : nat) (s : State) : Prop :=
  exists γ, WF γ /\ phase γ = n /\ closed γ = false /\ Inv D γ [] s.

(** The references that a list of deferred references stands for. *)
Definition targets (refs : list DeferredReference) : list Awaited :=
  flat_map (fun r => match r with
                     | (_, _, ty, id) =>
                         match table_of ty with
                         | Some t => [AwRef t id]
                         | None => []
                         end
                     end) refs.

(** Every table has been read and the deferred references processed. *)
Definition Closed (D : State -> Prop) (s : State) : Prop :=
  exists γ, WF γ /\ phase γ = 7%nat /\ closed γ = true /\ Inv D γ [] s.

(** *** The global dictionary while exports are installed *)

(** The events of exports that were decoded and inserted. *)
Definition pairs (l : list (bytes * Value)) : list Event :=
  flat_map (fun b => [EvDecodeExport b.1 b.2; EvInsertExport b.1]) l.

(** The object at [a] is a dictionary with the bindings [entries]. *)
Definition holds (s : State) (a : addr) (entries : list (bytes * Value)) : Prop :=
  exists capacity, heap s !! a = Some (HGlobalDictionary capacity entries).

(** The global object's dictionary is at [g] and holds the bindings it had
    at the start followed by [l0]; the dictionary that the installer works on
    is at [d] and holds them followed by [l]; [evs] are the export events so
    far. *)
Definition Dict (g : addr) (entries : list (bytes * Value)) (evs : list Event)
    (d : addr) (l l0 : list (bytes * Value)) (s : State) : Prop :=
  global_dictionary s = g
  /\ export_events (trace s) = evs
  /\ holds s d (entries ++ l)
  /\ holds s g (entries ++ l0).

(** What a run leaves in the global namespace: the bindings [entries] from
    before, followed by a prefix [l0] of the exports [l] that were
    inserted.  Either the export table was not reached, or all its exports
    were inserted and the dictionary published, or the run stopped after
    decoding an export with an error recorded. *)
Definition Installed (entries : list (bytes * Value)) (s : State) : Prop :=
  exists l0 l,
    l0 `prefix_of` l
    /\ namespace s = entries ++ l0
    /\ ((export_events (trace s) = [] /\ l = [] /\ has_error s = true)
        \/ (exists n, export_events (trace s) = EvReserve n :: pairs l ++ [EvPublish]
                      /\ l0 = l)
        \/ (exists n name v,
              export_events (trace s)
              = EvReserve n :: pairs l ++ [EvDecodeExport name v]
              /\ has_error s = true)).

(** Unless an error is recorded, every table was allocated with a count and
    every reference decoded is below the count of its table or was dropped
    with its empty shape. *)
Definition Checked (s : State) : Prop :=
  has_error s = false ->
  forall t, exists n,
    In (EvAllocTable t n) (trace s)
    /\ forall e id, In e (trace s) -> ref_of e = Some (t, id) ->
         id < n \/ dropped (trace s) e.

(** What the loop over the exports leaves. *)
Definition exports_post (g : addr) (entries : list (bytes * Value))
    (γ : Ghost) (count : Z) (r : option addr) (s : State) : Prop :=
  Core γ [] s /\ global_dictionary s = g
  /\ exists l l0,
       l0 `prefix_of` l /\ holds s g (entries ++ l0)
       /\ match r with
          | Some d =>
              export_events (trace s) = EvReserve count :: pairs l
              /\ holds s d (entries ++ l)
          | None =>
              has_error s = true
              /\ exists name v,
                   export_events (trace s)
                   = EvReserve count :: pairs l ++ [EvDecodeExport name v]
          end.

(** The state at the start: nothing of the export table has been seen. *)
Definition Untouched (g : addr) (entries : list (bytes * Value)) : State -> Prop :=
  Dict g entries [] g [] [].

(** The ghost state of a new deserializer. *)
Definition pristine : Ghost :=
  {| phase := 0; lens := fun _ => 0%nat; curs := fun _ => 0;
     cnts := fun _ => 0; closed := false |}.

(** *** Predicates that a run keeps *)

(** The outcome of a run that was refused with [message] before anything
    was read: nothing allocated, nothing installed, nothing left to read. *)
Definition rejected (message : string) (capacity : nat) (entries : list (bytes * Value))
    (r : Result bool) : Prop :=
  match r with
  | Done ok s =>
      ok = false
      /\ error_message_ s = Some message
      /\ trace s = [EvThrow message]
      /\ heap s = initial_heap capacity entries
      /\ namespace s = entries
      /\ (forall t, tables s t = [])
      /\ position_ s = []
  | Crash _ => False
  end.

(** The shape of the object at [o], when it is a plain object. *)
Definition map_of (s : State) (o : addr) : option addr :=
  match heap s !! o with
  | Some (HJSObject map _) => Some map
  | _ => None
  end.

(** [preserves P m]: the method [m], started in a state in [P], ends in a
    state in [P] when it ends. *)
Definition preserves {A : Type} (P : State -> Prop) (m : M A) : Prop :=
  forall s, P s -> match m s with Done _ s' => P s' | Crash _ => True end.

Definition is_alloc (e : Event) : bool :=
  match e with EvAllocTable _ _ => true | _ => false end.

(** A predicate that the primitive steps of the deserializer keep: reading
    from the buffer, the counters, the list of deferred references, the
    heap, an event that is not the allocation of a table, recording the
    first error, writing an entry of a table, and allocating a table within
    the ceiling (the array table apart). *)
Record Stable (cfg : Config) (P : State -> Prop) : Prop := {
  stable_position_ : forall v s, P s -> P (set_position_ v s);
  stable_counts : forall v s, P s -> P (set_counts v s);
  stable_currents : forall v s, P s -> P (set_currents v s);
  stable_deferred_references_ : forall v s, P s -> P (set_deferred_references_ v s);
  stable_script_source_ : forall v s, P s -> P (set_script_source_ v s);
  stable_heap : forall v s, P s -> P (set_heap v s);
  stable_global_dictionary : forall v s, P s -> P (set_global_dictionary v s);
  stable_emit : forall e s,
    is_alloc e = false -> P s -> P (set_trace (trace s ++ [e]) s);
  stable_throw : forall m s,
    error_message_ s = None -> P s ->
    P (set_trace (trace s ++ [EvThrow m]) (set_error_message_ (Some m) s));
  stable_table_set : forall t i v s,
    P s -> P (set_tables (upd (tables s) t (<[i := v]> (tables s t))) s);
  stable_new_table : forall t n s,
    t = TArray \/ n <= kMaxItemCount cfg -> P s ->
    P (set_tables (upd (tables s) t (replicate (Z.to_nat n) VUndefined))
         (set_trace (trace s ++ [EvAllocTable t n]) s))
}.

(** [Deserialize] has been called. *)
Definition used (s : State) : Prop := deserialized_ s = true.

(** The error recorded is [message]. *)
Definition failed_with (message : string) (s : State) : Prop :=
  error_message_ s = Some message.

(** No table but the array table was allocated with, or holds, more than
    [kMaxItemCount] entries. *)
Definition within_ceiling (cfg : Config) (s : State) : Prop :=
  (forall t n, In (EvAllocTable t n) (trace s) -> t = TArray \/ n <= kMaxItemCount cfg)
  /\ (forall t, t <> TArray -> Z.of_nat (length (tables s t)) <= kMaxItemCount cfg).

(** A step from [s] to [s'] that changed nothing one can observe: the error
    message, the heap, the tables, the global dictionary and the events are
    those of [s], and nothing is left to read. *)
Definition idle (s s' : State) : Prop :=
  error_message_ s' = error_message_ s
  /\ position_ s' = []
  /\ heap s' = heap s
  /\ tables s' = tables s
  /\ global_dictionary s' = global_dictionary s
  /\ trace s' = trace s.

(** The steps of [DeserializeSnapshot] after the magic number. *)
Definition steps (cfg : Config) : list (M unit) :=
  [ DeserializeStrings cfg; DeserializeMaps cfg; DeserializeContexts cfg;
    DeserializeFunctions cfg; DeserializeArrays cfg; DeserializeObjects cfg;
    DeserializeClasses cfg; ProcessDeferredReferences; DeserializeExports cfg ].

(** *** Deferred references *)

(** A container whose slots take deferred references: a PropertyArray, a
    Context or a FixedArray. *)
Definition is_slot_container (s : State) (container : addr) : bool :=
  match heap s !! container with
  | Some (HPropertyArray _) | Some (HContext _ _ _ _) | Some (HFixedArray _) => true
  | _ => false
  end.

(** [container.get(index)]. *)
Definition slot_at (s : State) (container : addr) (index : Z) : option Value :=
  if index <? 0 then None
  else
    match heap s !! container with
    | Some (HPropertyArray vals) | Some (HFixedArray vals) => vals !! Z.to_nat index
    | Some (HContext _ _ _ slots) => slots !! Z.to_nat index
    | _ => None
    end.

(** The slot that a deferred reference is to fill. *)
Definition slot_of (r : DeferredReference) : addr * Z :=
  match r with (container, index, _, _) => (container, index) end.

(** After the step from [s] to [s'], the deferred reference [r] into a slot
    container is resolved: the slot holds the entity that the table of the
    reference's type has under its id. *)
Definition resolved (s s' : State) (r : DeferredReference) : Prop :=
  match r with
  | (container, index, target_type, target_index) =>
      is_slot_container s container = true ->
      exists t v,
        table_of target_type = Some t
        /\ 0 <= target_index
        /\ tables s t !! Z.to_nat target_index = Some v
        /\ slot_at s' container index = Some v
  end.
(** What a step of the loop may do to the heap, seen from the slot
    containers: their kinds stay, and a slot changes only if it is the one
    written. *)
Definition slots_kept (written : option (addr * Z)) (s s' : State) : Prop :=
  tables s' = tables s
  /\ (forall c, is_slot_container s' c = is_slot_container s c)
  /\ (forall c i, is_slot_container s c = true -> written <> Some (c, i) ->
        slot_at s' c i = slot_at s c i).

End Deserializer.

(** ** The serializer *)

Module Serializer.
Import Codec Flags.

(** *** The value graph

    The serializer walks live values of the host.  A heap object lives at an
    address, which is its identity; a [Handle<Object>] is a small integer or
    a reference.  The chain of a context's parents is kept inside the
    context; everything else refers by address, so the graph may have
    cycles. *)

Definition addr := nat.

Inductive Object :=
  | Smi (value : Z)
  | HeapRef (a : addr).

Inductive OddballKind := kFalse | kTrue | kNull | kUndefined.

Inductive LocalContextKind := FunctionContext | BlockContext | OtherContext.

Inductive Context :=
  | NativeContext
  | ScriptContext
  | LocalContext (a : addr) (kind : LocalContextKind) (previous : Context)
                 (locals : list (addr * Object)).   (* name, value *)

Record SharedFunctionInfo := {
  HasSourceCode : bool;
  StartPosition : Z;
  EndPosition : Z;
  script_source : addr;
  kind : FunctionKind;
  formal_parameter_count : Z
}.

Record JSFunctionData := {
  context : Context;
  shared : SharedFunctionInfo;
  has_prototype_slot : bool;
  has_non_instance_prototype : bool;
  has_instance_prototype : bool;
  instance_prototype : addr
}.

Inductive ElementsKind := PACKED_SMI_ELEMENTS | PACKED_ELEMENTS | OTHER_ELEMENTS.

Inductive HeapObject :=
  | HOddball (k : OddballKind)
  | HHeapNumber (bits : bytes)
  | HString (one_byte : bool) (units : list Z)
  | HSymbol
  | HJSFunction (class_constructor : bool) (f : JSFunctionData)
  | HJSObject (map : addr) (has_fast_properties : bool) (properties : list Object)
  | HJSArray (elements_kind : ElementsKind) (length : Z) (elements : list Object)
  | HJSPrimitiveWrapper (value : Object)
  | HJSRegExp (map : addr) (source : addr) (flags : bytes)
  | HMap (descriptors : list (Object * PropertyDetails)) (prototype : Object)
  | HOther.

(** What the code takes from the isolate and from headers outside src/:
    well-known objects, the length limit of a string, and the UTF-8 writer
    used for two-byte strings. *)
Record Config := {
  initial_object_prototype : addr;
  regexp_initial_map : addr;
  empty_string : addr;
  String_kMaxLength : Z;
  WriteUtf8 : list Z -> bytes;
  kMagicNumber : bytes
}.

(** The eight buffers and the seven identity maps, by kind of entity. *)
Inductive Kind :=
  | KString | KMap | KContext | KFunction | KClass | KArray | KObject | KExport.

Definition Kind_eqb (a b : Kind) : bool :=
  match a, b with
  | KString, KString | KMap, KMap | KContext, KContext
  | KFunction, KFunction | KClass, KClass | KArray, KArray
  | KObject, KObject | KExport, KExport => true
  | _, _ => false
  end.

Definition upd {A : Type} (f : Kind -> A) (k : Kind) (v : A) : Kind -> A :=
  fun k' => if Kind_eqb k k' then v else f k'.

(** [serializers] holds [string_serializer_] ... [export_serializer_];
    [ids] holds [string_ids_] ... [object_ids_]; [items] holds [functions_],
    [classes_], [arrays_] and [objects_]; [contexts_] keeps the contexts
    themselves.  [source_intervals_] is kept in iteration order. *)
Record State := {
  error_message_ : option string;
  heap : list HeapObject;
  serializers : Kind -> bytes;
  ids : Kind -> gmap addr Z;
  contexts_ : list Context;
  items : Kind -> list addr;
  export_count_ : Z;
  discovery_queue_ : list Object;
  source_intervals_ : list (Z * Z);
  full_source_ : option addr;
  source_id_ : Z;
  source_offset_to_compacted_source_offset_ : gmap Z Z;
  data_out : option bytes
}.

Definition set_error_message_ (v : option string) (s : State) : State :=
  {| error_message_ := v; heap := heap s; serializers := serializers s;
     ids := ids s; contexts_ := contexts_ s; items := items s;
     export_count_ := export_count_ s; discovery_queue_ := discovery_queue_ s;
     source_intervals_ := source_intervals_ s; full_source_ := full_source_ s;
     source_id_ := source_id_ s;
     source_offset_to_compacted_source_offset_ :=
       source_offset_to_compacted_source_offset_ s;
     data_out := data_out s |}.

Definition set_heap (v : list HeapObject) (s : State) : State :=
  {| error_message_ := error_message_ s; heap := v; serializers := serializers s;
     ids := ids s; contexts_ := contexts_ s; items := items s;
     export_count_ := export_count_ s; discovery_queue_ := discovery_queue_ s;
     source_intervals_ := source_intervals_ s; full_source_ := full_source_ s;
     source_id_ := source_id_ s;
     source_offset_to_compacted_source_offset_ :=
       source_offset_to_compacted_source_offset_ s;
     data_out := data_out s |}.

Definition set_serializers (v : Kind -> bytes) (s : State) : State :=
  {| error_message_ := error_message_ s; heap := heap s; serializers := v;
     ids := ids s; contexts_ := contexts_ s; items := items s;
     export_count_ := export_count_ s; discovery_queue_ := discovery_queue_ s;
     source_intervals_ := source_intervals_ s; full_source_ := full_source_ s;
     source_id_ := source_id_ s;
     source_offset_to_compacted_source_offset_ :=
       source_offset_to_compacted_source_offset_ s;
     data_out := data_out s |}.

Definition set_ids (v : Kind -> gmap addr Z) (s : State) : State :=
  {| error_message_ := error_message_ s; heap := heap s;
     serializers := serializers s;
     ids := v; contexts_ := contexts_ s; items := items s;
     export_count_ := export_count_ s; discovery_queue_ := discovery_queue_ s;
     source_intervals_ := source_intervals_ s; full_source_ := full_source_ s;
     source_id_ := source_id_ s;
     source_offset_to_compacted_source_offset_ :=
       source_offset_to_compacted_source_offset_ s;
     data_out := data_out s |}.

Definition set_contexts_ (v : list Context) (s : State) : State :=
  {| error_message_ := error_message_ s; heap := heap s;
     serializers := serializers s;
     ids := ids s; contexts_ := v; items := items s;
     export_count_ := export_count_ s; discovery_queue_ := discovery_queue_ s;
     source_intervals_ := source_intervals_ s; full_source_ := full_source_ s;
     source_id_ := source_id_ s;
     source_offset_to_compacted_source_offset_ :=
       source_offset_to_compacted_source_offset_ s;
     data_out := data_out s |}.

Definition set_items (v : Kind -> list addr) (s : State) : State :=
  {| error_message_ := error_message_ s; heap := heap s;
     serializers := serializers s;
     ids := ids s; contexts_ := contexts_ s; items := v;
     export_count_ := export_count_ s; discovery_queue_ := discovery_queue_ s;
     source_intervals_ := source_intervals_ s; full_source_ := full_source_ s;
     source_id_ := source_id_ s;
     source_offset_to_compacted_source_offset_ :=
       source_offset_to_compacted_source_offset_ s;
     data_out := data_out s |}.

Definition set_export_count_ (v : Z) (s : State) : State :=
  {| error_message_ := error_message_ s; heap := heap s;
     serializers := serializers s;
     ids := ids s; contexts_ := contexts_ s; items := items s;
     export_count_ := v; discovery_queue_ := discovery_queue_ s;
     source_intervals_ := source_intervals_ s; full_source_ := full_source_ s;
     source_id_ := source_id_ s;
     source_offset_to_compacted_source_offset_ :=
       source_offset_to_compacted_source_offset_ s;
     data_out := data_out s |}.

Definition set_discovery_queue_ (v : list Object) (s : State) : State :=
  {| error_message_ := error_message_ s; heap := heap s;
     serializers := serializers s;
     ids := ids s; contexts_ := contexts_ s; items := items s;
     export_count_ := export_count_ s; discovery_queue_ := v;
     source_intervals_ := source_intervals_ s; full_source_ := full_source_ s;
     source_id_ := source_id_ s;
     source_offset_to_compacted_source_offset_ :=
       source_offset_to_compacted_source_offset_ s;
     data_out := data_out s |}.

Definition set_source_intervals_ (v : list (Z * Z)) (s : State) : State :=
  {| error_message_ := error_message_ s; heap := heap s;
     serializers := serializers s;
     ids := ids s; contexts_ := contexts_ s; items := items s;
     export_count_ := export_count_ s; discovery_queue_ := discovery_queue_ s;
     source_intervals_ := v; full_source_ := full_source_ s;
     source_id_ := source_id_ s;
     source_offset_to_compacted_source_offset_ :=
       source_offset_to_compacted_source_offset_ s;
     data_out := data_out s |}.

Definition set_full_source_ (v : option addr) (s : State) : State :=
  {| error_message_ := error_message_ s; heap := heap s;
     serializers := serializers s;
     ids := ids s; contexts_ := contexts_ s; items := items s;
     export_count_ := export_count_ s; discovery_queue_ := discovery_queue_ s;
     source_intervals_ := source_intervals_ s; full_source_ := v;
     source_id_ := source_id_ s;
     source_offset_to_compacted_source_offset_ :=
       source_offset_to_compacted_source_offset_ s;
     data_out := data_out s |}.

Definition set_source_id_ (v : Z) (s : State) : State :=
  {| error_message_ := error_message_ s; heap := heap s;
     serializers := serializers s;
     ids := ids s; contexts_ := contexts_ s; items := items s;
     export_count_ := export_count_ s; discovery_queue_ := discovery_queue_ s;
     source_intervals_ := source_intervals_ s; full_source_ := full_source_ s;
     source_id_ := v;
     source_offset_to_compacted_source_offset_ :=
       source_offset_to_compacted_source_offset_ s;
     data_out := data_out s |}.

Definition set_source_offsets (v : gmap Z Z) (s : State) : State :=
  {| error_message_ := error_message_ s; heap := heap s;
     serializers := serializers s;
     ids := ids s; contexts_ := contexts_ s; items := items s;
     export_count_ := export_count_ s; discovery_queue_ := discovery_queue_ s;
     source_intervals_ := source_intervals_ s; full_source_ := full_source_ s;
     source_id_ := source_id_ s;
     source_offset_to_compacted_source_offset_ := v;
     data_out := data_out s |}.

Definition set_data_out (v : option bytes) (s : State) : State :=
  {| error_message_ := error_message_ s; heap := heap s;
     serializers := serializers s;
     ids := ids s; contexts_ := contexts_ s; items := items s;
     export_count_ := export_count_ s; discovery_queue_ := discovery_queue_ s;
     source_intervals_ := source_intervals_ s; full_source_ := full_source_ s;
     source_id_ := source_id_ s;
     source_offset_to_compacted_source_offset_ :=
       source_offset_to_compacted_source_offset_ s;
     data_out := v |}.

(** The constructor, over the heap of the host. *)
Definition new_serializer (h : list HeapObject) : State :=
  {| error_message_ := None; heap := h; serializers := fun _ => [];
     ids := fun _ => ∅; contexts_ := []; items := fun _ => [];
     export_count_ := 0; discovery_queue_ := []; source_intervals_ := [];
     full_source_ := None; source_id_ := 0;
     source_offset_to_compacted_source_offset_ := ∅; data_out := None |}.

Definition has_error (s : State) : bool :=
  match error_message_ s with Some _ => true | None => false end.

(** [WebSnapshotSerializerDeserializer::Throw]. *)
Definition Throw (message : string) (s : State) : State :=
  if has_error s then s else set_error_message_ (Some message) s.

Definition heap_at (s : State) (a : addr) : HeapObject :=
  match heap s !! a with Some o => o | None => HOther end.

Definition allocate (o : HeapObject) (s : State) : addr * State :=
  (length (heap s), set_heap (heap s ++ [o]) s).

(** [serializer_of_k.WriteUint32(v)] and the like. *)
Definition write (k : Kind) (b : bytes) (s : State) : State :=
  set_serializers (upd (serializers s) k (serializers s k ++ b)) s.

Definition push (o : Object) (s : State) : State :=
  set_discovery_queue_ (discovery_queue_ s ++ [o]) s.

(** Modelled from the spec: an identity table (ObjectCacheIndexMap is
    declared outside src/) interns a value by its identity and hands out
    dense sequential ids: a value seen before keeps its id, a new one gets
    the number of values interned so far. *)
Definition LookupOrInsert (m : gmap addr Z) (object : addr) : bool * Z * gmap addr Z :=
  match m !! object with
  | Some index => (true, index, m)
  | None => (false, Z.of_nat (size m), <[object := Z.of_nat (size m)]> m)
  end.

(** [Lookup(object, &id)]; the callers assume success (DCHECK), the id of a
    miss is 0 here. *)
Definition Lookup (m : gmap addr Z) (object : addr) : Z :=
  match m !! object with Some index => index | None => 0 end.

(** [InsertIntoIndexMap(map_of_k, object, id)]: whether the object was
    there already, and the value of [id] afterwards. *)
Definition InsertIntoIndexMap (k : Kind) (object : addr) (id : Z) (s : State)
    : bool * Z * State :=
  if kMaxUint32 <=? wrap32 (Z.of_nat (size (ids s k))) then
    (true, id, Throw "Too many objects" s)
  else
    let '(found, index, m) := LookupOrInsert (ids s k) object in
    (found, index, set_ids (upd (ids s) k m) s).

Definition count (k : Kind) (s : State) : Z := wrap32 (Z.of_nat (size (ids s k))).

Definition GetFunctionId (s : State) (function : addr) : Z := wrap32 (Lookup (ids s KFunction) function).
Definition GetClassId (s : State) (function : addr) : Z := wrap32 (Lookup (ids s KClass) function).
Definition GetContextId (s : State) (context : addr) : Z := wrap32 (Lookup (ids s KContext) context).
Definition GetArrayId (s : State) (array : addr) : Z := wrap32 (Lookup (ids s KArray) array).
Definition GetObjectId (s : State) (object : addr) : Z := wrap32 (Lookup (ids s KObject) object).

Fixpoint units_eqb (a b : list Z) : bool :=
  match a, b with
  | [], [] => true
  | x :: a', y :: b' => (x =? y) && units_eqb a' b'
  | _, _ => false
  end.

Definition IsString (s : State) (o : Object) : bool :=
  match o with
  | HeapRef a => match heap_at s a with HString _ _ => true | _ => false end
  | Smi _ => false
  end.

(** [IsJSObject()]: any JavaScript object, whatever its instance type. *)
Definition IsJSObject (s : State) (o : Object) : bool :=
  match o with
  | HeapRef a =>
      match heap_at s a with
      | HJSFunction _ _ | HJSObject _ _ _ | HJSArray _ _ _
      | HJSPrimitiveWrapper _ | HJSRegExp _ _ _ => true
      | _ => false
      end
  | Smi _ => false
  end.

Definition Object_eqb (a b : Object) : bool :=
  match a, b with
  | Smi x, Smi y => x =? y
  | HeapRef x, HeapRef y => (x =? y)%nat
  | _, _ => false
  end.

Definition string_units (s : State) (a : addr) : list Z :=
  match heap_at s a with HString _ units => units | _ => [] end.

Definition string_one_byte (s : State) (a : addr) : bool :=
  match heap_at s a with HString one_byte _ => one_byte | _ => true end.

Section WithConfig.

Context (cfg : Config).

(** *** Strings and shapes *)

(** Format: length, raw bytes.  (The callers pass strings; for anything
    else nothing is written.) *)
Definition SerializeString (string : addr) (id : Z) (s : State) : Z * State :=
  let '(found, id, s) := InsertIntoIndexMap KString string id s in
  if found then (id, s)
  else
    match heap_at s string with
    | HString true chars =>
        (id, write KString (WriteUint32 (Z.of_nat (length chars))
                            ++ WriteRawBytes (map byte_of_Z chars)) s)
    | HString false chars =>
        let buffer := WriteUtf8 cfg chars in
        (id, write KString (WriteUint32 (Z.of_nat (length buffer))
                            ++ WriteRawBytes buffer) s)
    | _ => (id, s)
    end.

(** The descriptor loop of [SerializeMap]; [None] when the method returned.
    [i] is the index of the descriptor at the head of [ds]. *)
Fixpoint SerializeMap_descriptors (ds : list (Object * PropertyDetails)) (i : Z)
    (first_custom_index : Z) (string_ids attributes : list Z) (s : State)
    : option (Z * list Z * list Z) * State :=
  match ds with
  | [] => (Some (first_custom_index, string_ids, attributes), s)
  | (key, details) :: ds' =>
      if negb (IsString s key) then (None, Throw "Key is not a string" s)
      else if negb (is_field details) then
        (None, Throw "Properties which are not fields not supported" s)
      else
        let custom := (0 <=? first_custom_index) || IsReadOnly details
                      || negb (IsConfigurable details)
                      || negb (IsEnumerable details) in
        let first_custom_index :=
          if custom && (first_custom_index =? -1) then i else first_custom_index in
        let attributes :=
          if custom then attributes ++ [AttributesToFlags details] else attributes in
        let '(string_id, s) :=
          match key with
          | HeapRef k => SerializeString k 0 s
          | Smi _ => (0, s)
          end in
        SerializeMap_descriptors ds' (i + 1) first_custom_index
          (string_ids ++ [string_id]) attributes s
  end.

(** The closing loop of [SerializeMap]. *)
Fixpoint SerializeMap_properties (string_ids attributes : list Z) (i : Z)
    (first_custom_index : Z) : bytes :=
  match string_ids with
  | [] => []
  | string_id :: rest =>
      (if 0 <=? first_custom_index then
         if to_int i <? first_custom_index
         then WriteUint32 GetDefaultAttributeFlags
         else WriteUint32 (nth (Z.to_nat (i - first_custom_index)) attributes 0)
       else [])
      ++ WriteUint32 string_id
      ++ SerializeMap_properties rest attributes (i + 1) first_custom_index
  end.

Definition SerializeMap (map : addr) (id : Z) (s : State) : Z * State :=
  let '(found, id, s) := InsertIntoIndexMap KMap map id s in
  if found then (id, s)
  else
    match heap_at s map with
    | HMap descriptors prototype =>
        match SerializeMap_descriptors descriptors 0 (-1) [] [] s with
        | (None, s) => (id, s)
        | (Some (first_custom_index, string_ids, attributes), s) =>
            let s := write KMap
              (WriteUint32 (if first_custom_index =? -1
                            then PropertyAttributesType_DEFAULT
                            else PropertyAttributesType_CUSTOM)) s in
            let after_prototype :=
              if Object_eqb prototype (HeapRef (initial_object_prototype cfg))
              then Some (write KMap (WriteUint32 0) s)
              else if negb (IsJSObject s prototype)
              then None
              else
                match prototype with
                | HeapRef p =>
                    Some (write KMap (WriteUint32 (wrap32 (GetObjectId s p + 1))) s)
                | Smi _ => None
                end in
            match after_prototype with
            | None => (id, Throw "Non-JSObject __proto__s not supported" s)
            | Some s =>
                let s := write KMap (WriteUint32 (Z.of_nat (length string_ids))) s in
                (id, write KMap (SerializeMap_properties string_ids attributes 0
                                   first_custom_index) s)
            end
        end
    | _ => (id, s)
    end.

(** *** Source compaction *)

(** The locals of the loop of [SerializeSource] and the offset table. *)
Record Compaction := {
  source_string : list Z;
  source_one_byte : bool;
  current_interval_start : Z;
  current_interval_end : Z;
  offsets : gmap Z Z
}.

(** [map[key]] of the offset table: a missing key reads as 0. *)
Definition offset_at (m : gmap Z Z) (key : Z) : Z :=
  match m !! key with Some v => v | None => 0 end.

Definition NewSubString (str : list Z) (begin end_ : Z) : list Z :=
  take (Z.to_nat (end_ - begin)) (drop (Z.to_nat begin) str).

(** [NewConsString] fails when the result would be longer than a string
    may be. *)
Definition NewConsString (left right : list Z) : option (list Z) :=
  if String_kMaxLength cfg <? Z.of_nat (length left + length right) then None
  else Some (left ++ right).

(** One round of the loop; [None] when [NewConsString] failed. *)
Definition SerializeSource_step (full_source : list Z) (full_one_byte : bool)
    (c : Compaction) (interval : Z * Z) : option Compaction :=
  if interval.2 <=? current_interval_end c then
    (* This interval is fully within the current interval. We don't need to
       include any new source code, just record the position conversion. *)
    let offset_within_parent := interval.1 - current_interval_start c in
    Some {| source_string := source_string c;
            source_one_byte := source_one_byte c;
            current_interval_start := current_interval_start c;
            current_interval_end := current_interval_end c;
            offsets := <[interval.1 :=
                           offset_at (offsets c) (current_interval_start c)
                           + offset_within_parent]> (offsets c) |}
  else
    (* Start a new interval. *)
    match NewConsString (source_string c)
            (NewSubString full_source interval.1 interval.2) with
    | None => None
    | Some new_source_string =>
        Some {| source_string := new_source_string;
                source_one_byte := source_one_byte c && full_one_byte;
                current_interval_start := interval.1;
                current_interval_end := interval.2;
                offsets := <[interval.1 := Z.of_nat (length (source_string c))]>
                             (offsets c) |}
    end.

(** The loop.  On a failure the offset of the failing interval has been
    recorded already and the locals are lost. *)
Fixpoint SerializeSource_loop (full_source : list Z) (full_one_byte : bool)
    (intervals : list (Z * Z)) (c : Compaction) : Compaction * bool :=
  match intervals with
  | [] => (c, true)
  | interval :: rest =>
      match SerializeSource_step full_source full_one_byte c interval with
      | Some c' => SerializeSource_loop full_source full_one_byte rest c'
      | None =>
          ({| source_string := source_string c;
              source_one_byte := source_one_byte c;
              current_interval_start := interval.1;
              current_interval_end := interval.2;
              offsets := <[interval.1 := Z.of_nat (length (source_string c))]>
                           (offsets c) |}, false)
      end
  end.

Definition compaction_start (m : gmap Z Z) : Compaction :=
  {| source_string := []; source_one_byte := true;
     current_interval_start := 0; current_interval_end := 0; offsets := m |}.

(** [SerializeSource].  The string that the loop builds is a new heap
    object; when no interval started a new stretch it is the empty string of
    the factory. *)
Definition SerializeSource (s : State) : State :=
  match source_intervals_ s with
  | [] => s
  | intervals =>
      let full := match full_source_ s with Some a => a | None => empty_string cfg end in
      let '(c, ok) := SerializeSource_loop (string_units s full)
                        (string_one_byte s full) intervals
                        (compaction_start (source_offset_to_compacted_source_offset_ s)) in
      let s := set_source_offsets (offsets c) s in
      if negb ok then Throw "Cannot construct source string" s
      else
        let '(source_string_addr, s) :=
          match source_string c with
          | [] => (empty_string cfg, s)
          | units => allocate (HString (source_one_byte c) units) s
          end in
        let '(id, s) := SerializeString source_string_addr (source_id_ s) s in
        set_source_id_ id s
  end.

(** *** Values *)

(** Format: type id, then the value or an id. *)
Definition WriteValue (object : Object) (k : Kind) (s : State) : State :=
  match object with
  | Smi value =>
      write k (WriteUint32 (Z_of_ValueType INTEGER) ++ WriteZigZag value) s
  | HeapRef a =>
      match heap_at s a with
      | HOddball kFalse => write k (WriteUint32 (Z_of_ValueType FALSE_CONSTANT)) s
      | HOddball kTrue => write k (WriteUint32 (Z_of_ValueType TRUE_CONSTANT)) s
      | HOddball kNull => write k (WriteUint32 (Z_of_ValueType NULL_CONSTANT)) s
      | HOddball kUndefined =>
          write k (WriteUint32 (Z_of_ValueType UNDEFINED_CONSTANT)) s
      | HHeapNumber bits =>
          write k (WriteUint32 (Z_of_ValueType DOUBLE) ++ WriteDouble bits) s
      | HJSFunction false _ =>
          write k (WriteUint32 (Z_of_ValueType FUNCTION_ID)
                   ++ WriteUint32 (GetFunctionId s a)) s
      | HJSFunction true _ =>
          write k (WriteUint32 (Z_of_ValueType CLASS_ID)
                   ++ WriteUint32 (GetClassId s a)) s
      | HJSObject _ _ _ =>
          write k (WriteUint32 (Z_of_ValueType OBJECT_ID)
                   ++ WriteUint32 (GetObjectId s a)) s
      | HJSArray _ _ _ =>
          write k (WriteUint32 (Z_of_ValueType ARRAY_ID)
                   ++ WriteUint32 (GetArrayId s a)) s
      | HJSRegExp map pattern flags =>
          if negb (map =? regexp_initial_map cfg)%nat then
            Throw "Unsupported RegExp map" s
          else
            (* JSRegExp::StringFromFlags makes a new string *)
            let '(flags_string, s) :=
              allocate (HString true (List.map Z_of_byte flags)) s in
            let '(pattern_id, s) := SerializeString pattern 0 s in
            let '(flags_id, s) := SerializeString flags_string 0 s in
            write k (WriteUint32 (Z_of_ValueType REGEXP)
                     ++ WriteUint32 pattern_id ++ WriteUint32 flags_id) s
      | HString _ _ =>
          let '(id, s) := SerializeString a 0 s in
          write k (WriteUint32 (Z_of_ValueType STRING_ID) ++ WriteUint32 id) s
      | _ => Throw "Unsupported object" s
      end
  end.

Definition IsLocal (c : Context) : bool :=
  match c with LocalContext _ _ _ _ => true | _ => false end.

Definition context_address (c : Context) : addr :=
  match c with LocalContext a _ _ _ => a | _ => 0%nat end.

Definition previous_of (c : Context) : Context :=
  match c with LocalContext _ _ previous _ => previous | _ => NativeContext end.

(** *** Functions, classes, contexts, objects, arrays, exports *)

Definition SerializeFunctionInfo (k : Kind) (function : addr) (s : State) : State :=
  match heap_at s function with
  | HJSFunction _ f =>
      if negb (HasSourceCode (shared f)) then
        Throw "Function without source code" s
      else
        let s :=
          match context f with
          | LocalContext c _ _ _ =>
              write k (WriteUint32 (wrap32 (GetContextId s c + 1))) s
          | _ => write k (WriteUint32 0) s
          end in
        let s := write k (WriteUint32 (source_id_ s)) s in
        let start := StartPosition (shared f) in
        let end_ := EndPosition (shared f) in
        let s := write k (WriteUint32
                   (offset_at (source_offset_to_compacted_source_offset_ s) start)) s in
        let s := write k (WriteUint32 (end_ - start)) s in
        let s := write k (WriteUint32 (formal_parameter_count (shared f))) s in
        let '(flags, thrown) := FunctionKindToFunctionFlags (kind (shared f)) in
        let s := match thrown with Some message => Throw message s | None => s end in
        let s := write k (WriteUint32 flags) s in
        if has_prototype_slot f && has_instance_prototype f then
          write k (WriteUint32 (wrap32 (GetObjectId s (instance_prototype f) + 1))) s
        else write k (WriteUint32 0) s
  | _ => s
  end.

Definition SerializeFunction (function : addr) (s : State) : State :=
  SerializeFunctionInfo KFunction function s.

Definition SerializeClass (function : addr) (s : State) : State :=
  SerializeFunctionInfo KClass function s.

(** The parent field of a context record: 0 if there's no parent context,
    1 + parent context id otherwise. *)
Definition parent_context_id (s : State) (context : Context) : Z :=
  match previous_of context with
  | LocalContext p _ _ _ => wrap32 (GetContextId s p + 1)
  | _ => 0
  end.

Fixpoint SerializeContext_locals (locals : list (addr * Object)) (s : State) : State :=
  match locals with
  | [] => s
  | (name, value) :: rest =>
      let '(string_id, s) := SerializeString name 0 s in
      let s := write KContext (WriteUint32 string_id) s in
      let s := WriteValue value KContext s in
      SerializeContext_locals rest s
  end.

Definition SerializeContext (context : Context) (s : State) : State :=
  let parent := parent_context_id s context in
  match context with
  | LocalContext _ FunctionContext _ locals =>
      let s := write KContext (WriteUint32 ContextType_FUNCTION) s in
      let s := write KContext (WriteUint32 parent) s in
      let s := write KContext (WriteUint32 (Z.of_nat (length locals))) s in
      SerializeContext_locals locals s
  | LocalContext _ BlockContext _ locals =>
      let s := write KContext (WriteUint32 ContextType_BLOCK) s in
      let s := write KContext (WriteUint32 parent) s in
      let s := write KContext (WriteUint32 (Z.of_nat (length locals))) s in
      SerializeContext_locals locals s
  | _ => Throw "Unsupported context type" s
  end.

Fixpoint WriteValues (values : list Object) (k : Kind) (s : State) : State :=
  match values with
  | [] => s
  | value :: rest => WriteValues rest k (WriteValue value k s)
  end.

(** [JSObject::FastPropertyAt] for each own descriptor of the map: one
    value per descriptor, taken from the object's properties in order. *)
Definition property_values (descriptors : list (Object * PropertyDetails))
    (properties : list Object) : list Object :=
  List.map (fun i => nth i properties (Smi 0)) (seq 0 (length descriptors)).

Definition SerializeObject (object : addr) (s : State) : State :=
  match heap_at s object with
  | HJSObject map _ properties =>
      let '(map_id, s) := SerializeMap map 0 s in
      (* "Map changed" cannot happen: nothing here changes the object. *)
      let s := write KObject (WriteUint32 map_id) s in
      match heap_at s map with
      | HMap descriptors _ =>
          WriteValues (property_values descriptors properties) KObject s
      | _ => s
      end
  | _ => s
  end.

Definition SerializeArray (array : addr) (s : State) : State :=
  match heap_at s array with
  | HJSArray elements_kind length elements =>
      match elements_kind with
      | OTHER_ELEMENTS => Throw "Unsupported array" s
      | _ =>
          let s := write KArray (WriteUint32 length) s in
          WriteValues (List.map (fun i => nth i elements (Smi 0))
                         (seq 0 (Z.to_nat length))) KArray s
      end
  | _ => s
  end.

Definition SerializeExport (object : addr) (export_name : addr) (s : State) : State :=
  let s := set_export_count_ (wrap32 (export_count_ s + 1)) s in
  let '(string_id, s) := SerializeString export_name 0 s in
  let s := write KExport (WriteUint32 string_id) s in
  match heap_at s object with
  | HJSPrimitiveWrapper export_value => WriteValue export_value KExport s
  | _ => WriteValue (HeapRef object) KExport s
  end.

(** *** Discovery *)

Fixpoint push_all (values : list Object) (s : State) : State :=
  match values with
  | [] => s
  | value :: rest => push_all rest (push value s)
  end.

Definition add_item (k : Kind) (a : addr) (s : State) : State :=
  set_items (upd (items s) k (items s k ++ [a])) s.

Fixpoint DiscoverContext (context : Context) (s : State) : State :=
  match context with
  | LocalContext a _ previous locals =>
      (* Ensure that parent contexts get a lower ID. *)
      let s := if IsLocal previous then DiscoverContext previous s else s in
      let '(found, id, s) := InsertIntoIndexMap KContext a 0 s in
      if found then s
      else
        let s := set_contexts_ (contexts_ s ++ [context]) s in
        push_all (List.map snd locals) s
  | _ => s
  end.

(** Modelled from the spec: source intervals are delivered to source
    compaction in ascending start order ([source_intervals_] is declared in
    the header, which is not in src/); an interval recorded twice is kept
    once. *)
Fixpoint insert_interval (interval : Z * Z) (l : list (Z * Z)) : list (Z * Z) :=
  match l with
  | [] => [interval]
  | x :: rest =>
      if (interval.1 <? x.1) || ((interval.1 =? x.1) && (interval.2 <? x.2))
      then interval :: l
      else if (interval.1 =? x.1) && (interval.2 =? x.2) then l
      else x :: insert_interval interval rest
  end.

Definition DiscoverSource (f : JSFunctionData) (s : State) : State :=
  let s := set_source_intervals_
             (insert_interval (StartPosition (shared f), EndPosition (shared f))
                              (source_intervals_ s)) s in
  let function_script_source := script_source (shared f) in
  match full_source_ s with
  | None => set_full_source_ (Some function_script_source) s
  | Some full =>
      if negb (units_eqb (string_units s full) (string_units s function_script_source))
      then Throw "Cannot include functions from multiple scripts" s
      else s
  end.

Definition DiscoverContextAndPrototype (f : JSFunctionData) (s : State) : State :=
  let s :=
    match context f with
    | LocalContext _ FunctionContext _ _ | LocalContext _ BlockContext _ _ =>
        DiscoverContext (context f) s
    | _ => s
    end in
  if has_prototype_slot f && has_non_instance_prototype f then
    Throw "Functions with non-instance prototypes not supported" s
  else if has_prototype_slot f && has_instance_prototype f then
    push (HeapRef (instance_prototype f)) s
  else s.

Definition DiscoverFunction (function : addr) (f : JSFunctionData) (s : State) : State :=
  let '(found, id, s) := InsertIntoIndexMap KFunction function 0 s in
  if found then s
  else
    let s := add_item KFunction function s in
    let s := DiscoverContextAndPrototype f s in
    DiscoverSource f s.

Definition DiscoverClass (function : addr) (f : JSFunctionData) (s : State) : State :=
  let '(found, id, s) := InsertIntoIndexMap KClass function 0 s in
  if found then s
  else
    let s := add_item KClass function s in
    let s := DiscoverContextAndPrototype f s in
    DiscoverSource f s.

Definition DiscoverArray (array : addr) (elements_kind : ElementsKind) (length : Z)
    (elements : list Object) (s : State) : State :=
  let '(found, id, s) := InsertIntoIndexMap KArray array 0 s in
  if found then s
  else
    let s := add_item KArray array s in
    match elements_kind with
    | OTHER_ELEMENTS => Throw "Unsupported array" s
    | _ =>
        push_all (List.map (fun i => nth i elements (Smi 0))
                    (seq 0 (Z.to_nat length))) s
    end.

Definition DiscoverObject (object : addr) (map : addr) (has_fast_properties : bool)
    (properties : list Object) (s : State) : State :=
  let '(found, id, s) := InsertIntoIndexMap KObject object 0 s in
  if found then s
  else
    let s := add_item KObject object s in
    let s := if negb has_fast_properties
             then Throw "Dictionary mode objects not supported" s else s in
    match heap_at s map with
    | HMap descriptors prototype =>
        (* Discover __proto__. *)
        let s := if negb (Object_eqb prototype (HeapRef (initial_object_prototype cfg)))
                 then push prototype s else s in
        (* Discover property values. *)
        push_all (property_values descriptors properties) s
    | _ => s
    end.

(** One round of the loop of [Discovery]: the front of the queue is looked
    at, then popped. *)
Definition Discovery_step (object : Object) (s : State) : State :=
  let s :=
    match object with
    | Smi _ => s
    | HeapRef a =>
        match heap_at s a with
        | HJSFunction false f => DiscoverFunction a f s
        | HJSFunction true f => DiscoverClass a f s
        | HJSObject map fast properties => DiscoverObject a map fast properties s
        | HJSArray elements_kind length elements =>
            DiscoverArray a elements_kind length elements s
        | HOddball _ | HHeapNumber _ | HJSPrimitiveWrapper _ | HJSRegExp _ _ _ =>
            (* Can't contain references to other objects. *)
            s
        | HString _ _ => s
        | _ => Throw "Unsupported object" s
        end
    end in
  set_discovery_queue_ (tail (discovery_queue_ s)) s.

(** [while (!discovery_queue_.empty())]: [None] when [fuel] rounds did not
    empty the queue. *)
Fixpoint Discovery_loop (fuel : nat) (s : State) : option State :=
  match discovery_queue_ s with
  | [] => Some s
  | object :: _ =>
      match fuel with
      | O => None
      | S fuel' => Discovery_loop fuel' (Discovery_step object s)
      end
  end.

Definition Discovery (fuel : nat) (start_object : Object) (s : State) : option State :=
  Discovery_loop fuel (push start_object s).

(** *** The snapshot *)

Definition SerializePendingItems (s : State) : State :=
  let s := foldl (fun s c => SerializeContext c s) s (contexts_ s) in
  let s := foldl (fun s a => SerializeFunction a s) s (items s KFunction) in
  let s := foldl (fun s a => SerializeClass a s) s (items s KClass) in
  let s := foldl (fun s a => SerializeArray a s) s (items s KArray) in
  let s := foldl (fun s a => SerializeObject a s) s (items s KObject) in
  s.

(** The assembled buffer.  (Growing the buffer is taken to succeed.) *)
Definition WriteSnapshot (s : State) : State :=
  let s := SerializePendingItems s in
  let total :=
    WriteRawBytes (kMagicNumber cfg)
    ++ WriteUint32 (count KString s) ++ WriteRawBytes (serializers s KString)
    ++ WriteUint32 (count KMap s) ++ WriteRawBytes (serializers s KMap)
    ++ WriteUint32 (count KContext s) ++ WriteRawBytes (serializers s KContext)
    ++ WriteUint32 (count KFunction s) ++ WriteRawBytes (serializers s KFunction)
    ++ WriteUint32 (count KArray s) ++ WriteRawBytes (serializers s KArray)
    ++ WriteUint32 (count KObject s) ++ WriteRawBytes (serializers s KObject)
    ++ WriteUint32 (count KClass s) ++ WriteRawBytes (serializers s KClass)
    ++ WriteUint32 (export_count_ s) ++ WriteRawBytes (serializers s KExport) in
  if has_error s then s else set_data_out (Some total) s.

(** An entry of the export list: the name, and the object that running the
    name as a script gives ([None] when there is none). *)
Record Export := {
  export_name : addr;
  export_object : option addr
}.

(** The first loop of [TakeSnapshot]: [Some (false, _)] is the return after
    "Exported object not found", [None] is fuel running out. *)
Fixpoint discover_exports (fuel : nat) (exports : list Export) (s : State)
    : option (bool * State) :=
  match exports with
  | [] => Some (true, s)
  | e :: rest =>
      match export_object e with
      | None => Some (false, Throw "Exported object not found" s)
      | Some object =>
          match Discovery fuel (HeapRef object) s with
          | None => None
          | Some s => discover_exports fuel rest s
          end
      end
  end.

Fixpoint serialize_exports (exports : list Export) (s : State) : State :=
  match exports with
  | [] => s
  | e :: rest =>
      let s := match export_object e with
               | Some object => SerializeExport object (export_name e) s
               | None => s
               end in
      serialize_exports rest s
  end.

(** [TakeSnapshot]: the result and the state after the call; [None] when
    [fuel] was too small for a run of [Discovery]. *)
Definition TakeSnapshot (fuel : nat) (exports : list Export) (s : State)
    : option (bool * State) :=
  if 0 <? Z.of_nat (size (ids s KString)) then
    Some (false, Throw "Can't reuse WebSnapshotSerializer" s)
  else
    let s := set_contexts_ [] s in
    let s := set_items (fun _ => []) s in
    match discover_exports fuel exports s with
    | None => None
    | Some (false, s) => Some (false, s)
    | Some (true, s) =>
        let s := SerializeSource s in
        let s := serialize_exports exports s in
        let s := WriteSnapshot s in
        if has_error s then Some (false, s) else Some (true, s)
    end.

End WithConfig.

(** *** Relations between serializer states

    [keeps s s']: the step from [s] to [s'] leaves the context table (ids,
    contexts, buffer) as it was ... *)
Definition keeps (s s' : State) : Prop :=
  ids s' KContext = ids s KContext
  /\ contexts_ s' = contexts_ s
  /\ serializers s' KContext = serializers s KContext.

(** ... [appends s s']: or at most grows the context buffer. *)
Definition appends (s s' : State) : Prop :=
  ids s' KContext = ids s KContext
  /\ contexts_ s' = contexts_ s
  /\ exists tail, serializers s' KContext = serializers s KContext ++ tail.

(** The type word of the record of a context; [SerializeContext] has none
    for a context of another type. *)
Definition context_type_word (c : Context) : option Z :=
  match c with
  | LocalContext _ FunctionContext _ _ => Some ContextType_FUNCTION
  | LocalContext _ BlockContext _ _ => Some ContextType_BLOCK
  | _ => None
  end.

Definition locals_of (c : Context) : list (addr * Object) :=
  match c with LocalContext _ _ _ locals => locals | _ => [] end.

(** The record that [SerializeContext] appends for a context of a supported
    type: the type, the parent field, the number of variables, and the
    variables. *)
Definition context_record (c : Context) (parent : Z) (record : bytes) : Prop :=
  exists type rest,
    context_type_word c = Some type
    /\ record = WriteUint32 type ++ WriteUint32 parent
               ++ WriteUint32 (Z.of_nat (length (locals_of c))) ++ rest.

(** What the parent field of the record of the context at position [i]
    says: 0 without a parent context ([previous] is the native or a script
    context), else 1 + the position of the parent context, which is below
    [i]. *)
Definition parent_field (contexts : list Context) (i : nat) (c : Context) (parent : Z)
    : Prop :=
  if IsLocal (previous_of c) then
    exists j q, (j < i)%nat
                /\ parent = Z.of_nat j + 1
                /\ contexts !! j = Some q
                /\ context_address q = context_address (previous_of c)
  else parent = 0.

(** The ordering invariant of the context table: ids are dense, the id of a
    context is its position in [contexts_] and the other way round, and the
    parent of the context at position [i] has an id below [i]. *)
Definition ctx_inv (s : State) : Prop :=
  Z.of_nat (size (ids s KContext)) <= kMaxUint32
  /\ size (ids s KContext) = length (contexts_ s)
  /\ (forall a id, ids s KContext !! a = Some id ->
        0 <= id < Z.of_nat (length (contexts_ s)))
  /\ (forall i c, contexts_ s !! i = Some c -> IsLocal (previous_of c) = true ->
        exists id, ids s KContext !! context_address (previous_of c) = Some id
                   /\ 0 <= id < Z.of_nat i)
  /\ (forall i c, contexts_ s !! i = Some c ->
        ids s KContext !! context_address c = Some (Z.of_nat i))
  /\ (forall a id, ids s KContext !! a = Some id ->
        exists c, contexts_ s !! Z.to_nat id = Some c /\ context_address c = a).

(** Steps of discovery keep the invariant and write nothing. *)
Definition discovers (s s' : State) : Prop :=
  (ctx_inv s -> ctx_inv s')
  /\ serializers s' KContext = serializers s KContext.

(** *** What the loops of the serializer keep *)

(** [DCHECK_LE(interval.first, interval.second)], inside the full source. *)
Definition interval_in (n : Z) (interval : Z * Z) : bool :=
  (0 <=? interval.1) && (interval.1 <=? interval.2) && (interval.2 <=? n).

(** "Iterated in order": the starts do not decrease. *)
Fixpoint ascending (intervals : list (Z * Z)) : bool :=
  match intervals with
  | x :: (y :: _) as rest => (x.1 <=? y.1) && ascending rest
  | _ => true
  end.

(** The text of [interval] is found in the compacted source at the offset
    recorded for its start. *)
Definition text_kept (full : list Z) (c : Compaction) (interval : Z * Z) : Prop :=
  let offset := offset_at (offsets c) interval.1 in
  NewSubString (source_string c) offset (offset + (interval.2 - interval.1))
  = NewSubString full interval.1 interval.2.

(** The same, element by element: the text from [a] to [b] lies in the
    compacted source at the offset recorded for [a]. *)
Definition placed (full : list Z) (c : Compaction) (a b : Z) : Prop :=
  0 <= a /\ a <= b /\ 0 <= offset_at (offsets c) a
  /\ forall j, 0 <= j < b - a ->
       source_string c !! Z.to_nat (offset_at (offsets c) a + j)
       = full !! Z.to_nat (a + j).

(** Between two rounds of source compaction: the current interval and the
    intervals [seen] so far are placed, and end inside the current one. *)
Definition compaction_inv (full : list Z) (c : Compaction) (seen : list (Z * Z)) : Prop :=
  placed full c (current_interval_start c) (current_interval_end c)
  /\ current_interval_end c <= Z.of_nat (length full)
  /\ forall a b, In (a, b) seen ->
       b <= current_interval_end c /\ placed full c a b.

(** A property whose attributes are the default ones. *)
Definition plain (d : Object * PropertyDetails) : Prop :=
  AttributesToFlags d.2 = GetDefaultAttributeFlags.

(** The bytes of a property in a shape record: its flags when the record is
    of type CUSTOM, then the id of its name. *)
Definition property_bytes (custom : bool) (string_id : Z)
    (d : Object * PropertyDetails) : bytes :=
  (if custom then WriteUint32 (AttributesToFlags d.2) else [])
  ++ WriteUint32 string_id.

(** Between two rounds of the descriptor loop of [SerializeMap], after the
    descriptors [seen]: either no custom property was met, or the first one
    is at [first_custom_index] and [attributes] holds the flags from there
    on. *)
Definition partition_inv (seen : list (Object * PropertyDetails))
    (first_custom_index : Z) (string_ids attributes : list Z) : Prop :=
  length string_ids = length seen
  /\ ((first_custom_index = -1 /\ attributes = [] /\ Forall plain seen)
      \/ (0 <= first_custom_index <= Z.of_nat (length seen)
          /\ (exists d, seen !! Z.to_nat first_custom_index = Some d /\ ~ plain d)
          /\ Forall plain (take (Z.to_nat first_custom_index) seen)
          /\ attributes
             = List.map (fun d => AttributesToFlags d.2)
                 (drop (Z.to_nat first_custom_index) seen))).

(** *** The string section *)

(** Format of a string: length, raw bytes. *)
Definition string_record (payload : bytes) : bytes :=
  WriteUint32 (Z.of_nat (length payload)) ++ WriteRawBytes payload.

(** The bytes that stand for the string at [a]: its characters when it is a
    one-byte string, its UTF-8 form otherwise. *)
Definition string_payload (cfg : Config) (h : list HeapObject) (a : addr) : bytes :=
  match h !! a with
  | Some (HString true chars) => List.map byte_of_Z chars
  | Some (HString false chars) => WriteUtf8 cfg chars
  | _ => []
  end.

Definition is_string (h : list HeapObject) (a : addr) : bool :=
  match h !! a with Some (HString _ _) => true | _ => false end.

(** The one-byte strings whose bytes mean the same to the writer and to the
    reader: [SerializeString] writes the characters of a one-byte string as
    they are (Latin-1), [ReadUtf8String] takes the bytes for UTF-8, and the
    two agree on the characters below 0x80 only. *)
Definition ascii (chars : list Z) : Prop := Forall (fun c => 0 <= c < 128) chars.

(** [SerializeString] for each string of a list in turn. *)
Definition SerializeStrings (cfg : Config) (l : list addr) (s : State) : State :=
  foldl (fun s a => (SerializeString cfg a 0 s).2) s l.

(** The string section while strings are interned: the strings [order] have
    the ids 0, 1, ... in this order, and the section holds their records. *)
Definition string_section (cfg : Config) (h : list HeapObject) (order : list addr)
    (s : State) : Prop :=
  heap s = h
  /\ size (ids s KString) = length order
  /\ (forall a id, ids s KString !! a = Some id
                   <-> exists i, id = Z.of_nat i /\ order !! i = Some a)
  /\ serializers s KString
     = concat (List.map (fun a => string_record (string_payload cfg h a)) order).

(** The header count and the string section, as [WriteSnapshot] lays them
    out, after the strings [l] were serialized. *)
Definition strings_buffer (cfg : Config) (h : list HeapObject) (l : list addr) : bytes :=
  let s := SerializeStrings cfg l (new_serializer h) in
  WriteUint32 (count KString s) ++ WriteRawBytes (serializers s KString).

(** *** What discovery has left to do *)

(** The number of values that [DiscoverContext] can push for a context:
    the locals of the context and of its parents. *)
Fixpoint context_weight (c : Context) : nat :=
  match c with
  | LocalContext _ _ previous locals => (length locals + context_weight previous)%nat
  | _ => 0%nat
  end.

(** The identity map that [Discovery] enters an object into. *)
Definition kind_of (o : HeapObject) : option Kind :=
  match o with
  | HJSFunction false _ => Some KFunction
  | HJSFunction true _ => Some KClass
  | HJSArray _ _ _ => Some KArray
  | HJSObject _ _ _ => Some KObject
  | _ => None
  end.

Definition known (s : State) (k : Kind) (a : addr) : bool :=
  bool_decide (is_Some (ids s k !! a)).

(** The object at [a] has its id, or is of a kind that gets none. *)
Definition discovered (s : State) (a : addr) : bool :=
  match kind_of (heap_at s a) with
  | Some k => known s k a
  | None => true
  end.

(** The number of values that discovering the object at [a] can push. *)
Definition discovery_weight (s : State) (a : addr) : nat :=
  match heap_at s a with
  | HJSFunction _ f => (context_weight (context f) + 1)%nat
  | HJSArray _ length _ => Z.to_nat length
  | HJSObject map _ _ =>
      match heap_at s map with
      | HMap descriptors _ => (1 + length descriptors)%nat
      | _ => 0%nat
      end
  | _ => 0%nat
  end.

Fixpoint sum_below (n : nat) (g : nat -> nat) : nat :=
  match n with
  | O => 0%nat
  | S n' => (sum_below n' g + g n')%nat
  end.

(** What discovery can still push: the weights of the objects of the heap
    that have no id yet. *)
Definition discovery_potential (s : State) : nat :=
  sum_below (length (heap s))
    (fun a => if discovered s a then 0%nat else discovery_weight s a).

(** [grows n s s']: the step from [s] to [s'] pushed at most [n] values and
    left the heap and the ids of functions, classes, arrays and objects
    alone. *)
Definition grows (n : nat) (s s' : State) : Prop :=
  heap s' = heap s
  /\ (forall k, k <> KContext -> ids s' k = ids s k)
  /\ exists pushed,
       discovery_queue_ s' = discovery_queue_ s ++ pushed
       /\ (length pushed <= n)%nat.

(** [settles s s']: what the step pushed is paid for by the objects that
    got their id. *)
Definition settles (s s' : State) : Prop :=
  heap s' = heap s
  /\ exists pushed,
       discovery_queue_ s' = discovery_queue_ s ++ pushed
       /\ (discovery_potential s' + length pushed <= discovery_potential s)%nat.

(** *** The object tables *)

(** The kinds whose objects [Discovery] lists for [SerializePendingItems]. *)
Definition is_item_kind (k : Kind) : bool :=
  match k with KFunction | KClass | KArray | KObject => true | _ => false end.

(** The objects of [items s k] have the ids 0, 1, ... in this order, and
    nothing else has an id of kind [k]. *)
Definition listed (k : Kind) (s : State) : Prop :=
  size (ids s k) = length (items s k)
  /\ forall a id, ids s k !! a = Some id
                  <-> exists i, id = Z.of_nat i /\ items s k !! i = Some a.

End Serializer.

(** ** Reading the result of a decode *)

Module Inspect.
Import Deserializer.

(** The binding of [name] in the global namespace. *)
Definition global (s : State) (name : bytes) : option Value :=
  snd <$> List.find (fun e => bytes_eqb (fst e) name) (namespace s).

(** The value of the property [name] of the object [v]: the descriptor of
    the object's shape gives the field, the property array the value. *)
Definition property (s : State) (v : Value) (name : bytes) : option Value :=
  match v with
  | VRef o =>
      match heap s !! o with
      | Some (HJSObject map properties) =>
          match heap s !! map, heap s !! properties with
          | Some (HMap descriptors _ _ _), Some (HPropertyArray values) =>
              match List.find (fun d => bytes_eqb (d_key d) name) descriptors with
              | Some d => values !! Z.to_nat (d_field_index d)
              | None => None
              end
          | _, _ => None
          end
      | _ => None
      end
  | _ => None
  end.

(** What the statements look at after a run. *)
Definition outcome {A : Type} (r : Result A) : option (A * State) :=
  match r with
  | Done a s => Some (a, s)
  | Crash _ => None
  end.

Definition observe {A B : Type} (f : A -> State -> B) (r : Result A) : option B :=
  match r with
  | Done a s => Some (f a s)
  | Crash _ => None
  end.

End Inspect.

(** ** What crosses from the serializer to the deserializer *)

Module Exchange.

(** What the deserializer is to read back for a value that the serializer
    writes in place.  A small integer within [int32_t] comes back as the
    number that [NewNumberFromInt] makes of it: the same Smi when it is a
    valid Smi on the reading host.  One of the four oddballs comes back as
    itself.  A heap number (eight bytes) comes back as the number that
    [NewNumber] makes of its bytes: a heap number with the same bytes,
    unless the double is a Smi for the reading host, and then that Smi. *)
Definition immediate (dcfg : Deserializer.Config) (s : Serializer.State)
    (object : Serializer.Object) : option Deserializer.Value :=
  match object with
  | Serializer.Smi value =>
      if (-2147483648 <=? value) && (value <? 2147483648)
      then Some (Deserializer.NewNumberFromInt dcfg value) else None
  | Serializer.HeapRef a =>
      match Serializer.heap_at s a with
      | Serializer.HOddball Serializer.kFalse => Some Deserializer.VFalse
      | Serializer.HOddball Serializer.kTrue => Some Deserializer.VTrue
      | Serializer.HOddball Serializer.kNull => Some Deserializer.VNull
      | Serializer.HOddball Serializer.kUndefined => Some Deserializer.VUndefined
      | Serializer.HHeapNumber bits =>
          if (length bits =? 8)%nat then Some (Deserializer.NewNumber dcfg bits)
          else None
      | _ => None
      end
  end.

(** The bytes that the step from [s] to [s'] added to the buffer of kind [k]. *)
Definition appended (k : Serializer.Kind) (s s' : Serializer.State) : bytes :=
  drop (length (Serializer.serializers s k)) (Serializer.serializers s' k).

End Exchange.

(** ** Concrete inputs

    A small host for running the model: the ceiling on items is 8 here (the
    real one is declared outside src/), every [int32_t] is a Smi (so
    [DoubleFromInt] is never asked), flags of regular expressions are always
    accepted and the trailing script always runs. *)

Module Fixtures.

Definition magic : bytes := bytes_of_string "+++;".

Definition u32 (z : Z) : bytes := Codec.WriteUint32 z.

Definition str (s : string) : bytes :=
  u32 (Z.of_nat (String.length s)) ++ bytes_of_string s.

Definition units (s : string) : list Z := List.map Z_of_byte (bytes_of_string s).

(** The host's test for a double that is a Smi, cut down to the double 1.0
    (little-endian 00 00 00 00 00 00 f0 3f). *)
Definition one_as_double (bits : bytes) : option Z :=
  if bytes_eqb bits [x00; x00; x00; x00; x00; x00; xf0; x3f] then Some 1 else None.

Definition dcfg : Deserializer.Config :=
  {| Deserializer.kMagicNumber := magic;
     Deserializer.kMaxItemCount := 8;
     Deserializer.kMaxNumberOfDescriptors := 4;
     Deserializer.ContextHeaderLength := 2;
     Deserializer.kVariablePartIndex := 3;
     Deserializer.kPositionInfoEntries := 2;
     Deserializer.NeedsPositionInfo :=
       (fun t => match t with
                 | Deserializer.FUNCTION_SCOPE => true
                 | Deserializer.CLASS_SCOPE => false
                 end);
     Deserializer.ContextLocalInfo := 0;
     Deserializer.SmiIsValid := fun _ => true;
     Deserializer.DoubleFromInt := fun _ => replicate 8 x00;
     Deserializer.DoubleToSmiInteger := one_as_double;
     Deserializer.FlagsFromString := fun _ => Some 0;
     Deserializer.RegExpNew := fun _ _ => true;
     Deserializer.RunScript := fun _ => true;
     Deserializer.Throw_is_overridden := true |}.

Definition scfg : Serializer.Config :=
  {| Serializer.initial_object_prototype := 0%nat;
     Serializer.regexp_initial_map := 1%nat;
     Serializer.empty_string := 2%nat;
     Serializer.String_kMaxLength := 1000;
     Serializer.WriteUtf8 := List.map byte_of_Z;
     Serializer.kMagicNumber := magic |}.

Definition default_details : Flags.PropertyDetails :=
  {| Flags.is_field := true; Flags.IsReadOnly := false;
     Flags.IsConfigurable := true; Flags.IsEnumerable := true |}.

(** The host heap after the scripts [a = 1] and [b = {x: "hello"}]: the
    well-known objects, the four strings, the shape and the object of [b],
    and the wrapper that [ToObject] makes of the number 1. *)
Definition ab_heap : list Serializer.HeapObject :=
  [ Serializer.HOther;                                   (* Object.prototype *)
    Serializer.HOther;                                   (* the RegExp map *)
    Serializer.HString true [];                          (* the empty string *)
    Serializer.HString true (units "a");
    Serializer.HString true (units "b");
    Serializer.HString true (units "x");
    Serializer.HString true (units "hello");
    Serializer.HMap [(Serializer.HeapRef 5%nat, default_details)]
                    (Serializer.HeapRef 0%nat);
    Serializer.HJSObject 7%nat true [Serializer.HeapRef 6%nat];
    Serializer.HJSPrimitiveWrapper (Serializer.Smi 1) ].

Definition ab_exports : list Serializer.Export :=
  [ {| Serializer.export_name := 3%nat; Serializer.export_object := Some 9%nat |};
    {| Serializer.export_name := 4%nat; Serializer.export_object := Some 8%nat |} ].

Definition ab_snapshot : option (bool * Serializer.State) :=
  Serializer.TakeSnapshot scfg 8 ab_exports (Serializer.new_serializer ab_heap).

Definition ab_buffer : bytes :=
  match ab_snapshot with
  | Some (_, s) => default [] (Serializer.data_out s)
  | None => []
  end.

(** A snapshot that is empty but for its array table, which declares [n]
    arrays and holds [n] empty ones. *)
Definition arrays_only (n : nat) : bytes :=
  magic ++ u32 0 ++ u32 0 ++ u32 0 ++ u32 0
  ++ u32 (Z.of_nat n) ++ concat (replicate n (u32 0))
  ++ u32 0 ++ u32 0 ++ u32 0.

(** A snapshot cut off right after the count of its array table. *)
Definition truncated_arrays : bytes :=
  magic ++ u32 0 ++ u32 0 ++ u32 0 ++ u32 0 ++ u32 2.

(** One string and two shapes: the first shape has no property, the second
    has the property "x". *)
Definition second_shape : bytes := u32 0 ++ u32 0 ++ u32 1 ++ u32 0.

Definition two_shapes : bytes :=
  magic ++ u32 1 ++ str "x"
  ++ u32 2 ++ (u32 0 ++ u32 0 ++ u32 0) ++ second_shape.

(** One shape with no property whose prototype field is 5, that is, the
    object of id 4; every other table is empty. *)
Definition empty_shape_with_prototype : bytes :=
  magic ++ u32 0
  ++ u32 1 ++ (u32 0 ++ u32 5 ++ u32 0)
  ++ u32 0 ++ u32 0 ++ u32 0 ++ u32 0 ++ u32 0 ++ u32 0.

(** Two exports "a" = 1 and "b"; the value of the second has the tag 99,
    which is no value type. *)
Definition second_export_malformed : bytes :=
  magic ++ u32 2 ++ str "a" ++ str "b"
  ++ u32 0 ++ u32 0 ++ u32 0 ++ u32 0 ++ u32 0 ++ u32 0
  ++ u32 2 ++ (u32 0 ++ u32 4 ++ Codec.WriteZigZag 1) ++ (u32 1 ++ u32 99).

(** The same with a well-formed second export, "b" = true. *)
Definition two_exports : bytes :=
  magic ++ u32 2 ++ str "a" ++ str "b"
  ++ u32 0 ++ u32 0 ++ u32 0 ++ u32 0 ++ u32 0 ++ u32 0
  ++ u32 2 ++ (u32 0 ++ u32 4 ++ Codec.WriteZigZag 1) ++ (u32 1 ++ u32 1).

(** One export "a" whose value is a reference to the object of id 3, in a
    snapshot that declares no object. *)
Definition dangling_export : bytes :=
  magic ++ u32 1 ++ str "a"
  ++ u32 0 ++ u32 0 ++ u32 0 ++ u32 0 ++ u32 0 ++ u32 0
  ++ u32 1 ++ (u32 0 ++ u32 8 ++ u32 3).

(** A function closed over a block scope inside a function scope. *)
Definition nested_context : Serializer.Context :=
  Serializer.LocalContext 21%nat Serializer.BlockContext
    (Serializer.LocalContext 20%nat Serializer.FunctionContext
       Serializer.ScriptContext [])
    [].

Definition closure_heap : list Serializer.HeapObject :=
  [ Serializer.HOther; Serializer.HOther; Serializer.HString true [];
    Serializer.HString true (units "f");
    Serializer.HString true (units "()=>0");
    Serializer.HJSFunction false
      {| Serializer.context := nested_context;
         Serializer.shared :=
           {| Serializer.HasSourceCode := true;
              Serializer.StartPosition := 0;
              Serializer.EndPosition := 5;
              Serializer.script_source := 4%nat;
              Serializer.kind := Flags.kArrowFunction;
              Serializer.formal_parameter_count := 0 |};
         Serializer.has_prototype_slot := false;
         Serializer.has_non_instance_prototype := false;
         Serializer.has_instance_prototype := false;
         Serializer.instance_prototype := 0%nat |} ].

Definition closure_exports : list Serializer.Export :=
  [ {| Serializer.export_name := 3%nat; Serializer.export_object := Some 5%nat |} ].

Definition closure_snapshot : option (bool * Serializer.State) :=
  Serializer.TakeSnapshot scfg 8 closure_exports
    (Serializer.new_serializer closure_heap).

Definition closure_state : Serializer.State :=
  match closure_snapshot with
  | Some (_, s) => s
  | None => Serializer.new_serializer []
  end.

(** The head of a context record whose parent field is 1: in a record of
    id 0 it names the record itself as parent. *)
Definition self_parent_record : bytes := u32 0 ++ u32 1 ++ u32 0.

(** Source compaction of "abcdefgh" for the given intervals. *)
Definition compact (intervals : list (Z * Z)) : Serializer.Compaction :=
  fst (Serializer.SerializeSource_loop scfg (units "abcdefgh") true intervals
         (Serializer.compaction_start ∅)).

(** Two calls of [TakeSnapshot] on one serializer: the two results, and the
    error message after the second call. *)
Definition take_twice (exports : list Serializer.Export)
    : option (bool * bool * option string) :=
  match Serializer.TakeSnapshot scfg 8 exports (Serializer.new_serializer ab_heap) with
  | Some (first, s) =>
      match Serializer.TakeSnapshot scfg 8 exports s with
      | Some (second, s') => Some (first, second, Serializer.error_message_ s')
      | None => None
      end
  | None => None
  end.

(** Two calls of [Deserialize] on one deserializer, likewise, with what is
    left to read after the second call. *)
Definition deserialize_twice (buffer : bytes)
    : option (bool * bool * option string) :=
  match Deserializer.Deserialize dcfg (Deserializer.new_deserializer 0 [] buffer) with
  | Deserializer.Done first s =>
      match Deserializer.Deserialize dcfg s with
      | Deserializer.Done second s' =>
          Some (first, second, Deserializer.error_message_ s')
      | Deserializer.Crash _ => None
      end
  | Deserializer.Crash _ => None
  end.

(** Three properties, the second of them read-only. *)
Definition mixed_descriptors : list (Serializer.Object * Flags.PropertyDetails) :=
  [ (Serializer.HeapRef 3%nat, default_details);
    (Serializer.HeapRef 4%nat,
     {| Flags.is_field := true; Flags.IsReadOnly := true;
        Flags.IsConfigurable := true; Flags.IsEnumerable := true |});
    (Serializer.HeapRef 5%nat, default_details) ].

Definition mixed_run :=
  Serializer.SerializeMap_descriptors scfg mixed_descriptors 0 (-1) [] []
    (Serializer.new_serializer ab_heap).

Definition plain_function : Deserializer.JSFunctionData :=
  {| Deserializer.f_kind := Flags.kNormalFunction;
     Deserializer.f_function_literal_id := 0;
     Deserializer.f_start_position := 0;
     Deserializer.f_end_position := 0;
     Deserializer.f_parameter_count := 0;
     Deserializer.f_context := None;
     Deserializer.f_prototype := None |}.

(** A deserializer's heap with two functions (at 8 and 9) and two objects
    (at 6 and 7) of one shape (at 4). *)
Definition shared_shape : Deserializer.State :=
  Deserializer.set_heap
    (Deserializer.initial_heap 0 []
     ++ [ Deserializer.HMap [] (Deserializer.VRef Deserializer.object_prototype)
            None false;
          Deserializer.HPropertyArray [];
          Deserializer.HJSObject 4%nat 5%nat;
          Deserializer.HJSObject 4%nat 5%nat;
          Deserializer.HJSFunction plain_function;
          Deserializer.HJSFunction plain_function ])
    (Deserializer.new_deserializer 0 [] []).

(** The state after the first function took the first object as prototype. *)
Definition first_claim : Deserializer.State :=
  match Deserializer.SetFunctionPrototype 8%nat 6%nat shared_shape with
  | Deserializer.Done _ s => s
  | Deserializer.Crash _ => shared_shape
  end.

(** The state that a run on [buffer] leaves. *)
Definition after_run (buffer : bytes) : Deserializer.State :=
  match Deserializer.Deserialize dcfg (Deserializer.new_deserializer 0 [] buffer) with
  | Deserializer.Done _ s => s
  | Deserializer.Crash _ => Deserializer.new_deserializer 0 [] buffer
  end.

(** An array holding the one object of the snapshot, which is read after
    the array: the object has the shape of id 0 with the property "x" = 1. *)
Definition forward_reference : bytes :=
  magic ++ u32 1 ++ str "x"
  ++ u32 1 ++ (u32 0 ++ u32 0 ++ u32 1 ++ u32 0)
  ++ u32 0 ++ u32 0
  ++ u32 1 ++ (u32 1 ++ (u32 8 ++ u32 0))
  ++ u32 1 ++ (u32 0 ++ (u32 4 ++ Codec.WriteZigZag 1))
  ++ u32 0 ++ u32 0.

(** The state of a run on [buffer] when the seven tables have been read. *)
Definition tables_read (buffer : bytes) : Deserializer.State :=
  match
    fold_right (fun step rest => Deserializer.bind step (fun _ => rest))
      (Deserializer.ret tt)
      [ Deserializer.bind (Deserializer.ReadRawBytes 4) (fun _ => Deserializer.ret tt);
        Deserializer.DeserializeStrings dcfg; Deserializer.DeserializeMaps dcfg;
        Deserializer.DeserializeContexts dcfg; Deserializer.DeserializeFunctions dcfg;
        Deserializer.DeserializeArrays dcfg; Deserializer.DeserializeObjects dcfg;
        Deserializer.DeserializeClasses dcfg ]
      (Deserializer.new_deserializer 0 [] buffer)
  with
  | Deserializer.Done _ s => s
  | Deserializer.Crash _ => Deserializer.new_deserializer 0 [] buffer
  end.

(** ... and when the deferred references have been processed. *)
Definition references_processed (buffer : bytes) : Deserializer.State :=
  match Deserializer.ProcessDeferredReferences (tables_read buffer) with
  | Deserializer.Done _ s => s
  | Deserializer.Crash _ => tables_read buffer
  end.

(** An export that is no object the serializer supports, and the
    serializer after the snapshot of it. *)
Definition unsupported_exports : list Serializer.Export :=
  [ {| Serializer.export_name := 3%nat; Serializer.export_object := Some 0%nat |} ].

Definition unsupported_state : Serializer.State :=
  match Serializer.TakeSnapshot scfg 8 unsupported_exports
          (Serializer.new_serializer ab_heap) with
  | Some (_, s) => s
  | None => Serializer.new_serializer []
  end.

End Fixtures.

(** * Statements *)

(** ** The flag word *)

Section FlagWord.
Import Flags.

Lemma supported_kinds_complete (k : FunctionKind) :
  supported_kind k = true -> In k supported_kinds.
Proof. destruct k; simpl; intros H; try discriminate; tauto. Qed.

(** A mask below 256 cannot leave a word of 256 or more unchanged. *)
Lemma land_small_mask (flags mask : Z) :
  0 <= mask < 256 -> 256 <= flags -> Z.land flags mask <> flags.
Proof.
  intros Hm Hf E.
  assert (Hn : 8 <= Z.log2 flags).
  { apply Z.log2_le_pow2; [lia |]. change (2 ^ 8) with 256. lia. }
  assert (Hb : Z.testbit flags (Z.log2 flags) = true) by (apply Z.bit_log2; lia).
  remember (Z.log2 flags) as n eqn:En. clear En.
  rewrite <- E, Z.land_spec in Hb.
  apply andb_true_iff in Hb as [_ Hb].
  destruct (Z.eq_dec mask 0) as [-> | Hne].
  - rewrite Z.bits_0 in Hb. discriminate.
  - rewrite Z.bits_above_log2 in Hb; [discriminate | lia |].
    assert (Z.log2 mask < 8).
    { apply Z.log2_lt_pow2; [lia |]. change (2 ^ 8) with 256. lia. }
    lia.
Qed.

Lemma wide_flags_invalid (flags : Z) :
  256 <= flags -> FunctionFlagsToFunctionKind flags
                  = (kInvalid, Some ("Invalid function flags" ++ LF)%string).
Proof.
  intros Hf. unfold FunctionFlagsToFunctionKind.
  assert (H1 : IsFunctionOrMethod flags = false).
  { unfold IsFunctionOrMethod. apply Z.eqb_neq, land_small_mask; [|done].
    split; [vm_compute; intros Hc; discriminate Hc | vm_compute; reflexivity]. }
  assert (H2 : IsConstructor flags = false).
  { unfold IsConstructor. apply andb_false_iff. right.
    apply Z.eqb_neq, land_small_mask; [|done].
    split; [vm_compute; intros Hc; discriminate Hc | vm_compute; reflexivity]. }
  rewrite H1, H2. reflexivity.
Qed.

Lemma narrow_flags_checked :
  forallb narrow_flags_ok (List.map Z.of_nat (seq 0 256)) = true.
Proof. vm_compute. reflexivity. Qed.




End FlagWord.

(** ** Source compaction *)

Section SourceCompaction.
Import Serializer.

Lemma SerializeSource_loop_app (cfg : Config) (full : list Z) (one_byte : bool)
    (pre post : list (Z * Z)) (c0 c : Compaction) :
  SerializeSource_loop cfg full one_byte pre c0 = (c, true) ->
  SerializeSource_loop cfg full one_byte (pre ++ post) c0
  = SerializeSource_loop cfg full one_byte post c.
Proof.
  revert c0. induction pre as [| iv pre IH]; intros c0 H; simpl in *.
  - injection H as ->. reflexivity.
  - destruct (SerializeSource_step cfg full one_byte c0 iv) as [c1 |].
    + apply IH. exact H.
    + discriminate H.
Qed.

(** C9, as stated, fails: after the interval (0,4) the coverage ends at 4;
    the interval (2,6) extends past it and the code appends all of it,
    "cdef", not only the part past the coverage, "ef". *)
Lemma C9_overlap_appended_whole :
  let full := Fixtures.units "abcdefgh" in
  let before := Fixtures.compact [(0, 4)] in
  let after := Fixtures.compact [(0, 4); (2, 6)] in
  current_interval_end before = 4
  /\ source_string after = source_string before ++ NewSubString full 2 6
  /\ source_string after <> source_string before ++ NewSubString full 4 6.
Proof. vm_compute. repeat split; discriminate. Qed.

(** C9, amended: for every sequence of intervals processed so far and every
    next interval: an interval that ends within the current covering
    interval adds no text and records
    mapped(start) = mapped(currentStart) + (start - currentStart);
    an interval that ends past it appends its whole text [start, end) to the
    compacted string (when the result is not too long for a string), maps
    its start to the previous length of the compacted string, and becomes
    the covering interval. *)
Theorem C9_source_compaction_step (cfg : Config) (full : list Z) (one_byte : bool)
    (processed : list (Z * Z)) (interval : Z * Z) (c0 c : Compaction) :
  SerializeSource_loop cfg full one_byte processed c0 = (c, true) ->
  (interval.2 <= current_interval_end c ->
     exists c',
       SerializeSource_loop cfg full one_byte (processed ++ [interval]) c0 = (c', true)
       /\ source_string c' = source_string c
       /\ offsets c' !! interval.1
          = Some (offset_at (offsets c) (current_interval_start c)
                  + (interval.1 - current_interval_start c))
       /\ current_interval_start c' = current_interval_start c
       /\ current_interval_end c' = current_interval_end c)
  /\ (current_interval_end c < interval.2 ->
      Z.of_nat (length (source_string c)
                + length (NewSubString full interval.1 interval.2))
        <= String_kMaxLength cfg ->
      exists c',
        SerializeSource_loop cfg full one_byte (processed ++ [interval]) c0 = (c', true)
        /\ source_string c'
           = source_string c ++ NewSubString full interval.1 interval.2
        /\ offsets c' !! interval.1 = Some (Z.of_nat (length (source_string c)))
        /\ current_interval_start c' = interval.1
        /\ current_interval_end c' = interval.2).
Proof.
  intros Hrun. rewrite (SerializeSource_loop_app _ _ _ _ _ _ _ Hrun).
  simpl. unfold SerializeSource_step. split.
  - intros Hin. apply Z.leb_le in Hin. rewrite Hin.
    eexists. split; [reflexivity |]. simpl.
    rewrite lookup_insert_eq. auto.
  - intros Hout Hlen.
    apply Z.leb_gt in Hout. rewrite Hout.
    unfold NewConsString.
    apply Z.ltb_ge in Hlen. rewrite Hlen.
    eexists. split; [reflexivity |]. simpl.
    rewrite lookup_insert_eq. auto.
Qed.

(** The amended statement on "abcdefgh": (1,3) after (0,4) lies within the
    coverage, (2,6) after (0,4) extends past it. *)
Lemma C9_source_compaction_step_witness :
  (exists c',
     SerializeSource_loop Fixtures.scfg (Fixtures.units "abcdefgh") true
       ([(0, 4)] ++ [(1, 3)]) (compaction_start ∅) = (c', true)
     /\ source_string c' = Fixtures.units "abcd"
     /\ offsets c' !! 1 = Some 1)
  /\ (exists c',
        SerializeSource_loop Fixtures.scfg (Fixtures.units "abcdefgh") true
          ([(0, 4)] ++ [(2, 6)]) (compaction_start ∅) = (c', true)
        /\ source_string c' = Fixtures.units "abcdcdef"
        /\ offsets c' !! 2 = Some 4).
Proof.
  pose proof (C9_source_compaction_step Fixtures.scfg (Fixtures.units "abcdefgh")
                true [(0, 4)] (1, 3) (compaction_start ∅) _ eq_refl) as [H1 _].
  pose proof (C9_source_compaction_step Fixtures.scfg (Fixtures.units "abcdefgh")
                true [(0, 4)] (2, 6) (compaction_start ∅) _ eq_refl) as [_ H2].
  split.
  - destruct H1 as (c' & Hc & Hs & Ho & _); [simpl; lia |].
    exists c'. repeat split;
      [exact Hc | rewrite Hs; reflexivity | refine (eq_trans Ho _); vm_compute; reflexivity].
  - destruct H2 as (c' & Hc & Hs & Ho & _); [simpl; lia | vm_compute; discriminate |].
    exists c'. repeat split;
      [exact Hc | rewrite Hs; reflexivity | refine (eq_trans Ho _); vm_compute; reflexivity].
Defined.

End SourceCompaction.

(** ** Runs of the decoder on concrete buffers *)

Section ConcreteRuns.
Import Deserializer Inspect.

(** C3: the array table is not checked against the ceiling.  With the
    ceiling at 8, a snapshot that declares 9 arrays (and holds 9 empty ones)
    decodes without any error: the comparison in [DeserializeArrays] looks at
    [object_count_], which is still 0.  The trace shows the table of 9 slots
    being allocated and no [Throw]. *)
Theorem C3_array_count_escapes_ceiling :
  kMaxItemCount Fixtures.dcfg = 8
  /\ observe (fun ok s => (ok, error_message_ s, counts s TArray,
                           length (tables s TArray), trace s))
       (Deserialize Fixtures.dcfg (new_deserializer 0 [] (Fixtures.arrays_only 9)))
     = Some (true, None, 9, 9%nat,
             [ EvAllocTable TString 0; EvAllocTable TMap 0;
               EvAllocTable TContext 0; EvAllocTable TFunction 0;
               EvAllocTable TArray 9; EvAllocTable TObject 0;
               EvAllocTable TClass 0; EvReserve 0; EvPublish ]).
Proof. split; vm_compute; reflexivity. Qed.

(** C4: [Throw] leaves [array_count_] alone.  A snapshot cut off after an
    array count of 2 records its first error in the array loop; afterwards
    the cursor is at the end and the six other counts are 0, but
    [array_count_] is still 2. *)
Theorem C4_throw_keeps_array_count :
  observe (fun ok s => (ok, error_message_ s, position_ s, counts s TArray,
                        List.map (counts s)
                          [TString; TMap; TContext; TFunction; TClass; TObject]))
    (Deserialize Fixtures.dcfg (new_deserializer 0 [] Fixtures.truncated_arrays))
  = Some (false, Some "Malformed array"%string, [], 2, [0; 0; 0; 0; 0; 0]).
Proof. vm_compute. reflexivity. Qed.

(** C5: a shape without properties ends the reading of the shape table.
    Of two declared shapes the first has no property: after
    [DeserializeMaps] slot 0 holds the canonical empty shape, slot 1 was
    never filled, no error is recorded, and the record of the second shape is
    still unread in the buffer. *)
Theorem C5_empty_shape_stops_table :
  observe (fun _ s => (error_message_ s, counts s TMap, tables s TMap, position_ s))
    (bind (ReadRawBytes 4)
       (fun _ => bind (DeserializeStrings Fixtures.dcfg)
          (fun _ => DeserializeMaps Fixtures.dcfg))
       (new_deserializer 0 [] Fixtures.two_shapes))
  = Some (None, 2, [VRef initial_map; VUndefined], Fixtures.second_shape).
Proof. vm_compute. reflexivity. Qed.

(** C8, as stated, fails: the snapshot of the two exports declares four
    strings ("a", "b", "x", "hello"), not two. *)
Lemma C8_string_count_is_not_two :
  (fun r => match r with
            | Some (ok, s) => Some (ok, Serializer.count Serializer.KString s)
            | None => None
            end) Fixtures.ab_snapshot = Some (true, 4)
  /\ observe (fun _ s => counts s TString)
       (Deserialize Fixtures.dcfg (new_deserializer 0 [] Fixtures.ab_buffer))
     <> Some 2.
Proof. split; vm_compute; [reflexivity | discriminate]. Qed.

(** C8, amended: encoding the two exports a = 1 and b = {x: "hello"}
    succeeds with string_count = 4, object_count = 1 and shape_count = 1 in
    the serializer and in the decoded header, and decoding the buffer yields
    a namespace in which a is the integer 1 and b.x is the string "hello". *)
Theorem C8_two_exports_round_trip :
  (fun r => match r with
            | Some (ok, s) =>
                Some (ok, Serializer.count Serializer.KString s,
                      Serializer.count Serializer.KObject s,
                      Serializer.count Serializer.KMap s)
            | None => None
            end) Fixtures.ab_snapshot = Some (true, 4, 1, 1)
  /\ observe (fun ok s => (ok, counts s TString, counts s TObject, counts s TMap,
                           global s (bytes_of_string "a"),
                           global s (bytes_of_string "b")
                             ≫= (fun b => property s b (bytes_of_string "x"))))
       (Deserialize Fixtures.dcfg (new_deserializer 0 [] Fixtures.ab_buffer))
     = Some (true, 4, 1, 1, Some (VInt 1),
             Some (VString (bytes_of_string "hello"))).
Proof. split; vm_compute; reflexivity. Qed.

(** C10: a serializer that took a snapshot of an empty export list accepts
    a second call: [string_ids_] is still empty, so the reuse test does not
    fire, the second call runs to the end and returns true with no error.
    (With a non-empty list the second call is refused, and so is the second
    call of [Deserialize].) *)
Theorem C10_empty_snapshot_reusable :
  Fixtures.take_twice [] = Some (true, true, None)
  /\ Fixtures.take_twice Fixtures.ab_exports
     = Some (true, false, Some "Can't reuse WebSnapshotSerializer"%string)
  /\ Fixtures.deserialize_twice Fixtures.ab_buffer
     = Some (true, false, Some "Can't reuse WebSnapshotDeserializer"%string).
Proof. repeat split; vm_compute; reflexivity. Qed.

End ConcreteRuns.

(** ** What the serializer leaves alone

    A predicate that the setters of a step keep, and that [Throw] keeps, is
    kept by the step: one pass over the serializer, for every such
    predicate.  The error message is set by [Throw] only, so a recorded
    error is such a predicate too. *)

Lemma Throw_inert (P : Serializer.State -> Prop) :
  (forall v s, P s -> P (Serializer.set_error_message_ v s)) ->
  forall message s, P s -> P (Serializer.Throw message s).
Proof.
  intros HP message s H. unfold Serializer.Throw.
  destruct (Serializer.has_error s); [exact H | apply HP, H].
Qed.

Section SerializerFrames.
Import Codec Flags Serializer.

Variable P : State -> Prop.

Hypothesis P_Throw : forall message s, P s -> P (Throw message s).
Hypothesis P_heap : forall v s, P s -> P (set_heap v s).
Hypothesis P_serializers : forall v s, P s -> P (set_serializers v s).
Hypothesis P_ids_string : forall m s, P s -> P (set_ids (upd (ids s) KString m) s).
Hypothesis P_ids_map : forall m s, P s -> P (set_ids (upd (ids s) KMap m) s).
Hypothesis P_ids_context : forall m s, P s -> P (set_ids (upd (ids s) KContext m) s).
Hypothesis P_ids_items :
  forall k m s, is_item_kind k = true -> P s -> P (set_ids (upd (ids s) k m) s).
Hypothesis P_items : forall v s, P s -> P (set_items v s).
Hypothesis P_contexts_ : forall v s, P s -> P (set_contexts_ v s).
Hypothesis P_discovery_queue_ : forall v s, P s -> P (set_discovery_queue_ v s).
Hypothesis P_source_intervals_ : forall v s, P s -> P (set_source_intervals_ v s).
Hypothesis P_full_source_ : forall v s, P s -> P (set_full_source_ v s).
Hypothesis P_export_count_ : forall v s, P s -> P (set_export_count_ v s).
Hypothesis P_source_id_ : forall v s, P s -> P (set_source_id_ v s).
Hypothesis P_source_offsets : forall v s, P s -> P (set_source_offsets v s).
Hypothesis P_data_out : forall v s, P s -> P (set_data_out v s).

Lemma Throw_frame message s : P s -> P (Throw message s).
Proof. apply P_Throw. Qed.

Lemma write_frame k b s : P s -> P (write k b s).
Proof. intros H. apply P_serializers, H. Qed.

Lemma allocate_frame o s : P s -> P (allocate o s).2.
Proof. intros H. apply P_heap, H. Qed.

Lemma push_frame v s : P s -> P (push v s).
Proof. intros H. apply P_discovery_queue_, H. Qed.

Lemma push_all_frame l : forall s, P s -> P (push_all l s).
Proof.
  induction l as [| v l IH]; intros s H; simpl; [exact H |].
  apply IH, push_frame, H.
Qed.

Lemma add_item_frame k a s : P s -> P (add_item k a s).
Proof. intros H. apply P_items, H. Qed.

Lemma InsertIntoIndexMap_frame k object id s :
  (forall m s, P s -> P (set_ids (upd (ids s) k m) s)) ->
  P s -> P (InsertIntoIndexMap k object id s).2.
Proof.
  intros Hk H. unfold InsertIntoIndexMap.
  destruct (kMaxUint32 <=? _); [apply Throw_frame, H |].
  destruct (LookupOrInsert _ _) as [[found index] m]. apply Hk, H.
Qed.

Ltac call lemma x :=
  let H := fresh "H" in
  assert (H : P x.2) by (apply lemma; assumption);
  destruct x as [? ?]; simpl in H.

Ltac frame :=
  repeat first
    [ assumption
    | apply Throw_frame
    | apply write_frame
    | match goal with
      | |- P (if ?b then _ else _) => destruct b
      | |- P (if ?b then _ else _).2 => destruct b
      | |- P (match ?x with _ => _ end) => destruct x
      end ].

Lemma SerializeString_frame cfg a id s : P s -> P (SerializeString cfg a id s).2.
Proof.
  intros H. unfold SerializeString.
  assert (H1 : P (InsertIntoIndexMap KString a id s).2)
    by (apply InsertIntoIndexMap_frame; assumption).
  destruct (InsertIntoIndexMap KString a id s) as [[found id1] s1]. simpl in H1.
  destruct found; [exact H1 |].
  destruct (heap_at s1 a) as [| | one_byte chars | | | | | | | |]; cbn beta iota;
    try exact H1.
  destruct one_byte; simpl; apply write_frame, H1.
Qed.

Lemma SerializeMap_descriptors_frame cfg ds : forall i first string_ids attributes s,
  P s -> P (SerializeMap_descriptors cfg ds i first string_ids attributes s).2.
Proof.
  induction ds as [| [key details] ds IH]; intros i first string_ids attributes s H;
    simpl; [exact H |].
  destruct (negb (IsString s key)); [apply Throw_frame, H |].
  destruct (negb (is_field details)); [apply Throw_frame, H |].
  destruct key as [z | k]; [apply IH, H |].
  call (SerializeString_frame cfg k 0 s) (SerializeString cfg k 0 s).
  apply IH. assumption.
Qed.

Lemma SerializeMap_frame cfg map id s : P s -> P (SerializeMap cfg map id s).2.
Proof.
  intros H. unfold SerializeMap.
  assert (H1 : P (InsertIntoIndexMap KMap map id s).2)
    by (apply InsertIntoIndexMap_frame; assumption).
  destruct (InsertIntoIndexMap KMap map id s) as [[found id1] s1]. simpl in H1.
  destruct found; [exact H1 |].
  destruct (heap_at s1 map) as [| | | | | | | | | descriptors prototype |];
    try exact H1.
  call (SerializeMap_descriptors_frame cfg descriptors 0 (-1) [] [] s1)
       (SerializeMap_descriptors cfg descriptors 0 (-1) [] [] s1).
  destruct o as [[[first string_ids] attributes] |]; [| assumption].
  cbv zeta.
  destruct (Object_eqb prototype _); simpl; [frame |].
  destruct (negb (IsJSObject _ prototype)); simpl; [frame |].
  destruct prototype; simpl; frame.
Qed.

Lemma WriteValue_frame cfg object k s : P s -> P (WriteValue cfg object k s).
Proof.
  intros H. unfold WriteValue. destruct object as [z | a]; [frame |].
  destruct (heap_at s a) as [[| | |] | | | | [|] ? | | | | map pattern flags | |];
    try solve [frame].
  - call (SerializeString_frame cfg a 0 s) (SerializeString cfg a 0 s). frame.
  - destruct (negb (map =? regexp_initial_map cfg)%nat); [frame |].
    pose proof (allocate_frame (HString true (List.map Z_of_byte flags)) s H) as H0.
    destruct (allocate (HString true (List.map Z_of_byte flags)) s) as [fs s0].
    simpl in H0.
    call (SerializeString_frame cfg pattern 0 s0) (SerializeString cfg pattern 0 s0).
    match goal with
    | |- context [SerializeString cfg fs 0 ?s1] =>
        call (SerializeString_frame cfg fs 0 s1) (SerializeString cfg fs 0 s1)
    end.
    frame.
Qed.

Lemma WriteValues_frame cfg values k : forall s, P s -> P (WriteValues cfg values k s).
Proof.
  induction values as [| v values IH]; intros s H; simpl; [exact H |].
  apply IH, WriteValue_frame, H.
Qed.

Lemma SerializeContext_locals_frame cfg locals : forall s,
  P s -> P (SerializeContext_locals cfg locals s).
Proof.
  induction locals as [| [name value] locals IH]; intros s H; simpl; [exact H |].
  call (SerializeString_frame cfg name 0 s) (SerializeString cfg name 0 s).
  apply IH, WriteValue_frame, write_frame. assumption.
Qed.

Lemma SerializeContext_frame cfg context s : P s -> P (SerializeContext cfg context s).
Proof.
  intros H. unfold SerializeContext.
  destruct context as [| | a [| |] previous locals]; try solve [frame];
    apply SerializeContext_locals_frame; frame.
Qed.

Lemma SerializeFunctionInfo_frame k function s :
  P s -> P (SerializeFunctionInfo k function s).
Proof.
  intros H. unfold SerializeFunctionInfo.
  destruct (heap_at s function) as [| | | | cc f | | | | | |]; try exact H.
  destruct (negb (HasSourceCode (shared f))); [frame |].
  destruct (FunctionKindToFunctionFlags (kind (shared f))) as [flags thrown].
  cbv zeta.
  destruct (has_prototype_slot f && has_instance_prototype f);
    destruct thrown; destruct (context f); frame.
Qed.

Lemma SerializeObject_frame cfg object s : P s -> P (SerializeObject cfg object s).
Proof.
  intros H. unfold SerializeObject.
  destruct (heap_at s object) as [| | | | | map fast properties | | | | |];
    try exact H.
  call (SerializeMap_frame cfg map 0 s) (SerializeMap cfg map 0 s).
  cbv zeta.
  destruct (heap_at _ map); try solve [frame].
  apply WriteValues_frame. frame.
Qed.

Lemma SerializeArray_frame cfg array s : P s -> P (SerializeArray cfg array s).
Proof.
  intros H. unfold SerializeArray.
  destruct (heap_at s array) as [| | | | | | kind length elements | | | |];
    try exact H.
  destruct kind; try solve [frame]; apply WriteValues_frame; frame.
Qed.

Lemma foldl_frame {A} (f : State -> A -> State) l :
  (forall s a, P s -> P (f s a)) -> forall s, P s -> P (foldl f s l).
Proof.
  intros Hf. induction l as [| a l IH]; intros s H; simpl; [exact H |].
  apply IH, Hf, H.
Qed.

Lemma SerializePendingItems_frame cfg s : P s -> P (SerializePendingItems cfg s).
Proof.
  intros H. unfold SerializePendingItems. cbv zeta.
  apply foldl_frame; [intros; apply SerializeObject_frame; assumption |].
  apply foldl_frame; [intros; apply SerializeArray_frame; assumption |].
  apply foldl_frame; [intros; apply SerializeFunctionInfo_frame; assumption |].
  apply foldl_frame; [intros; apply SerializeFunctionInfo_frame; assumption |].
  apply foldl_frame; [intros; apply SerializeContext_frame; assumption |].
  exact H.
Qed.

Lemma WriteSnapshot_frame cfg s : P s -> P (WriteSnapshot cfg s).
Proof.
  intros H. unfold WriteSnapshot. cbv zeta.
  pose proof (SerializePendingItems_frame cfg s H) as H1.
  destruct (has_error _); [exact H1 | apply P_data_out, H1].
Qed.

Lemma SerializeExport_frame cfg object name s :
  P s -> P (SerializeExport cfg object name s).
Proof.
  intros H. unfold SerializeExport. cbv zeta.
  match goal with
  | |- context [SerializeString cfg name 0 ?s1] =>
      assert (H1 : P s1) by (apply P_export_count_, H);
      call (SerializeString_frame cfg name 0 s1) (SerializeString cfg name 0 s1)
  end.
  destruct (heap_at _ object); apply WriteValue_frame; frame.
Qed.

Lemma serialize_exports_frame cfg exports : forall s,
  P s -> P (serialize_exports cfg exports s).
Proof.
  induction exports as [| e rest IH]; intros s H; simpl; [exact H |].
  apply IH. destruct (export_object e); [apply SerializeExport_frame, H | exact H].
Qed.

Lemma SerializeSource_frame cfg s : P s -> P (SerializeSource cfg s).
Proof.
  intros H. unfold SerializeSource.
  destruct (source_intervals_ s) as [| interval intervals]; [exact H |].
  cbv zeta.
  destruct (SerializeSource_loop _ _ _ _) as [c ok].
  pose proof (P_source_offsets (offsets c) s H) as H1.
  destruct (negb ok); [frame |].
  destruct (source_string c) as [| unit units].
  - match goal with
    | |- context [SerializeString cfg ?a ?i ?s1] =>
        call (SerializeString_frame cfg a i s1) (SerializeString cfg a i s1)
    end.
    apply P_source_id_. assumption.
  - pose proof (allocate_frame (HString (source_one_byte c) (unit :: units)) _ H1) as H2.
    destruct (allocate _ _) as [a s2]. simpl in H2.
    match goal with
    | |- context [SerializeString cfg ?a ?i ?s1] =>
        call (SerializeString_frame cfg a i s1) (SerializeString cfg a i s1)
    end.
    apply P_source_id_. assumption.
Qed.

(** Discovery. *)

Lemma DiscoverContext_frame c : forall s, P s -> P (DiscoverContext c s).
Proof.
  induction c as [| | a type previous IH locals]; intros s H; simpl; try exact H.
  assert (H0 : P (if IsLocal previous then DiscoverContext previous s else s))
    by (destruct (IsLocal previous); [apply IH, H | exact H]).
  match goal with
  | |- context [InsertIntoIndexMap KContext a 0 ?s1] =>
      assert (H1 : P (InsertIntoIndexMap KContext a 0 s1).2)
        by (apply InsertIntoIndexMap_frame; assumption);
      destruct (InsertIntoIndexMap KContext a 0 s1) as [[found id] s2]; simpl in H1
  end.
  destruct found; [exact H1 |].
  apply push_all_frame, P_contexts_, H1.
Qed.

Lemma DiscoverSource_frame f s : P s -> P (DiscoverSource f s).
Proof.
  intros H. unfold DiscoverSource. cbv zeta.
  match goal with
  | |- context [set_source_intervals_ ?v s] =>
      pose proof (P_source_intervals_ v s H) as H1; set (s1 := set_source_intervals_ v s) in *
  end.
  destruct (full_source_ s1); [| apply P_full_source_, H1].
  destruct (negb _); frame.
Qed.

Lemma DiscoverContextAndPrototype_frame f s :
  P s -> P (DiscoverContextAndPrototype f s).
Proof.
  intros H. unfold DiscoverContextAndPrototype. cbv zeta.
  match goal with
  | |- context [if _ then Throw _ ?s1 else _] =>
      assert (H1 : P s1)
        by (destruct (context f) as [| | ? [| |] ? ?]; try exact H;
            apply DiscoverContext_frame, H);
      set (s' := s1) in *
  end.
  destruct (has_prototype_slot f && has_non_instance_prototype f); [frame |].
  destruct (has_prototype_slot f && has_instance_prototype f);
    [apply push_frame, H1 | exact H1].
Qed.

Lemma discover_new_frame k a s :
  is_item_kind k = true -> P s -> P (InsertIntoIndexMap k a 0 s).2.
Proof. intros Hk H. apply InsertIntoIndexMap_frame; [| exact H]. intros; apply P_ids_items; assumption. Qed.

Lemma DiscoverFunction_frame a f s : P s -> P (DiscoverFunction a f s).
Proof.
  intros H. unfold DiscoverFunction.
  pose proof (discover_new_frame KFunction a s eq_refl H) as H1.
  destruct (InsertIntoIndexMap KFunction a 0 s) as [[found id] s1]. simpl in H1.
  destruct found; [exact H1 |]. cbv zeta.
  apply DiscoverSource_frame, DiscoverContextAndPrototype_frame, add_item_frame, H1.
Qed.

Lemma DiscoverClass_frame a f s : P s -> P (DiscoverClass a f s).
Proof.
  intros H. unfold DiscoverClass.
  pose proof (discover_new_frame KClass a s eq_refl H) as H1.
  destruct (InsertIntoIndexMap KClass a 0 s) as [[found id] s1]. simpl in H1.
  destruct found; [exact H1 |]. cbv zeta.
  apply DiscoverSource_frame, DiscoverContextAndPrototype_frame, add_item_frame, H1.
Qed.

Lemma DiscoverArray_frame a kind length elements s :
  P s -> P (DiscoverArray a kind length elements s).
Proof.
  intros H. unfold DiscoverArray.
  pose proof (discover_new_frame KArray a s eq_refl H) as H1.
  destruct (InsertIntoIndexMap KArray a 0 s) as [[found id] s1]. simpl in H1.
  destruct found; [exact H1 |]. cbv zeta.
  pose proof (add_item_frame KArray a s1 H1) as H2.
  destruct kind; try (apply push_all_frame, H2). apply Throw_frame, H2.
Qed.

Lemma DiscoverObject_frame cfg a map fast properties s :
  P s -> P (DiscoverObject cfg a map fast properties s).
Proof.
  intros H. unfold DiscoverObject.
  pose proof (discover_new_frame KObject a s eq_refl H) as H1.
  destruct (InsertIntoIndexMap KObject a 0 s) as [[found id] s1]. simpl in H1.
  destruct found; [exact H1 |]. cbv zeta.
  pose proof (add_item_frame KObject a s1 H1) as H2.
  assert (H3 : P (if negb fast
                  then Throw "Dictionary mode objects not supported"
                         (add_item KObject a s1)
                  else add_item KObject a s1))
    by (destruct (negb fast); [apply Throw_frame, H2 | exact H2]).
  destruct (heap_at _ map); try exact H3.
  apply push_all_frame. destruct (negb (Object_eqb _ _)); [apply push_frame, H3 | exact H3].
Qed.

Lemma Discovery_step_frame cfg object s : P s -> P (Discovery_step cfg object s).
Proof.
  intros H. unfold Discovery_step. cbv zeta. apply P_discovery_queue_.
  destruct object as [z | a]; [exact H |].
  destruct (heap_at s a) as [| | | | [|] f | | | | | |]; try exact H;
    try (apply Throw_frame, H).
  - apply DiscoverClass_frame, H.
  - apply DiscoverFunction_frame, H.
  - apply DiscoverObject_frame, H.
  - apply DiscoverArray_frame, H.
Qed.

Lemma Discovery_loop_frame cfg fuel : forall s s',
  Discovery_loop cfg fuel s = Some s' -> P s -> P s'.
Proof.
  induction fuel as [| fuel IH]; intros s s' E H; simpl in E.
  - destruct (discovery_queue_ s); [| discriminate E]. injection E as <-. exact H.
  - destruct (discovery_queue_ s) as [| object q]; [injection E as <-; exact H |].
    eapply IH; [exact E | apply Discovery_step_frame, H].
Qed.

Lemma discover_exports_frame cfg fuel exports : forall s ok s',
  discover_exports cfg fuel exports s = Some (ok, s') -> P s -> P s'.
Proof.
  induction exports as [| e rest IH]; intros s ok s' E H; simpl in E.
  - injection E as _ <-. exact H.
  - destruct (export_object e) as [object |].
    + destruct (Discovery cfg fuel (HeapRef object) s) as [s1 |] eqn:E1;
        [| discriminate E].
      eapply IH; [exact E |].
      eapply Discovery_loop_frame; [exact E1 | apply push_frame, H].
    + injection E as _ <-. apply Throw_frame, H.
Qed.

End SerializerFrames.

(** ** The order of contexts *)

Section ContextOrderEncode.
Import Codec Flags Serializer.

Lemma keeps_refl s : keeps s s.
Proof. repeat split. Qed.

Lemma keeps_trans s1 s2 s3 : keeps s1 s2 -> keeps s2 s3 -> keeps s1 s3.
Proof. intros (A1 & A2 & A3) (B1 & B2 & B3). repeat split; congruence. Qed.

Lemma Throw_keeps m s : keeps s (Throw m s).
Proof. unfold Throw. destruct (has_error s); repeat split. Qed.

Lemma write_keeps k b s : k <> KContext -> keeps s (write k b s).
Proof.
  intros Hk. repeat split. simpl. unfold upd.
  destruct k; simpl; congruence.
Qed.

Lemma allocate_keeps o s : keeps s (allocate o s).2.
Proof. repeat split. Qed.

Lemma push_keeps o s : keeps s (push o s).
Proof. repeat split. Qed.

Lemma push_all_keeps l s : keeps s (push_all l s).
Proof.
  revert s. induction l as [| o l IH]; intros s; simpl.
  - apply keeps_refl.
  - eapply keeps_trans; [apply push_keeps | apply IH].
Qed.

Lemma InsertIntoIndexMap_keeps k a id s :
  k <> KContext -> keeps s (InsertIntoIndexMap k a id s).2.
Proof.
  intros Hk. unfold InsertIntoIndexMap.
  destruct (kMaxUint32 <=? _); simpl; [apply Throw_keeps |].
  destruct (LookupOrInsert (ids s k) a) as [[found index] m]. simpl.
  repeat split. simpl. unfold upd. destruct k; simpl; congruence.
Qed.

Lemma SerializeString_keeps cfg a id s : keeps s (SerializeString cfg a id s).2.
Proof.
  unfold SerializeString.
  pose proof (InsertIntoIndexMap_keeps KString a id s ltac:(discriminate)) as H.
  destruct (InsertIntoIndexMap KString a id s) as [[found id'] s1]. simpl in H.
  destruct found; simpl; [exact H |].
  destruct (heap_at s1 a) as [| | [|] ? | | | | | | | |]; simpl; try exact H;
    (eapply keeps_trans; [exact H | apply write_keeps; discriminate]).
Qed.

Lemma SerializeMap_descriptors_keeps cfg ds i fci sids attrs s :
  keeps s (SerializeMap_descriptors cfg ds i fci sids attrs s).2.
Proof.
  revert i fci sids attrs s. induction ds as [| [key details] ds IH]; intros; simpl.
  - apply keeps_refl.
  - destruct (negb (IsString s key)); simpl; [apply Throw_keeps |].
    destruct (negb (is_field details)); simpl; [apply Throw_keeps |].
    destruct key as [z | k].
    + apply IH.
    + pose proof (SerializeString_keeps cfg k 0 s) as H.
      destruct (SerializeString cfg k 0 s) as [string_id s1]. simpl in H.
      eapply keeps_trans; [exact H | apply IH].
Qed.

Lemma SerializeMap_keeps cfg map id s : keeps s (SerializeMap cfg map id s).2.
Proof.
  unfold SerializeMap.
  pose proof (InsertIntoIndexMap_keeps KMap map id s ltac:(discriminate)) as H.
  destruct (InsertIntoIndexMap KMap map id s) as [[found id'] s1]. simpl in H.
  destruct found; simpl; [exact H |].
  destruct (heap_at s1 map) as [| | | | | | | | | descriptors prototype |];
    simpl; try exact H.
  pose proof (SerializeMap_descriptors_keeps cfg descriptors 0 (-1) [] [] s1) as H1.
  destruct (SerializeMap_descriptors cfg descriptors 0 (-1) [] [] s1)
    as [[[[fci sids] attrs] |] s2]; simpl in H1 |- *;
    [| eapply keeps_trans; eassumption].
  assert (H2 : keeps s s2) by (eapply keeps_trans; eassumption).
  set (s3 := write KMap _ s2).
  assert (H3 : keeps s s3).
  { eapply keeps_trans; [exact H2 | apply write_keeps; discriminate]. }
  destruct (Object_eqb prototype _); simpl.
  { repeat (eapply keeps_trans; [| apply write_keeps; discriminate]). exact H3. }
  destruct (negb (IsJSObject s3 prototype)); simpl.
  { eapply keeps_trans; [exact H3 | apply Throw_keeps]. }
  destruct prototype as [z | p]; simpl.
  { eapply keeps_trans; [exact H3 | apply Throw_keeps]. }
  repeat (eapply keeps_trans; [| apply write_keeps; discriminate]). exact H3.
Qed.

Lemma keeps_appends s s' : keeps s s' -> appends s s'.
Proof.
  intros (A1 & A2 & A3). repeat split; try assumption.
  exists []. rewrite app_nil_r. exact A3.
Qed.

Lemma appends_trans s1 s2 s3 : appends s1 s2 -> appends s2 s3 -> appends s1 s3.
Proof.
  intros (A1 & A2 & t1 & A3) (B1 & B2 & t2 & B3).
  repeat split; try congruence.
  exists (t1 ++ t2). rewrite B3, A3, app_assoc. reflexivity.
Qed.

Lemma write_appends k b s : appends s (write k b s).
Proof.
  repeat split. simpl. unfold upd.
  destruct (Kind_eqb k KContext) eqn:E.
  - destruct k; try discriminate E. eauto.
  - exists []. rewrite app_nil_r. reflexivity.
Qed.

Lemma WriteValue_appends cfg object k s : appends s (WriteValue cfg object k s).
Proof.
  unfold WriteValue. destruct object as [z | a]; [apply write_appends |].
  destruct (heap_at s a) as [[| | |] | | | | [|] ? | | | | map pattern flags | |];
    try apply write_appends; try (apply keeps_appends, Throw_keeps).
  - pose proof (SerializeString_keeps cfg a 0 s) as H.
    destruct (SerializeString cfg a 0 s) as [id s1]. simpl in H.
    eapply appends_trans; [apply keeps_appends, H | apply write_appends].
  - destruct (negb (map =? regexp_initial_map cfg)%nat);
      [apply keeps_appends, Throw_keeps |].
    pose proof (allocate_keeps (HString true (List.map Z_of_byte flags)) s) as H0.
    destruct (allocate (HString true (List.map Z_of_byte flags)) s) as [fs s0].
    simpl in H0.
    pose proof (SerializeString_keeps cfg pattern 0 s0) as H1.
    destruct (SerializeString cfg pattern 0 s0) as [pid s1]. simpl in H1.
    pose proof (SerializeString_keeps cfg fs 0 s1) as H2.
    destruct (SerializeString cfg fs 0 s1) as [fid s2]. simpl in H2.
    eapply appends_trans; [| apply write_appends].
    apply keeps_appends.
    eapply keeps_trans; [exact H0 |]. eapply keeps_trans; eassumption.
Qed.

Lemma WriteValue_keeps cfg object k s :
  k <> KContext -> keeps s (WriteValue cfg object k s).
Proof.
  intros Hk.
  unfold WriteValue. destruct object as [z | a]; [apply write_keeps, Hk |].
  destruct (heap_at s a) as [[| | |] | | | | [|] ? | | | | map pattern flags | |];
    try (apply write_keeps, Hk); try apply Throw_keeps.
  - pose proof (SerializeString_keeps cfg a 0 s) as H.
    destruct (SerializeString cfg a 0 s) as [id s1]. simpl in H.
    eapply keeps_trans; [apply H | apply write_keeps, Hk].
  - destruct (negb (map =? regexp_initial_map cfg)%nat); [apply Throw_keeps |].
    pose proof (allocate_keeps (HString true (List.map Z_of_byte flags)) s) as H0.
    destruct (allocate (HString true (List.map Z_of_byte flags)) s) as [fs s0].
    simpl in H0.
    pose proof (SerializeString_keeps cfg pattern 0 s0) as H1.
    destruct (SerializeString cfg pattern 0 s0) as [pid s1]. simpl in H1.
    pose proof (SerializeString_keeps cfg fs 0 s1) as H2.
    destruct (SerializeString cfg fs 0 s1) as [fid s2]. simpl in H2.
    eapply keeps_trans; [| apply write_keeps, Hk].
    eapply keeps_trans; [exact H0 |]. eapply keeps_trans; eassumption.
Qed.

Lemma WriteValues_keeps cfg values k s :
  k <> KContext -> keeps s (WriteValues cfg values k s).
Proof.
  intros Hk. revert s. induction values as [| v values IH]; intros s; simpl.
  - apply keeps_refl.
  - eapply keeps_trans; [apply WriteValue_keeps, Hk | apply IH].
Qed.

Lemma SerializeContext_locals_appends cfg locals s :
  appends s (SerializeContext_locals cfg locals s).
Proof.
  revert s. induction locals as [| [name value] locals IH]; intros s; simpl.
  - apply keeps_appends, keeps_refl.
  - pose proof (SerializeString_keeps cfg name 0 s) as H.
    destruct (SerializeString cfg name 0 s) as [string_id s1]. simpl in H.
    eapply appends_trans; [apply keeps_appends, H |].
    eapply appends_trans; [apply write_appends |].
    eapply appends_trans; [apply WriteValue_appends | apply IH].
Qed.

Lemma Throw_has_error message s : has_error (Throw message s) = true.
Proof. unfold Throw. destruct (has_error s) eqn:E; [exact E | reflexivity]. Qed.

(** A recorded error stays: nothing but [Throw] sets the message. *)
Ltac sticky lemma :=
  apply (lemma (fun s0 : State => has_error s0 = true));
  try (intros; assumption); try (intros; apply Throw_has_error).

Lemma SerializeContext_record cfg context s :
  ids (SerializeContext cfg context s) KContext = ids s KContext
  /\ contexts_ (SerializeContext cfg context s) = contexts_ s
  /\ exists record,
       serializers (SerializeContext cfg context s) KContext
       = serializers s KContext ++ record
       /\ (context_record context (parent_context_id s context) record
           \/ has_error (SerializeContext cfg context s) = true).
Proof.
  unfold SerializeContext.
  set (parent := parent_context_id s context).
  assert (Hunsupported :
    ids (Throw "Unsupported context type" s) KContext = ids s KContext
    /\ contexts_ (Throw "Unsupported context type" s) = contexts_ s
    /\ exists record,
         serializers (Throw "Unsupported context type" s) KContext
         = serializers s KContext ++ record
         /\ (context_record context parent record
             \/ has_error (Throw "Unsupported context type" s) = true)).
  { destruct (Throw_keeps "Unsupported context type" s) as (A1 & A2 & A3).
    repeat split; try assumption.
    exists []. rewrite app_nil_r. split; [exact A3 | right; apply Throw_has_error]. }
  destruct context as [| | a [| |] previous locals]; try exact Hunsupported.
  - match goal with
    | |- context [SerializeContext_locals cfg locals ?s0] =>
        destruct (SerializeContext_locals_appends cfg locals s0) as (A1 & A2 & t & A3);
        set (s3 := s0) in *
    end.
    repeat split; [exact A1 | exact A2 |].
    eexists. split.
    + rewrite A3. subst s3. simpl. unfold upd. simpl.
      rewrite <- !app_assoc. reflexivity.
    + left. eexists _, _. split; reflexivity.
  - match goal with
    | |- context [SerializeContext_locals cfg locals ?s0] =>
        destruct (SerializeContext_locals_appends cfg locals s0) as (A1 & A2 & t & A3);
        set (s3 := s0) in *
    end.
    repeat split; [exact A1 | exact A2 |].
    eexists. split.
    + rewrite A3. subst s3. simpl. unfold upd. simpl.
      rewrite <- !app_assoc. reflexivity.
    + left. eexists _, _. split; reflexivity.
Qed.

Lemma SerializeFunctionInfo_keeps k function s :
  k <> KContext -> keeps s (SerializeFunctionInfo k function s).
Proof.
  intros Hk. unfold SerializeFunctionInfo.
  destruct (heap_at s function) as [| | | | cc f | | | | | |]; try apply keeps_refl.
  destruct (negb (HasSourceCode (shared f))); [apply Throw_keeps |].
  destruct (FunctionKindToFunctionFlags (kind (shared f))) as [flags thrown].
  assert (Hw : forall b s0, keeps s s0 -> keeps s (write k b s0)).
  { intros b s0 H. eapply keeps_trans; [exact H | apply write_keeps, Hk]. }
  assert (Ht : forall s0, keeps s s0 ->
             keeps s (match thrown with Some message => Throw message s0 | None => s0 end)).
  { intros s0 H. destruct thrown; [| exact H].
    eapply keeps_trans; [exact H | apply Throw_keeps]. }
  destruct (has_prototype_slot f && has_instance_prototype f);
    destruct (context f); repeat (apply Hw || apply Ht); apply keeps_refl.
Qed.

Lemma SerializeObject_keeps cfg object s : keeps s (SerializeObject cfg object s).
Proof.
  unfold SerializeObject.
  destruct (heap_at s object) as [| | | | | map fast properties | | | | |];
    try apply keeps_refl.
  pose proof (SerializeMap_keeps cfg map 0 s) as H.
  destruct (SerializeMap cfg map 0 s) as [map_id s1]. simpl in H.
  assert (H1 : keeps s (write KObject (WriteUint32 map_id) s1)).
  { eapply keeps_trans; [exact H | apply write_keeps; discriminate]. }
  destruct (heap_at _ map); try exact H1.
  eapply keeps_trans; [exact H1 | apply WriteValues_keeps; discriminate].
Qed.

Lemma SerializeArray_keeps cfg array s : keeps s (SerializeArray cfg array s).
Proof.
  unfold SerializeArray.
  destruct (heap_at s array) as [| | | | | | ek len elements | | | |];
    try apply keeps_refl.
  destruct ek; try apply Throw_keeps;
    (eapply keeps_trans; [| apply WriteValues_keeps; discriminate];
     apply write_keeps; discriminate).
Qed.

Lemma SerializeExport_keeps cfg object name s :
  keeps s (SerializeExport cfg object name s).
Proof.
  unfold SerializeExport.
  set (s0 := set_export_count_ _ s).
  assert (H0 : keeps s s0) by (repeat split).
  pose proof (SerializeString_keeps cfg name 0 s0) as H.
  destruct (SerializeString cfg name 0 s0) as [string_id s1]. simpl in H.
  assert (H1 : keeps s (write KExport (WriteUint32 string_id) s1)).
  { eapply keeps_trans; [exact H0 |].
    eapply keeps_trans; [exact H | apply write_keeps; discriminate]. }
  destruct (heap_at _ object);
    (eapply keeps_trans; [exact H1 | apply WriteValue_keeps; discriminate]).
Qed.

Lemma serialize_exports_keeps cfg exports s :
  keeps s (serialize_exports cfg exports s).
Proof.
  revert s. induction exports as [| e exports IH]; intros s; simpl.
  - apply keeps_refl.
  - destruct (export_object e).
    + eapply keeps_trans; [apply SerializeExport_keeps | apply IH].
    + apply IH.
Qed.

Lemma SerializeSource_keeps cfg s : keeps s (SerializeSource cfg s).
Proof.
  unfold SerializeSource.
  destruct (source_intervals_ s) as [| iv ivs]; [apply keeps_refl |].
  destruct (SerializeSource_loop _ _ _ _ _) as [c ok].
  set (s0 := set_source_offsets _ s).
  assert (H0 : keeps s s0) by (repeat split).
  destruct ok; simpl; [| eapply keeps_trans; [exact H0 | apply Throw_keeps]].
  destruct (source_string c) as [| u us].
  - pose proof (SerializeString_keeps cfg (empty_string cfg) (source_id_ s0) s0) as H.
    destruct (SerializeString _ _ _ _) as [id s1]. simpl in H.
    eapply keeps_trans; [exact H0 |]. eapply keeps_trans; [exact H |]. repeat split.
  - pose proof (allocate_keeps (HString (source_one_byte c) (u :: us)) s0) as Ha.
    destruct (allocate _ s0) as [a s1]. simpl in Ha.
    pose proof (SerializeString_keeps cfg a (source_id_ s1) s1) as H.
    destruct (SerializeString _ _ _ _) as [id s2]. simpl in H.
    eapply keeps_trans; [exact H0 |]. eapply keeps_trans; [exact Ha |].
    eapply keeps_trans; [exact H |]. repeat split.
Qed.

Lemma foldl_keeps {A : Type} (f : State -> A -> State) (l : list A) (s : State) :
  (forall s a, keeps s (f s a)) -> keeps s (foldl f s l).
Proof.
  intros Hf. revert s. induction l as [| a l IH]; intros s; simpl.
  - apply keeps_refl.
  - eapply keeps_trans; [apply Hf | apply IH].
Qed.

(** The context buffer after the contexts loop of [SerializePendingItems]:
    one record per context, in order; when no error is recorded by the end
    of the loop, each is the record of its context. *)
Lemma SerializeContexts_records cfg (cs : list Context) (s : State) :
  let s' := foldl (fun s c => SerializeContext cfg c s) s cs in
  ids s' KContext = ids s KContext
  /\ contexts_ s' = contexts_ s
  /\ exists records,
       serializers s' KContext = serializers s KContext ++ concat records
       /\ length records = length cs
       /\ (has_error s' = false ->
           Forall2 (fun c record => context_record c (parent_context_id s c) record)
                   cs records).
Proof.
  revert s. induction cs as [| c cs IH]; intros s; simpl.
  - repeat split. exists []. simpl. rewrite app_nil_r.
    split; [reflexivity |]. split; [reflexivity | constructor].
  - destruct (SerializeContext_record cfg c s) as (A1 & A2 & record & A3 & A4).
    destruct (IH (SerializeContext cfg c s)) as (B1 & B2 & records & B3 & B4 & B5).
    repeat split; [congruence | congruence |].
    exists (record :: records). split.
    { rewrite B3, A3. simpl. rewrite app_assoc. reflexivity. }
    split; [simpl; congruence |].
    intros Hok. constructor.
    + destruct A4 as [A4 | A4]; [exact A4 |].
      assert (has_error (foldl (fun s c => SerializeContext cfg c s)
                           (SerializeContext cfg c s) cs) = true) as Herr.
      { sticky foldl_frame. intros s0 c0 H0. sticky SerializeContext_frame. }
      rewrite Herr in Hok. discriminate Hok.
    + eapply Forall2_impl; [exact (B5 Hok) |].
      intros c' r' Hr. unfold parent_context_id, GetContextId in *.
      rewrite A1 in Hr. exact Hr.
Qed.

Lemma ctx_inv_keeps s s' : keeps s s' -> ctx_inv s -> ctx_inv s'.
Proof.
  intros (A1 & A2 & _). unfold ctx_inv. rewrite A1, A2. auto.
Qed.

Lemma wrap32_small z : 0 <= z < two32 -> wrap32 z = z.
Proof. intros H. unfold wrap32. apply Z.mod_small. exact H. Qed.

Lemma DiscoverContext_inv (c : Context) (s : State) :
  ctx_inv s ->
  ctx_inv (DiscoverContext c s)
  /\ serializers (DiscoverContext c s) KContext = serializers s KContext
  /\ (IsLocal c = true ->
        is_Some (ids (DiscoverContext c s) KContext !! context_address c)
        \/ Z.of_nat (size (ids (DiscoverContext c s) KContext)) = kMaxUint32).
Proof.
  revert s. induction c as [| | a kind previous IH locals]; intros s Hinv;
    [split; [exact Hinv | split; [reflexivity | discriminate]] ..|].
  simpl.
  set (s1 := if IsLocal previous then DiscoverContext previous s else s).
  assert (H1 : ctx_inv s1
               /\ serializers s1 KContext = serializers s KContext
               /\ (IsLocal previous = true ->
                     is_Some (ids s1 KContext !! context_address previous)
                     \/ Z.of_nat (size (ids s1 KContext)) = kMaxUint32)).
  { subst s1. destruct (IsLocal previous) eqn:E.
    - apply IH. exact Hinv.
    - split; [exact Hinv | split; [reflexivity | discriminate]]. }
  clearbody s1. destruct H1 as (Hinv1 & Hser1 & Hparent).
  pose proof Hinv1 as (J0 & J1 & J2 & J3 & J4 & J5).
  unfold InsertIntoIndexMap.
  destruct (kMaxUint32 <=? wrap32 (Z.of_nat (size (ids s1 KContext)))) eqn:Efull.
  { (* the table is full: nothing is inserted *)
    simpl.
    assert (Hk : keeps s1 (Throw "Too many objects" s1)) by apply Throw_keeps.
    split; [eapply ctx_inv_keeps; [exact Hk | exact Hinv1] |].
    destruct Hk as (K1 & K2 & K3).
    split; [congruence |].
    intros _. right. rewrite K1.
    apply Z.leb_le in Efull.
    rewrite wrap32_small in Efull by (unfold kMaxUint32, two32 in *; lia).
    lia. }
  apply Z.leb_gt in Efull.
  assert (Hsize : Z.of_nat (size (ids s1 KContext)) < kMaxUint32).
  { destruct (Z.eq_dec (Z.of_nat (size (ids s1 KContext))) kMaxUint32) as [E | E];
      [| lia].
    rewrite E in Efull. vm_compute in Efull. discriminate Efull. }
  unfold LookupOrInsert.
  destruct (ids s1 KContext !! a) as [index |] eqn:Elook; simpl.
  { (* seen before *)
    split; [exact Hinv1 |].
    split; [exact Hser1 |].
    intros _. left. unfold upd. simpl. rewrite Elook. eauto. }
  (* a new context: it gets the next id, after its parent *)
  match goal with
  | |- context [push_all ?l ?s0] =>
      pose proof (push_all_keeps l s0) as Hpush; set (s2 := s0) in *
  end.
  assert (Hids : ids s2 KContext
                 = <[a := Z.of_nat (size (ids s1 KContext))]> (ids s1 KContext)).
  { reflexivity. }
  assert (Hctx : contexts_ s2 = contexts_ s1 ++ [LocalContext a kind previous locals]).
  { reflexivity. }
  assert (Hser : serializers s2 KContext = serializers s1 KContext) by reflexivity.
  assert (Hinv2 : ctx_inv s2).
  { unfold ctx_inv. rewrite Hids, Hctx, length_app. simpl.
    rewrite map_size_insert_None by exact Elook.
    split; [lia |]. split; [lia |]. split; [| split; [| split]].
    - intros a' id Hl. destruct (decide (a = a')) as [-> | Hne].
      + rewrite lookup_insert_eq in Hl. injection Hl as <-. lia.
      + rewrite lookup_insert_ne in Hl by exact Hne.
        apply J2 in Hl. lia.
    - intros i c Hi Hloc.
      destruct (decide (i < length (contexts_ s1))%nat) as [Hlt | Hge].
      + rewrite lookup_app_l in Hi by exact Hlt.
        destruct (J3 i c Hi Hloc) as (id & Hid & Hb).
        exists id. split; [| exact Hb].
        rewrite lookup_insert_ne; [exact Hid |].
        intros ->. rewrite Elook in Hid. discriminate.
      + rewrite lookup_app_r in Hi by lia.
        destruct (i - length (contexts_ s1))%nat as [| n] eqn:Ei;
          [| destruct n; discriminate Hi].
        injection Hi as <-. simpl in Hloc |- *.
        destruct (Hparent Hloc) as [[id Hid] | Hfull]; [| lia].
        exists id. split.
        * rewrite lookup_insert_ne; [exact Hid |].
          intros ->. rewrite Elook in Hid. discriminate.
        * apply J2 in Hid. lia.
    - (* the id of a context is its position *)
      intros i c Hi.
      destruct (decide (i < length (contexts_ s1))%nat) as [Hlt | Hge].
      + rewrite lookup_app_l in Hi by exact Hlt.
        pose proof (J4 i c Hi) as Hid.
        rewrite lookup_insert_ne; [exact Hid |].
        intros ->. rewrite Elook in Hid. discriminate.
      + pose proof (lookup_lt_Some _ _ _ Hi) as Hlen.
        rewrite length_app in Hlen. simpl in Hlen.
        assert (i = length (contexts_ s1)) as -> by lia.
        rewrite lookup_app_r in Hi by lia.
        rewrite Nat.sub_diag in Hi. injection Hi as <-. simpl.
        rewrite lookup_insert_eq. congruence.
    - (* and the context at the position of an id is the one with that id *)
      intros a' id Hl. destruct (decide (a = a')) as [-> | Hne].
      + rewrite lookup_insert_eq in Hl. injection Hl as <-.
        rewrite Nat2Z.id, J1.
        exists (LocalContext a' kind previous locals).
        split; [| reflexivity].
        rewrite lookup_app_r by lia. rewrite Nat.sub_diag. reflexivity.
      + rewrite lookup_insert_ne in Hl by exact Hne.
        destruct (J5 a' id Hl) as (c & Hc & Ha).
        exists c. split; [| exact Ha].
        apply lookup_app_l_Some. exact Hc. }
  split; [eapply ctx_inv_keeps; [exact Hpush | exact Hinv2] |].
  destruct Hpush as (K1 & K2 & K3).
  split; [congruence |].
  intros _. left. rewrite K1, Hids, lookup_insert_eq. eauto.
Qed.

Lemma discovers_refl s : discovers s s.
Proof. split; auto. Qed.

Lemma discovers_trans s1 s2 s3 : discovers s1 s2 -> discovers s2 s3 -> discovers s1 s3.
Proof. intros [A1 A2] [B1 B2]. split; [auto | congruence]. Qed.

Lemma keeps_discovers s s' : keeps s s' -> discovers s s'.
Proof.
  intros H. split; [apply ctx_inv_keeps, H | apply H].
Qed.

Lemma InsertIntoIndexMap_ser s a :
  serializers (InsertIntoIndexMap KContext a 0 s).2 KContext = serializers s KContext.
Proof.
  unfold InsertIntoIndexMap.
  destruct (kMaxUint32 <=? _); simpl; [apply Throw_keeps |].
  destruct (LookupOrInsert (ids s KContext) a) as [[found index] m]. reflexivity.
Qed.

Lemma DiscoverContext_discovers c s : discovers s (DiscoverContext c s).
Proof.
  split.
  - intros H. apply DiscoverContext_inv, H.
  - destruct c as [| | a kind previous locals]; try reflexivity.
    (* the buffer is untouched whether or not the invariant holds *)
    revert s. induction (LocalContext a kind previous locals) as [| | a' k' p' IH l'];
      intros s; try reflexivity.
    simpl.
    set (s1 := if IsLocal p' then DiscoverContext p' s else s).
    assert (H1 : serializers s1 KContext = serializers s KContext).
    { subst s1. destruct (IsLocal p'); [apply IH | reflexivity]. }
    clearbody s1.
    pose proof (InsertIntoIndexMap_ser s1 a') as H2.
    destruct (InsertIntoIndexMap KContext a' 0 s1) as [[found id] s2]. simpl in H2.
    destruct found; [congruence |].
    match goal with
    | |- context [push_all ?l ?s0] => destruct (push_all_keeps l s0) as (_ & _ & K)
    end.
    rewrite K. simpl. congruence.
Qed.

Lemma add_item_keeps k a s : keeps s (add_item k a s).
Proof. repeat split. Qed.

Lemma DiscoverSource_keeps f s : keeps s (DiscoverSource f s).
Proof.
  unfold DiscoverSource.
  set (s0 := set_source_intervals_ _ s).
  assert (H0 : keeps s s0) by (repeat split).
  destruct (full_source_ s0); [| eapply keeps_trans; [exact H0 | repeat split]].
  destruct (negb _); [| exact H0].
  eapply keeps_trans; [exact H0 | apply Throw_keeps].
Qed.

Lemma DiscoverContextAndPrototype_discovers f s :
  discovers s (DiscoverContextAndPrototype f s).
Proof.
  unfold DiscoverContextAndPrototype.
  set (s1 := match context f with
             | LocalContext _ FunctionContext _ _ | LocalContext _ BlockContext _ _ =>
                 DiscoverContext (context f) s
             | _ => s
             end).
  assert (H1 : discovers s s1).
  { subst s1. destruct (context f) as [| | a [| |] p l];
      try apply discovers_refl; apply DiscoverContext_discovers. }
  clearbody s1.
  destruct (has_prototype_slot f && has_non_instance_prototype f).
  { eapply discovers_trans; [exact H1 | apply keeps_discovers, Throw_keeps]. }
  destruct (has_prototype_slot f && has_instance_prototype f); [| exact H1].
  eapply discovers_trans; [exact H1 | apply keeps_discovers, push_keeps].
Qed.

Lemma DiscoverFunction_discovers a f s : discovers s (DiscoverFunction a f s).
Proof.
  unfold DiscoverFunction.
  pose proof (InsertIntoIndexMap_keeps KFunction a 0 s ltac:(discriminate)) as H.
  destruct (InsertIntoIndexMap KFunction a 0 s) as [[found id] s1]. simpl in H.
  destruct found; [apply keeps_discovers, H |].
  eapply discovers_trans; [apply keeps_discovers, H |].
  eapply discovers_trans; [apply keeps_discovers, add_item_keeps |].
  eapply discovers_trans; [apply DiscoverContextAndPrototype_discovers |].
  apply keeps_discovers, DiscoverSource_keeps.
Qed.

Lemma DiscoverClass_discovers a f s : discovers s (DiscoverClass a f s).
Proof.
  unfold DiscoverClass.
  pose proof (InsertIntoIndexMap_keeps KClass a 0 s ltac:(discriminate)) as H.
  destruct (InsertIntoIndexMap KClass a 0 s) as [[found id] s1]. simpl in H.
  destruct found; [apply keeps_discovers, H |].
  eapply discovers_trans; [apply keeps_discovers, H |].
  eapply discovers_trans; [apply keeps_discovers, add_item_keeps |].
  eapply discovers_trans; [apply DiscoverContextAndPrototype_discovers |].
  apply keeps_discovers, DiscoverSource_keeps.
Qed.

Lemma DiscoverArray_keeps a ek len elements s :
  keeps s (DiscoverArray a ek len elements s).
Proof.
  unfold DiscoverArray.
  pose proof (InsertIntoIndexMap_keeps KArray a 0 s ltac:(discriminate)) as H.
  destruct (InsertIntoIndexMap KArray a 0 s) as [[found id] s1]. simpl in H.
  destruct found; [exact H |].
  eapply keeps_trans; [exact H |].
  eapply keeps_trans; [apply add_item_keeps |].
  destruct ek; try apply Throw_keeps; apply push_all_keeps.
Qed.

Lemma DiscoverObject_keeps cfg a map fast properties s :
  keeps s (DiscoverObject cfg a map fast properties s).
Proof.
  unfold DiscoverObject.
  pose proof (InsertIntoIndexMap_keeps KObject a 0 s ltac:(discriminate)) as H.
  destruct (InsertIntoIndexMap KObject a 0 s) as [[found id] s1]. simpl in H.
  destruct found; [exact H |].
  eapply keeps_trans; [exact H |].
  eapply keeps_trans; [apply add_item_keeps |].
  set (s2 := add_item KObject a s1).
  set (s3 := if negb fast then Throw _ s2 else s2).
  assert (H3 : keeps s2 s3).
  { subst s3. destruct (negb fast); [apply Throw_keeps | apply keeps_refl]. }
  clearbody s3.
  destruct (heap_at s3 map) as [| | | | | | | | | descriptors prototype |];
    try exact H3.
  eapply keeps_trans; [exact H3 |].
  destruct (negb _).
  - eapply keeps_trans; [apply push_keeps | apply push_all_keeps].
  - apply push_all_keeps.
Qed.

Lemma Discovery_step_discovers cfg object s :
  discovers s (Discovery_step cfg object s).
Proof.
  unfold Discovery_step.
  match goal with
  | |- discovers s (set_discovery_queue_ _ ?s0) =>
      assert (H : discovers s s0); [| set (s1 := s0) in *; clearbody s1]
  end.
  { destruct object as [z | a]; [apply discovers_refl |].
    destruct (heap_at s a) as [| | | | [|] f | | | | | |];
      try apply discovers_refl;
      try apply keeps_discovers, Throw_keeps.
    - apply DiscoverClass_discovers.
    - apply DiscoverFunction_discovers.
    - apply keeps_discovers, DiscoverObject_keeps.
    - apply keeps_discovers, DiscoverArray_keeps. }
  eapply discovers_trans; [exact H | apply keeps_discovers; repeat split].
Qed.

Lemma Discovery_loop_discovers cfg fuel s s' :
  Discovery_loop cfg fuel s = Some s' -> discovers s s'.
Proof.
  revert s. induction fuel as [| fuel IH]; intros s; simpl.
  - destruct (discovery_queue_ s); [| discriminate].
    intros [= <-]. apply discovers_refl.
  - destruct (discovery_queue_ s) as [| object queue].
    + intros [= <-]. apply discovers_refl.
    + intros H. eapply discovers_trans; [apply Discovery_step_discovers |].
      apply IH. exact H.
Qed.

Lemma discover_exports_discovers cfg fuel exports s ok s' :
  discover_exports cfg fuel exports s = Some (ok, s') -> discovers s s'.
Proof.
  revert s. induction exports as [| e exports IH]; intros s; simpl.
  - intros [= _ <-]. apply discovers_refl.
  - destruct (export_object e) as [object |].
    + unfold Discovery.
      destruct (Discovery_loop cfg fuel (push (HeapRef object) s)) as [s1 |] eqn:E;
        [| discriminate].
      intros H.
      eapply discovers_trans; [apply keeps_discovers, push_keeps |].
      eapply discovers_trans; [eapply Discovery_loop_discovers, E |].
      apply IH. exact H.
    + intros [= _ <-]. apply keeps_discovers, Throw_keeps.
Qed.

Lemma ctx_inv_new h : ctx_inv (new_serializer h).
Proof.
  unfold ctx_inv. simpl. rewrite map_size_empty.
  split; [unfold kMaxUint32, two32; lia |]. split; [reflexivity |].
  split; [| split; [| split]].
  - intros a id H. rewrite lookup_empty in H. discriminate.
  - intros i c H. rewrite lookup_nil in H. discriminate.
  - intros i c H. rewrite lookup_nil in H. discriminate.
  - intros a id H. rewrite lookup_empty in H. discriminate.
Qed.

(** The parent field that [SerializeContext] writes, under the invariant. *)
Lemma parent_context_id_field s i c :
  ctx_inv s -> contexts_ s !! i = Some c ->
  parent_field (contexts_ s) i c (parent_context_id s c).
Proof.
  intros (J0 & J1 & J2 & J3 & J4 & J5) Hi.
  unfold parent_field, parent_context_id.
  destruct (previous_of c) as [| | p k pp pl] eqn:Ep; try reflexivity.
  destruct (J3 i c Hi) as (id & Hid & Hb); [rewrite Ep; reflexivity |].
  rewrite Ep in Hid. simpl in Hid |- *.
  destruct (J5 _ _ Hid) as (q & Hq & Ha).
  unfold GetContextId, Lookup. rewrite Hid.
  apply lookup_lt_Some in Hi.
  assert (Z.of_nat i < kMaxUint32) by lia.
  unfold kMaxUint32, two32 in *.
  rewrite (wrap32_small id) by (unfold two32; lia).
  rewrite wrap32_small by (unfold two32; lia).
  exists (Z.to_nat id), q. repeat split; [lia | lia | exact Hq | exact Ha].
Qed.

Lemma TakeSnapshot_context_records cfg fuel exports h s :
  TakeSnapshot cfg fuel exports (new_serializer h) = Some (true, s) ->
  exists records,
    serializers s KContext = concat records
    /\ length records = length (contexts_ s)
    /\ forall i c, contexts_ s !! i = Some c ->
         ids s KContext !! context_address c = Some (Z.of_nat i)
         /\ exists parent record,
              records !! i = Some record
              /\ context_record c parent record
              /\ parent_field (contexts_ s) i c parent.
Proof.
  unfold TakeSnapshot. simpl. rewrite map_size_empty. simpl.
  set (s0 := set_items _ _).
  assert (Hinv0 : ctx_inv s0) by apply (ctx_inv_new h).
  assert (Hser0 : serializers s0 KContext = []) by reflexivity.
  clearbody s0.
  destruct (discover_exports cfg fuel exports s0) as [[[|] s1] |] eqn:Ed;
    try discriminate.
  apply discover_exports_discovers in Ed as [Hinv1 Hser1].
  specialize (Hinv1 Hinv0). rewrite Hser0 in Hser1.
  pose proof (SerializeSource_keeps cfg s1) as K2.
  set (s2 := SerializeSource cfg s1) in *.
  pose proof (serialize_exports_keeps cfg exports s2) as K3.
  set (s3 := serialize_exports cfg exports s2) in *.
  assert (K13 : keeps s1 s3) by (eapply keeps_trans; eassumption).
  assert (Hinv3 : ctx_inv s3) by (eapply ctx_inv_keeps; eassumption).
  assert (Hser3 : serializers s3 KContext = []).
  { destruct K13 as (_ & _ & K). congruence. }
  clearbody s3. clear K2 K3 K13 s2.
  unfold WriteSnapshot, SerializePendingItems.
  destruct (SerializeContexts_records cfg (contexts_ s3) s3)
    as (A1 & A2 & records & A3 & A4 & A5).
  set (s4 := foldl (fun s c => SerializeContext cfg c s) s3 (contexts_ s3)) in *.
  clearbody s4.
  set (s5 := foldl (fun s a => SerializeFunction a s) s4 (items s4 KFunction)).
  assert (K5 : keeps s4 s5).
  { apply foldl_keeps. intros. apply SerializeFunctionInfo_keeps. discriminate. }
  assert (E5 : has_error s4 = true -> has_error s5 = true).
  { intros H4. subst s5. sticky foldl_frame.
    intros s9 a9 H9. sticky SerializeFunctionInfo_frame. }
  clearbody s5.
  set (s6 := foldl (fun s a => SerializeClass a s) s5 (items s5 KClass)).
  assert (K6 : keeps s5 s6).
  { apply foldl_keeps. intros. apply SerializeFunctionInfo_keeps. discriminate. }
  assert (E6 : has_error s5 = true -> has_error s6 = true).
  { intros H5. subst s6. sticky foldl_frame.
    intros s9 a9 H9. sticky SerializeFunctionInfo_frame. }
  clearbody s6.
  set (s7 := foldl (fun s a => SerializeArray cfg a s) s6 (items s6 KArray)).
  assert (K7 : keeps s6 s7).
  { apply foldl_keeps. intros. apply SerializeArray_keeps. }
  assert (E7 : has_error s6 = true -> has_error s7 = true).
  { intros H6. subst s7. sticky foldl_frame.
    intros s9 a9 H9. sticky SerializeArray_frame. }
  clearbody s7.
  set (s8 := foldl (fun s a => SerializeObject cfg a s) s7 (items s7 KObject)).
  assert (K8 : keeps s7 s8).
  { apply foldl_keeps. intros. apply SerializeObject_keeps. }
  assert (E8' : has_error s7 = true -> has_error s8 = true).
  { intros H7. subst s8. sticky foldl_frame.
    intros s9 a9 H9. sticky SerializeObject_frame. }
  clearbody s8.
  assert (K48 : keeps s4 s8).
  { eapply keeps_trans; [exact K5 |]. eapply keeps_trans; [exact K6 |].
    eapply keeps_trans; eassumption. }
  destruct K48 as (B1 & B2 & B3).
  assert (E48 : has_error s4 = true -> has_error s8 = true) by auto.
  clear E5 E6 E7 E8'.
  destruct (has_error s8) eqn:E8.
  { rewrite E8. discriminate. }
  destruct (has_error s4) eqn:E4; [discriminate (E48 eq_refl) |].
  specialize (A5 eq_refl).
  simpl. unfold has_error at 1. simpl. fold (has_error s8). rewrite E8.
  intros [= <-]. simpl.
  exists records.
  split; [rewrite B3, A3, Hser3; reflexivity |].
  split; [rewrite B2, A2; exact A4 |].
  intros i c Hi. rewrite B2, A2 in Hi |- *. rewrite B1, A1.
  split; [apply Hinv3, Hi |].
  destruct (Forall2_lookup_l _ _ _ _ _ A5 Hi) as (record & Hr & Hshape).
  exists (parent_context_id s3 c), record.
  split; [exact Hr |]. split; [exact Hshape |].
  apply parent_context_id_field; assumption.
Qed.

End ContextOrderEncode.

Section ContextOrderDecode.
Import Codec Flags Deserializer.

Lemma has_error_BaseThrow message s :
  exists s', BaseThrow message s = Done tt s'
             /\ has_error s' = true
             /\ tables s' = tables s /\ counts s' = counts s.
Proof.
  unfold BaseThrow, bind, gets. destruct (has_error s) eqn:E.
  - exists s. repeat split. exact E.
  - eexists. split; [reflexivity |]. repeat split.
Qed.

Lemma has_error_Throw message s :
  exists s', Throw message s = Done tt s'
             /\ has_error s' = true /\ tables s' = tables s.
Proof.
  unfold Throw, bind, set_count, modify.
  match goal with
  | |- context [BaseThrow message ?s0] =>
      destruct (has_error_BaseThrow message s0) as (s' & H1 & H2 & H3 & _)
  end.
  exists s'. rewrite H1. repeat split; [exact H2 | rewrite H3; reflexivity].
Qed.

Lemma DeserializeContexts_body_rejects cfg i s type parent rest1 rest2 :
  Codec.ReadUint32 (position_ s) = Some (type, rest1) ->
  Codec.ReadUint32 rest1 = Some (parent, rest2) ->
  i < parent ->
  exists s', DeserializeContexts_body cfg i s = Done Return s'
             /\ has_error s' = true
             /\ tables s' TContext = tables s TContext.
Proof.
  intros H1 H2 Hlt.
  unfold DeserializeContexts_body, or_return, ReadUint32_or_throw, bind, ReadUint32.
  rewrite H1. simpl. rewrite H2.
  apply Z.ltb_lt in Hlt.
  destruct (parent =? 0); simpl; rewrite Hlt.
  - match goal with
    | |- context [Throw ?m ?s0] =>
        destruct (has_error_Throw m s0) as (s' & E & He & Ht)
    end.
    rewrite E. simpl. exists s'. repeat split; [exact He | rewrite Ht; reflexivity].
  - match goal with
    | |- context [Throw ?m ?s0] =>
        destruct (has_error_Throw m s0) as (s' & E & He & Ht)
    end.
    rewrite E. simpl. exists s'. repeat split; [exact He | rewrite Ht; reflexivity].
Qed.

End ContextOrderDecode.



(** ** What a run of the decoder maintains

    The methods of the deserializer are followed one by one with the
    invariant [Inv]: first the rules for the monad, then the primitives, the
    operations on values, the bodies of the table loops, the tables, the
    deferred references and the export installer. *)

Section DecoderInvariant.
Import Codec Flags Deserializer.

(** *** Rules of the monad *)

Lemma triple_ret {A} (P : State -> Prop) (a : A) (Q : A -> State -> Prop) :
  (forall s, P s -> Q a s) -> triple P (ret a) Q.
Proof. intros H s Hs. apply H, Hs. Qed.

Lemma triple_bind {A B} (P : State -> Prop) (m : M A) (R : A -> State -> Prop)
    (k : A -> M B) (Q : B -> State -> Prop) :
  triple P m R -> (forall a, triple (R a) (k a) Q) -> triple P (bind m k) Q.
Proof.
  intros Hm Hk s Hs. unfold bind. specialize (Hm s Hs).
  destruct (m s) as [a s' | f]; [apply Hk, Hm | exact Hm].
Qed.

Lemma triple_conseq {A} (P P' : State -> Prop) (m : M A) (Q Q' : A -> State -> Prop) :
  triple P' m Q' -> (forall s, P s -> P' s) -> (forall a s, Q' a s -> Q a s) ->
  triple P m Q.
Proof.
  intros H HP HQ s Hs. specialize (H s (HP s Hs)).
  destruct (m s); [apply HQ, H | exact H].
Qed.

Lemma triple_pre {A} (P P' : State -> Prop) (m : M A) (Q : A -> State -> Prop) :
  triple P' m Q -> (forall s, P s -> P' s) -> triple P m Q.
Proof. intros H HP. eapply triple_conseq; eauto. Qed.

Lemma triple_post {A} (P : State -> Prop) (m : M A) (Q Q' : A -> State -> Prop) :
  triple P m Q' -> (forall a s, Q' a s -> Q a s) -> triple P m Q.
Proof. intros H HQ. eapply triple_conseq; eauto. Qed.

Lemma triple_gets {A} (P : State -> Prop) (f : State -> A) :
  triple P (gets f) (fun a s => P s /\ a = f s).
Proof. intros s Hs. simpl. auto. Qed.

Lemma triple_modify (P : State -> Prop) (f : State -> State) (Q : unit -> State -> Prop) :
  (forall s, P s -> Q tt (f s)) -> triple P (modify f) Q.
Proof. intros H s Hs. simpl. auto. Qed.

Lemma triple_crash {A} (P : State -> Prop) (f : Fault) (Q : A -> State -> Prop) :
  harmless f -> triple P (crash f) Q.
Proof. intros H s _. exact H. Qed.

Lemma harmless_SlotOutOfBounds : harmless SlotOutOfBounds.
Proof. split; discriminate. Qed.

Lemma harmless_BadCast : harmless BadCast.
Proof. split; discriminate. Qed.

Lemma harmless_Unreachable : harmless Unreachable.
Proof. split; discriminate. Qed.

(** A fact that follows from the precondition may be used as a premise. *)
Lemma triple_derive {A} (P : State -> Prop) (φ : Prop) (m : M A) (Q : A -> State -> Prop) :
  (forall s, P s -> φ) -> (φ -> triple P m Q) -> triple P m Q.
Proof. intros H1 H2 s Hs. apply H2; [eapply H1, Hs | exact Hs]. Qed.

Lemma triple_or_return {A} (P : State -> Prop) (m : M (option A))
    (R : option A -> State -> Prop) (k : A -> M Ctl) (Q : Ctl -> State -> Prop) :
  triple P m R ->
  (forall a, triple (R (Some a)) (k a) Q) ->
  (forall s, R None s -> Q Return s) ->
  triple P (or_return m k) Q.
Proof.
  intros Hm Hk Hn. unfold or_return. eapply triple_bind; [exact Hm |].
  intros [a |]; [apply Hk | apply triple_ret, Hn].
Qed.

(** A loop over a local index that has fuel for all its rounds. *)
Lemma triple_for_range (J : State -> Prop) (n : nat) (i : Z)
    (cond : Z -> State -> bool) (body : Z -> M Ctl) :
  (forall j, i <= j ->
     triple (fun s => J s /\ cond j s = true) (body j) (fun _ => J)) ->
  (forall s, J s -> cond (i + Z.of_nat n) s = false) ->
  triple J (for_range n i cond body) (fun _ => J).
Proof.
  revert i. induction n as [| n IH]; intros i Hb He s Hs; simpl.
  - specialize (He s Hs). rewrite Z.add_0_r in He. rewrite He. exact Hs.
  - destruct (cond i s) eqn:E; [| exact Hs].
    unfold bind. pose proof (Hb i ltac:(lia) s (conj Hs E)) as H.
    destruct (body i s) as [c s' | f]; [| exact H].
    destruct c; [| exact H].
    apply IH; [| | exact H].
    + intros j Hj. apply Hb. lia.
    + intros s0 Hs0. specialize (He s0 Hs0).
      replace (i + 1 + Z.of_nat n) with (i + Z.of_nat (S n)) by lia. exact He.
Qed.

(** A loop whose fuel bounds a measure that every round decreases: [J k]
    holds while there is fuel for [k] more rounds, [R] after a [return]. *)
Lemma triple_loop (J : nat -> State -> Prop) (R : State -> Prop) (n : nat)
    (cond : State -> bool) (body : M Ctl) :
  (forall k, triple (fun s => J (S k) s /\ cond s = true) body
               (fun c s => match c with Next => J k s | Return => R s end)) ->
  (forall s, J 0%nat s -> cond s = false) ->
  triple (J n) (loop n cond body)
    (fun c s => match c with Next => exists k, J k s | Return => R s end).
Proof.
  intros Hb He. induction n as [| n IH]; intros s Hs; simpl.
  - rewrite (He s Hs). exists 0%nat. exact Hs.
  - destruct (cond s) eqn:E; [| exists (S n); exact Hs].
    unfold bind. pose proof (Hb n s (conj Hs E)) as H.
    destruct (body s) as [c s' | f]; [| exact H].
    destruct c; [apply IH, H | exact H].
Qed.

(** A pure part of the precondition becomes a premise. *)
Lemma triple_pure {A} (P : State -> Prop) (φ : Prop) (m : M A) (Q : A -> State -> Prop) :
  (φ -> triple P m Q) -> triple (fun s => P s /\ φ) m Q.
Proof. intros H s [Hs Hp]. apply H; assumption. Qed.

Lemma triple_if {A} (b : bool) (P : State -> Prop) (m1 m2 : M A) (Q : A -> State -> Prop) :
  (b = true -> triple P m1 Q) -> (b = false -> triple P m2 Q) ->
  triple P (if b then m1 else m2) Q.
Proof. destruct b; auto. Qed.

Lemma triple_exists {A B} (P : B -> State -> Prop) (m : M A) (Q : A -> State -> Prop) :
  (forall x, triple (P x) m Q) -> triple (fun s => exists x, P x s) m Q.
Proof. intros H s [x Hs]. eapply H, Hs. Qed.

(** Steps of a proof that follows a method: [tstep] takes the next bound
    call with its lemma, [tor] a call that may leave the method, [tdone] the
    final [ret]. *)
Tactic Notation "tstep" constr(L) :=
  eapply triple_bind; [eapply L | cbv beta; intros ?].
Tactic Notation "tstep" constr(L) "as" ident(x) :=
  eapply triple_bind; [eapply L | cbv beta; intros x].
Tactic Notation "tstep" constr(L) "as" ident(x) ident(H) :=
  eapply triple_bind; [eapply L | cbv beta; intros x; apply triple_pure; intros H].

Ltac tdone := apply triple_ret; cbv beta; intros ? ?; auto.

Tactic Notation "tor" constr(L) "as" ident(x) :=
  eapply triple_or_return;
  [ eapply L
  | cbv beta iota; intros x
  | cbv beta iota; intros ? ?; try assumption ].
Tactic Notation "tor" constr(L) "as" ident(x) ident(H) :=
  eapply triple_or_return;
  [ eapply L
  | cbv beta iota; intros x; apply triple_pure; intros H
  | cbv beta iota; intros ? ?; try assumption ].

(** *** Reading, [Throw] and the primitives *)

Lemma Z_of_byte_range b : 0 <= Z_of_byte b < 256.
Proof.
  unfold Z_of_byte. pose proof (Byte.to_N_bounded b) as H. lia.
Qed.

Lemma Codec_ReadUint32_range b v rest :
  Codec.ReadUint32 b = Some (v, rest) -> 0 <= v < two32.
Proof.
  unfold Codec.ReadUint32.
  destruct b as [| b0 [| b1 [| b2 [| b3 r]]]]; try discriminate.
  intros [= <- <-].
  pose proof (Z_of_byte_range b0). pose proof (Z_of_byte_range b1).
  pose proof (Z_of_byte_range b2). pose proof (Z_of_byte_range b3).
  unfold two32. lia.
Qed.

Lemma has_error_view s s' :
  error_message_ s' = error_message_ s -> has_error s' = has_error s.
Proof. intros H. unfold has_error. rewrite H. reflexivity. Qed.

Lemma Core_view γ X s s' : same_view s s' -> Core γ X s -> Core γ X s'.
Proof.
  intros (V1 & V2 & V3 & V4 & V5 & V6 & V7 & V8) [C1 C2 C3 C4 C5 C6].
  pose proof (has_error_view _ _ V1) as He.
  constructor; unfold pending; rewrite ?He, ?V2, ?V3, ?V5, ?V6; try assumption.
  intros t. rewrite V4. apply C1.
Qed.

Lemma Core_error γ X X' s : Core γ X s -> has_error s = true -> Core γ X' s.
Proof.
  intros [C1 C2 C3 C4 C5 C6] He.
  constructor; try assumption; intros Hne; congruence.
Qed.

(** An event whose check is among [a :: X] has it in [X], or is about what
    [a] is about. *)
Lemma awaits_cons a X e t id :
  awaits (a :: X) e -> ref_of e = Some (t, id) ->
  awaits X e
  \/ a = AwRef t id
  \/ (exists shape, a = AwPrototype shape id /\ e = EvPrototype shape id).
Proof.
  destruct e as [| | t' id' | shape id' | | | | |]; simpl;
    try (intros Hf; destruct Hf; fail).
  - intros [E | H] [= <- <-]; auto.
  - intros [[E | H] | [E | H]] [= <- <-]; eauto.
Qed.

Lemma awaits_nil e : awaits [] e -> False.
Proof. destruct e; simpl; tauto. Qed.

Lemma awaits_weaken X X' e :
  (forall r, In r X -> In r X') -> awaits X e -> awaits X' e.
Proof.
  intros Hx. destruct e; simpl; try (intros Hf; destruct Hf; fail); [auto |].
  intros [H | H]; auto.
Qed.

Lemma dropped_app tr e e' : dropped tr e -> dropped (tr ++ [e']) e.
Proof.
  destruct e; simpl; try (intros Hf; destruct Hf; fail).
  intros H. apply in_or_app. left. exact H.
Qed.

Lemma Core_resolve γ X t id s :
  Core γ (AwRef t id :: X) s -> (has_error s = false -> id < cnts γ t) ->
  Core γ X s.
Proof.
  intros [C1 C2 C3 C4 C5 C6] Hv. constructor; try assumption.
  intros Hne e t' id' Hin Hr.
  destruct (C4 Hne e t' id' Hin Hr) as [Hx | H]; auto.
  destruct (awaits_cons _ _ _ _ _ Hx Hr) as [H | [E | (shape & E & _)]]; auto.
  - injection E as <- <-. right. left. auto.
  - discriminate E.
Qed.

Lemma Core_counts_cnts γ X t id s :
  Core γ X s -> 0 <= id < counts s t -> id < cnts γ t.
Proof.
  intros [C1 C2 C3 C4 C5 C6] H.
  destruct (C3 t) as [E | [E _]]; lia.
Qed.

Lemma Core_weaken γ X X' s :
  Core γ X s -> (forall r, In r X -> In r X') -> Core γ X' s.
Proof.
  intros [C1 C2 C3 C4 C5 C6] Hx. constructor; try assumption.
  intros Hne e t id Hin Hr. destruct (C4 Hne e t id Hin Hr) as [H | H]; auto.
  left. eapply awaits_weaken; eassumption.
Qed.

(** The prototype field of a shape record that is kept awaits the check of
    a reference to an object. *)
Lemma Core_prototype γ X shape id s :
  Core γ (AwPrototype shape id :: X) s -> Core γ (AwRef TObject id :: X) s.
Proof.
  intros [C1 C2 C3 C4 C5 C6]. constructor; try assumption.
  intros Hne e t id' Hin Hr. destruct (C4 Hne e t id' Hin Hr) as [Hx | H]; auto.
  left. destruct (awaits_cons _ _ _ _ _ Hx Hr) as [H | [E | (sh & E & ->)]].
  - eapply awaits_weaken; [| exact H]. intros r Hin'. right. exact Hin'.
  - discriminate E.
  - injection E as <- <-. simpl. right. left. reflexivity.
Qed.

Section Invariant.

Context (D : State -> Prop) (HD : Frame D).

Lemma Inv_view γ X s s' : same_view s s' -> Inv D γ X s -> Inv D γ X s'.
Proof.
  intros V [HC Hd]. split; [eapply Core_view; eassumption |].
  destruct V as (V1 & V2 & V3 & V4 & V5 & V6 & V7 & V8).
  eapply (frame_view D HD); [exact V7 | exact V8 | rewrite V5; reflexivity | exact Hd].
Qed.

Lemma Inv_error γ X X' s : Inv D γ X s -> has_error s = true -> Inv D γ X' s.
Proof. intros [HC Hd] He. split; [eapply Core_error; eassumption | exact Hd]. Qed.

Lemma Inv_resolve γ X t id s :
  Inv D γ (AwRef t id :: X) s -> (has_error s = false -> id < cnts γ t) ->
  Inv D γ X s.
Proof. intros [HC Hd] H. split; [eapply Core_resolve; eassumption | exact Hd]. Qed.

Lemma Inv_prototype γ X shape id s :
  Inv D γ (AwPrototype shape id :: X) s -> Inv D γ (AwRef TObject id :: X) s.
Proof. intros [HC Hd]. split; [eapply Core_prototype, HC | exact Hd]. Qed.

Lemma Inv_resolve_pure γ X t id s :
  id < cnts γ t -> Inv D γ (AwRef t id :: X) s -> Inv D γ X s.
Proof. intros H Hi. eapply Inv_resolve; [exact Hi | auto]. Qed.

Lemma Inv_resolve_count γ X t id s :
  Inv D γ (AwRef t id :: X) s -> 0 <= id < counts s t -> Inv D γ X s.
Proof.
  intros H Hc. eapply Inv_resolve; [exact H |].
  intros ?. destruct H as [HC _]. eapply Core_counts_cnts; eassumption.
Qed.

Lemma Inv_counts_cnts γ X t id s :
  Inv D γ X s -> 0 <= id < counts s t -> id < cnts γ t.
Proof. intros [HC _] H. eapply Core_counts_cnts; eassumption. Qed.

Lemma Inv_currents γ X t s : Inv D γ X s -> currents s t = curs γ t.
Proof. intros [HC _]. apply HC. Qed.

Lemma T_ReadUint32 γ X :
  triple (Inv D γ X) ReadUint32
    (fun r s => Inv D γ X s /\ forall v, r = Some v -> 0 <= v < two32).
Proof.
  intros s Hs. unfold ReadUint32.
  destruct (Codec.ReadUint32 (position_ s)) as [[v rest] |] eqn:E.
  - split.
    + eapply Inv_view; [| exact Hs]. repeat split.
    + intros v' [= <-]. eapply Codec_ReadUint32_range, E.
  - split; [exact Hs | discriminate].
Qed.

Lemma T_ReadZigZag γ X : triple (Inv D γ X) ReadZigZag (fun _ s => Inv D γ X s).
Proof.
  intros s Hs. unfold ReadZigZag.
  destruct (Codec.ReadZigZag (position_ s)) as [[v rest] |]; [| exact Hs].
  eapply Inv_view; [| exact Hs]. repeat split.
Qed.

Lemma T_ReadDouble γ X : triple (Inv D γ X) ReadDouble (fun _ s => Inv D γ X s).
Proof.
  intros s Hs. unfold ReadDouble.
  destruct (Codec.ReadDouble (position_ s)) as [[v rest] |]; [| exact Hs].
  eapply Inv_view; [| exact Hs]. repeat split.
Qed.

Lemma T_ReadUtf8String γ X :
  triple (Inv D γ X) ReadUtf8String (fun _ s => Inv D γ X s).
Proof.
  intros s Hs. unfold ReadUtf8String.
  destruct (Codec.ReadUtf8String (position_ s)) as [[v rest] |]; [| exact Hs].
  eapply Inv_view; [| exact Hs]. repeat split.
Qed.

Lemma T_ReadRawBytes γ X n :
  triple (Inv D γ X) (ReadRawBytes n) (fun _ s => Inv D γ X s).
Proof.
  intros s Hs. unfold ReadRawBytes.
  destruct (Codec.ReadRawBytes n (position_ s)) as [[v rest] |]; [| exact Hs].
  eapply Inv_view; [| exact Hs]. repeat split.
Qed.

Lemma in_app_singleton {A} (x y : A) l : In x (l ++ [y]) -> In x l \/ x = y.
Proof. intros H. apply in_app_or in H as [H | [H | []]]; auto. Qed.

Lemma export_events_app tr e :
  is_export_event e = false -> export_events (tr ++ [e]) = export_events tr.
Proof.
  intros H. unfold export_events. rewrite List.filter_app. simpl. rewrite H.
  apply app_nil_r.
Qed.

Lemma BaseThrow_spec message s :
  exists s', BaseThrow message s = Done tt s'
    /\ has_error s' = true
    /\ tables s' = tables s
    /\ currents s' = currents s
    /\ counts s' = counts s
    /\ heap s' = heap s
    /\ global_dictionary s' = global_dictionary s
    /\ deferred_references_ s' = deferred_references_ s
    /\ export_events (trace s') = export_events (trace s).
Proof.
  unfold BaseThrow, bind, gets. destruct (has_error s) eqn:E.
  - exists s. repeat split. exact E.
  - eexists. split; [reflexivity |]. repeat split.
    apply export_events_app. reflexivity.
Qed.

(** What [Throw] does to a state, whatever the state is. *)
Lemma Throw_spec message s :
  exists s', Throw message s = Done tt s'
    /\ has_error s' = true
    /\ tables s' = tables s
    /\ currents s' = currents s
    /\ (forall t, counts s' t = if Table_eqb t TArray then counts s t else 0)
    /\ heap s' = heap s
    /\ global_dictionary s' = global_dictionary s
    /\ deferred_references_ s' = []
    /\ export_events (trace s') = export_events (trace s).
Proof.
  unfold Throw, bind, set_count, modify.
  match goal with
  | |- context [BaseThrow message ?s0] =>
      destruct (BaseThrow_spec message s0)
        as (s' & H1 & H2 & H3 & H4 & H5 & H6 & H7 & H8 & H9)
  end.
  exists s'. rewrite H1, H3, H4, H5, H6, H7, H8, H9.
  split; [reflexivity |]. split; [exact H2 |].
  repeat split. intros t. destruct t; reflexivity.
Qed.

(** Once an error is recorded the invariant asks little. *)
Lemma Inv_after_error γ X X' s s' :
  Inv D γ X s -> has_error s' = true ->
  (forall t, length (tables s' t) = length (tables s t)) ->
  currents s' = currents s ->
  (forall t, counts s' t = counts s t \/ counts s' t = 0) ->
  (forall r, In r (deferred_references_ s') -> In r (deferred_references_ s)) ->
  heap s' = heap s -> global_dictionary s' = global_dictionary s ->
  export_events (trace s') = export_events (trace s) ->
  Inv D γ X' s'.
Proof.
  intros [[C1 C2 C3 C4 C5 C6] Hd] He Ht Hc Hn Hr Hh Hg Hx. split.
  - constructor.
    + intros t. rewrite Ht. apply C1.
    + intros t. rewrite Hc. apply C2.
    + intros t. destruct (Hn t) as [E | E]; [| right; auto].
      rewrite E. destruct (C3 t) as [H | [H _]]; [left; exact H | right; auto].
    + intros Hne. congruence.
    + intros Hne. congruence.
    + intros c i ty id H. eapply C6, Hr, H.
  - eapply (frame_view D HD); eassumption.
Qed.

Lemma T_Throw γ X X' message :
  triple (Inv D γ X) (Throw message)
    (fun _ s => Inv D γ X' s /\ has_error s = true).
Proof.
  intros s Hs.
  destruct (Throw_spec message s)
    as (s' & -> & He & Ht & Hc & Hn & Hh & Hg & Hr & Hx).
  split; [| exact He].
  eapply Inv_after_error; try eassumption.
  - intros t. rewrite Ht. reflexivity.
  - intros t. rewrite Hn. destruct t; simpl; auto.
  - rewrite Hr. intros r [].
Qed.

Lemma T_BaseThrow γ X X' message :
  triple (Inv D γ X) (BaseThrow message)
    (fun _ s => Inv D γ X' s /\ has_error s = true).
Proof.
  intros s Hs. unfold BaseThrow, bind, gets.
  destruct (has_error s) eqn:E; simpl.
  - split; [eapply Inv_error; eassumption | exact E].
  - split; [| reflexivity].
    eapply Inv_after_error; try exact Hs; try reflexivity; auto.
    simpl. apply export_events_app. reflexivity.
Qed.

Lemma T_Throw' γ X X' message :
  triple (Inv D γ X) (Throw message) (fun _ s => Inv D γ X' s).
Proof. eapply triple_post; [apply T_Throw | intros a s [H _]; exact H]. Qed.

(** [Throw(...); return x;] *)
Lemma T_Throw_ret {A} γ X X' message (a : A) (φ : A -> Prop) :
  φ a ->
  triple (Inv D γ X) (do Throw message ;;; ret a) (fun r s => Inv D γ X' s /\ φ r).
Proof.
  intros Ha. eapply triple_bind; [apply (T_Throw' γ X X') |].
  intros ?. apply triple_ret. auto.
Qed.

Lemma T_Throw_ret' {A} γ X X' message (a : A) :
  triple (Inv D γ X) (do Throw message ;;; ret a) (fun r s => Inv D γ X' s).
Proof.
  eapply triple_bind; [apply (T_Throw' γ X X') |].
  intros ?. apply triple_ret. auto.
Qed.

Lemma T_gets_counts γ X t :
  triple (Inv D γ X) (gets (fun s => counts s t))
    (fun c s => Inv D γ X s /\ (c = cnts γ t \/ c = 0)).
Proof.
  intros s Hs. simpl. split; [exact Hs |].
  destruct Hs as [HC _]. destruct (core_cnts _ _ _ HC t) as [E | [E _]]; auto.
Qed.

Lemma T_gets_currents γ X t :
  triple (Inv D γ X) (gets (fun s => currents s t))
    (fun c s => Inv D γ X s /\ c = curs γ t).
Proof.
  intros s Hs. simpl. split; [exact Hs |].
  destruct Hs as [HC _]. apply HC.
Qed.

(** An event that is appended: what held for the events before it holds
    for them after it, and the new event is accounted for by [H]. *)
Lemma Inv_emit γ X X' e0 s :
  is_export_event e0 = false ->
  (forall n t, e0 <> EvAllocTable t n) ->
  (forall e, awaits X e -> awaits X' e \/ dropped (trace s ++ [e0]) e) ->
  (forall t id, ref_of e0 = Some (t, id) -> awaits X' e0) ->
  Inv D γ X s -> Inv D γ X' (set_trace (trace s ++ [e0]) s).
Proof.
  intros Hex Hal Hx Hnew [[C1 C2 C3 C4 C5 C6] Hd]. split.
  - constructor; simpl; try assumption.
    + intros Hne e t' id' Hin Hr. change (has_error s = false) in Hne.
      apply in_app_singleton in Hin as [Hin | ->].
      * destruct (C4 Hne e t' id' Hin Hr) as [H | [H | [H | H]]].
        -- destruct (Hx e H) as [H' | H']; auto.
        -- right. left. exact H.
        -- right. right. left. exact H.
        -- right. right. right. apply dropped_app, H.
      * left. eapply Hnew, Hr.
    + intros Hne t' Hp. apply in_or_app. left. apply C5; assumption.
  - eapply (frame_view D HD); [| | | exact Hd]; try reflexivity.
    simpl. apply export_events_app. exact Hex.
Qed.

Lemma T_emit_ref γ X t id :
  triple (Inv D γ X) (emit (EvReference t id)) (fun _ s => Inv D γ (AwRef t id :: X) s).
Proof.
  intros s Hs. simpl. eapply Inv_emit; [reflexivity | discriminate | | | exact Hs].
  - intros e H. left. eapply awaits_weaken; [| exact H]. intros r Hr. right. exact Hr.
  - intros t' id' _. simpl. left. reflexivity.
Qed.

Lemma T_emit_prototype γ X shape id :
  triple (Inv D γ X) (emit (EvPrototype shape id))
    (fun _ s => Inv D γ (AwPrototype shape id :: X) s).
Proof.
  intros s Hs. simpl. eapply Inv_emit; [reflexivity | discriminate | | | exact Hs].
  - intros e H. left. eapply awaits_weaken; [| exact H]. intros r Hr. right. exact Hr.
  - intros t' id' _. simpl. left. left. reflexivity.
Qed.

(** The shape record [shape] has no property: its prototype field, if it has
    one, is dropped; no other check is given up. *)
Lemma T_emit_empty_shape γ X shape (pending_prototype : option Z) :
  triple (Inv D γ (match pending_prototype with
                   | Some id => AwPrototype shape id :: X
                   | None => X
                   end))
    (emit (EvEmptyShape shape)) (fun _ s => Inv D γ X s).
Proof.
  intros s Hs. simpl. eapply Inv_emit; [reflexivity | discriminate | | | exact Hs].
  - intros e H. destruct pending_prototype as [id |]; [| left; exact H].
    destruct e as [| | t' id' | shape' id' | | | | |]; simpl in H;
      try (destruct H; fail).
    + destruct H as [E | H]; [discriminate E | left; exact H].
    + destruct H as [[E | H] | [E | H]].
      * injection E as <- <-. right. simpl. apply in_or_app. right. left. reflexivity.
      * left. left. exact H.
      * discriminate E.
      * left. right. exact H.
  - intros t' id' Hr. discriminate Hr.
Qed.

Lemma T_AddDeferredReference γ X container index ty t id :
  table_of ty = Some t -> 0 <= id -> container = None \/ closed γ = false ->
  triple (Inv D γ (AwRef t id :: X))
    (AddDeferredReference container index ty id) (fun _ s => Inv D γ X s).
Proof.
  intros Hty Hid Hc. unfold AddDeferredReference.
  destruct container as [c |].
  - destruct Hc as [Hc | Hc]; [discriminate |].
    eapply triple_bind; [| intros ?; apply triple_ret; intros s H; exact H].
    apply triple_modify. intros s [[C1 C2 C3 C4 C5 C6] Hd]. split.
    + constructor; simpl; try assumption.
      * intros Hne e t' id' Hin Hr. change (has_error s = false) in Hne.
        assert (Hnow : closed γ = false
                       /\ pending (set_deferred_references_
                                     (deferred_references_ s ++ [(c, index, ty, id)]) s)
                                  t id).
        { split; [exact Hc |]. exists c, index, ty. split; [| exact Hty].
          simpl. apply in_or_app. right. left. reflexivity. }
        destruct (C4 Hne e t' id' Hin Hr) as [Hx | [H | [[Hcl H] | H]]].
        -- destruct (awaits_cons _ _ _ _ _ Hx Hr) as [H | [E | (shape & E & _)]].
           ++ left. exact H.
           ++ injection E as <- <-. right. right. left. exact Hnow.
           ++ discriminate E.
        -- right. left. exact H.
        -- right. right. left. split; [exact Hc |].
           destruct H as (c' & i' & ty' & H & Ht).
           exists c', i', ty'. split; [| exact Ht].
           simpl. apply in_or_app. left. exact H.
        -- right. right. right. exact H.
      * intros c' i' ty' id' Hin.
        apply in_app_singleton in Hin as [Hin | Hin]; [eapply C6, Hin |].
        injection Hin as _ _ _ ->. exact Hid.
    + eapply (frame_view D HD); [| | | exact Hd]; reflexivity.
  - apply T_Throw_ret'.
Qed.

Lemma T_table_get γ X t i :
  0 <= i < Z.of_nat (lens γ t) ->
  triple (Inv D γ X) (table_get t i) (fun _ s => Inv D γ X s).
Proof.
  intros Hi s Hs. unfold table_get, in_bounds.
  destruct Hs as [HC Hd]. pose proof (core_lens _ _ _ HC t) as Hl.
  rewrite Hl.
  replace (0 <=? i) with true by (symmetry; apply Z.leb_le; lia).
  replace (i <? Z.of_nat (lens γ t)) with true by (symmetry; apply Z.ltb_lt; lia).
  simpl. split; assumption.
Qed.

Lemma T_table_set γ X t i v :
  0 <= i < Z.of_nat (lens γ t) ->
  triple (Inv D γ X) (table_set t i v) (fun _ s => Inv D γ X s).
Proof.
  intros Hi s Hs. unfold table_set, in_bounds.
  pose proof (core_lens _ _ _ (proj1 Hs) t) as Hl. rewrite Hl.
  replace (0 <=? i) with true by (symmetry; apply Z.leb_le; lia).
  replace (i <? Z.of_nat (lens γ t)) with true by (symmetry; apply Z.ltb_lt; lia).
  simpl. eapply Inv_view; [| exact Hs].
  repeat split. intros t'. simpl. unfold upd.
  destruct (Table_eqb t t') eqn:E; [| reflexivity].
  assert (t = t') as <- by (destruct t, t'; simpl in E; congruence).
  apply length_insert.
Qed.

Lemma Core_heap γ X h s : Core γ X s -> Core γ X (set_heap h s).
Proof. intros [C1 C2 C3 C4 C5 C6]. constructor; assumption. Qed.

Lemma T_allocate γ X o :
  triple (Inv D γ X) (allocate o) (fun _ s => Inv D γ X s).
Proof.
  intros s [HC Hd]. simpl. split; [apply Core_heap, HC |].
  apply (frame_alloc D HD), Hd.
Qed.

Lemma T_heap_get γ X a :
  triple (Inv D γ X) (heap_get a) (fun o s => Inv D γ X s /\ heap s !! a = Some o).
Proof.
  intros s Hs. unfold heap_get.
  destruct (heap s !! a) eqn:E;
    [split; [exact Hs | exact E] | exact harmless_BadCast].
Qed.

Lemma T_heap_set γ X a o o0 :
  is_dictionary o0 = false ->
  triple (fun s => Inv D γ X s /\ heap s !! a = Some o0) (heap_set a o)
    (fun _ s => Inv D γ X s /\ heap s !! a = Some o).
Proof.
  intros Ho s [[HC Hd] Ha]. simpl. split; [split |].
  - apply Core_heap, HC.
  - eapply (frame_set D HD); eassumption.
  - apply list_lookup_insert_eq. eapply lookup_lt_Some, Ha.
Qed.

Lemma T_cast_ref (P : State -> Prop) v :
  triple P (cast_ref v) (fun _ s => P s).
Proof. destruct v; simpl; try (apply triple_crash; split; discriminate). apply triple_ret. auto. Qed.

(** *** Writes into the heap *)

Lemma T_heap_set' γ X a o o0 :
  is_dictionary o0 = false ->
  triple (fun s => Inv D γ X s /\ heap s !! a = Some o0) (heap_set a o)
    (fun _ s => Inv D γ X s).
Proof.
  intros Ho. eapply triple_post; [apply (T_heap_set γ X a o o0 Ho) |].
  intros _ s [H _]. exact H.
Qed.

Lemma T_store_slot γ X container index v :
  triple (Inv D γ X) (store_slot container index v) (fun _ s => Inv D γ X s).
Proof.
  unfold store_slot. eapply triple_bind; [apply T_heap_get |].
  intros o. destruct o; try (apply triple_crash; split; discriminate);
    match goal with
    | |- context [in_bounds ?i ?l] => destruct (in_bounds i l)
    end; try (apply triple_crash; split; discriminate);
    (eapply T_heap_set'; reflexivity).
Qed.

Lemma T_scope_info_set γ X scope_info index v :
  triple (Inv D γ X) (scope_info_set scope_info index v) (fun _ s => Inv D γ X s).
Proof.
  unfold scope_info_set. eapply triple_bind; [apply T_heap_get |].
  intros o. destruct o; try (apply triple_crash; split; discriminate).
  match goal with
  | |- context [in_bounds ?i ?l] => destruct (in_bounds i l)
  end; [eapply T_heap_set'; reflexivity | apply triple_crash; split; discriminate].
Qed.

Lemma T_set_prototype γ X map proto :
  triple (Inv D γ X) (set_prototype map proto) (fun _ s => Inv D γ X s).
Proof.
  unfold set_prototype. eapply triple_bind; [apply T_heap_get |].
  intros o. destruct o; try (apply triple_crash; split; discriminate).
  eapply T_heap_set'; reflexivity.
Qed.

Lemma T_set_context γ X function context :
  triple (Inv D γ X) (set_context function context) (fun _ s => Inv D γ X s).
Proof.
  unfold set_context. eapply triple_bind; [apply T_heap_get |].
  intros o. destruct o; try (apply triple_crash; split; discriminate).
  eapply T_heap_set'; reflexivity.
Qed.

Lemma T_SetFunctionPrototype γ X function prototype :
  triple (Inv D γ X) (SetFunctionPrototype function prototype)
    (fun _ s => Inv D γ X s).
Proof.
  unfold SetFunctionPrototype. eapply triple_bind; [apply T_heap_get |].
  intros p. destruct p; try (intros s _; split; discriminate).
  eapply triple_pre; [| intros s [H _]; exact H].
  eapply triple_bind; [apply T_heap_get |].
  intros m. destruct m; try (intros s _; split; discriminate).
  eapply triple_bind; [eapply T_heap_set; reflexivity |].
  intros ?. destruct constructor_or_back_pointer.
  - apply triple_ret. intros s [H _]. exact H.
  - eapply triple_bind; [eapply T_heap_set'; reflexivity |].
    intros ?. eapply triple_bind; [apply T_heap_get |].
    intros f. destruct f; try (intros s _; split; discriminate).
    eapply triple_bind; [eapply T_heap_set'; reflexivity |].
    intros ?. apply triple_ret. auto.
Qed.

(** *** Operations on values *)

Lemma T_Throw_none {A} γ X X' message (Q : A -> State -> Prop) :
  triple (Inv D γ X) (do Throw message ;;; ret None)
    (fun r s => match r with Some v => Q v s | None => Inv D γ X' s end).
Proof.
  eapply triple_bind; [apply (T_Throw' γ X X') |].
  intros ?. apply triple_ret. auto.
Qed.

Lemma T_ReadUint32_or_throw γ X X' message :
  triple (Inv D γ X) (ReadUint32_or_throw message)
    (fun r s => match r with
                | Some v => Inv D γ X s /\ 0 <= v < two32
                | None => Inv D γ X' s
                end).
Proof.
  unfold ReadUint32_or_throw. tstep T_ReadUint32 as r Hr.
  destruct r as [v |].
  - apply triple_ret. intros s Hs. split; [exact Hs | apply Hr; reflexivity].
  - apply (T_Throw_none γ X X').
Qed.

Lemma T_throw_if γ X X' bad message :
  triple (Inv D γ X) (throw_if bad message)
    (fun r s => match r with
                | Some _ => Inv D γ X s /\ bad = false
                | None => Inv D γ X' s
                end).
Proof.
  unfold throw_if. destruct bad.
  - apply (T_Throw_none γ X X').
  - tdone.
Qed.

Lemma T_FunctionFlagsToFunctionKind cfg γ X flags :
  triple (Inv D γ X) (FunctionFlagsToFunctionKind cfg flags) (fun _ s => Inv D γ X s).
Proof.
  unfold FunctionFlagsToFunctionKind.
  destruct (Flags.FunctionFlagsToFunctionKind flags) as [kind [message |]].
  - eapply triple_bind with (R := fun _ s => Inv D γ X s); [| intros ?; tdone].
    destruct (Throw_is_overridden cfg).
    + apply T_Throw'.
    + eapply triple_post; [apply (T_BaseThrow γ X X) | intros a s [H _]; exact H].
  - tdone.
Qed.

Section Operations.

Context (cfg : Config) (γ : Ghost) (Hwf : WF γ).

Lemma cnts_lens t i : i < cnts γ t -> i < Z.of_nat (lens γ t).
Proof. destruct (Hwf t) as (_ & H & _). lia. Qed.

Lemma curs_lens t i : i < curs γ t -> i < Z.of_nat (lens γ t).
Proof. destruct (Hwf t) as (H1 & H & _). lia. Qed.

Lemma curs_cnts t i : i < curs γ t -> i < cnts γ t.
Proof. destruct (Hwf t) as (H1 & _). lia. Qed.

Lemma T_ReadString X internalize :
  triple (Inv D γ X) (ReadString internalize) (fun _ s => Inv D γ X s).
Proof.
  unfold ReadString. tstep T_ReadUint32 as r Hr.
  tstep T_gets_counts as string_count Hc.
  destruct r as [id |]; [| apply T_Throw_ret'].
  destruct (Hr id eq_refl) as [Hlo Hhi].
  tstep T_emit_ref.
  destruct (string_count <=? id) eqn:E; [apply T_Throw_ret' |].
  apply Z.leb_gt in E.
  assert (Hid : id < cnts γ TString) by (destruct Hc; lia).
  eapply triple_pre; [| intros s Hs; eapply Inv_resolve_pure; [exact Hid | exact Hs]].
  pose proof (cnts_lens _ _ Hid) as Hl.
  tstep T_table_get as v; [lia |].
  destruct v; try (apply triple_crash; split; discriminate).
  eapply triple_bind with (R := fun _ s => Inv D γ X s); [| intros ?; tdone].
  destruct internalize; [apply T_table_set; lia | tdone].
Qed.

Lemma T_ReadValue_id X t ty strict limit message container index :
  table_of ty = Some t -> container = None \/ closed γ = false ->
  triple (Inv D γ X)
    (ReadValue_id t ty strict limit message container index)
    (fun _ s => Inv D γ X s).
Proof.
  intros Hty Hc. unfold ReadValue_id. tstep T_ReadUint32 as r Hr.
  destruct r as [id |]; [| apply T_Throw_ret'].
  destruct (Hr id eq_refl) as [Hlo Hhi].
  tstep T_emit_ref.
  destruct (if strict then limit <=? id else limit <? id); [apply T_Throw_ret' |].
  tstep T_gets_currents as current Hcur. subst current.
  destruct (id <? curs γ t) eqn:E.
  - apply Z.ltb_lt in E. pose proof (curs_lens _ _ E) as Hl.
    eapply triple_pre; [apply T_table_get; lia |].
    intros s Hs. eapply Inv_resolve_pure; [| exact Hs].
    apply curs_cnts, E.
  - apply T_AddDeferredReference; assumption.
Qed.

Lemma T_ReadValue X container index :
  container = None \/ closed γ = false ->
  triple (Inv D γ X) (ReadValue cfg container index) (fun _ s => Inv D γ X s).
Proof.
  intros Hc. unfold ReadValue. tstep T_ReadUint32 as r Hr.
  destruct r as [value_type |]; [| apply T_Throw_ret'].
  destruct (ValueType_of_Z value_type) as [ty |]; [| apply T_Throw_ret'].
  destruct ty; try tdone.
  - tstep T_ReadZigZag as n. destruct n; [tdone | apply T_Throw_ret'].
  - tstep T_ReadDouble as d. destruct d; [tdone | apply T_Throw_ret'].
  - tstep T_ReadString. tdone.
  - apply T_ReadValue_id; [reflexivity | exact Hc].
  - apply T_ReadValue_id; [reflexivity | exact Hc].
  - tstep T_gets_counts. apply triple_pure. intros ?.
    apply T_ReadValue_id; [reflexivity | exact Hc].
  - apply T_ReadValue_id; [reflexivity | exact Hc].
  - tstep T_ReadString as pattern. tstep T_ReadString as flags_string.
    destruct (FlagsFromString cfg flags_string) as [flags |]; [| apply T_Throw_ret'].
    destruct (RegExpNew cfg pattern flags); [| apply T_Throw_ret'].
    tstep T_allocate. tdone.
Qed.

Lemma T_read_context_id X X' message :
  triple (Inv D γ X) (read_context_id message)
    (fun r s => match r with
                | Some v => Inv D γ X s /\ 0 <= v <= cnts γ TContext
                | None => Inv D γ X' s
                end).
Proof.
  unfold read_context_id. tstep T_ReadUint32 as r Hr.
  destruct r as [cid |]; [| apply (T_Throw_none γ X X')].
  destruct (Hr cid eq_refl) as [Hlo Hhi].
  eapply triple_bind with
    (R := fun _ s => Inv D γ (if cid =? 0 then X else AwRef TContext (cid - 1) :: X) s).
  { destruct (cid =? 0); [tdone | apply T_emit_ref]. }
  intros ?. tstep T_gets_counts as context_count Hcc.
  destruct (context_count <? cid) eqn:E; [apply (T_Throw_none γ _ X') |].
  apply Z.ltb_ge in E.
  assert (Hc : cid <= cnts γ TContext).
  { destruct Hcc as [-> | ->]; [exact E |]. destruct (Hwf TContext) as (? & _). lia. }
  apply triple_ret. intros s Hs. split; [| lia].
  destruct (cid =? 0); [exact Hs |].
  eapply Inv_resolve_pure; [| exact Hs]. lia.
Qed.

Lemma T_read_function_fields X X' message :
  triple (Inv D γ X) (read_function_fields message)
    (fun r s => match r with
                | Some _ => Inv D γ X s
                | None => Inv D γ X' s
                end).
Proof.
  unfold read_function_fields.
  tstep T_ReadUint32 as r1 H1. destruct r1; [| apply (T_Throw_none γ X X')].
  tstep T_ReadUint32 as r2 H2. destruct r2; [| apply (T_Throw_none γ X X')].
  tstep T_ReadUint32 as r3 H3. destruct r3; [| apply (T_Throw_none γ X X')].
  tstep T_ReadUint32 as r4 H4. destruct r4; [| apply (T_Throw_none γ X X')].
  tdone.
Qed.

Lemma T_CreateScopeInfo X variable_count has_parent context_type :
  triple (Inv D γ X) (CreateScopeInfo cfg variable_count has_parent context_type)
    (fun _ s => Inv D γ X s).
Proof.
  unfold CreateScopeInfo.
  eapply triple_bind with (R := fun _ s => Inv D γ X s).
  { destruct (context_type =? ContextType_FUNCTION); [tdone |].
    destruct (context_type =? ContextType_BLOCK); [tdone |].
    apply T_Throw_ret'. }
  intros scope_type. cbv zeta. tstep T_allocate as scope_info.
  match goal with
  | |- context [if ?b then crash _ else _] => destruct b
  end; [apply triple_crash, harmless_SlotOutOfBounds | tdone].
Qed.

Lemma T_read_local_names X n variable_index scope_info base info_base names :
  triple (Inv D γ X)
    (read_local_names cfg n variable_index scope_info base info_base names)
    (fun _ s => Inv D γ X s).
Proof.
  revert variable_index names.
  induction n as [| n IH]; intros variable_index names; simpl; [tdone |].
  tstep T_ReadString. tstep T_scope_info_set. tstep T_scope_info_set. apply IH.
Qed.

Lemma T_read_local_values X n variable_index context :
  closed γ = false ->
  triple (Inv D γ X) (read_local_values cfg n variable_index context)
    (fun _ s => Inv D γ X s).
Proof.
  intros Hc. revert variable_index.
  induction n as [| n IH]; intros variable_index; simpl; [tdone |].
  tstep T_ReadValue; [right; exact Hc |].
  tstep T_store_slot. apply IH.
Qed.

Lemma T_read_properties X n i property_array :
  closed γ = false ->
  triple (Inv D γ X) (read_properties cfg n i property_array)
    (fun _ s => Inv D γ X s).
Proof.
  intros Hc. revert i. induction n as [| n IH]; intros i; simpl; [tdone |].
  tstep T_ReadValue; [right; exact Hc |].
  tstep T_store_slot. apply IH.
Qed.

Lemma T_read_elements X n i elements :
  closed γ = false ->
  triple (Inv D γ X) (read_elements cfg n i elements)
    (fun _ s => Inv D γ X s).
Proof.
  intros Hc. revert i. induction n as [| n IH]; intros i; simpl; [tdone |].
  tstep T_ReadValue; [right; exact Hc |].
  tstep T_store_slot. apply IH.
Qed.

Lemma T_read_descriptors X X' n i custom descriptors :
  triple (Inv D γ X) (read_descriptors n i custom descriptors)
    (fun r s => match r with
                | Some _ => Inv D γ X s
                | None => Inv D γ X' s
                end).
Proof.
  revert i descriptors. induction n as [| n IH]; intros i descriptors; simpl; [tdone |].
  eapply triple_bind with
    (R := fun r s => match r with
                     | Some _ => Inv D γ X s
                     | None => Inv D γ X' s
                     end).
  - destruct custom; [| tdone].
    eapply triple_bind; [apply (T_ReadUint32_or_throw γ X X') |].
    intros [flags |]; [apply triple_ret; intros s [H _]; exact H | tdone].
  - intros [attributes |]; [| tdone].
    tstep T_ReadString. apply IH.
Qed.

Lemma T_CreateJSFunction X index start_position length parameter_count flags context_id :
  0 <= context_id <= cnts γ TContext ->
  triple (Inv D γ X)
    (CreateJSFunction cfg index start_position length parameter_count flags context_id)
    (fun _ s => Inv D γ X s).
Proof.
  intros Hc. unfold CreateJSFunction.
  tstep T_FunctionFlagsToFunctionKind as kind. tstep T_allocate as function.
  eapply triple_bind with (R := fun _ s => Inv D γ X s); [| intros ?; tdone].
  destruct (0 <? context_id) eqn:E; [| tdone].
  apply Z.ltb_lt in E.
  assert (context_id - 1 < Z.of_nat (lens γ TContext)) by (apply cnts_lens; lia).
  tstep T_table_get as v; [lia |].
  eapply triple_bind; [apply T_cast_ref |]. intros context.
  apply T_set_context.
Qed.

Lemma T_ReadFunctionPrototype X function :
  closed γ = false ->
  triple (Inv D γ X) (ReadFunctionPrototype cfg function) (fun _ s => Inv D γ X s).
Proof.
  intros Hcl. unfold ReadFunctionPrototype. tstep T_ReadUint32 as r Hr.
  destruct r as [object_id |]; [| apply T_Throw'].
  destruct (Hr object_id eq_refl) as [Hlo Hhi].
  destruct (object_id =? 0) eqn:E0.
  - eapply triple_bind with (R := fun _ s => Inv D γ X s); [tdone |]. intros ?.
    destruct (kMaxItemCount cfg + 1 <? object_id); [apply T_Throw' | tdone].
  - apply Z.eqb_neq in E0. tstep T_emit_ref.
    destruct (kMaxItemCount cfg + 1 <? object_id); [apply T_Throw' |].
    tstep T_gets_currents as current Hcur. subst current.
    destruct (object_id - 1 <? curs γ TObject) eqn:E.
    + apply Z.ltb_lt in E. pose proof (curs_lens _ _ E) as Hl.
      eapply triple_pre;
        [| intros s Hs; eapply Inv_resolve_pure; [| exact Hs]; apply curs_cnts, E].
      tstep T_table_get as v; [lia |].
      eapply triple_bind; [apply T_cast_ref |]. intros prototype.
      tstep T_SetFunctionPrototype as ok.
      destruct ok; [tdone | apply T_Throw'].
    + eapply triple_bind with (R := fun _ s => Inv D γ X s); [| intros ?; tdone].
      apply T_AddDeferredReference; [reflexivity | lia | right; exact Hcl].
Qed.

(** *** The bodies of the table loops *)

Lemma T_DeserializeMaps_body X i :
  closed γ = false -> 0 <= i < cnts γ TMap ->
  triple (Inv D γ X) (DeserializeMaps_body cfg i) (fun _ s => Inv D γ X s).
Proof.
  intros Hcl Hi. pose proof (cnts_lens TMap i ltac:(lia)) as Hl.
  unfold DeserializeMaps_body.
  tor (T_ReadUint32_or_throw γ X X) as map_type Hmt.
  eapply triple_or_return with (R := fun _ s => Inv D γ X s);
    [| | intros s Hs; exact Hs].
  { destruct (map_type =? PropertyAttributesType_DEFAULT); [tdone |].
    destruct (map_type =? PropertyAttributesType_CUSTOM); [tdone |].
    apply T_Throw_ret'. }
  intros custom.
  eapply triple_or_return with
    (R := fun r s =>
            match r with
            | None => Inv D γ X s
            | Some pid =>
                Inv D γ (if pid =? 0 then X else AwPrototype i (pid - 1) :: X) s
                /\ 0 <= pid
            end);
    [| | intros s Hs; exact Hs].
  { tstep T_ReadUint32 as r Hr. destruct r as [pid |]; [| apply (T_Throw_none γ X X)].
    destruct (Hr pid eq_refl) as [Hlo Hhi].
    eapply triple_bind with
      (R := fun _ s => Inv D γ (if pid =? 0 then X else AwPrototype i (pid - 1) :: X) s).
    { destruct (pid =? 0); [tdone | apply T_emit_prototype]. }
    intros ?. destruct (kMaxItemCount cfg <? pid); [apply (T_Throw_none γ _ X) |].
    apply triple_ret. intros s Hs. split; [exact Hs | exact Hlo]. }
  intros pid. apply triple_pure. intros Hpid.
  set (X1 := if pid =? 0 then X else AwPrototype i (pid - 1) :: X).
  tor (T_ReadUint32_or_throw γ X1 X) as property_count Hpc.
  tor (T_throw_if γ X1 X) as u Hu.
  destruct (property_count =? 0).
  - eapply triple_bind with (R := fun _ s => Inv D γ X s).
    { subst X1. destruct (pid =? 0);
        [apply (T_emit_empty_shape γ X i None)
        | apply (T_emit_empty_shape γ X i (Some (pid - 1)))]. }
    intros ?. tstep T_table_set; [lia |]. tdone.
  - tor (T_read_descriptors X1 X) as descriptors.
    tstep T_allocate as map.
    eapply triple_bind with (R := fun _ s => Inv D γ X s).
    { subst X1. destruct (pid =? 0) eqn:E0; [apply T_set_prototype |].
      eapply triple_pre; [| intros s Hs; exact (Inv_prototype _ _ _ _ _ Hs)].
      apply Z.eqb_neq in E0. tstep T_gets_currents as current Hcur. subst current.
      destruct (pid - 1 <? curs γ TObject) eqn:E.
      - apply Z.ltb_lt in E. pose proof (curs_lens _ _ E) as Hl'.
        eapply triple_pre;
          [| intros s Hs; eapply Inv_resolve_pure; [| exact Hs]; apply curs_cnts, E].
        tstep T_table_get as v; [lia |].
        eapply triple_bind; [apply T_cast_ref |]. intros o.
        apply T_set_prototype.
      - eapply triple_bind with (R := fun _ s => Inv D γ X s); [| intros ?; tdone].
        apply T_AddDeferredReference; [reflexivity | lia | right; exact Hcl]. }
    intros ?. tstep T_table_set; [lia |]. tdone.
Qed.

Lemma T_DeserializeContexts_body X i :
  closed γ = false -> 0 <= i < cnts γ TContext ->
  triple (Inv D γ X) (DeserializeContexts_body cfg i) (fun _ s => Inv D γ X s).
Proof.
  intros Hcl Hi. pose proof (cnts_lens TContext i ltac:(lia)) as Hl.
  unfold DeserializeContexts_body.
  tor (T_ReadUint32_or_throw γ X X) as context_type Hct.
  eapply triple_or_return with
    (R := fun r s => match r with
                     | Some p => Inv D γ X s /\ 0 <= p <= i
                     | None => Inv D γ X s
                     end);
    [| | intros s Hs; exact Hs].
  { tstep T_ReadUint32 as r Hr. destruct r as [p |]; [| apply (T_Throw_none γ X X)].
    destruct (Hr p eq_refl) as [Hlo Hhi].
    eapply triple_bind with
      (R := fun _ s => Inv D γ (if p =? 0 then X else AwRef TContext (p - 1) :: X) s).
    { destruct (p =? 0); [tdone | apply T_emit_ref]. }
    intros ?. destruct (i <? p) eqn:E; [apply (T_Throw_none γ _ X) |].
    apply Z.ltb_ge in E. apply triple_ret. intros s Hs. split; [| lia].
    destruct (p =? 0); [exact Hs |].
    eapply Inv_resolve_pure; [| exact Hs]. lia. }
  intros parent_context_id. apply triple_pure. intros Hp.
  tor (T_ReadUint32_or_throw γ X X) as variable_count Hvc.
  tstep T_CreateScopeInfo as scope_info.
  eapply triple_bind with (R := fun _ s => Inv D γ X s).
  { destruct (0 <? parent_context_id) eqn:E; [| tdone].
    apply Z.ltb_lt in E.
    assert (parent_context_id - 1 < Z.of_nat (lens γ TContext)) by lia.
    tstep T_table_get as v; [lia |].
    eapply triple_bind; [apply T_cast_ref |]. intros parent.
    eapply triple_bind; [apply T_heap_get |]. intros o.
    destruct o; try (apply triple_crash; split; discriminate).
    apply triple_ret. intros s [Hs _]. exact Hs. }
  intros parent_context. cbv zeta.
  tstep T_read_local_names as names.
  eapply triple_or_return with (R := fun _ s => Inv D γ X s);
    [| | intros s Hs; exact Hs].
  { destruct ((context_type =? ContextType_FUNCTION) || (context_type =? ContextType_BLOCK));
      [tdone | apply T_Throw_ret']. }
  intros ?. tstep T_allocate as context.
  tstep T_read_local_values; [exact Hcl |].
  tstep T_table_set; [lia |]. tdone.
Qed.

Lemma T_set_script_source X source :
  triple (Inv D γ X) (modify (set_script_source_ source)) (fun _ s => Inv D γ X s).
Proof.
  apply triple_modify. intros s Hs. eapply Inv_view; [| exact Hs]. repeat split.
Qed.

Lemma T_DeserializeFunctions_body X :
  closed γ = false -> curs γ TFunction < cnts γ TFunction ->
  triple (Inv D γ X) (DeserializeFunctions_body cfg) (fun _ s => Inv D γ X s).
Proof.
  intros Hcl Hi.
  pose proof (cnts_lens TFunction _ Hi) as Hl.
  destruct (Hwf TFunction) as ((Hc0 & _) & _).
  unfold DeserializeFunctions_body.
  tor (T_read_context_id X X) as context_id Hcid.
  tstep T_ReadString as source.
  tstep T_gets_currents as c1 Hc1.
  eapply triple_bind with (R := fun _ s => Inv D γ X s).
  { destruct (c1 =? 0); [apply T_set_script_source | tdone]. }
  intros ?. tor (T_read_function_fields X X) as fields.
  destruct fields as [[[start_position length] parameter_count] flags].
  tstep T_gets_currents as c2 Hc2.
  tstep T_CreateJSFunction as function; [exact Hcid |].
  tstep T_gets_currents as c3 Hc3. subst c3.
  tstep T_table_set; [lia |].
  tstep T_ReadFunctionPrototype; [exact Hcl |]. tdone.
Qed.

Lemma T_DeserializeClasses_body X :
  closed γ = false -> curs γ TClass < cnts γ TClass ->
  triple (Inv D γ X) (DeserializeClasses_body cfg) (fun _ s => Inv D γ X s).
Proof.
  intros Hcl Hi.
  pose proof (cnts_lens TClass _ Hi) as Hl.
  destruct (Hwf TClass) as ((Hc0 & _) & _).
  unfold DeserializeClasses_body.
  tor (T_read_context_id X X) as context_id Hcid.
  tstep T_ReadString as source.
  tstep T_gets_currents as c1 Hc1. tstep T_gets_currents as c2 Hc2.
  eapply triple_bind with (R := fun _ s => Inv D γ X s).
  { destruct (wrap32 (c1 + c2) =? 0); [apply T_set_script_source | tdone]. }
  intros ?. tor (T_read_function_fields X X) as fields.
  destruct fields as [[[start_position length] parameter_count] flags].
  tstep T_gets_counts as function_count Hfc. tstep T_gets_currents as c3 Hc3.
  tstep T_CreateJSFunction as function; [exact Hcid |].
  tstep T_gets_currents as c4 Hc4. subst c4.
  tstep T_table_set; [lia |].
  tstep T_ReadFunctionPrototype; [exact Hcl |]. tdone.
Qed.

Lemma T_DeserializeObjects_body X :
  closed γ = false -> curs γ TObject < cnts γ TObject ->
  triple (Inv D γ X) (DeserializeObjects_body cfg) (fun _ s => Inv D γ X s).
Proof.
  intros Hcl Hi.
  pose proof (cnts_lens TObject _ Hi) as Hl.
  destruct (Hwf TObject) as ((Hc0 & _) & _).
  unfold DeserializeObjects_body.
  eapply triple_or_return with
    (R := fun r s => match r with
                     | Some m => Inv D γ X s /\ 0 <= m < cnts γ TMap
                     | None => Inv D γ X s
                     end);
    [| | intros s Hs; exact Hs].
  { tstep T_ReadUint32 as r Hr.
    destruct r as [map_id |]; [| apply (T_Throw_none γ X X)].
    destruct (Hr map_id eq_refl) as [Hlo Hhi].
    tstep T_emit_ref. tstep T_gets_counts as map_count Hmc.
    destruct (map_count <=? map_id) eqn:E; [apply (T_Throw_none γ _ X) |].
    apply Z.leb_gt in E.
    assert (map_id < cnts γ TMap) by (destruct Hmc; lia).
    apply triple_ret. intros s Hs. split; [| lia].
    eapply Inv_resolve_pure; [| exact Hs]. lia. }
  intros map_id. apply triple_pure. intros Hm.
  pose proof (cnts_lens TMap map_id ltac:(lia)) as Hlm.
  tstep T_table_get as v; [lia |].
  eapply triple_bind; [apply T_cast_ref |]. intros map.
  eapply triple_bind; [apply T_heap_get |]. intros raw_map.
  eapply triple_pre; [| intros s [Hs _]; exact Hs].
  destruct raw_map; try (apply triple_crash; split; discriminate).
  tstep T_allocate as property_array.
  tstep T_read_properties; [exact Hcl |].
  tstep T_allocate as object.
  tstep T_gets_currents as c Hc. subst c.
  tstep T_table_set; [lia |]. tdone.
Qed.

Lemma T_DeserializeArrays_body X :
  closed γ = false -> curs γ TArray < cnts γ TArray ->
  triple (Inv D γ X) (DeserializeArrays_body cfg) (fun _ s => Inv D γ X s).
Proof.
  intros Hcl Hi.
  pose proof (cnts_lens TArray _ Hi) as Hl.
  destruct (Hwf TArray) as ((Hc0 & _) & _).
  unfold DeserializeArrays_body.
  eapply triple_or_return with (R := fun _ s => Inv D γ X s);
    [| | intros s Hs; exact Hs].
  { tstep T_ReadUint32 as r Hr. destruct r as [length |]; [| apply T_Throw_ret'].
    destruct (kMaxItemCount cfg <? length); [apply T_Throw_ret' | tdone]. }
  intros length.
  tstep T_allocate as elements.
  tstep T_read_elements; [exact Hcl |].
  tstep T_allocate as array.
  tstep T_gets_currents as c Hc. subst c.
  tstep T_table_set; [lia |]. tdone.
Qed.

End Operations.

(** *** The ghost state from table to table *)

Lemma upd_same {A} (f : Table -> A) t v : upd f t v t = v.
Proof. unfold upd. destruct t; reflexivity. Qed.

Lemma upd_other {A} (f : Table -> A) t t' v : t <> t' -> upd f t v t' = f t'.
Proof. unfold upd. destruct t, t'; simpl; congruence. Qed.

Lemma Table_eq_dec (t t' : Table) : t = t' \/ t <> t'.
Proof. destruct t, t'; (left; reflexivity) || (right; discriminate). Qed.

Lemma WF_bump γ : WF γ -> WF (bump γ).
Proof.
  intros H t. destruct (H t) as (H1 & H2 & H3 & H4).
  repeat split; simpl; intros; lia.
Qed.

Lemma WF_start γ t v :
  WF γ -> phase γ = idx t -> 0 <= v < two32 -> WF (start γ t v).
Proof.
  intros H Hp Hv t'. destruct (H t') as (H1 & H2 & H3 & H4). simpl.
  destruct (Table_eq_dec t t') as [<- | Hne].
  - rewrite !upd_same. specialize (H4 ltac:(lia)).
    repeat split; intros; lia.
  - rewrite !upd_other by exact Hne.
    repeat split; intros; lia.
Qed.

Lemma WF_advance γ t : WF γ -> curs γ t < cnts γ t -> WF (advance γ t).
Proof.
  intros H Hc t'. destruct (H t') as (H1 & H2 & H3 & H4). simpl.
  destruct (Table_eq_dec t t') as [<- | Hne].
  - rewrite upd_same. repeat split; intros; lia.
  - rewrite upd_other by exact Hne. repeat split; intros; lia.
Qed.

Lemma WF_close γ : WF γ -> WF (close γ).
Proof. intros H t. apply H. Qed.

(** A table is given up: the error is recorded before it is allocated. *)
Lemma Inv_bump γ X s : Inv D γ X s -> has_error s = true -> Inv D (bump γ) X s.
Proof.
  intros [[C1 C2 C3 C4 C5 C6] Hd] He. split; [| exact Hd].
  constructor; simpl; try assumption; intros Hne; congruence.
Qed.

(** The table is allocated with the count just read. *)
Lemma Inv_start γ t v rest s :
  WF γ -> phase γ = idx t -> 0 <= v ->
  Inv D γ [] s ->
  Inv D (start γ t v) []
    (set_tables (upd (tables s) t (replicate (Z.to_nat v) VUndefined))
       (set_trace (trace s ++ [EvAllocTable t v])
          (set_counts (upd (counts s) t v) (set_position_ rest s)))).
Proof.
  intros Hwf Hp Hv [[C1 C2 C3 C4 C5 C6] Hd]. split.
  - constructor; simpl.
    + intros t'. destruct (Table_eq_dec t t') as [<- | Hne].
      * rewrite !upd_same. apply length_replicate.
      * rewrite !upd_other by exact Hne. apply C1.
    + exact C2.
    + intros t'. destruct (Table_eq_dec t t') as [<- | Hne].
      * rewrite !upd_same. left. reflexivity.
      * rewrite !upd_other by exact Hne. apply C3.
    + intros Hne e t' id Hin Hr. change (has_error s = false) in Hne.
      apply in_app_singleton in Hin as [Hin | ->]; [| discriminate Hr].
      destruct (C4 Hne e t' id Hin Hr) as [Hx | [H | [H | H]]].
      * destruct (awaits_nil _ Hx).
      * right. left. destruct (Table_eq_dec t t') as [<- | Hn].
        -- rewrite upd_same. destruct (Hwf t) as (_ & _ & _ & H4).
           specialize (H4 ltac:(lia)). lia.
        -- rewrite upd_other by exact Hn. exact H.
      * right. right. left. exact H.
      * right. right. right. apply dropped_app, H.
    + intros Hne t' Hlt. change (has_error s = false) in Hne.
      apply in_or_app. destruct (Table_eq_dec t t') as [<- | Hn].
      * rewrite upd_same. right. left. reflexivity.
      * rewrite upd_other by exact Hn. left. apply C5; [exact Hne |].
        assert (idx t' <> idx t) by (destruct t, t'; simpl; congruence).
        lia.
    + exact C6.
  - eapply (frame_view D HD); [| | | exact Hd]; try reflexivity.
    simpl. apply export_events_app. reflexivity.
Qed.

(** One more entity of table [t] is there. *)
Lemma Inv_advance γ t s :
  WF γ -> curs γ t < cnts γ t -> Inv D γ [] s ->
  Inv D (advance γ t) []
    (set_currents (upd (currents s) t (wrap32 (currents s t + 1))) s).
Proof.
  intros Hwf Hc [[C1 C2 C3 C4 C5 C6] Hd]. split.
  - constructor; simpl; try assumption.
    intros t'. destruct (Table_eq_dec t t') as [<- | Hne].
    + rewrite !upd_same, C2. destruct (Hwf t) as (H1 & _ & H3 & _).
      unfold wrap32. apply Z.mod_small. unfold two32 in *. lia.
    + rewrite !upd_other by exact Hne. apply C2.
  - eapply (frame_view D HD); [| | | exact Hd]; reflexivity.
Qed.

(** *** Loops and tables *)

Lemma Inv_counts_le γ X t s : WF γ -> Inv D γ X s -> counts s t <= cnts γ t.
Proof.
  intros Hwf [HC _]. destruct (Hwf t) as (H1 & _).
  destruct (core_cnts _ _ _ HC t) as [E | [E _]]; lia.
Qed.

Lemma T_for_range_count γ X t n (body : Z -> M Ctl) :
  WF γ -> cnts γ t <= Z.of_nat n ->
  (forall i, 0 <= i < cnts γ t ->
     triple (Inv D γ X) (body i) (fun _ s => Inv D γ X s)) ->
  triple (Inv D γ X) (for_range n 0 (fun i s => i <? counts s t) body)
    (fun _ s => Inv D γ X s).
Proof.
  intros Hwf Hn Hb. apply triple_for_range.
  - intros j Hj.
    eapply triple_derive with (φ := j < cnts γ t).
    + intros s [Hs Hc]. apply Z.ltb_lt in Hc.
      eapply Inv_counts_cnts; [exact Hs |]. split; [exact Hj | exact Hc].
    + intros Hlt. eapply triple_pre; [apply Hb; lia |].
      intros s [Hs _]. exact Hs.
  - intros s Hs. apply Z.ltb_ge.
    pose proof (Inv_counts_le γ X t s Hwf Hs). lia.
Qed.

(** The loop over table [t]: its fuel is the distance between the counter
    and the count, which every round decreases. *)
Lemma T_loop_current t (body : M Ctl) n :
  (forall γ, WF γ -> phase γ = n -> closed γ = false -> curs γ t < cnts γ t ->
     triple (Inv D γ []) body (fun _ s => Inv D γ [] s)) ->
  triple (Stage D n) (loop_current t body) (fun _ s => Stage D n s).
Proof.
  intros Hb. unfold loop_current.
  eapply triple_bind; [apply triple_gets |]. intros count.
  eapply triple_bind; [apply triple_gets |]. intros current.
  eapply triple_bind with (R := fun _ s => Stage D n s);
    [| intros ?; apply triple_ret; intros s Hs; exact Hs].
  eapply triple_conseq;
    [ apply (triple_loop
               (fun k s => Stage D n s
                           /\ counts s t - currents s t <= Z.of_nat k)
               (Stage D n))
    | | ].
  - intros k s [[(γ & Hwf & Hp & Hcl & Hs) Hk] Hc]. apply Z.ltb_lt in Hc.
    pose proof (Inv_currents _ _ t _ Hs) as Ec.
    pose proof (Inv_counts_le γ [] t s Hwf Hs) as Hle.
    assert (Hlt : curs γ t < cnts γ t) by lia.
    pose proof (Hb γ Hwf Hp Hcl Hlt s Hs) as H. unfold bind.
    destruct (body s) as [c s' | f]; [| exact H].
    destruct c.
    + simpl. split.
      * exists (advance γ t).
        split; [apply WF_advance; assumption |].
        split; [exact Hp |]. split; [exact Hcl |].
        apply Inv_advance; assumption.
      * pose proof (Inv_currents _ _ t _ H) as Ec'.
        pose proof (Inv_counts_le γ [] t s' Hwf H) as Hle'.
        rewrite upd_same, Ec'.
        destruct (Hwf t) as (H1 & _ & H3 & _).
        assert (Ecnt : counts s t = cnts γ t).
        { destruct (core_cnts _ _ _ (proj1 Hs) t) as [E | [E _]]; lia. }
        unfold wrap32. rewrite Z.mod_small by (unfold two32 in *; lia). lia.
    + simpl. exists γ. auto.
  - intros s Hs. apply Z.ltb_ge. destruct Hs as [_ Hs]. lia.
  - intros s [[Hs ->] ->]. split; [exact Hs | lia].
  - intros c s. destruct c; [intros [k [Hs _]]; exact Hs | auto].
Qed.

Lemma NewTable_eq t v s :
  NewTable t v s
  = Done tt (set_tables (upd (tables s) t (replicate (Z.to_nat v) VUndefined))
               (set_trace (trace s ++ [EvAllocTable t v]) s)).
Proof. reflexivity. Qed.

Lemma ReadUint32_into_count_eq t s :
  ReadUint32_into_count t s
  = match Codec.ReadUint32 (position_ s) with
    | Some (v, rest) =>
        Done true (set_counts (upd (counts s) t v) (set_position_ rest s))
    | None => Done false s
    end.
Proof.
  unfold ReadUint32_into_count, bind, ReadUint32.
  destruct (Codec.ReadUint32 (position_ s)) as [[v rest] |]; reflexivity.
Qed.

(** [Throw] while the count of a table is being read. *)
Lemma Stage_throw γ n message s s1 :
  WF γ -> phase γ = n -> closed γ = false -> Inv D γ [] s ->
  tables s1 = tables s -> currents s1 = currents s ->
  (forall t, counts s1 t = counts s t \/ t <> TArray) ->
  heap s1 = heap s -> global_dictionary s1 = global_dictionary s ->
  trace s1 = trace s ->
  match Throw message s1 with
  | Done _ s' => Stage D (S n) s'
  | Crash f => harmless f
  end.
Proof.
  intros Hwf Hp Hcl Hs Ht Hc Hn Hh Hg Htr.
  destruct (Throw_spec message s1)
    as (s' & -> & He & Ht' & Hc' & Hn' & Hh' & Hg' & Hr' & Hx').
  exists (bump γ). split; [apply WF_bump, Hwf |].
  split; [simpl; congruence |]. split; [exact Hcl |].
  apply Inv_bump; [| exact He].
  eapply Inv_after_error; [exact Hs | exact He | | | | | | |].
  - intros t. rewrite Ht', Ht. reflexivity.
  - congruence.
  - intros t. rewrite Hn'. destruct (Hn t) as [E | E].
    + rewrite E. destruct t; simpl; auto.
    + destruct t; simpl; auto. congruence.
  - rewrite Hr'. intros r [].
  - congruence.
  - congruence.
  - rewrite Hx', Htr. reflexivity.
Qed.

Section Tables.

Context (cfg : Config) (Hmax : 0 <= kMaxItemCount cfg).

Lemma T_table_start t message (rest : Z -> M unit) γ :
  WF γ -> phase γ = idx t -> closed γ = false -> t <> TArray ->
  (forall v, 0 <= v < two32 ->
     triple (Inv D (start γ t v) []) (rest v) (fun _ s => Stage D (S (idx t)) s)) ->
  triple (Inv D γ [])
    (let* ok := ReadUint32_into_count t in
     let* c := gets (fun s => counts s t) in
     if negb ok || (kMaxItemCount cfg <? c) then Throw message
     else do NewTable t c ;;; rest c)
    (fun _ s => Stage D (S (idx t)) s).
Proof.
  intros Hwf Hp Hcl Hne Hrest s Hs.
  unfold bind at 1. rewrite ReadUint32_into_count_eq.
  destruct (Codec.ReadUint32 (position_ s)) as [[v rest0] |] eqn:E.
  - pose proof (Codec_ReadUint32_range _ _ _ E) as Hv.
    unfold bind at 1. unfold gets at 1.
    cbn [counts set_counts set_position_]. rewrite upd_same.
    cbn [negb orb].
    destruct (kMaxItemCount cfg <? v).
    + eapply Stage_throw; try eassumption; try reflexivity.
      intros t'. destruct (Table_eq_dec t t') as [<- | Hn]; [right; exact Hne |].
      left. cbn [counts set_counts set_position_]. apply upd_other, Hn.
    + unfold bind at 1. rewrite NewTable_eq.
      apply (Hrest v Hv).
      apply (Inv_start γ t v rest0 s Hwf Hp (proj1 Hv) Hs).
  - unfold bind at 1. unfold gets at 1. cbn [negb orb].
    eapply Stage_throw; try eassumption; try reflexivity.
    intros t'. left. reflexivity.
Qed.

Lemma T_DeserializeStrings :
  triple (Stage D 0) (DeserializeStrings cfg) (fun _ s => Stage D 1 s).
Proof.
  intros s (γ & Hwf & Hp & Hcl & Hs). revert s Hs.
  change (triple (Inv D γ []) (DeserializeStrings cfg) (fun _ s => Stage D 1 s)).
  unfold DeserializeStrings.
  apply (T_table_start TString "Malformed string table"
           (fun string_count =>
              do for_range (Z.to_nat string_count) 0
                   (fun i s => i <? counts s TString)
                   (fun i =>
                      let* maybe_string := ReadUtf8String in
                      match maybe_string with
                      | None => do Throw "Malformed string" ;;; ret Return
                      | Some str => do table_set TString i (VString str) ;;; ret Next
                      end) ;;;
              ret tt) γ Hwf Hp Hcl); [discriminate |].
  intros v Hv.
  pose proof (WF_start γ TString v Hwf Hp Hv) as Hwf'.
  eapply triple_post with (Q' := fun _ s => Inv D (start γ TString v) [] s).
  2: { intros _ s Hs. exists (start γ TString v). split; [exact Hwf' |].
       split; [simpl; rewrite Hp; reflexivity |]. split; [exact Hcl | exact Hs]. }
  eapply triple_bind; [| intros ?; apply triple_ret; intros s Hs; exact Hs].
  apply T_for_range_count; [exact Hwf' | simpl; rewrite upd_same; lia |].
  intros i Hi.
  pose proof (cnts_lens _ Hwf' TString i ltac:(lia)) as Hl.
  tstep T_ReadUtf8String as maybe_string.
  destruct maybe_string as [str |]; [| apply T_Throw_ret'].
  tstep T_table_set; [lia |]. tdone.
Qed.

Ltac table_start t msg :=
  match goal with
  | |- triple _ (bind _ (fun ok => bind _ (fun c =>
         if _ then _ else bind _ (fun _ => @?rest c)))) _ =>
      apply (T_table_start t msg rest)
  end.

Lemma Stage_start γ t v s :
  WF γ -> phase γ = idx t -> closed γ = false -> 0 <= v < two32 ->
  Inv D (start γ t v) [] s -> Stage D (S (idx t)) s.
Proof.
  intros Hwf Hp Hcl Hv Hs. exists (start γ t v).
  split; [apply WF_start; assumption |].
  split; [simpl; rewrite Hp; reflexivity |]. split; [exact Hcl | exact Hs].
Qed.

Lemma T_DeserializeMaps :
  triple (Stage D 1) (DeserializeMaps cfg) (fun _ s => Stage D 2 s).
Proof.
  intros s (γ & Hwf & Hp & Hcl & Hs). revert s Hs.
  change (triple (Inv D γ []) (DeserializeMaps cfg) (fun _ s => Stage D 2 s)).
  unfold DeserializeMaps.
  table_start TMap "Malformed shape table"%string; try assumption; [discriminate |].
  intros v Hv.
  pose proof (WF_start γ TMap v Hwf Hp Hv) as Hwf'.
  eapply triple_post;
    [| intros a s Hs; apply (Stage_start γ TMap v s Hwf Hp Hcl Hv Hs)].
  eapply triple_bind; [| intros ?; apply triple_ret; intros s Hs; exact Hs].
  apply T_for_range_count; [exact Hwf' | simpl; rewrite upd_same; lia |].
  intros i Hi.
  apply T_DeserializeMaps_body; [exact Hwf' | exact Hcl | exact Hi].
Qed.

Lemma T_DeserializeContexts :
  triple (Stage D 2) (DeserializeContexts cfg) (fun _ s => Stage D 3 s).
Proof.
  intros s (γ & Hwf & Hp & Hcl & Hs). revert s Hs.
  change (triple (Inv D γ []) (DeserializeContexts cfg) (fun _ s => Stage D 3 s)).
  unfold DeserializeContexts.
  table_start TContext "Malformed context table"%string; try assumption; [discriminate |].
  intros v Hv.
  pose proof (WF_start γ TContext v Hwf Hp Hv) as Hwf'.
  eapply triple_post;
    [| intros a s Hs; apply (Stage_start γ TContext v s Hwf Hp Hcl Hv Hs)].
  eapply triple_bind; [| intros ?; apply triple_ret; intros s Hs; exact Hs].
  apply T_for_range_count; [exact Hwf' | simpl; rewrite upd_same; lia |].
  intros i Hi.
  apply T_DeserializeContexts_body; [exact Hwf' | exact Hcl | exact Hi].
Qed.

Lemma T_DeserializeFunctions :
  triple (Stage D 3) (DeserializeFunctions cfg) (fun _ s => Stage D 4 s).
Proof.
  intros s (γ & Hwf & Hp & Hcl & Hs). revert s Hs.
  change (triple (Inv D γ []) (DeserializeFunctions cfg) (fun _ s => Stage D 4 s)).
  unfold DeserializeFunctions.
  table_start TFunction "Malformed function table"%string; try assumption; [discriminate |].
  intros v Hv.
  eapply triple_bind with (R := fun _ s => Stage D 4 s).
  - apply triple_modify. intros s Hs.
    apply (Stage_start γ TFunction v _ Hwf Hp Hcl Hv).
    eapply Inv_view; [| exact Hs]. repeat split.
  - intros ?. apply T_loop_current. intros γ' Hwf' Hp' Hcl' Hlt.
    apply T_DeserializeFunctions_body; assumption.
Qed.

Lemma T_DeserializeObjects :
  triple (Stage D 5) (DeserializeObjects cfg) (fun _ s => Stage D 6 s).
Proof.
  intros s (γ & Hwf & Hp & Hcl & Hs). revert s Hs.
  change (triple (Inv D γ []) (DeserializeObjects cfg) (fun _ s => Stage D 6 s)).
  unfold DeserializeObjects.
  table_start TObject "Malformed objects table"%string; try assumption; [discriminate |].
  intros v Hv.
  eapply triple_pre;
    [| intros s Hs; apply (Stage_start γ TObject v s Hwf Hp Hcl Hv Hs)].
  apply T_loop_current. intros γ' Hwf' Hp' Hcl' Hlt.
  apply T_DeserializeObjects_body; assumption.
Qed.

Lemma T_DeserializeClasses :
  triple (Stage D 6) (DeserializeClasses cfg) (fun _ s => Stage D 7 s).
Proof.
  intros s (γ & Hwf & Hp & Hcl & Hs). revert s Hs.
  change (triple (Inv D γ []) (DeserializeClasses cfg) (fun _ s => Stage D 7 s)).
  unfold DeserializeClasses.
  table_start TClass "Malformed class table"%string; try assumption; [discriminate |].
  intros v Hv.
  eapply triple_pre;
    [| intros s Hs; apply (Stage_start γ TClass v s Hwf Hp Hcl Hv Hs)].
  apply T_loop_current. intros γ' Hwf' Hp' Hcl' Hlt.
  apply T_DeserializeClasses_body; assumption.
Qed.

Lemma T_DeserializeArrays :
  triple (Stage D 4) (DeserializeArrays cfg) (fun _ s => Stage D 5 s).
Proof.
  intros s (γ & Hwf & Hp & Hcl & Hs).
  unfold DeserializeArrays.
  unfold bind at 1. rewrite ReadUint32_into_count_eq.
  destruct (Codec.ReadUint32 (position_ s)) as [[v rest0] |] eqn:E.
  - pose proof (Codec_ReadUint32_range _ _ _ E) as Hv.
    unfold bind at 1. unfold gets at 1.
    cbn [counts set_counts set_position_].
    rewrite upd_other by discriminate.
    assert (E0 : counts s TObject = 0).
    { destruct (Hwf TObject) as (_ & _ & _ & H4).
      specialize (H4 ltac:(rewrite Hp; simpl; lia)).
      destruct (core_cnts _ _ _ (proj1 Hs) TObject) as [H | [H _]]; lia. }
    rewrite E0. cbn [negb orb].
    replace (kMaxItemCount cfg <? 0) with false by (symmetry; apply Z.ltb_ge; lia).
    unfold bind at 1. unfold gets at 1.
    cbn [counts set_counts set_position_]. rewrite upd_same.
    unfold bind at 1. rewrite NewTable_eq.
    apply (T_loop_current TArray (DeserializeArrays_body cfg) 5).
    + intros γ' Hwf' Hp' Hcl' Hlt.
      apply T_DeserializeArrays_body; assumption.
    + apply (Stage_start γ TArray v _ Hwf Hp Hcl Hv).
      apply (Inv_start γ TArray v rest0 s Hwf Hp (proj1 Hv) Hs).
  - unfold bind at 1. unfold gets at 1. cbn [negb orb].
    eapply Stage_throw; try eassumption; try reflexivity.
    intros t'. left. reflexivity.
Qed.

(** *** Deferred references *)

Lemma Inv_close_error γ X X' s :
  Inv D γ X s -> has_error s = true -> Inv D (close γ) X' s.
Proof.
  intros [[C1 C2 C3 C4 C5 C6] Hd] He. split; [| exact Hd].
  constructor; simpl; try assumption; intros Hne; congruence.
Qed.

Lemma In_targets c i ty id t refs :
  In (c, i, ty, id) refs -> table_of ty = Some t -> In (AwRef t id) (targets refs).
Proof.
  intros Hin Ht. unfold targets. apply in_flat_map.
  exists (c, i, ty, id). split; [exact Hin |]. rewrite Ht. left. reflexivity.
Qed.

Lemma Inv_close γ s :
  Inv D γ [] s -> Inv D (close γ) (targets (deferred_references_ s)) s.
Proof.
  intros [[C1 C2 C3 C4 C5 C6] Hd]. split; [| exact Hd].
  constructor; simpl; try assumption.
  intros Hne e t id Hin Hr.
  destruct (C4 Hne e t id Hin Hr) as [Hx | [H | [[_ H] | H]]].
  - destruct (awaits_nil _ Hx).
  - right. left. exact H.
  - left. destruct H as (c & i & ty & H & Ht).
    pose proof (In_targets _ _ _ _ _ _ H Ht) as Hin'.
    destruct e; try discriminate Hr; injection Hr as <- <-; simpl; auto.
  - right. right. right. exact H.
Qed.

Lemma Inv_clear_deferred γ X s :
  closed γ = true -> Inv D γ X s -> Inv D γ X (set_deferred_references_ [] s).
Proof.
  intros Hcl [[C1 C2 C3 C4 C5 C6] Hd]. split.
  - constructor; simpl; try assumption.
    + intros Hne e t id Hin Hr. change (has_error s = false) in Hne.
      destruct (C4 Hne e t id Hin Hr) as [H | [H | [[H _] | H]]]; auto. congruence.
    + intros c i ty id [].
  - eapply (frame_view D HD); [| | | exact Hd]; reflexivity.
Qed.

Section Deferred.

Context (γ : Ghost) (Hwf : WF γ).

Lemma T_lookup t id X message :
  0 <= id ->
  triple (Inv D γ (AwRef t id :: X))
    (let* count := gets (fun s => counts s t) in
     if count <=? id
     then do Throw message ;;; ret None
     else let* v := table_get t id in ret (Some v))
    (fun r s => match r with
                | Some _ => Inv D γ X s
                | None => Inv D γ [] s
                end).
Proof.
  intros Hid. tstep T_gets_counts as count Hc.
  destruct (count <=? id) eqn:E; [apply (T_Throw_none γ _ []) |].
  apply Z.leb_gt in E.
  assert (Hlt : id < cnts γ t) by (destruct Hc; lia).
  pose proof (cnts_lens γ Hwf t id Hlt) as Hl.
  eapply triple_pre; [| intros s Hs; eapply Inv_resolve_pure; [exact Hlt | exact Hs]].
  tstep T_table_get as v; [lia |]. tdone.
Qed.

Lemma T_ProcessDeferredReferences_loop refs :
  (forall c i ty id, In (c, i, ty, id) refs -> 0 <= id) ->
  triple (Inv D γ (targets refs)) (ProcessDeferredReferences_loop refs)
    (fun _ s => Inv D γ [] s).
Proof.
  induction refs as [| [[[container index] ty] id] refs IH]; intros Hnn.
  - simpl. tdone.
  - assert (Hid : 0 <= id) by (eapply Hnn; left; reflexivity).
    specialize (IH ltac:(intros c i ty' id' H; eapply Hnn; right; exact H)).
    cbn [ProcessDeferredReferences_loop].
    eapply triple_or_return with
      (R := fun r s => match r with
                       | Some _ => Inv D γ (targets refs) s
                       | None => Inv D γ [] s
                       end);
      [| | intros s Hs; exact Hs].
    { destruct ty; try (apply triple_crash; split; discriminate);
        cbv zeta; cbn [targets flat_map table_of app];
        apply T_lookup; exact Hid. }
    intros target.
    eapply triple_bind; [apply T_heap_get |]. intros o.
    eapply triple_pre; [| intros s [Hs _]; exact Hs].
    eapply triple_or_return with
      (R := fun r s => match r with
                       | Some _ => Inv D γ (targets refs) s
                       | None => Inv D γ [] s
                       end);
      [| intros ?; exact IH | intros s Hs; exact Hs].
    destruct o; try (apply triple_crash; split; discriminate).
    + eapply triple_bind; [apply T_cast_ref |]. intros proto.
      tstep T_set_prototype. tdone.
    + tstep T_store_slot. tdone.
    + tstep T_store_slot. tdone.
    + tstep T_store_slot. tdone.
    + eapply triple_bind; [apply T_cast_ref |]. intros proto.
      tstep T_SetFunctionPrototype as ok.
      destruct ok; [tdone | apply (T_Throw_none γ _ [])].
Qed.

End Deferred.

Lemma T_ProcessDeferredReferences :
  triple (Stage D 7) ProcessDeferredReferences (fun _ s => Closed D s).
Proof.
  intros s (γ & Hwf & Hp & Hcl & Hs).
  unfold ProcessDeferredReferences. unfold bind at 1. unfold gets at 1.
  destruct (has_error s) eqn:He.
  - exists (close γ). split; [apply WF_close, Hwf |].
    split; [exact Hp |]. split; [reflexivity |].
    eapply Inv_close_error; eassumption.
  - unfold bind at 1. unfold gets at 1.
    pose proof (T_ProcessDeferredReferences_loop (close γ) (WF_close γ Hwf)
                  (deferred_references_ s)
                  (core_deferred _ _ _ (proj1 Hs)) s (Inv_close γ s Hs)) as H.
    unfold bind.
    destruct (ProcessDeferredReferences_loop (deferred_references_ s) s)
      as [c s' | f]; [| exact H].
    destruct c; simpl; exists (close γ);
      (split; [apply WF_close, Hwf |]);
      (split; [exact Hp |]); (split; [reflexivity |]); [| exact H].
    apply Inv_clear_deferred; [reflexivity | exact H].
Qed.

End Tables.
End Invariant.

(** *** The export installer *)

Lemma Frame_Dict g entries evs d l l0 : Frame (Dict g entries evs d l l0).
Proof.
  constructor.
  - intros s s' Hh Hg Hx (H1 & H2 & H3 & H4). unfold Dict, holds.
    rewrite Hh, Hg, Hx. auto.
  - intros s o (H1 & H2 & (c3 & H3) & (c4 & H4)). unfold Dict, holds. simpl.
    repeat split; try assumption.
    + exists c3. apply lookup_app_l_Some, H3.
    + exists c4. apply lookup_app_l_Some, H4.
  - intros s a o0 o Ha Ho (H1 & H2 & (c3 & H3) & (c4 & H4)).
    unfold Dict, holds. simpl. repeat split; try assumption.
    + exists c3. rewrite list_lookup_insert_ne; [exact H3 |].
      intros E. rewrite E in Ha.
      pose proof (eq_trans (eq_sym Ha) H3) as Eo. injection Eo as ->. discriminate.
    + exists c4. rewrite list_lookup_insert_ne; [exact H4 |].
      intros E. rewrite E in Ha.
      pose proof (eq_trans (eq_sym Ha) H4) as Eo. injection Eo as ->. discriminate.
Qed.

Lemma Core_Checked γ s :
  Core γ [] s -> phase γ = 7%nat -> closed γ = true -> Checked s.
Proof.
  intros [C1 C2 C3 C4 C5 C6] Hp Hcl Hne t. exists (cnts γ t). split.
  - apply C5; [exact Hne |]. rewrite Hp. destruct t; simpl; lia.
  - intros e id Hin Hr.
    destruct (C4 Hne e t id Hin Hr) as [Hx | [H | [[H _] | H]]]; auto.
    + destruct (awaits_nil _ Hx).
    + congruence.
Qed.

Lemma Checked_error s : has_error s = true -> Checked s.
Proof. intros He Hne. congruence. Qed.

Lemma namespace_holds s entries :
  holds s (global_dictionary s) entries -> namespace s = entries.
Proof. intros [c H]. unfold namespace. rewrite H. reflexivity. Qed.

(** An error before the export table is reached. *)
Lemma Installed_untouched g entries γ X s :
  Inv (Dict g entries [] g [] []) γ X s -> has_error s = true ->
  Installed entries s.
Proof.
  intros [_ (H1 & H2 & H3 & H4)] He. exists [], []. split; [reflexivity |].
  split; [apply namespace_holds; rewrite H1; exact H4 |].
  left. auto.
Qed.

Lemma export_events_snoc tr e :
  is_export_event e = true -> export_events (tr ++ [e]) = export_events tr ++ [e].
Proof.
  intros H. unfold export_events. rewrite List.filter_app. simpl. rewrite H.
  reflexivity.
Qed.

Lemma Core_emit_export γ X e s :
  is_export_event e = true -> Core γ X s ->
  Core γ X (set_trace (trace s ++ [e]) s).
Proof.
  intros He [C1 C2 C3 C4 C5 C6]. constructor; simpl; try assumption.
  - intros Hne e' t id Hin Hr. change (has_error s = false) in Hne.
    apply in_app_singleton in Hin as [Hin | Hin];
      [| subst e'; destruct e; discriminate].
    destruct (C4 Hne e' t id Hin Hr) as [H | [H | [H | H]]]; auto.
    right. right. right. apply dropped_app, H.
  - intros Hne t Hp. apply in_or_app. left. apply C5; assumption.
Qed.

Lemma Core_global_dictionary γ X d s :
  Core γ X s -> Core γ X (set_global_dictionary d s).
Proof. intros [C1 C2 C3 C4 C5 C6]. constructor; assumption. Qed.

Section Exports.

Context (cfg : Config) (g : addr) (entries : list (bytes * Value)).

Lemma T_emit_export γ X evs d l l0 e :
  is_export_event e = true ->
  triple (Inv (Dict g entries evs d l l0) γ X) (emit e)
    (fun _ s => Inv (Dict g entries (evs ++ [e]) d l l0) γ X s).
Proof.
  intros He s [HC (H1 & H2 & H3 & H4)]. simpl. split.
  - apply Core_emit_export; assumption.
  - unfold Dict, holds. simpl.
    rewrite export_events_snoc, H2 by exact He. auto.
Qed.

Lemma T_NumberOfElements (P : State -> Prop) d :
  triple P (NumberOfElements d) (fun _ s => P s).
Proof.
  intros s Hs. unfold NumberOfElements, bind, heap_get.
  destruct (heap s !! d) as [o |]; [| exact harmless_BadCast].
  destruct o; try exact harmless_BadCast. exact Hs.
Qed.

Lemma T_EnsureCapacity γ X evs d l l0 k :
  triple (Inv (Dict g entries evs d l l0) γ X) (EnsureCapacity d k)
    (fun d' s => Inv (Dict g entries evs d' l l0) γ X s).
Proof.
  intros s [HC (H1 & H2 & (c3 & H3) & (c4 & H4))].
  unfold EnsureCapacity, bind, heap_get.
  destruct (heap s !! d) as [o |] eqn:E; [| exact harmless_BadCast].
  injection H3 as ->.
  destruct (Z.of_nat (length (entries ++ l)) + k <=? Z.of_nat c3).
  - split; [exact HC |]. unfold Dict, holds. eauto 10.
  - simpl. split; [apply Core_heap, HC |].
    unfold Dict, holds. simpl.
    split; [exact H1 |]. split; [exact H2 |]. split.
    + eexists. apply list_lookup_middle. reflexivity.
    + exists c4. apply lookup_app_l_Some, H4.
Qed.

Lemma T_GlobalDictionary_Add γ X evs d l l0 name value :
  l0 `prefix_of` l ->
  triple (Inv (Dict g entries evs d l l0) γ X) (GlobalDictionary_Add d name value)
    (fun d' s => exists l0', l0' `prefix_of` (l ++ [(name, value)])
                 /\ Inv (Dict g entries evs d' (l ++ [(name, value)]) l0') γ X s).
Proof.
  intros Hpre. unfold GlobalDictionary_Add.
  eapply triple_bind; [apply T_EnsureCapacity |]. intros d'.
  intros s [HC (H1 & H2 & (c3 & H3) & (c4 & H4))].
  unfold bind, heap_get.
  destruct (heap s !! d') as [o |] eqn:E; [| exact harmless_BadCast].
  injection H3 as ->.
  simpl.
  assert (Hlt : (d' < length (heap s))%nat) by (eapply lookup_lt_Some, E).
  destruct (decide (g = d')) as [-> | Hne].
  - exists (l ++ [(name, value)]). split; [reflexivity |].
    split; [apply Core_heap, HC |].
    unfold Dict, holds. simpl.
    split; [exact H1 |]. split; [exact H2 |].
    rewrite <- app_assoc.
    split; exists c3; apply list_lookup_insert_eq; exact Hlt.
  - exists l0. split; [apply prefix_app_r, Hpre |].
    split; [apply Core_heap, HC |].
    unfold Dict, holds. simpl.
    split; [exact H1 |]. split; [exact H2 |]. split.
    + exists c3. rewrite <- app_assoc. apply list_lookup_insert_eq; exact Hlt.
    + exists c4. rewrite list_lookup_insert_ne; [exact H4 | auto].
Qed.

Lemma pairs_snoc l name value :
  pairs (l ++ [(name, value)])
  = (pairs l ++ [EvDecodeExport name value]) ++ [EvInsertExport name].
Proof.
  unfold pairs. rewrite flat_map_app. simpl. rewrite <- app_assoc. reflexivity.
Qed.

Lemma T_DeserializeExports_loop γ count n :
  WF γ ->
  forall d l l0, l0 `prefix_of` l ->
  triple (Inv (Dict g entries (EvReserve count :: pairs l) d l l0) γ [])
    (DeserializeExports_loop cfg n d) (exports_post g entries γ count).
Proof.
  intros Hwf. induction n as [| n IH]; intros d l l0 Hpre.
  - simpl. apply triple_ret. intros s [HC (H1 & H2 & H3 & H4)].
    split; [exact HC |]. split; [exact H1 |]. exists l, l0. auto.
  - cbn [DeserializeExports_loop].
    eapply triple_bind;
      [apply (T_ReadString _ (Frame_Dict g entries _ d l l0) γ Hwf) |].
    intros export_name.
    eapply triple_bind;
      [apply (T_ReadValue _ (Frame_Dict g entries _ d l l0) cfg γ Hwf);
       left; reflexivity |].
    intros export_value.
    tstep (T_emit_export γ [] (EvReserve count :: pairs l) d l l0
             (EvDecodeExport export_name export_value) eq_refl).
    eapply triple_bind; [apply triple_gets |]. intros err. cbv beta.
    destruct err.
    + apply triple_ret. intros s [[HC (H1 & H2 & H3 & H4)] He].
      split; [exact HC |]. split; [exact H1 |]. exists l, l0.
      split; [exact Hpre |]. split; [exact H4 |].
      split; [symmetry; exact He |]. eauto.
    + eapply triple_pre; [| intros s [Hs _]; exact Hs].
      eapply triple_bind; [apply T_GlobalDictionary_Add, Hpre |].
      intros d'. cbv beta. apply triple_exists. intros l0'.
      eapply triple_pre with
        (P' := fun s => Inv (Dict g entries
                               ((EvReserve count :: pairs l)
                                ++ [EvDecodeExport export_name export_value])
                               d' (l ++ [(export_name, export_value)]) l0') γ [] s
                        /\ l0' `prefix_of` (l ++ [(export_name, export_value)]));
        [| intros s [H1 H2]; split; assumption].
      apply triple_pure. intros Hpre'.
      tstep (T_emit_export γ []
               ((EvReserve count :: pairs l)
                ++ [EvDecodeExport export_name export_value])
               d' (l ++ [(export_name, export_value)]) l0'
               (EvInsertExport export_name) eq_refl).
      eapply triple_pre; [apply (IH d' _ l0' Hpre') |].
      intros s Hs. rewrite pairs_snoc. exact Hs.
Qed.

Lemma T_DeserializeExports :
  triple (Closed (Untouched g entries)) (DeserializeExports cfg)
    (fun _ s => Checked s /\ Installed entries s).
Proof.
  intros s (γ & Hwf & Hp & Hcl & Hs). revert s Hs.
  change (triple (Inv (Untouched g entries) γ []) (DeserializeExports cfg)
            (fun _ s => Checked s /\ Installed entries s)).
  assert (Hthrow : forall message,
            triple (Inv (Untouched g entries) γ []) (Throw message)
              (fun _ s => Checked s /\ Installed entries s)).
  { intros message. eapply triple_post;
      [apply (T_Throw _ (Frame_Dict g entries [] g [] []) γ [] []) |].
    intros _ s [Hi He]. split; [apply Checked_error, He |].
    eapply Installed_untouched; eassumption. }
  unfold DeserializeExports.
  eapply triple_bind;
    [apply (T_ReadUint32 _ (Frame_Dict g entries [] g [] []) γ []) |].
  intros r. apply triple_pure. intros Hr.
  destruct r as [count |]; [| apply Hthrow].
  destruct (kMaxItemCount cfg <? count); [apply Hthrow |].
  eapply triple_bind; [apply triple_gets |]. intros dictionary. cbv beta.
  eapply triple_derive with (φ := dictionary = g).
  { intros s [[_ HD] E]. destruct HD as (H1 & _). rewrite E. exact H1. }
  intros ->.
  eapply triple_pre; [| intros s [Hs _]; exact Hs].
  eapply triple_bind; [apply T_NumberOfElements |]. intros elements. cbv beta.
  eapply triple_bind; [apply T_EnsureCapacity |]. intros d. cbv beta.
  tstep (T_emit_export γ [] [] d [] [] (EvReserve count) eq_refl).
  eapply triple_bind;
    [apply (T_DeserializeExports_loop γ count (Z.to_nat count) Hwf d [] []);
     reflexivity |].
  intros r. destruct r as [d' |].
  - intros s (HC & H1 & l & l0 & Hpre & H4 & H2 & H3).
    unfold bind, modify, emit. simpl. split.
    + apply (Core_Checked γ); [| exact Hp | exact Hcl].
      apply (Core_emit_export γ [] EvPublish (set_global_dictionary d' s) eq_refl).
      apply Core_global_dictionary, HC.
    + exists l, l. split; [reflexivity |]. split.
      * apply namespace_holds. exact H3.
      * right. left. exists count. split; [| reflexivity].
        simpl. rewrite export_events_snoc by reflexivity.
        simpl in H2. rewrite H2. reflexivity.
  - apply triple_ret.
    intros s (HC & H1 & l & l0 & Hpre & H4 & He & name & v & H2).
    split; [apply Checked_error, He |].
    exists l0, l. split; [exact Hpre |]. split.
    + apply namespace_holds. rewrite H1. exact H4.
    + right. right. exists count, name, v. auto.
Qed.

Context (Hmax : 0 <= kMaxItemCount cfg).

Lemma T_DeserializeSnapshot :
  triple (fun s => Stage (Untouched g entries) 0 (set_deferred_references_ [] s))
    (DeserializeSnapshot cfg)
    (fun ok s => Checked s /\ Installed entries s /\ ok = negb (has_error s)).
Proof.
  pose proof (Frame_Dict g entries [] g [] []) as HF.
  unfold DeserializeSnapshot.
  eapply triple_bind with (R := fun _ s => Stage (Untouched g entries) 0 s).
  { apply triple_modify. intros s Hs. exact Hs. }
  intros ?. 
  eapply triple_bind with
    (R := fun _ s => Stage (Untouched g entries) 0 s).
  { intros s (γ & Hwf & Hp & Hcl & Hs).
    pose proof (T_ReadRawBytes _ HF γ [] 4 s Hs) as H.
    destruct (ReadRawBytes 4 s) as [r s' | f]; [| exact H].
    exists γ. auto. }
  intros magic_bytes.
  match goal with
  | |- triple _ (if ?b then _ else _) _ => destruct b
  end.
  - intros s (γ & Hwf & Hp & Hcl & Hs).
    pose proof (T_Throw _ HF γ [] [] "Invalid magic number" s Hs) as H.
    unfold bind.
    destruct (Throw "Invalid magic number" s) as [u s' | f]; [| exact H].
    destruct H as [Hi He]. simpl.
    split; [apply Checked_error, He |].
    split; [eapply Installed_untouched; eassumption |].
    rewrite He. reflexivity.
  - eapply triple_bind; [apply (T_DeserializeStrings _ HF) |]. intros ?.
    eapply triple_bind; [apply (T_DeserializeMaps _ HF) |]. intros ?.
    eapply triple_bind; [apply (T_DeserializeContexts _ HF) |]. intros ?.
    eapply triple_bind; [apply (T_DeserializeFunctions _ HF) |]. intros ?.
    eapply triple_bind; [apply (T_DeserializeArrays _ HF cfg Hmax) |]. intros ?.
    eapply triple_bind; [apply (T_DeserializeObjects _ HF) |]. intros ?.
    eapply triple_bind; [apply (T_DeserializeClasses _ HF) |]. intros ?.
    eapply triple_bind; [apply (T_ProcessDeferredReferences _ HF) |]. intros ?.
    eapply triple_bind; [apply T_DeserializeExports |]. intros ?.
    eapply triple_bind; [apply triple_gets |]. intros err.
    apply triple_ret. intros s [[H1 H2] ->]. auto.
Qed.

End Exports.

(** *** The whole run *)

Lemma Stage_new_deserializer capacity entries buffer :
  Stage (Untouched 3%nat entries) 0
    (set_deferred_references_ []
       (set_deserialized_ true (new_deserializer capacity entries buffer))).
Proof.
  exists pristine. split.
  { intros t. simpl. unfold two32. repeat split; intros; lia. }
  split; [reflexivity |]. split; [reflexivity |]. split.
  - constructor; simpl.
    + intros t. reflexivity.
    + intros t. reflexivity.
    + intros t. left. reflexivity.
    + intros _ e t id [].
    + intros _ t H. lia.
    + intros c i ty id [].
  - unfold Untouched, Dict, holds. simpl. rewrite app_nil_r.
    split; [reflexivity |]. split; [reflexivity |].
    split; exists capacity; reflexivity.
Qed.

(** What [Deserialize] leaves, for every buffer. *)
Lemma Deserialize_outcome cfg capacity entries buffer :
  0 <= kMaxItemCount cfg ->
  match Deserialize cfg (new_deserializer capacity entries buffer) with
  | Done ok s =>
      (has_error s = true -> ok = false) /\ Checked s /\ Installed entries s
  | Crash f => harmless f
  end.
Proof.
  intros Hmax. unfold Deserialize.
  unfold bind at 1. unfold gets at 1. cbn [deserialized_ new_deserializer].
  unfold bind at 1. unfold modify at 1.
  pose proof (T_DeserializeSnapshot cfg 3%nat entries Hmax _
                (Stage_new_deserializer capacity entries buffer)) as H.
  unfold bind.
  destruct (DeserializeSnapshot cfg
              (set_deserialized_ true (new_deserializer capacity entries buffer)))
    as [ok s | f]; [| exact H].
  destruct H as (H1 & H2 & ->).
  destruct (has_error s) eqn:He; simpl.
  - auto.
  - unfold DeserializeScript, bind, gets.
    match goal with
    | |- match (if ?b then _ else _) s with _ => _ end => destruct b
    end; simpl; rewrite ?He; (split; [intros; congruence |]); auto.
Qed.

(** *** Exports and references *)

(** C1: the code departs from the claim.  On a table of two exports whose
    second value is malformed, capacity is reserved before anything is
    decoded, the first export is inserted before the second is decoded, and
    after [Deserialize] has returned false the name "a" is bound in the
    global namespace, which was empty before the call (the dictionary of the
    global object had room, so the insertion went into it). *)
Theorem C1_first_export_visible_after_failure :
  Inspect.observe (fun ok s => (ok, export_events (trace s), namespace s))
    (Deserialize Fixtures.dcfg
       (new_deserializer 8 [] Fixtures.second_export_malformed))
  = Some (false,
          [ EvReserve 2;
            EvDecodeExport (bytes_of_string "a") (VInt 1);
            EvInsertExport (bytes_of_string "a");
            EvDecodeExport (bytes_of_string "b") (VInt 0) ],
          [ (bytes_of_string "a", VInt 1) ]).
Proof. vm_compute. reflexivity. Qed.

(** C2, as the specification has it, fails for the prototype of a shape
    with no properties: the shape record of id 0 names the object of id 4 as
    prototype while the object table declares no object at all, and
    [Deserialize] returns true with no error recorded.  The prototype field
    was compared with [kMaxItemCount] only; the record is replaced by the
    canonical empty shape and its prototype is dropped. *)
Lemma C2_empty_shape_prototype_unchecked :
  Inspect.observe (fun ok s => (ok, error_message_ s, counts s TObject, trace s))
    (Deserialize Fixtures.dcfg
       (new_deserializer 0 [] Fixtures.empty_shape_with_prototype))
  = Some (true, None, 0,
          [ EvAllocTable TString 0; EvAllocTable TMap 1;
            EvPrototype 0 4; EvEmptyShape 0;
            EvAllocTable TContext 0; EvAllocTable TFunction 0;
            EvAllocTable TArray 0; EvAllocTable TObject 0;
            EvAllocTable TClass 0; EvReserve 0; EvPublish ]).
Proof. vm_compute. reflexivity. Qed.

(** C2 (amended): for every buffer, [Deserialize] never reads or writes a
    table outside its bounds (and no loop of the model stops for want of
    fuel).  For every reference field decoded other than the prototype
    field of a shape record, and for the prototype field of every shape
    record that is not a record without properties: if the id is equal to
    or above every count with which the target table was allocated (none,
    when the table was never allocated), then an error is recorded and
    [Deserialize] returns false. *)
Theorem C2_references_checked cfg capacity entries buffer :
  0 <= kMaxItemCount cfg ->
  match Deserialize cfg (new_deserializer capacity entries buffer) with
  | Crash f => f <> TableOutOfBounds /\ f <> OutOfFuel
  | Done ok s =>
      (forall t id,
         In (EvReference t id) (trace s) ->
         (forall n, In (EvAllocTable t n) (trace s) -> n <= id) ->
         has_error s = true /\ ok = false)
      /\ (forall shape id,
            In (EvPrototype shape id) (trace s) ->
            ~ In (EvEmptyShape shape) (trace s) ->
            (forall n, In (EvAllocTable TObject n) (trace s) -> n <= id) ->
            has_error s = true /\ ok = false)
  end.
Proof.
  intros Hmax.
  pose proof (Deserialize_outcome cfg capacity entries buffer Hmax) as H.
  destruct (Deserialize cfg (new_deserializer capacity entries buffer))
    as [ok s | f]; [| exact H].
  destruct H as (H1 & H2 & _).
  destruct (has_error s) eqn:He; [split; intros; auto |].
  split.
  - intros t id Hin Hall. exfalso.
    destruct (H2 He t) as (n & Hn & Hb).
    destruct (Hb (EvReference t id) id Hin eq_refl) as [Hlt | []].
    specialize (Hall n Hn). lia.
  - intros shape id Hin Hnot Hall. exfalso.
    destruct (H2 He TObject) as (n & Hn & Hb).
    destruct (Hb (EvPrototype shape id) id Hin eq_refl) as [Hlt | Hd];
      [| exact (Hnot Hd)].
    specialize (Hall n Hn). lia.
Qed.

(** C2 (amended) on an export whose value names the object of id 3 while
    the object table declares no object: the reference is decoded, it is
    not below any count of the object table, and the run fails. *)
Lemma C2_references_checked_witness :
  0 <= kMaxItemCount Fixtures.dcfg
  /\ In (EvReference TObject 3) (trace (Fixtures.after_run Fixtures.dangling_export))
  /\ (forall n, In (EvAllocTable TObject n)
                  (trace (Fixtures.after_run Fixtures.dangling_export)) -> n <= 3)
  /\ has_error (Fixtures.after_run Fixtures.dangling_export) = true /\ false = false.
Proof.
  assert (H : 0 <= kMaxItemCount Fixtures.dcfg)
    by (vm_compute; intros Hc; discriminate Hc).
  pose proof (C2_references_checked Fixtures.dcfg 0 [] Fixtures.dangling_export H) as T.
  assert (E : Deserialize Fixtures.dcfg (new_deserializer 0 [] Fixtures.dangling_export)
              = Done false (Fixtures.after_run Fixtures.dangling_export))
    by (vm_compute; reflexivity).
  rewrite E in T. destruct T as [T _].
  assert (Etr : trace (Fixtures.after_run Fixtures.dangling_export)
                = [ EvAllocTable TString 1; EvAllocTable TMap 0;
                    EvAllocTable TContext 0; EvAllocTable TFunction 0;
                    EvAllocTable TArray 0; EvAllocTable TObject 0;
                    EvAllocTable TClass 0; EvReserve 1; EvReference TString 0;
                    EvReference TObject 3; EvThrow "Invalid object reference";
                    EvDecodeExport (bytes_of_string "a") VUndefined ])
    by (vm_compute; reflexivity).
  assert (Hin : In (EvReference TObject 3)
                  (trace (Fixtures.after_run Fixtures.dangling_export))).
  { rewrite Etr. do 9 right. left. reflexivity. }
  assert (Hall : forall n, In (EvAllocTable TObject n)
                             (trace (Fixtures.after_run Fixtures.dangling_export)) ->
                           n <= 3).
  { intros n Hn. rewrite Etr in Hn.
    repeat (destruct Hn as [Hn | Hn]; [try discriminate Hn; injection Hn as <-; lia |]).
    destruct Hn. }
  split; [exact H |]. split; [exact Hin |]. split; [exact Hall |].
  exact (T TObject 3 Hin Hall).
Defined.

End DecoderInvariant.

(** ** Further properties of the serializer and the deserializer *)

(** *** Attribute flags *)

Section AttributeFlags.
Import Codec Flags.

(** The flags are the default ones exactly for a writable, configurable and
    enumerable property. *)
Lemma default_flags_iff d :
  AttributesToFlags d = GetDefaultAttributeFlags
  <-> IsReadOnly d = false /\ IsConfigurable d = true /\ IsEnumerable d = true.
Proof.
  destruct d as [f r c e]. destruct r, c, e; vm_compute; split;
    try (intros H; discriminate H); try (intros (H1 & H2 & H3); discriminate);
    auto.
Qed.

(** X2: decoding the attribute flags that [AttributesToFlags] makes gives
    back the three attributes, as V8's attribute bits READ_ONLY = 1,
    DONT_ENUM = 2 and DONT_DELETE = 4, whatever the location of the
    property is; and the flags are [GetDefaultAttributeFlags] exactly for a
    property that is writable, configurable and enumerable. *)
Theorem attribute_flags_round_trip d :
  FlagsToAttributes (AttributesToFlags d)
  = (if IsReadOnly d then 1 else 0)
    + (if IsConfigurable d then 0 else 4)
    + (if IsEnumerable d then 0 else 2)
  /\ (AttributesToFlags d = GetDefaultAttributeFlags
      <-> IsReadOnly d = false /\ IsConfigurable d = true /\ IsEnumerable d = true).
Proof.
  split; [| apply default_flags_iff].
  destruct d as [f r c e]. destruct r, c, e; reflexivity.
Qed.

End AttributeFlags.

(** *** Source compaction keeps every text *)

Section CompactionTexts.
Import Codec Flags Serializer.

Context (cfg : Config) (full : list Z) (one_byte : bool).

Lemma NewSubString_lookup str a b j :
  0 <= a -> 0 <= j < b - a ->
  NewSubString str a b !! Z.to_nat j = str !! Z.to_nat (a + j).
Proof.
  intros Ha Hj. unfold NewSubString.
  rewrite lookup_take_lt by lia. rewrite lookup_drop. f_equal. lia.
Qed.

Lemma placed_text_kept c a b :
  b <= Z.of_nat (length full) -> placed full c a b -> text_kept full c (a, b).
Proof.
  intros Hb (Ha & Hab & Ho & H). unfold text_kept. simpl.
  set (o := offset_at (offsets c) a) in *.
  apply list_eq. intros i.
  destruct (decide (Z.of_nat i < b - a)) as [Hi | Hi].
  - replace i with (Z.to_nat (Z.of_nat i)) by lia.
    rewrite !NewSubString_lookup by lia. apply H. lia.
  - unfold NewSubString.
    rewrite !lookup_take_ge by lia. reflexivity.
Qed.

Lemma ascending_head x l :
  ascending (x :: l) = true -> forall y, In y l -> x.1 <= y.1.
Proof.
  revert x. induction l as [| z l IH]; intros x H y Hy; [destruct Hy |].
  simpl in H. apply andb_true_iff in H as [H1 H2]. apply Z.leb_le in H1.
  destruct Hy as [<- | Hy]; [exact H1 |].
  specialize (IH z H2 y Hy). lia.
Qed.

Lemma ascending_tail x l : ascending (x :: l) = true -> ascending l = true.
Proof.
  destruct l as [| y l]; [reflexivity |].
  simpl. intros H. apply andb_true_iff in H as [_ H]. exact H.
Qed.

Lemma offset_at_insert m k v k' :
  offset_at (<[k := v]> m) k' = if decide (k = k') then v else offset_at m k'.
Proof.
  unfold offset_at. destruct (decide (k = k')) as [-> | Hne].
  - rewrite lookup_insert_eq. reflexivity.
  - rewrite lookup_insert_ne by exact Hne. reflexivity.
Qed.

Lemma compaction_step_inv c seen a b c' :
  compaction_inv full c seen -> interval_in (Z.of_nat (length full)) (a, b) = true ->
  current_interval_start c <= a ->
  SerializeSource_step cfg full one_byte c (a, b) = Some c' ->
  compaction_inv full c' ((a, b) :: seen) /\ current_interval_start c' <= a.
Proof.
  intros (Hcur & Hce & Hseen) Hin Hlo Hstep.
  unfold interval_in in Hin. simpl in Hin.
  apply andb_true_iff in Hin as [Hin H3]. apply andb_true_iff in Hin as [H1 H2].
  apply Z.leb_le in H1, H2, H3.
  unfold SerializeSource_step in Hstep. simpl in Hstep.
  destruct Hcur as (Hc0 & Hc1 & Hc2 & Hc3).
  destruct (b <=? current_interval_end c) eqn:E.
  - (* inside the current interval *)
    apply Z.leb_le in E. injection Hstep as <-.
    set (cs := current_interval_start c) in *.
    set (o := offset_at (offsets c) cs) in *.
    assert (Hnew : placed full
              {| source_string := source_string c;
                 source_one_byte := source_one_byte c;
                 current_interval_start := cs;
                 current_interval_end := current_interval_end c;
                 offsets := <[a := o + (a - cs)]> (offsets c) |} a b).
    { unfold placed. simpl. rewrite offset_at_insert.
      destruct (decide (a = a)) as [_ | []]; [| reflexivity].
      repeat split; try lia. intros j Hj.
      replace (o + (a - cs) + j) with (o + (a - cs + j)) by lia.
      replace (a + j) with (cs + (a - cs + j)) by lia.
      apply Hc3. lia. }
    assert (Hold : forall a' b', a' <= b' -> b' <= current_interval_end c ->
              (a' = a -> cs <= a') ->
              placed full c a' b' ->
              placed full
                {| source_string := source_string c;
                   source_one_byte := source_one_byte c;
                   current_interval_start := cs;
                   current_interval_end := current_interval_end c;
                   offsets := <[a := o + (a - cs)]> (offsets c) |} a' b').
    { intros a' b' Hab' Hb' Hcs (P0 & P1 & P2 & P3). unfold placed. simpl.
      rewrite offset_at_insert. destruct (decide (a = a')) as [<- | Hne].
      - repeat split; try lia. intros j Hj.
        replace (o + (a - cs) + j) with (o + (a - cs + j)) by lia.
        replace (a + j) with (cs + (a - cs + j)) by lia.
        apply Hc3. lia.
      - repeat split; assumption. }
    split; [| simpl; exact Hlo].
    split; [| split].
    + simpl. apply Hold; try lia. split; [| split; [| split]]; assumption.
    + simpl. exact Hce.
    + simpl. intros a' b' [Heq | Hin'].
      * injection Heq as <- <-. split; [exact E | exact Hnew].
      * destruct (Hseen a' b' Hin') as [Hb' Hp]. split; [exact Hb' |].
        apply Hold; try assumption; [destruct Hp as (? & ? & _); lia | intros ->; exact Hlo].
  - (* a new interval *)
    apply Z.leb_gt in E.
    unfold NewConsString in Hstep.
    destruct (String_kMaxLength cfg <? _); [discriminate |].
    injection Hstep as <-.
    set (src := source_string c) in *.
    set (sub := NewSubString full a b) in *.
    assert (Hnew : forall a' b', a' = a -> a' <= b' -> b' <= b ->
              placed full
                {| source_string := src ++ sub;
                   source_one_byte := source_one_byte c && one_byte;
                   current_interval_start := a;
                   current_interval_end := b;
                   offsets := <[a := Z.of_nat (length src)]> (offsets c) |} a' b').
    { intros a' b' -> Hab' Hb'. unfold placed. simpl.
      rewrite offset_at_insert. destruct (decide (a = a)) as [_ | []]; [| reflexivity].
      repeat split; try lia. intros j Hj.
      replace (Z.to_nat (Z.of_nat (length src) + j))
        with (length src + Z.to_nat j)%nat by lia.
      rewrite lookup_app_r by lia.
      replace (length src + Z.to_nat j - length src)%nat with (Z.to_nat j) by lia.
      unfold sub. apply NewSubString_lookup; lia. }
    assert (Hold : forall a' b', a' <> a -> b' <= Z.of_nat (length full) ->
              placed full c a' b' ->
              placed full
                {| source_string := src ++ sub;
                   source_one_byte := source_one_byte c && one_byte;
                   current_interval_start := a;
                   current_interval_end := b;
                   offsets := <[a := Z.of_nat (length src)]> (offsets c) |} a' b').
    { intros a' b' Hne Hb' (P0 & P1 & P2 & P3). unfold placed. simpl.
      rewrite offset_at_insert. destruct (decide (a = a')) as [<- | _]; [congruence |].
      repeat split; try assumption. intros j Hj.
      specialize (P3 j Hj).
      assert (Hsome : is_Some (full !! Z.to_nat (a' + j)))
        by (apply lookup_lt_is_Some; lia).
      rewrite <- P3 in Hsome. destruct Hsome as [x Hx].
      rewrite (lookup_app_l_Some _ _ _ _ Hx). rewrite <- P3. symmetry. exact Hx. }
    split; [| simpl; lia].
    split; [| split].
    + simpl. apply Hnew; [reflexivity | exact H2 | lia].
    + simpl. exact H3.
    + simpl. intros a' b' [Heq | Hin'].
      * injection Heq as <- <-. split; [lia |]. apply Hnew; [reflexivity | exact H2 | lia].
      * destruct (Hseen a' b' Hin') as [Hb' Hp]. split; [lia |].
        destruct (decide (a' = a)) as [-> | Hne].
        -- apply Hnew; [reflexivity | destruct Hp as (? & ? & _); lia | lia].
        -- apply Hold; [exact Hne | lia | exact Hp].
Qed.

Lemma compaction_loop_inv intervals : forall c seen c',
  compaction_inv full c seen ->
  forallb (interval_in (Z.of_nat (length full))) intervals = true ->
  ascending intervals = true ->
  (forall x, In x intervals -> current_interval_start c <= x.1) ->
  SerializeSource_loop cfg full one_byte intervals c = (c', true) ->
  compaction_inv full c' (rev intervals ++ seen).
Proof.
  induction intervals as [| [a b] rest IH]; intros c seen c' Hinv Hall Hasc Hlo Hrun.
  - simpl in Hrun. injection Hrun as <-. exact Hinv.
  - simpl in Hall. apply andb_true_iff in Hall as [Hin Hall].
    cbn [SerializeSource_loop] in Hrun.
    destruct (SerializeSource_step cfg full one_byte c (a, b)) as [c1 |] eqn:E;
      [| discriminate].
    destruct (compaction_step_inv c seen a b c1 Hinv Hin (Hlo (a, b) (or_introl eq_refl)) E)
      as [Hinv1 Hlo1].
    simpl. rewrite <- app_assoc. simpl.
    apply (IH c1 ((a, b) :: seen) c' Hinv1 Hall (ascending_tail _ _ Hasc)); [| exact Hrun].
    intros x Hx. pose proof (ascending_head _ _ Hasc x Hx) as H. simpl in H. lia.
Qed.

Lemma compaction_inv_start : compaction_inv full (compaction_start ∅) [].
Proof.
  unfold compaction_inv, placed, compaction_start. simpl.
  split; [| split; [lia | intros a b []]].
  unfold offset_at. rewrite lookup_empty.
  repeat split; intros; lia.
Qed.

End CompactionTexts.

Section CompactionStatement.
Import Serializer.

(** X1: source compaction loses no text.  When the intervals lie inside the
    full source and their starts do not decrease, and the compacted string
    does not outgrow the length limit, the text of every recorded interval
    is read back from the compacted source at the offset recorded for the
    interval's start. *)
Theorem compaction_keeps_every_text cfg full one_byte intervals c :
  forallb (interval_in (Z.of_nat (length full))) intervals = true ->
  ascending intervals = true ->
  SerializeSource_loop cfg full one_byte intervals (compaction_start ∅) = (c, true) ->
  Forall (text_kept full c) intervals.
Proof.
  intros Hall Hasc Hrun. apply Forall_forall. intros [a b] Hin.
  apply list_elem_of_In in Hin.
  assert (Hlo : forall x, In x intervals ->
            current_interval_start (compaction_start ∅) <= x.1).
  { intros x Hx. simpl. rewrite forallb_forall in Hall.
    specialize (Hall x Hx). unfold interval_in in Hall.
    apply andb_true_iff in Hall as [Hall _].
    apply andb_true_iff in Hall as [Hall _]. apply Z.leb_le in Hall. exact Hall. }
  pose proof (compaction_loop_inv cfg full one_byte intervals _ [] c
                (compaction_inv_start full) Hall Hasc Hlo Hrun) as (_ & Hce & Hseen).
  destruct (Hseen a b) as [Hb Hp].
  { apply in_or_app. left. apply in_rev in Hin. exact Hin. }
  apply placed_text_kept; [lia | exact Hp].
Qed.

Lemma compaction_keeps_every_text_witness :
  Forall (text_kept (Fixtures.units "abcdefgh")
            (Fixtures.compact [(1, 7); (2, 4); (5, 7)]))
    [(1, 7); (2, 4); (5, 7)].
Proof.
  apply (compaction_keeps_every_text Fixtures.scfg (Fixtures.units "abcdefgh") true).
  - reflexivity.
  - reflexivity.
  - reflexivity.
Defined.

End CompactionStatement.

(** *** The properties of a shape record *)

Section ShapeRecords.
Import Codec Flags Serializer.

Context (cfg : Config).

Lemma descriptors_inv ds : forall seen i fci sids attrs s r s',
  i = Z.of_nat (length seen) ->
  partition_inv seen fci sids attrs ->
  SerializeMap_descriptors cfg ds i fci sids attrs s = (Some r, s') ->
  partition_inv (seen ++ ds) r.1.1 r.1.2 r.2.
Proof.
  induction ds as [| [key details] ds IH]; intros seen i fci sids attrs s r s' Hi Hinv Hrun.
  - simpl in Hrun. injection Hrun as <- <-. simpl. rewrite app_nil_r. exact Hinv.
  - cbn [SerializeMap_descriptors] in Hrun.
    destruct (negb (IsString s key)); [discriminate |].
    destruct (negb (is_field details)); [discriminate |].
    destruct (match key with
              | HeapRef k => SerializeString cfg k 0 s
              | Smi _ => (0, s)
              end) as [string_id s1].
    replace (seen ++ (key, details) :: ds) with ((seen ++ [(key, details)]) ++ ds)
      by (rewrite <- app_assoc; reflexivity).
    eapply IH; [| | exact Hrun].
    + rewrite length_app. simpl. lia.
    + destruct Hinv as [Hlen Hcase]. split.
      { rewrite !length_app. simpl. lia. }
      destruct Hcase as [(-> & -> & Hall) | (Hf & (d0 & Hd0 & Hnp) & Hall & ->)].
      * simpl.
        destruct (IsReadOnly details || negb (IsConfigurable details)
                  || negb (IsEnumerable details)) eqn:E.
        -- right. simpl. subst i.
           rewrite Nat2Z.id. rewrite length_app. simpl.
           split; [lia |].
           split.
           { exists (key, details). split.
             - rewrite lookup_app_r by lia. rewrite Nat.sub_diag. reflexivity.
             - unfold plain. simpl. intros Hp. apply default_flags_iff in Hp.
               destruct Hp as (Hp1 & Hp2 & Hp3). rewrite Hp1, Hp2, Hp3 in E.
               discriminate E. }
           rewrite take_app_length, drop_app_length.
           split; [exact Hall | reflexivity].
        -- left. split; [reflexivity |]. split; [reflexivity |].
           apply Forall_app. split; [exact Hall |]. constructor; [| constructor].
           unfold plain. simpl. apply default_flags_iff.
           apply orb_false_iff in E as [E E3]. apply orb_false_iff in E as [E1 E2].
           apply negb_false_iff in E2, E3. auto.
      * right.
        replace (0 <=? fci) with true by (symmetry; apply Z.leb_le; lia).
        simpl. replace (fci =? -1) with false by (symmetry; apply Z.eqb_neq; lia).
        rewrite length_app. simpl. split; [lia |].
        split.
        { exists d0. split; [| exact Hnp].
          rewrite lookup_app_l; [exact Hd0 |]. apply lookup_lt_Some in Hd0. exact Hd0. }
        rewrite take_app_le by lia. split; [exact Hall |].
        rewrite drop_app_le by lia. rewrite map_app. reflexivity.
Qed.

Lemma properties_bytes sids : forall ds i fci attrs,
  0 <= i -> i + Z.of_nat (length sids) < 2147483648 ->
  length sids = length ds ->
  (forall k d, ds !! k = Some d ->
     if 0 <=? fci
     then if i + Z.of_nat k <? fci then plain d
          else nth (Z.to_nat (i + Z.of_nat k - fci)) attrs 0 = AttributesToFlags d.2
     else True) ->
  SerializeMap_properties sids attrs i fci
  = concat (zip_with (property_bytes (0 <=? fci)) sids ds).
Proof.
  induction sids as [| sid sids IH]; intros ds i fci attrs Hi Hb Hlen H.
  - reflexivity.
  - destruct ds as [| d ds]; [discriminate |].
    cbn [SerializeMap_properties zip_with concat].
    simpl in Hlen, Hb.
    rewrite (IH ds (i + 1) fci attrs); [| lia | lia | lia |].
    + unfold property_bytes at 2. rewrite <- app_assoc. f_equal.
      pose proof (H 0%nat d eq_refl) as H0. simpl in H0.
      assert (Eti : to_int i = i).
      { unfold to_int. replace (i <? 2147483648) with true; [reflexivity |].
        symmetry. apply Z.ltb_lt. lia. }
      rewrite Eti. destruct (0 <=? fci); [| reflexivity].
      rewrite Z.add_0_r in H0.
      destruct (i <? fci); [rewrite H0; reflexivity | rewrite H0; reflexivity].
    + intros k d' Hk. specialize (H (S k) d' Hk).
      replace (i + 1 + Z.of_nat k) with (i + Z.of_nat (S k)) by lia. exact H.
Qed.


End ShapeRecords.

Section ShapeRecordsWitness.
Import Codec Flags Serializer.
End ShapeRecordsWitness.

(** *** The magic number *)

Section ForeignBuffer.
Import Codec Flags Deserializer.

(** X4: a buffer that is too short for the magic number, or starts with
    other bytes, is refused before anything else is read: [Deserialize]
    returns false with the message "Invalid magic number", no table and no
    object is allocated, the global namespace is as before, and nothing is
    left to read. *)
Theorem foreign_buffer_rejected cfg capacity entries buffer :
  match Codec.ReadRawBytes 4 buffer with
  | Some (m, _) => bytes_eqb m (kMagicNumber cfg) = false
  | None => True
  end ->
  rejected "Invalid magic number" capacity entries
    (Deserialize cfg (new_deserializer capacity entries buffer)).
Proof.
  intros H.
  unfold Deserialize, DeserializeSnapshot, bind, gets, modify, ReadRawBytes.
  change (deserialized_ (new_deserializer capacity entries buffer)) with false.
  cbv beta iota.
  set (s0 := set_deferred_references_ [] _).
  change (position_ s0) with buffer.
  destruct (Codec.ReadRawBytes 4 buffer) as [[m rest] |]; cbv beta iota.
  - rewrite H. cbv beta iota delta [negb].
    vm_compute. repeat split.
  - vm_compute. repeat split.
Qed.

Lemma foreign_buffer_rejected_witness :
  rejected "Invalid magic number" 0 []
    (Deserialize Fixtures.dcfg (new_deserializer 0 [] [])).
Proof. apply (foreign_buffer_rejected Fixtures.dcfg 0 [] []). exact I. Defined.

End ForeignBuffer.

(** *** Function prototypes *)

Section PrototypeShapes.
Import Codec Flags Deserializer.

Lemma bind_Done {A B : Type} (m : M A) (k : A -> M B) s b s2 :
  bind m k s = Done b s2 -> exists a s1, m s = Done a s1 /\ k a s1 = Done b s2.
Proof.
  unfold bind. destruct (m s) as [a s1 | f]; [| discriminate].
  intros H. exists a, s1. split; [reflexivity | exact H].
Qed.

Lemma heap_get_Done a s o s' :
  heap_get a s = Done o s' -> heap s !! a = Some o /\ s' = s.
Proof.
  unfold heap_get. destruct (heap s !! a) as [o' |]; [| discriminate].
  intros H. injection H as -> ->. split; reflexivity.
Qed.

Lemma heap_set_spec a o s : heap_set a o s = Done tt (set_heap (<[a := o]> (heap s)) s).
Proof. reflexivity. Qed.

Lemma SetFunctionPrototype_true function prototype s s1 :
  SetFunctionPrototype function prototype s = Done true s1 ->
  exists map properties ds proto flag fd,
    heap s !! prototype = Some (HJSObject map properties)
    /\ heap s !! map = Some (HMap ds proto None flag)
    /\ heap s !! function = Some (HJSFunction fd)
    /\ function <> map
    /\ heap s1 !! map = Some (HMap ds proto (Some function) true)
    /\ forall a, a <> map -> a <> function -> heap s1 !! a = heap s !! a.
Proof.
  intros H. unfold SetFunctionPrototype in H.
  apply bind_Done in H as (p & sa & Hg & H). apply heap_get_Done in Hg as [Ep ->].
  destruct p as [| | | | | | m props | | | |]; try discriminate H.
  apply bind_Done in H as (o & sa & Hg & H). apply heap_get_Done in Hg as [Em ->].
  destruct o as [| ds proto ctor flag | | | | | | | | |]; try discriminate H.
  apply bind_Done in H as ([] & sa & Hs & H). rewrite heap_set_spec in Hs.
  injection Hs as <-.
  destruct ctor as [c |]; [discriminate H |].
  apply bind_Done in H as ([] & sa & Hs & H). rewrite heap_set_spec in Hs.
  injection Hs as <-.
  apply bind_Done in H as (o & sa & Hg & H). apply heap_get_Done in Hg as [Ef ->].
  cbn [heap set_heap] in Ef. rewrite list_insert_insert_eq in Ef.
  destruct o as [| | | | | fd | | | | |]; try discriminate H.
  apply bind_Done in H as ([] & sa & Hs & H). rewrite heap_set_spec in Hs.
  injection Hs as <-. injection H as <-. cbn [heap set_heap].
  rewrite list_insert_insert_eq.
  assert (Hlt : (m < length (heap s))%nat) by (apply lookup_lt_Some in Em; exact Em).
  assert (Hfm : function <> m).
  { intros ->. rewrite list_lookup_insert_eq in Ef by exact Hlt. discriminate Ef. }
  rewrite list_lookup_insert_ne in Ef by (intros E; apply Hfm; symmetry; exact E).
  exists m, props, ds, proto, flag, fd.
  split; [exact Ep |]. split; [exact Em |]. split; [exact Ef |]. split; [exact Hfm |].
  split.
  - rewrite list_lookup_insert_ne by exact Hfm.
    apply list_lookup_insert_eq. exact Hlt.
  - intros a Ham Haf.
    rewrite list_lookup_insert_ne by (intros E; apply Haf; symmetry; exact E).
    rewrite list_lookup_insert_ne by (intros E; apply Ham; symmetry; exact E).
    reflexivity.
Qed.

Lemma SetFunctionPrototype_claimed function prototype s map properties ds proto c :
  heap s !! prototype = Some (HJSObject map properties) ->
  heap s !! map = Some (HMap ds proto (Some c) true) ->
  exists s2, SetFunctionPrototype function prototype s = Done false s2
    /\ heap s2 = heap s.
Proof.
  intros Ep Em. unfold SetFunctionPrototype, bind, heap_get.
  rewrite Ep, Em, heap_set_spec. cbn [ret].
  eexists. split; [reflexivity |]. cbn [heap set_heap].
  apply list_insert_id. exact Em.
Qed.

(** X5: a shape serves as the shape of one function prototype only.  After
    [SetFunctionPrototype] has succeeded for a prototype object, a call for
    any object of the same shape (the same object or another one, for the
    same function or another one) returns false and leaves the heap as it
    is; [ReadFunctionPrototype] and [ProcessDeferredReferences] then throw
    "Can't reuse function prototype". *)
Theorem prototype_shape_claimed_once function prototype other_function other_prototype s s1 :
  SetFunctionPrototype function prototype s = Done true s1 ->
  map_of s other_prototype = map_of s prototype ->
  exists s2,
    SetFunctionPrototype other_function other_prototype s1 = Done false s2
    /\ heap s2 = heap s1.
Proof.
  intros H Ho.
  destruct (SetFunctionPrototype_true _ _ _ _ H)
    as (map & properties & ds & proto & flag & fd & Ep & Em0 & Ef & Hfm & Em & Hrest).
  unfold map_of in Ho. rewrite Ep in Ho.
  destruct (heap s !! other_prototype) as [[| | | | | | m props | | | |] |] eqn:Eo;
    try discriminate Ho.
  injection Ho as ->.
  apply (SetFunctionPrototype_claimed other_function other_prototype s1 map props
           ds proto function); [| exact Em].
  rewrite Hrest; [exact Eo | |].
  - intros ->. rewrite Eo in Em0. discriminate Em0.
  - intros ->. rewrite Ef in Eo. discriminate Eo.
Qed.

Lemma prototype_shape_claimed_once_witness :
  exists s2,
    SetFunctionPrototype 9%nat 7%nat Fixtures.first_claim = Done false s2
    /\ heap s2 = heap Fixtures.first_claim.
Proof.
  apply (prototype_shape_claimed_once 8%nat 6%nat 9%nat 7%nat Fixtures.shared_shape); reflexivity.
Defined.

End PrototypeShapes.

(** *** What every step of the deserializer keeps *)

Section Preservation.
Import Codec Flags Deserializer.

Context (cfg : Config) (P : State -> Prop) (HS : Stable cfg P).

Lemma preserves_ret {A : Type} (a : A) : preserves P (ret a).
Proof. intros s H. exact H. Qed.

Lemma preserves_crash {A : Type} f : preserves P (@crash A f).
Proof. intros s H. exact I. Qed.

Lemma preserves_gets {A : Type} (f : State -> A) : preserves P (gets f).
Proof. intros s H. exact H. Qed.

Lemma preserves_bind {A B : Type} (m : M A) (k : A -> M B) :
  preserves P m -> (forall a, preserves P (k a)) -> preserves P (bind m k).
Proof.
  intros Hm Hk s H. unfold bind. specialize (Hm s H).
  destruct (m s) as [a s' | f]; [exact (Hk a s' Hm) | exact I].
Qed.

Lemma preserves_or_return {A : Type} (m : M (option A)) (k : A -> M Ctl) :
  preserves P m -> (forall a, preserves P (k a)) -> preserves P (or_return m k).
Proof.
  intros Hm Hk. unfold or_return. apply preserves_bind; [exact Hm |].
  intros [a |]; [apply Hk | apply preserves_ret].
Qed.

Lemma preserves_modify (f : State -> State) :
  (forall s, P s -> P (f s)) -> preserves P (modify f).
Proof. intros Hf s H. exact (Hf s H). Qed.

Lemma preserves_loop fuel cond (body : M Ctl) :
  preserves P body -> preserves P (loop fuel cond body).
Proof.
  intros Hb. induction fuel as [| fuel IH]; intros s H; simpl.
  - destruct (cond s); [exact I | exact H].
  - destruct (cond s); [| exact H].
    apply (preserves_bind body); [exact Hb | | exact H].
    intros [|]; [exact IH | apply preserves_ret].
Qed.

Lemma preserves_for_range n : forall i cond (body : Z -> M Ctl),
  (forall i, preserves P (body i)) -> preserves P (for_range n i cond body).
Proof.
  induction n as [| n IH]; intros i cond body Hb s H; simpl.
  - destruct (cond i s); [exact I | exact H].
  - destruct (cond i s); [| exact H].
    apply (preserves_bind (body i)); [apply Hb | | exact H].
    intros [|]; [apply IH; exact Hb | apply preserves_ret].
Qed.

Lemma preserves_emit e : is_alloc e = false -> preserves P (emit e).
Proof. intros He s H. apply (stable_emit _ _ HS); assumption. Qed.

Lemma preserves_ReadUint32 : preserves P ReadUint32.
Proof.
  intros s H. unfold ReadUint32.
  destruct (Codec.ReadUint32 (position_ s)) as [[v rest] |];
    [apply (stable_position_ _ _ HS) |]; exact H.
Qed.

Lemma preserves_ReadZigZag : preserves P ReadZigZag.
Proof.
  intros s H. unfold ReadZigZag.
  destruct (Codec.ReadZigZag (position_ s)) as [[v rest] |];
    [apply (stable_position_ _ _ HS) |]; exact H.
Qed.

Lemma preserves_ReadDouble : preserves P ReadDouble.
Proof.
  intros s H. unfold ReadDouble.
  destruct (Codec.ReadDouble (position_ s)) as [[v rest] |];
    [apply (stable_position_ _ _ HS) |]; exact H.
Qed.

Lemma preserves_ReadUtf8String : preserves P ReadUtf8String.
Proof.
  intros s H. unfold ReadUtf8String.
  destruct (Codec.ReadUtf8String (position_ s)) as [[v rest] |];
    [apply (stable_position_ _ _ HS) |]; exact H.
Qed.

Lemma preserves_ReadRawBytes n : preserves P (ReadRawBytes n).
Proof.
  intros s H. unfold ReadRawBytes.
  destruct (Codec.ReadRawBytes n (position_ s)) as [[v rest] |];
    [apply (stable_position_ _ _ HS) |]; exact H.
Qed.

Lemma preserves_table_get t i : preserves P (table_get t i).
Proof.
  intros s H. unfold table_get. destruct (in_bounds i (tables s t)); [exact H | exact I].
Qed.

Lemma preserves_table_set t i v : preserves P (table_set t i v).
Proof.
  intros s H. unfold table_set. destruct (in_bounds i (tables s t)); [| exact I].
  apply (stable_table_set _ _ HS). exact H.
Qed.

Lemma preserves_NewTable t n :
  t = TArray \/ n <= kMaxItemCount cfg -> preserves P (NewTable t n).
Proof. intros Hn s H. exact (stable_new_table _ _ HS t n s Hn H). Qed.

Lemma preserves_set_count t v : preserves P (set_count t v).
Proof. intros s H. apply (stable_counts _ _ HS). exact H. Qed.

Lemma preserves_set_current t v : preserves P (set_current t v).
Proof. intros s H. apply (stable_currents _ _ HS). exact H. Qed.

Lemma preserves_allocate o : preserves P (allocate o).
Proof. intros s H. apply (stable_heap _ _ HS). exact H. Qed.

Lemma preserves_heap_get a : preserves P (heap_get a).
Proof. intros s H. unfold heap_get. destruct (heap s !! a); [exact H | exact I]. Qed.

Lemma preserves_heap_set a o : preserves P (heap_set a o).
Proof. intros s H. apply (stable_heap _ _ HS). exact H. Qed.

Lemma preserves_cast_ref v : preserves P (cast_ref v).
Proof. destruct v; first [apply preserves_ret | apply preserves_crash]. Qed.

Lemma preserves_BaseThrow message : preserves P (BaseThrow message).
Proof.
  intros s H. unfold BaseThrow, bind, gets, has_error.
  destruct (error_message_ s) eqn:E; [exact H |].
  exact (stable_throw _ _ HS message s E H).
Qed.

Lemma preserves_set_deferred v : preserves P (modify (set_deferred_references_ v)).
Proof. apply preserves_modify. intros s. apply (stable_deferred_references_ _ _ HS). Qed.

Lemma preserves_set_position v : preserves P (modify (set_position_ v)).
Proof. apply preserves_modify. intros s. apply (stable_position_ _ _ HS). Qed.

Lemma preserves_set_script_source v : preserves P (modify (set_script_source_ v)).
Proof. apply preserves_modify. intros s. apply (stable_script_source_ _ _ HS). Qed.

Lemma preserves_set_global_dictionary v : preserves P (modify (set_global_dictionary v)).
Proof. apply preserves_modify. intros s. apply (stable_global_dictionary _ _ HS). Qed.

Create HintDb pres.
Local Hint Resolve preserves_ReadUint32 preserves_ReadZigZag preserves_ReadDouble
  preserves_ReadUtf8String preserves_ReadRawBytes preserves_table_get
  preserves_table_set preserves_set_count preserves_set_current
  preserves_allocate preserves_heap_get preserves_heap_set preserves_cast_ref
  preserves_BaseThrow preserves_set_deferred preserves_set_position
  preserves_set_script_source preserves_set_global_dictionary : pres.

(** The bound that the check of a table's count leaves. *)
Ltac ceiling :=
  first
    [ left; reflexivity
    | right;
      match goal with
      | E : negb _ || (_ <? _) = false |- _ =>
          apply orb_false_iff in E as [_ E]; apply Z.ltb_ge in E; exact E
      end ].

Ltac pres :=
  repeat
    (cbv zeta;
     match goal with
     | |- forall _, _ => intros ?
     | |- preserves _ (bind _ _) => apply preserves_bind
     | |- preserves _ (or_return _ _) => apply preserves_or_return
     | |- preserves _ (ret _) => apply preserves_ret
     | |- preserves _ (crash _) => apply preserves_crash
     | |- preserves _ (gets _) => apply preserves_gets
     | |- preserves _ (emit _) => apply preserves_emit; reflexivity
     | |- preserves _ (NewTable _ _) => apply preserves_NewTable; ceiling
     | |- preserves _ (loop _ _ _) => apply preserves_loop
     | |- preserves _ (for_range _ _ _ _) => apply preserves_for_range
     | |- preserves _ (if ?b then _ else _) => destruct b eqn:?
     | |- preserves _ (match ?x with _ => _ end) => destruct x eqn:?
     | |- preserves _ _ => solve [auto 1 with pres]
     end).

Lemma preserves_Throw message : preserves P (Throw message).
Proof. unfold Throw. pres. Qed.
Local Hint Resolve preserves_Throw : pres.

Lemma preserves_store_slot c i v : preserves P (store_slot c i v).
Proof. unfold store_slot. pres. Qed.

Lemma preserves_set_prototype m p : preserves P (set_prototype m p).
Proof. unfold set_prototype. pres. Qed.
Local Hint Resolve preserves_store_slot preserves_set_prototype : pres.

Lemma preserves_FunctionFlagsToFunctionKind flags :
  preserves P (Deserializer.FunctionFlagsToFunctionKind cfg flags).
Proof. unfold Deserializer.FunctionFlagsToFunctionKind. pres. Qed.

Lemma preserves_ReadUint32_or_throw message : preserves P (ReadUint32_or_throw message).
Proof. unfold ReadUint32_or_throw. pres. Qed.

Lemma preserves_throw_if b message : preserves P (throw_if b message).
Proof. unfold throw_if. pres. Qed.

Lemma preserves_ReadUint32_into_count t : preserves P (ReadUint32_into_count t).
Proof. unfold ReadUint32_into_count. pres. Qed.
Local Hint Resolve preserves_FunctionFlagsToFunctionKind preserves_ReadUint32_or_throw
  preserves_throw_if preserves_ReadUint32_into_count : pres.

Lemma preserves_DeserializeStrings : preserves P (DeserializeStrings cfg).
Proof. unfold DeserializeStrings. pres. Qed.

Lemma preserves_ReadString b : preserves P (ReadString b).
Proof. unfold ReadString. pres. Qed.

Lemma preserves_AddDeferredReference c i ty id :
  preserves P (AddDeferredReference c i ty id).
Proof.
  unfold AddDeferredReference. pres.
  apply preserves_modify. intros s0. apply (stable_deferred_references_ _ _ HS).
Qed.
Local Hint Resolve preserves_ReadString preserves_AddDeferredReference : pres.

Lemma preserves_ReadValue_id t ty strict limit message o i :
  preserves P (ReadValue_id t ty strict limit message o i).
Proof. unfold ReadValue_id. pres. Qed.
Local Hint Resolve preserves_ReadValue_id : pres.

Lemma preserves_ReadValue o i : preserves P (ReadValue cfg o i).
Proof. unfold ReadValue. pres. Qed.
Local Hint Resolve preserves_ReadValue : pres.

Lemma preserves_read_descriptors n : forall i custom ds,
  preserves P (read_descriptors n i custom ds).
Proof. induction n as [| n IH]; intros i custom ds; cbn [read_descriptors]; pres. Qed.
Local Hint Resolve preserves_read_descriptors : pres.

Lemma preserves_DeserializeMaps_body i : preserves P (DeserializeMaps_body cfg i).
Proof. unfold DeserializeMaps_body. pres. Qed.
Local Hint Resolve preserves_DeserializeMaps_body : pres.

Lemma preserves_DeserializeMaps : preserves P (DeserializeMaps cfg).
Proof. unfold DeserializeMaps. pres. Qed.


Lemma preserves_scope_info_set a i v : preserves P (scope_info_set a i v).
Proof. unfold scope_info_set. pres. Qed.
Local Hint Resolve preserves_scope_info_set : pres.

Lemma preserves_CreateScopeInfo n b ty : preserves P (CreateScopeInfo cfg n b ty).
Proof. unfold CreateScopeInfo. pres. Qed.

Lemma preserves_read_local_names n : forall i a base info_base names,
  preserves P (read_local_names cfg n i a base info_base names).
Proof.
  induction n as [| n IH]; intros i a base info_base names;
    cbn [read_local_names]; pres.
Qed.

Lemma preserves_read_local_values n : forall i c,
  preserves P (read_local_values cfg n i c).
Proof. induction n as [| n IH]; intros i c; cbn [read_local_values]; pres. Qed.
Local Hint Resolve preserves_CreateScopeInfo preserves_read_local_names
  preserves_read_local_values : pres.

Lemma preserves_DeserializeContexts_body i : preserves P (DeserializeContexts_body cfg i).
Proof. unfold DeserializeContexts_body. pres. Qed.
Local Hint Resolve preserves_DeserializeContexts_body : pres.

Lemma preserves_DeserializeContexts : preserves P (DeserializeContexts cfg).
Proof. unfold DeserializeContexts. pres. Qed.

Lemma preserves_set_context f c : preserves P (set_context f c).
Proof. unfold set_context. pres. Qed.
Local Hint Resolve preserves_set_context : pres.

Lemma preserves_CreateJSFunction a b c d e f :
  preserves P (CreateJSFunction cfg a b c d e f).
Proof. unfold CreateJSFunction. pres. Qed.

Lemma preserves_SetFunctionPrototype f p : preserves P (SetFunctionPrototype f p).
Proof. unfold SetFunctionPrototype. pres. Qed.
Local Hint Resolve preserves_CreateJSFunction preserves_SetFunctionPrototype : pres.

Lemma preserves_ReadFunctionPrototype f : preserves P (ReadFunctionPrototype cfg f).
Proof. unfold ReadFunctionPrototype. pres. Qed.

Lemma preserves_read_function_fields message : preserves P (read_function_fields message).
Proof. unfold read_function_fields. pres. Qed.

Lemma preserves_read_context_id message : preserves P (read_context_id message).
Proof. unfold read_context_id. pres. Qed.
Local Hint Resolve preserves_ReadFunctionPrototype preserves_read_function_fields
  preserves_read_context_id : pres.

Lemma preserves_DeserializeFunctions_body : preserves P (DeserializeFunctions_body cfg).
Proof. unfold DeserializeFunctions_body. pres. Qed.

Lemma preserves_loop_current t body :
  preserves P body -> preserves P (loop_current t body).
Proof. intros Hb. unfold loop_current. pres. Qed.

Lemma preserves_DeserializeFunctions : preserves P (DeserializeFunctions cfg).
Proof.
  unfold DeserializeFunctions. pres.
  apply preserves_loop_current, preserves_DeserializeFunctions_body.
Qed.

Lemma preserves_DeserializeClasses_body : preserves P (DeserializeClasses_body cfg).
Proof. unfold DeserializeClasses_body. pres. Qed.

Lemma preserves_DeserializeClasses : preserves P (DeserializeClasses cfg).
Proof.
  unfold DeserializeClasses. pres.
  apply preserves_loop_current, preserves_DeserializeClasses_body.
Qed.

Lemma preserves_read_properties n : forall i a,
  preserves P (read_properties cfg n i a).
Proof. induction n as [| n IH]; intros i a; cbn [read_properties]; pres. Qed.

Lemma preserves_read_elements n : forall i a,
  preserves P (read_elements cfg n i a).
Proof. induction n as [| n IH]; intros i a; cbn [read_elements]; pres. Qed.
Local Hint Resolve preserves_read_properties preserves_read_elements : pres.

Lemma preserves_DeserializeObjects_body : preserves P (DeserializeObjects_body cfg).
Proof. unfold DeserializeObjects_body. pres. Qed.

Lemma preserves_DeserializeObjects : preserves P (DeserializeObjects cfg).
Proof.
  unfold DeserializeObjects. pres.
  apply preserves_loop_current, preserves_DeserializeObjects_body.
Qed.

Lemma preserves_DeserializeArrays_body : preserves P (DeserializeArrays_body cfg).
Proof. unfold DeserializeArrays_body. pres. Qed.

Lemma preserves_DeserializeArrays : preserves P (DeserializeArrays cfg).
Proof.
  unfold DeserializeArrays. pres.
  apply preserves_loop_current, preserves_DeserializeArrays_body.
Qed.

Lemma preserves_EnsureCapacity d n : preserves P (EnsureCapacity d n).
Proof. unfold EnsureCapacity. pres. Qed.

Lemma preserves_NumberOfElements d : preserves P (NumberOfElements d).
Proof. unfold NumberOfElements. pres. Qed.
Local Hint Resolve preserves_EnsureCapacity preserves_NumberOfElements : pres.

Lemma preserves_GlobalDictionary_Add d name v :
  preserves P (GlobalDictionary_Add d name v).
Proof. unfold GlobalDictionary_Add. pres. Qed.
Local Hint Resolve preserves_GlobalDictionary_Add : pres.

Lemma preserves_DeserializeExports_loop n : forall d,
  preserves P (DeserializeExports_loop cfg n d).
Proof. induction n as [| n IH]; intros d; cbn [DeserializeExports_loop]; pres. Qed.
Local Hint Resolve preserves_DeserializeExports_loop : pres.

Lemma preserves_DeserializeExports : preserves P (DeserializeExports cfg).
Proof. unfold DeserializeExports. pres. Qed.

Lemma preserves_ProcessDeferredReferences_loop refs :
  preserves P (ProcessDeferredReferences_loop refs).
Proof.
  induction refs as [| [[[c i] ty] id] refs IH]; cbn [ProcessDeferredReferences_loop]; pres.
Qed.
Local Hint Resolve preserves_ProcessDeferredReferences_loop : pres.

Lemma preserves_ProcessDeferredReferences : preserves P ProcessDeferredReferences.
Proof. unfold ProcessDeferredReferences. pres. Qed.

Local Hint Resolve preserves_DeserializeStrings preserves_DeserializeMaps
  preserves_DeserializeContexts preserves_DeserializeFunctions
  preserves_DeserializeClasses preserves_DeserializeObjects
  preserves_DeserializeArrays preserves_DeserializeExports
  preserves_ProcessDeferredReferences : pres.

Lemma preserves_DeserializeSnapshot : preserves P (DeserializeSnapshot cfg).
Proof. unfold DeserializeSnapshot. pres. Qed.

Lemma preserves_DeserializeScript : preserves P (DeserializeScript cfg).
Proof. unfold DeserializeScript. pres. Qed.

End Preservation.

Section Runs.
Import Codec Flags Deserializer.

Lemma Stable_used cfg : Stable cfg used.
Proof. constructor; intros; assumption. Qed.

Lemma Stable_failed_with cfg message : Stable cfg (failed_with message).
Proof.
  constructor; intros; try assumption.
  unfold failed_with in *. congruence.
Qed.

Lemma Stable_within_ceiling cfg :
  0 <= kMaxItemCount cfg -> Stable cfg (within_ceiling cfg).
Proof.
  intros Hmax. constructor; intros; try assumption.
  - destruct H0 as [H1 H2]. split; [| exact H2].
    intros t n Hin. cbn [trace set_trace] in Hin.
    apply in_app_or in Hin as [Hin | [Hin | []]]; [exact (H1 t n Hin) |].
    subst e. discriminate H.
  - destruct H0 as [H1 H2]. split; [| exact H2].
    intros t n Hin. cbn [trace set_trace set_error_message_] in Hin.
    apply in_app_or in Hin as [Hin | [Hin | []]]; [exact (H1 t n Hin) | discriminate Hin].
  - destruct H as [H1 H2]. split; [exact H1 |].
    intros t' Ht'. cbn [tables set_tables]. unfold upd.
    destruct (Table_eqb t t') eqn:E; [| exact (H2 t' Ht')].
    rewrite length_insert.
    assert (t = t') as -> by (destruct t, t'; try discriminate E; reflexivity).
    exact (H2 t' Ht').
  - destruct H0 as [H1 H2]. split.
    + intros t' n' Hin. cbn [trace set_trace set_tables] in Hin.
      apply in_app_or in Hin as [Hin | [Hin | []]]; [exact (H1 t' n' Hin) |].
      injection Hin as <- <-. exact H.
    + intros t' Ht'. cbn [tables set_tables set_trace]. unfold upd.
      destruct (Table_eqb t t') eqn:E; [| exact (H2 t' Ht')].
      assert (t = t') as -> by (destruct t, t'; try discriminate E; reflexivity).
      rewrite length_replicate. destruct H as [-> | H]; [contradiction |]. lia.
Qed.

Lemma Deserialize_unfold cfg s :
  Deserialize cfg s
  = if deserialized_ s
    then bind (Throw "Can't reuse WebSnapshotDeserializer") (fun _ => ret false) s
    else bind (DeserializeSnapshot cfg)
           (fun ok => if negb ok then ret false else DeserializeScript cfg)
           (set_deserialized_ true s).
Proof. unfold Deserialize, bind, gets, modify. destruct (deserialized_ s); reflexivity. Qed.

Lemma preserves_run cfg P :
  Stable cfg P ->
  preserves P (bind (DeserializeSnapshot cfg)
                 (fun ok => if negb ok then ret false else DeserializeScript cfg)).
Proof.
  intros HS. apply preserves_bind; [apply (preserves_DeserializeSnapshot cfg P HS) |].
  intros ok. destruct (negb ok);
    [apply preserves_ret | apply preserves_DeserializeScript].
Qed.

Lemma preserves_refusal cfg P message :
  Stable cfg P -> preserves P (bind (Throw message) (fun _ => ret false)).
Proof.
  intros HS. apply preserves_bind; [apply (preserves_Throw cfg P HS) |].
  intros ?. apply preserves_ret.
Qed.

(** What [Throw] leaves, whatever the state is. *)
Lemma Throw_outcome message s :
  exists s', Throw message s = Done tt s'
    /\ error_message_ s' = Some (default message (error_message_ s))
    /\ position_ s' = []
    /\ deferred_references_ s' = []
    /\ deserialized_ s' = deserialized_ s
    /\ heap s' = heap s
    /\ tables s' = tables s
    /\ currents s' = currents s
    /\ global_dictionary s' = global_dictionary s
    /\ trace s' = trace s ++ (if has_error s then [] else [EvThrow message]).
Proof.
  unfold Throw, bind, set_count, modify.
  match goal with
  | |- context [BaseThrow message ?s0] =>
      assert (E : error_message_ s0 = error_message_ s) by reflexivity;
      assert (E1 : heap s0 = heap s) by reflexivity;
      assert (E2 : tables s0 = tables s) by reflexivity;
      assert (E3 : currents s0 = currents s) by reflexivity;
      assert (E4 : global_dictionary s0 = global_dictionary s) by reflexivity;
      assert (E5 : trace s0 = trace s) by reflexivity;
      assert (E6 : position_ s0 = []) by reflexivity;
      assert (E7 : deferred_references_ s0 = []) by reflexivity;
      assert (E8 : deserialized_ s0 = deserialized_ s) by reflexivity;
      generalize dependent s0
  end.
  intros s0 E E1 E2 E3 E4 E5 E6 E7 E8.
  unfold BaseThrow, bind, gets, has_error, emit, modify. rewrite E.
  destruct (error_message_ s) as [m |] eqn:Em.
  - exists s0. rewrite E, E1, E2, E3, E4, E5, E6, E7, E8, app_nil_r.
    repeat split.
  - eexists. split; [reflexivity |].
    cbn [error_message_ position_ deferred_references_ deserialized_ heap tables
         currents global_dictionary trace set_trace set_error_message_].
    rewrite E1, E2, E3, E4, E5, E6, E7, E8. repeat split.
Qed.

(** X6: a deserializer runs once.  After any call of [Deserialize] that
    returned, a further call returns false, records "Can't reuse
    WebSnapshotDeserializer" unless an error message is already there (the
    first message stays), and leaves the heap, the tables and the global
    namespace as they are. *)
Theorem second_run_refused cfg s ok s1 :
  Deserialize cfg s = Done ok s1 ->
  exists s2,
    Deserialize cfg s1 = Done false s2
    /\ error_message_ s2
       = Some (default "Can't reuse WebSnapshotDeserializer"%string (error_message_ s1))
    /\ heap s2 = heap s1
    /\ tables s2 = tables s1
    /\ namespace s2 = namespace s1
    /\ trace s2 = trace s1 ++ (if has_error s1 then []
                               else [EvThrow "Can't reuse WebSnapshotDeserializer"]).
Proof.
  intros H.
  assert (Hused : used s1).
  { rewrite Deserialize_unfold in H. destruct (deserialized_ s) eqn:E.
    - pose proof (preserves_refusal cfg used "Can't reuse WebSnapshotDeserializer"
                    (Stable_used cfg) s E) as Hp.
      rewrite H in Hp. exact Hp.
    - pose proof (preserves_run cfg used (Stable_used cfg) (set_deserialized_ true s)
                    eq_refl) as Hp.
      rewrite H in Hp. exact Hp. }
  rewrite Deserialize_unfold. unfold used in Hused. rewrite Hused.
  destruct (Throw_outcome "Can't reuse WebSnapshotDeserializer" s1)
    as (s2 & Ht & Hm & _ & _ & _ & Hh & Htab & _ & Hg & Htr).
  exists s2. unfold bind. rewrite Ht. split; [reflexivity |].
  split; [exact Hm |]. split; [exact Hh |]. split; [exact Htab |].
  split; [| exact Htr].
  unfold namespace. rewrite Hh, Hg. reflexivity.
Qed.


Lemma second_run_refused_witness :
  exists s2,
    Deserialize Fixtures.dcfg (Fixtures.after_run Fixtures.two_exports) = Done false s2
    /\ error_message_ s2
       = Some (default "Can't reuse WebSnapshotDeserializer"%string
                 (error_message_ (Fixtures.after_run Fixtures.two_exports)))
    /\ heap s2 = heap (Fixtures.after_run Fixtures.two_exports)
    /\ tables s2 = tables (Fixtures.after_run Fixtures.two_exports)
    /\ namespace s2 = namespace (Fixtures.after_run Fixtures.two_exports)
    /\ trace s2 = trace (Fixtures.after_run Fixtures.two_exports)
                  ++ (if has_error (Fixtures.after_run Fixtures.two_exports) then []
                      else [EvThrow "Can't reuse WebSnapshotDeserializer"]).
Proof.
  apply (second_run_refused Fixtures.dcfg
           (new_deserializer 0 [] Fixtures.two_exports) true).
  vm_compute. reflexivity.
Defined.

(** X7: the first error message stays.  Once a message is recorded, none
    of the steps of [DeserializeSnapshot] and no call of [Deserialize]
    replaces it. *)
Theorem recorded_error_survives cfg message :
  Forall (preserves (failed_with message)) (steps cfg)
  /\ preserves (failed_with message) (Deserialize cfg).
Proof.
  pose proof (Stable_failed_with cfg message) as HS.
  split.
  - unfold steps. repeat constructor.
    + apply (preserves_DeserializeStrings _ _ HS).
    + apply (preserves_DeserializeMaps _ _ HS).
    + apply (preserves_DeserializeContexts _ _ HS).
    + apply (preserves_DeserializeFunctions _ _ HS).
    + apply (preserves_DeserializeArrays _ _ HS).
    + apply (preserves_DeserializeObjects _ _ HS).
    + apply (preserves_DeserializeClasses _ _ HS).
    + apply (preserves_ProcessDeferredReferences _ _ HS).
    + apply (preserves_DeserializeExports _ _ HS).
  - intros s H. rewrite Deserialize_unfold. destruct (deserialized_ s).
    + apply (preserves_refusal cfg _ _ HS s H).
    + apply (preserves_run cfg _ HS (set_deserialized_ true s)). exact H.
Qed.

(** X8: the ceiling on the tables.  In a run of [Deserialize] on a new
    deserializer, every table other than the array table is allocated with
    at most [kMaxItemCount] entries and never holds more. *)
Theorem tables_within_ceiling cfg capacity entries buffer :
  0 <= kMaxItemCount cfg ->
  match Deserialize cfg (new_deserializer capacity entries buffer) with
  | Done _ s => within_ceiling cfg s
  | Crash _ => True
  end.
Proof.
  intros Hmax. rewrite Deserialize_unfold. cbn [deserialized_ new_deserializer].
  apply (preserves_run cfg _ (Stable_within_ceiling cfg Hmax)).
  split.
  - intros t n [].
  - intros t _. simpl. exact Hmax.
Qed.

Lemma tables_within_ceiling_witness :
  match Deserialize Fixtures.dcfg (new_deserializer 0 [] Fixtures.ab_buffer) with
  | Done _ s => within_ceiling Fixtures.dcfg s
  | Crash _ => True
  end.
Proof.
  apply (tables_within_ceiling Fixtures.dcfg 0%nat [] Fixtures.ab_buffer).
  vm_compute. discriminate.
Defined.

Lemma Throw_idle message s :
  has_error s = true -> position_ s = [] ->
  exists s', Throw message s = Done tt s' /\ idle s s'.
Proof.
  intros He Hp.
  destruct (Throw_outcome message s)
    as (s' & Ht & Hm & Hpos & _ & _ & Hh & Htab & _ & Hg & Htr).
  exists s'. split; [exact Ht |].
  rewrite He in Htr. unfold has_error in He.
  destruct (error_message_ s) as [m |] eqn:E; [| discriminate He].
  unfold idle. rewrite Hm, Hpos, Hh, Htab, Hg, Htr, app_nil_r, E. repeat split.
Qed.

Lemma table_step_idle cfg t message (rest : Z -> M unit) s :
  has_error s = true -> position_ s = [] ->
  exists s',
    bind (ReadUint32_into_count t)
      (fun ok => bind (gets (fun s => counts s (if Table_eqb t TArray then TObject else t)))
         (fun count => if negb ok || (kMaxItemCount cfg <? count)
                       then Throw message else rest count)) s
    = Done tt s' /\ idle s s'.
Proof.
  intros He Hp. unfold bind at 1. unfold ReadUint32_into_count, bind at 1, ReadUint32.
  rewrite Hp. cbn [Codec.ReadUint32]. cbv beta iota. unfold ret at 1.
  unfold bind, gets. cbn [negb orb]. apply Throw_idle; assumption.
Qed.

(** X9: after [Throw] nothing more happens.  In a state with an error
    recorded and nothing left to read, each step of [DeserializeSnapshot]
    returns at once: it records no event, allocates nothing, and leaves the
    message, the heap, the tables and the global dictionary as they are. *)
Theorem nothing_after_error cfg s :
  has_error s = true -> position_ s = [] ->
  Forall (fun step : M unit => exists s', step s = Done tt s' /\ idle s s') (steps cfg).
Proof.
  intros He Hp. unfold steps. repeat constructor.
  - apply (table_step_idle cfg TString); assumption.
  - apply (table_step_idle cfg TMap); assumption.
  - apply (table_step_idle cfg TContext); assumption.
  - apply (table_step_idle cfg TFunction); assumption.
  - apply (table_step_idle cfg TArray); assumption.
  - apply (table_step_idle cfg TObject); assumption.
  - apply (table_step_idle cfg TClass); assumption.
  - exists s. unfold ProcessDeferredReferences, bind, gets. rewrite He.
    split; [reflexivity |]. unfold idle. rewrite Hp. repeat split.
  - unfold DeserializeExports, bind, ReadUint32. rewrite Hp. cbn [Codec.ReadUint32].
    apply Throw_idle; assumption.
Qed.

Lemma nothing_after_error_witness :
  Forall (fun step : M unit =>
            exists s', step (Fixtures.after_run Fixtures.truncated_arrays) = Done tt s'
                       /\ idle (Fixtures.after_run Fixtures.truncated_arrays) s')
    (steps Fixtures.dcfg).
Proof.
  apply (nothing_after_error Fixtures.dcfg (Fixtures.after_run Fixtures.truncated_arrays));
    vm_compute; reflexivity.
Defined.

End Runs.

(** *** The codec, there and back *)

Section CodecRoundTrip.
Import Codec.

Lemma Z_of_byte_of_Z z : Z_of_byte (byte_of_Z z) = z mod 256.
Proof.
  unfold Z_of_byte, byte_of_Z.
  assert (H : 0 <= z mod 256 < 256) by (apply Z.mod_pos_bound; lia).
  destruct (Byte.of_N (Z.to_N (z mod 256))) as [b |] eqn:E.
  - apply Byte.to_of_N in E. rewrite E. lia.
  - apply Byte.of_N_None_iff in E. lia.
Qed.

Lemma ReadUint32_WriteUint32 v rest :
  0 <= v < two32 -> ReadUint32 (WriteUint32 v ++ rest) = Some (v, rest).
Proof.
  intros H. unfold WriteUint32, ReadUint32. cbn [app].
  rewrite !Z_of_byte_of_Z. f_equal. f_equal.
  unfold two32 in H.
  replace (v / 65536) with (v / 256 / 256) by (rewrite Z.div_div by lia; reflexivity).
  replace (v / 16777216) with (v / 256 / 256 / 256)
    by (rewrite !Z.div_div by lia; reflexivity).
  pose proof (Z.div_mod v 256 ltac:(lia)) as H0.
  pose proof (Z.div_mod (v / 256) 256 ltac:(lia)) as H1.
  pose proof (Z.div_mod (v / 256 / 256) 256 ltac:(lia)) as H2.
  pose proof (Z.div_mod (v / 256 / 256 / 256) 256 ltac:(lia)) as H3.
  pose proof (Z.mod_pos_bound v 256 ltac:(lia)).
  pose proof (Z.mod_pos_bound (v / 256) 256 ltac:(lia)).
  pose proof (Z.mod_pos_bound (v / 256 / 256) 256 ltac:(lia)).
  pose proof (Z.mod_pos_bound (v / 256 / 256 / 256) 256 ltac:(lia)).
  assert (v / 256 / 256 / 256 / 256 = 0).
  { rewrite !Z.div_div by lia. apply Z.div_small. lia. }
  lia.
Qed.

Lemma ReadRawBytes_app p rest :
  ReadRawBytes (length p) (p ++ rest) = Some (p, rest).
Proof.
  unfold ReadRawBytes. rewrite length_app.
  replace (length p <=? length p + length rest)%nat with true
    by (symmetry; apply Nat.leb_le; lia).
  rewrite take_app_length, drop_app_length. reflexivity.
Qed.

Lemma ReadUtf8String_record p rest :
  Z.of_nat (length p) < two32 ->
  ReadUtf8String (WriteUint32 (Z.of_nat (length p)) ++ WriteRawBytes p ++ rest)
  = Some (p, rest).
Proof.
  intros H. unfold ReadUtf8String. rewrite ReadUint32_WriteUint32 by lia.
  rewrite Nat2Z.id. apply ReadRawBytes_app.
Qed.

End CodecRoundTrip.

Section VarintRoundTrip.
Import Codec.

(** A property of the numbers below 128, checked one by one. *)
Lemma below_128 (P : Z -> bool) :
  forallb P (List.map Z.of_nat (seq 0 128)) = true ->
  forall m, 0 <= m < 128 -> P m = true.
Proof.
  intros H m Hm. rewrite forallb_forall in H. apply H.
  apply in_map_iff. exists (Z.to_nat m). split; [lia |].
  apply in_seq. lia.
Qed.

Lemma last_group m :
  0 <= m < 128 -> Z_of_byte (byte_of_Z m) = m /\ Z.land m 127 = m /\ Z.testbit m 7 = false.
Proof.
  intros Hm.
  pose proof (below_128
    (fun m => (Z_of_byte (byte_of_Z m) =? m) && (Z.land m 127 =? m)
              && negb (Z.testbit m 7)) eq_refl m Hm) as H.
  cbv beta in H. apply andb_true_iff in H as [H H3]. apply andb_true_iff in H as [H1 H2].
  apply Z.eqb_eq in H1, H2. apply negb_true_iff in H3. auto.
Qed.

Lemma more_group m :
  0 <= m < 128 ->
  Z.land (Z_of_byte (byte_of_Z (Z.lor m 128))) 127 = m
  /\ Z.testbit (Z_of_byte (byte_of_Z (Z.lor m 128))) 7 = true.
Proof.
  intros Hm.
  pose proof (below_128
    (fun m => (Z.land (Z_of_byte (byte_of_Z (Z.lor m 128))) 127 =? m)
              && Z.testbit (Z_of_byte (byte_of_Z (Z.lor m 128))) 7) eq_refl m Hm) as H.
  cbv beta in H. apply andb_true_iff in H as [H1 H2]. apply Z.eqb_eq in H1. auto.
Qed.

Lemma split_group u :
  0 <= u -> Z.lor (Z.land u 127) (Z.shiftl (Z.shiftr u 7) 7) = u.
Proof.
  intros Hu. apply Z.bits_inj'. intros i Hi.
  rewrite Z.lor_spec, Z.land_spec.
  change 127 with (Z.ones 7).
  destruct (Z_lt_le_dec i 7) as [Hlt | Hge].
  - rewrite Z.ones_spec_low by lia. rewrite Z.shiftl_spec_low by lia.
    rewrite andb_true_r, orb_false_r. reflexivity.
  - rewrite Z.ones_spec_high by lia. rewrite Z.shiftl_spec by lia.
    rewrite Z.shiftr_spec by lia. rewrite andb_false_r. simpl. f_equal. lia.
Qed.

Lemma varint_round_trip fuel : forall u shift acc rest,
  0 <= u -> 0 <= shift -> u * 2 ^ shift < two32 -> u < 2 ^ (7 * Z.of_nat (S fuel)) ->
  ReadVarint_from shift acc (WriteVarint_fuel (S fuel) u ++ rest)
  = Some (Z.lor acc (Z.shiftl u shift), rest).
Proof.
  induction fuel as [| fuel IH]; intros u shift acc rest Hu Hs Hfit Hfuel.
  - assert (Hu' : 0 <= u < 128) by (change (2 ^ (7 * Z.of_nat 1)) with 128 in Hfuel; lia).
    cbn [WriteVarint_fuel]. replace (u <? 128) with true by (symmetry; apply Z.ltb_lt; lia).
    cbn [app ReadVarint_from]. cbv zeta.
    destruct (last_group u Hu') as (-> & -> & ->).
    f_equal. f_equal.
    destruct (shift <? 32) eqn:E.
    + rewrite Z.shiftl_mul_pow2 by lia. unfold wrap32. rewrite Z.mod_small; [reflexivity |].
      split; [| exact Hfit]. apply Z.mul_nonneg_nonneg; [lia |]. apply Z.pow_nonneg. lia.
    + apply Z.ltb_ge in E. assert (u = 0) as ->.
      { destruct (Z.eq_dec u 0) as [-> | Hne]; [reflexivity |].
        assert (2 ^ 32 <= 2 ^ shift) by (apply Z.pow_le_mono_r; lia).
        unfold two32 in Hfit. change (2 ^ 32) with 4294967296 in *. nia. }
      rewrite Z.shiftl_0_l, Z.lor_0_r. reflexivity.
  - change (WriteVarint_fuel (S (S fuel)) u)
      with (if u <? 128 then [byte_of_Z u]
            else byte_of_Z (Z.lor (Z.land u 127) 128)
                 :: WriteVarint_fuel (S fuel) (Z.shiftr u 7)).
    destruct (u <? 128) eqn:E.
    + apply Z.ltb_lt in E. assert (Hu' : 0 <= u < 128) by lia.
      cbn [app ReadVarint_from]. cbv zeta.
      destruct (last_group u Hu') as (-> & -> & ->).
      f_equal. f_equal.
      destruct (shift <? 32) eqn:E'.
      * rewrite Z.shiftl_mul_pow2 by lia. unfold wrap32. rewrite Z.mod_small; [reflexivity |].
        split; [| exact Hfit]. apply Z.mul_nonneg_nonneg; [lia |]. apply Z.pow_nonneg. lia.
      * apply Z.ltb_ge in E'. assert (u = 0) as ->.
        { destruct (Z.eq_dec u 0) as [-> | Hne]; [reflexivity |].
          assert (2 ^ 32 <= 2 ^ shift) by (apply Z.pow_le_mono_r; lia).
          unfold two32 in Hfit. change (2 ^ 32) with 4294967296 in *. nia. }
        rewrite Z.shiftl_0_l, Z.lor_0_r. reflexivity.
    + apply Z.ltb_ge in E.
      assert (Hm : 0 <= Z.land u 127 < 128).
      { change 127 with (Z.ones 7). rewrite Z.land_ones by lia.
        apply Z.mod_pos_bound. lia. }
      assert (Hpow : 0 < 2 ^ shift) by (apply Z.pow_pos_nonneg; lia).
      assert (Hsh : shift < 32).
      { destruct (Z_lt_le_dec shift 32) as [H | H]; [exact H |].
        assert (2 ^ 32 <= 2 ^ shift) by (apply Z.pow_le_mono_r; lia).
        unfold two32 in Hfit. change (2 ^ 32) with 4294967296 in *. nia. }
      cbn [app ReadVarint_from]. cbv zeta.
      destruct (more_group (Z.land u 127) Hm) as (-> & ->).
      replace (shift <? 32) with true by (symmetry; apply Z.ltb_lt; exact Hsh).
      assert (Hq : 0 <= Z.shiftr u 7) by (apply Z.shiftr_nonneg; exact Hu).
      assert (Hdiv : Z.shiftr u 7 = u / 128)
        by (rewrite Z.shiftr_div_pow2 by lia; reflexivity).
      assert (Hle : Z.land u 127 <= u).
      { change 127 with (Z.ones 7). rewrite Z.land_ones by lia.
        apply Z.mod_le; lia. }
      rewrite IH.
      * f_equal. f_equal.
        assert (Hw : wrap32 (Z.shiftl (Z.land u 127) shift)
                     = Z.shiftl (Z.land u 127) shift).
        { rewrite Z.shiftl_mul_pow2 by lia. unfold wrap32. apply Z.mod_small.
          split; [apply Z.mul_nonneg_nonneg; lia |]. nia. }
        rewrite Hw, <- Z.lor_assoc. f_equal.
        replace (shift + 7) with (7 + shift) by lia.
        rewrite <- Z.shiftl_shiftl by lia. rewrite <- Z.shiftl_lor.
        rewrite split_group by exact Hu. reflexivity.
      * exact Hq.
      * lia.
      * rewrite Hdiv. rewrite Z.pow_add_r by lia. change (2 ^ 7) with 128.
        pose proof (Z.mul_div_le u 128 ltac:(lia)). nia.
      * rewrite Hdiv. apply Z.div_lt_upper_bound; [lia |].
        replace (7 * Z.of_nat (S (S fuel))) with (7 + 7 * Z.of_nat (S fuel)) in Hfuel by lia.
        rewrite Z.pow_add_r in Hfuel by lia. change (2 ^ 7) with 128 in Hfuel. exact Hfuel.
Qed.

Lemma ReadVarint_WriteVarint u rest :
  0 <= u < two32 -> ReadVarint (WriteVarint u ++ rest) = Some (u, rest).
Proof.
  intros Hu. unfold ReadVarint, WriteVarint.
  assert (Hw : wrap32 u = u) by (unfold wrap32; apply Z.mod_small; exact Hu).
  rewrite Hw. rewrite (varint_round_trip 4 u 0 0 rest).
  - rewrite Z.shiftl_0_r, Z.lor_0_l. reflexivity.
  - lia.
  - lia.
  - simpl. lia.
  - unfold two32 in Hu. change (2 ^ (7 * Z.of_nat 5)) with 34359738368. lia.
Qed.

End VarintRoundTrip.

Section ZigZagRoundTrip.
Import Codec.

Lemma small_bits x i : 0 <= x < two32 -> 32 <= i -> Z.testbit x i = false.
Proof.
  intros Hx Hi. destruct (Z.eq_dec x 0) as [-> | Hne]; [apply Z.bits_0 |].
  apply Z.bits_above_log2; [lia |].
  assert (Z.log2 x < 32); [| lia].
  apply Z.log2_lt_pow2; [lia |]. unfold two32 in Hx. change (2 ^ 32) with 4294967296. lia.
Qed.

Lemma lxor_ones32 x : 0 <= x < two32 -> Z.lxor x (two32 - 1) = two32 - 1 - x.
Proof.
  intros Hx.
  assert (E : two32 - 1 - x = Z.land (Z.lnot x) (Z.ones 32)).
  { rewrite Z.land_ones by lia. unfold Z.lnot. rewrite <- Z.sub_1_r.
    change (2 ^ 32) with two32.
    apply Z.mod_unique with (q := -1); unfold two32 in *; lia. }
  rewrite E. change (two32 - 1) with (Z.ones 32).
  apply Z.bits_inj'. intros i Hi.
  rewrite Z.lxor_spec, Z.land_spec, Z.lnot_spec by lia.
  destruct (Z_lt_le_dec i 32) as [Hlt | Hge].
  - rewrite Z.ones_spec_low by lia. rewrite andb_true_r. apply xorb_true_r.
  - rewrite Z.ones_spec_high by lia. rewrite small_bits by assumption. reflexivity.
Qed.

Lemma land_1 a : Z.land a 1 = a mod 2.
Proof. change 1 with (Z.ones 1). rewrite Z.land_ones by lia. reflexivity. Qed.

Lemma ReadZigZag_WriteZigZag v rest :
  -2147483648 <= v < 2147483648 ->
  ReadZigZag (WriteZigZag v ++ rest) = Some (v, rest).
Proof.
  intros Hv. unfold ReadZigZag, WriteZigZag.
  rewrite Z.shiftl_mul_pow2, Z.shiftr_div_pow2 by lia.
  change (2 ^ 1) with 2. change (2 ^ 31) with 2147483648.
  destruct (Z_lt_le_dec v 0) as [Hneg | Hpos].
  - assert (Hd : v / 2147483648 = -1).
    { symmetry. apply Z.div_unique with (r := v + 2147483648); lia. }
    assert (Hw1 : wrap32 (v * 2) = v * 2 + two32).
    { unfold wrap32. symmetry. apply Z.mod_unique with (q := -1); unfold two32; lia. }
    assert (Hw2 : wrap32 (-1) = two32 - 1) by reflexivity.
    rewrite Hd, Hw1, Hw2, lxor_ones32 by (unfold two32; lia).
    rewrite ReadVarint_WriteVarint by (unfold two32; lia).
    f_equal. f_equal.
    replace (two32 - 1 - (v * 2 + two32)) with (2 * (- v - 1) + 1) by lia.
    rewrite Z.shiftr_div_pow2 by lia. change (2 ^ 1) with 2.
    rewrite land_1.
    replace ((2 * (- v - 1) + 1) / 2) with (- v - 1)
      by (apply Z.div_unique with (r := 1); lia).
    replace ((2 * (- v - 1) + 1) mod 2) with 1
      by (apply Z.mod_unique with (q := - v - 1); lia).
    change (wrap32 (Z.opp 1)) with (two32 - 1).
    rewrite lxor_ones32 by (unfold two32; lia).
    unfold to_int, two32.
    replace (4294967296 - 1 - (- v - 1) <? 2147483648) with false
      by (symmetry; apply Z.ltb_ge; lia).
    lia.
  - assert (Hd : v / 2147483648 = 0) by (apply Z.div_small; lia).
    assert (Hw1 : wrap32 (v * 2) = v * 2).
    { unfold wrap32. apply Z.mod_small. unfold two32. lia. }
    rewrite Hd, Hw1. change (wrap32 0) with 0. rewrite Z.lxor_0_r.
    rewrite ReadVarint_WriteVarint by (unfold two32; lia).
    f_equal. f_equal.
    rewrite Z.shiftr_div_pow2 by lia. change (2 ^ 1) with 2.
    rewrite land_1.
    replace (v * 2 / 2) with v by (symmetry; apply Z.div_mul; lia).
    replace (v * 2 mod 2) with 0 by (symmetry; apply Z.mod_mul; lia).
    change (wrap32 (Z.opp 0)) with 0. rewrite Z.lxor_0_r.
    unfold to_int. replace (v <? 2147483648) with true by (symmetry; apply Z.ltb_lt; lia).
    reflexivity.
Qed.

End ZigZagRoundTrip.

(** *** The string table, there and back *)

Section StringWriter.
Import Codec Flags Serializer.

Context (cfg : Config) (h : list HeapObject).

Lemma string_section_new : string_section cfg h [] (new_serializer h).
Proof.
  unfold string_section, new_serializer. simpl.
  split; [reflexivity |]. split; [apply map_size_empty |].
  split; [| reflexivity].
  intros a id. split.
  - rewrite lookup_empty. discriminate.
  - intros (i & _ & H). rewrite lookup_nil in H. discriminate.
Qed.

Lemma SerializeString_section order a id s :
  string_section cfg h order s ->
  is_string h a = true ->
  Z.of_nat (length order) < kMaxUint32 ->
  exists order',
    string_section cfg h order' (SerializeString cfg a id s).2
    /\ (order' = order \/ order' = order ++ [a])
    /\ a ∈ order'.
Proof.
  intros (Hh & Hsize & Hids & Hser) Hstr Hlen.
  unfold SerializeString, InsertIntoIndexMap.
  assert (Hw : wrap32 (Z.of_nat (size (ids s KString))) = Z.of_nat (length order)).
  { rewrite Hsize. unfold wrap32. apply Z.mod_small. unfold kMaxUint32 in Hlen. lia. }
  rewrite Hw.
  replace (kMaxUint32 <=? Z.of_nat (length order)) with false
    by (symmetry; apply Z.leb_gt; exact Hlen).
  unfold LookupOrInsert.
  destruct (ids s KString !! a) as [index |] eqn:E.
  - (* interned before *)
    exists order. cbn [snd]. split; [| split].
    + unfold string_section. cbn [heap ids serializers set_ids]. unfold upd. simpl.
      repeat split; try assumption; apply Hids.
    + left. reflexivity.
    + apply Hids in E as (i & _ & Hi). apply list_elem_of_lookup. exists i. exact Hi.
  - (* a new string *)
    assert (Hnot : a ∉ order).
    { intros Hin. apply list_elem_of_lookup in Hin as [i Hi].
      assert (ids s KString !! a = Some (Z.of_nat i)) as E' by (apply Hids; eauto).
      rewrite E in E'. discriminate. }
    exists (order ++ [a]).
    assert (Hrec :
      forall s0, heap s0 = h ->
        (match heap_at s0 a with
         | HString true chars =>
             (Z.of_nat (size (ids s KString)),
              write KString (WriteUint32 (Z.of_nat (length chars))
                             ++ WriteRawBytes (List.map byte_of_Z chars)) s0)
         | HString false chars =>
             (Z.of_nat (size (ids s KString)),
              write KString (WriteUint32 (Z.of_nat (length (WriteUtf8 cfg chars)))
                             ++ WriteRawBytes (WriteUtf8 cfg chars)) s0)
         | _ => (Z.of_nat (size (ids s KString)), s0)
         end).2
        = write KString (string_record (string_payload cfg h a)) s0).
    { intros s0 Hs0. unfold heap_at, string_payload, is_string in *. rewrite Hs0.
      destruct (h !! a) as [[| | [|] chars | | | | | | | |] |]; try discriminate Hstr.
      - cbn [snd]. unfold string_record. rewrite length_map. reflexivity.
      - cbn [snd]. reflexivity. }
    cbv beta iota. rewrite Hrec by exact Hh.
    split; [| split].
    + unfold string_section, write. cbn [heap ids serializers set_ids set_serializers].
      unfold upd. simpl.
      split; [exact Hh |]. split.
      { rewrite map_size_insert_None by exact E. rewrite Hsize, length_app. simpl. lia. }
      split.
      { intros a' id'. split.
        - intros H. destruct (decide (a = a')) as [<- | Hne].
          + rewrite lookup_insert_eq in H. injection H as <-.
            exists (length order). rewrite Hsize. split; [reflexivity |].
            rewrite lookup_app_r by lia. rewrite Nat.sub_diag. reflexivity.
          + rewrite lookup_insert_ne in H by exact Hne.
            apply Hids in H as (i & -> & Hi). exists i. split; [reflexivity |].
            apply lookup_app_l_Some. exact Hi.
        - intros (i & -> & Hi). apply lookup_app_Some in Hi as [Hi | [Hge Hi]].
          + assert (a <> a') by (intros <-; apply Hnot, list_elem_of_lookup; eauto).
            rewrite lookup_insert_ne by assumption. apply Hids. eauto.
          + apply list_lookup_singleton_Some in Hi as [Hi <-].
            rewrite lookup_insert_eq. f_equal. rewrite Hsize. lia. }
      rewrite Hser, map_app, concat_app. simpl. rewrite app_nil_r. reflexivity.
    + right. reflexivity.
    + apply elem_of_app. right. apply list_elem_of_singleton. reflexivity.
Qed.

Lemma SerializeStrings_section l : forall order s,
  string_section cfg h order s ->
  forallb (is_string h) l = true ->
  Z.of_nat (length order + length l) < kMaxUint32 ->
  exists order',
    string_section cfg h order' (SerializeStrings cfg l s)
    /\ (length order' <= length order + length l)%nat
    /\ order `prefix_of` order'
    /\ (forall a, a ∈ l -> a ∈ order')
    /\ (forall a, a ∈ order' -> a ∈ order \/ a ∈ l).
Proof.
  induction l as [| a l IH]; intros order s Hsec Hall Hlen.
  - exists order. split; [exact Hsec |]. split; [simpl; lia |].
    split; [reflexivity |]. split; [| intros a Ha; left; exact Ha].
    intros a Ha. apply elem_of_nil in Ha. destruct Ha.
  - simpl in Hall. apply andb_true_iff in Hall as [Ha Hall].
    cbn [length] in Hlen.
    destruct (SerializeString_section order a 0 s Hsec Ha ltac:(lia))
      as (order1 & Hsec1 & Hcase & Hin1).
    assert (Hl1 : (length order1 <= length order + 1)%nat).
    { destruct Hcase as [-> | ->]; [lia | rewrite length_app; simpl; lia]. }
    assert (Hp1 : order `prefix_of` order1).
    { destruct Hcase as [-> | ->]; [reflexivity | apply prefix_app_r; reflexivity]. }
    destruct (IH order1 _ Hsec1 Hall ltac:(lia))
      as (order' & Hsec' & Hl' & Hp' & Hin' & Hback).
    exists order'. split; [exact Hsec' |]. split; [simpl; lia |].
    split; [etransitivity; eassumption |]. split.
    + intros a' Ha'. apply elem_of_cons in Ha' as [-> | Ha']; [| apply Hin'; exact Ha'].
      destruct Hp' as [k ->]. apply elem_of_app. left. exact Hin1.
    + intros a' Ha'. destruct (Hback a' Ha') as [H1 | H1].
      * destruct Hcase as [-> | ->]; [left; exact H1 |].
        apply elem_of_app in H1 as [H1 | H1]; [left; exact H1 |].
        apply list_elem_of_singleton in H1 as ->. right. apply elem_of_cons. left.
        reflexivity.
      * right. apply elem_of_cons. right. exact H1.
Qed.

End StringWriter.

Section StringReader.
Import Codec Flags Deserializer.

Context (cfg : Config).

Lemma read_strings payloads : forall i d rest,
  0 <= i ->
  Forall (fun p => Z.of_nat (length p) < two32) payloads ->
  position_ d = concat (List.map Serializer.string_record payloads) ++ rest ->
  counts d TString = i + Z.of_nat (length payloads) ->
  length (tables d TString) = Z.to_nat (i + Z.of_nat (length payloads)) ->
  exists d',
    for_range (length payloads) i (fun i s => i <? counts s TString)
      (fun i =>
         let* maybe_string := ReadUtf8String in
         match maybe_string with
         | None => do Throw "Malformed string" ;;; ret Return
         | Some str => do table_set TString i (VString str) ;;; ret Next
         end) d
    = Done Next d'
    /\ position_ d' = rest
    /\ counts d' = counts d
    /\ error_message_ d' = error_message_ d
    /\ heap d' = heap d
    /\ trace d' = trace d
    /\ tables d' TString
       = take (Z.to_nat i) (tables d TString) ++ List.map VString payloads.
Proof.
  induction payloads as [| p ps IH]; intros i d rest Hi Hall Hpos Hcnt Hlen.
  - exists d. cbn [length for_range]. rewrite Hcnt.
    replace (i <? i + Z.of_nat (length [])) with false
      by (symmetry; apply Z.ltb_ge; simpl; lia).
    split; [reflexivity |]. simpl in Hpos. repeat split; try reflexivity; try exact Hpos.
    simpl. rewrite app_nil_r. symmetry. apply take_ge. simpl in Hlen. lia.
  - inversion Hall as [| ? ? Hp Hps]; subst.
    cbn [length for_range]. rewrite Hcnt.
    replace (i <? i + Z.of_nat (length (p :: ps))) with true
      by (symmetry; apply Z.ltb_lt; cbn [length]; lia).
    unfold bind at 1. unfold bind at 1. unfold ReadUtf8String at 1.
    rewrite Hpos. cbn [List.map concat]. unfold Serializer.string_record at 1.
    rewrite <- !app_assoc.
    rewrite ReadUtf8String_record by exact Hp.
    cbv beta iota. unfold bind at 1. unfold table_set at 1.
    cbn [tables set_position_].
    assert (Hin : in_bounds i (tables d TString) = true).
    { unfold in_bounds. apply andb_true_iff. split; [apply Z.leb_le; lia |].
      apply Z.ltb_lt. rewrite Hlen. cbn [length]. lia. }
    rewrite Hin. cbv beta iota. unfold ret at 1. cbv beta iota.
    match goal with
    | |- context [for_range _ _ _ _ ?d1] =>
        destruct (IH (i + 1) d1 rest) as (d' & Hrun & H1 & H2 & H3 & H4 & H5 & H6)
    end.
    + lia.
    + exact Hps.
    + reflexivity.
    + cbn [counts set_tables set_position_]. rewrite Hcnt. cbn [length]. lia.
    + cbn [tables set_tables set_position_]. unfold upd. simpl.
      rewrite length_insert, Hlen. cbn [length]. f_equal. lia.
    + exists d'. split; [exact Hrun |]. split; [exact H1 |].
      split; [exact H2 |]. split; [exact H3 |]. split; [exact H4 |].
      split; [exact H5 |].
      rewrite H6. cbn [tables set_tables set_position_]. unfold upd. simpl.
      replace (Z.to_nat (i + 1)) with (S (Z.to_nat i)) by lia.
      rewrite (take_S_r _ _ (VString p)).
      * rewrite take_insert_ge by lia. rewrite <- app_assoc. reflexivity.
      * apply list_lookup_insert_eq. rewrite Hlen. cbn [length]. lia.
Qed.

Lemma DeserializeStrings_decodes payloads rest d :
  Z.of_nat (length payloads) <= kMaxItemCount cfg ->
  Z.of_nat (length payloads) < two32 ->
  Forall (fun p => Z.of_nat (length p) < two32) payloads ->
  position_ d
  = Codec.WriteUint32 (Z.of_nat (length payloads))
    ++ concat (List.map Serializer.string_record payloads) ++ rest ->
  exists d',
    DeserializeStrings cfg d = Done tt d'
    /\ tables d' TString = List.map VString payloads
    /\ position_ d' = rest
    /\ error_message_ d' = error_message_ d
    /\ heap d' = heap d.
Proof.
  intros Hmax Hn Hall Hpos.
  unfold DeserializeStrings.
  unfold bind at 1. unfold ReadUint32_into_count, bind at 1, ReadUint32.
  rewrite Hpos, ReadUint32_WriteUint32 by lia.
  cbv beta iota. unfold bind at 1, set_count, modify. cbv beta iota.
  unfold ret at 1. cbv beta iota. unfold bind at 1, gets.
  cbn [counts set_counts set_position_].
  change (upd (counts d) TString (Z.of_nat (length payloads)) TString)
    with (Z.of_nat (length payloads)).
  cbn [negb orb].
  replace (kMaxItemCount cfg <? Z.of_nat (length payloads)) with false
    by (symmetry; apply Z.ltb_ge; exact Hmax).
  unfold bind at 1. unfold NewTable, bind at 1, emit, modify. cbv beta iota.
  change (upd (counts d) TString (Z.of_nat (length payloads)) TString)
    with (Z.of_nat (length payloads)).
  rewrite Nat2Z.id.
  unfold bind at 1.
  match goal with
  | |- context [for_range _ _ _ _ ?d1] =>
      destruct (read_strings payloads 0 d1 rest) as (d' & Hrun & H1 & H2 & H3 & H4 & H5 & H6)
  end.
  - lia.
  - exact Hall.
  - reflexivity.
  - cbn [counts set_counts set_tables set_trace set_position_]. unfold upd. simpl. lia.
  - cbn [tables set_tables]. unfold upd. simpl.
    rewrite length_replicate. lia.
  - rewrite Hrun. cbv beta iota. unfold ret.
    exists d'. split; [reflexivity |]. split; [| split; [exact H1 | split; [exact H3 | exact H4]]].
    rewrite H6. simpl. reflexivity.
Qed.

End StringReader.

Section StringsRoundTrip.
(** X10: the bytes of the string table arrive.  When strings of the heap
    are serialized one after the other by a new serializer (a string met
    again is not written again), and the header count and the string
    section are laid out as [WriteSnapshot] does, [DeserializeStrings] reads
    exactly that far without an error, and the string that it stores under
    the id that the serializer gave to a string is made from the bytes that
    [SerializeString] wrote for it.  For a one-byte string with all its
    characters below 0x80 these bytes are below 0x80 and are the characters
    of the string.  (For a one-byte string with a character from 0x80 on
    they are its Latin-1 bytes, which the reader takes for UTF-8.) *)
Theorem string_bytes_round_trip scfg dcfg h l rest d :
  forallb (Serializer.is_string h) l = true ->
  forallb (fun a => Z.of_nat (length (Serializer.string_payload scfg h a)) <? two32) l = true ->
  Z.of_nat (length l) <= Deserializer.kMaxItemCount dcfg ->
  Deserializer.kMaxItemCount dcfg < kMaxUint32 ->
  Deserializer.position_ d = Serializer.strings_buffer scfg h l ++ rest ->
  exists d',
    Deserializer.DeserializeStrings dcfg d = Deserializer.Done tt d'
    /\ Deserializer.position_ d' = rest
    /\ Deserializer.error_message_ d' = Deserializer.error_message_ d
    /\ Forall (fun a =>
                 exists id payload,
                   Serializer.ids (Serializer.SerializeStrings scfg l (Serializer.new_serializer h))
                     Serializer.KString !! a = Some id
                   /\ Deserializer.tables d' Deserializer.TString !! Z.to_nat id
                      = Some (Deserializer.VString payload)
                   /\ payload = Serializer.string_payload scfg h a
                   /\ (forall chars,
                         h !! a = Some (Serializer.HString true chars) ->
                         Serializer.ascii chars ->
                         Forall (fun b => Z_of_byte b < 128) payload
                         /\ List.map Z_of_byte payload = chars)) l.
Proof.
  intros Hstr Hlen Hcount Hmax Hpos.
  destruct (SerializeStrings_section scfg h l [] (Serializer.new_serializer h)
              (string_section_new scfg h) Hstr)
    as (order & (Hh & Hsize & Hids & Hser) & Hl & _ & Hin & Hback).
  { simpl. lia. }
  simpl in Hl.
  set (s := Serializer.SerializeStrings scfg l (Serializer.new_serializer h)) in *.
  assert (Hc : Serializer.count Serializer.KString s = Z.of_nat (length order)).
  { unfold Serializer.count. rewrite Hsize. unfold wrap32. apply Z.mod_small.
    unfold kMaxUint32 in Hmax. lia. }
  destruct (DeserializeStrings_decodes dcfg
              (List.map (Serializer.string_payload scfg h) order) rest d)
    as (d' & Hrun & Htab & Hp & He & _).
  - rewrite length_map. lia.
  - rewrite length_map. unfold kMaxUint32 in Hmax. lia.
  - apply Forall_forall. intros p Hp. apply list_elem_of_fmap in Hp as (a & -> & Ha).
    destruct (Hback a Ha) as [Hn | Hal]; [apply elem_of_nil in Hn; destruct Hn |].
    rewrite forallb_forall in Hlen. apply list_elem_of_In in Hal.
    apply Z.ltb_lt. exact (Hlen a Hal).
  - rewrite Hpos. unfold Serializer.strings_buffer. fold s. rewrite Hc, Hser, length_map.
    unfold Codec.WriteRawBytes. rewrite <- app_assoc. f_equal. f_equal.
    rewrite List.map_map. reflexivity.
  - exists d'. split; [exact Hrun |]. split; [exact Hp |]. split; [exact He |].
    apply Forall_forall. intros a Ha.
    apply Hin, list_elem_of_lookup in Ha as [i Hi].
    exists (Z.of_nat i), (Serializer.string_payload scfg h a).
    split; [apply Hids; eauto |].
    split; [rewrite Htab, Nat2Z.id, !list_lookup_fmap, Hi; reflexivity |].
    split; [reflexivity |].
    intros chars Hh' Hascii. unfold Serializer.string_payload. rewrite Hh'.
    unfold Serializer.ascii in Hascii. clear Hh'.
    induction Hascii as [| c chars Hc' _ IH]; simpl; [split; constructor |].
    destruct IH as [IH1 IH2].
    assert (Ec : Z_of_byte (byte_of_Z c) = c).
    { rewrite Z_of_byte_of_Z. apply Z.mod_small. lia. }
    split; [constructor; [rewrite Ec; lia | exact IH1] | rewrite Ec, IH2; reflexivity].
Qed.

(** X10 on the strings "a", "b", "a" again and "hello". *)
Lemma string_bytes_round_trip_witness :
  exists d',
    Deserializer.DeserializeStrings Fixtures.dcfg
      (Deserializer.new_deserializer 0 []
         (Serializer.strings_buffer Fixtures.scfg Fixtures.ab_heap [3; 4; 3; 6]%nat ++ []))
    = Deserializer.Done tt d'
    /\ Deserializer.position_ d' = []
    /\ Deserializer.tables d' Deserializer.TString
       = List.map (fun text => Deserializer.VString (bytes_of_string text))
           ["a"; "b"; "hello"]%string.
Proof.
  destruct (string_bytes_round_trip Fixtures.scfg Fixtures.dcfg Fixtures.ab_heap
              [3; 4; 3; 6]%nat []
              (Deserializer.new_deserializer 0 []
                 (Serializer.strings_buffer Fixtures.scfg Fixtures.ab_heap
                    [3; 4; 3; 6]%nat ++ [])))
    as (d' & Hrun & Hp & _ & _).
  - reflexivity.
  - reflexivity.
  - vm_compute. discriminate.
  - reflexivity.
  - reflexivity.
  - exists d'. split; [exact Hrun |]. split; [exact Hp |].
    set (run := Deserializer.DeserializeStrings Fixtures.dcfg _) in Hrun.
    assert (E : match run with
                | Deserializer.Done _ d0 =>
                    Deserializer.tables d0 Deserializer.TString
                    = List.map (fun text => Deserializer.VString (bytes_of_string text))
                        ["a"; "b"; "hello"]%string
                | Deserializer.Crash _ => False
                end) by (vm_compute; reflexivity).
    rewrite Hrun in E. exact E.
Defined.

End StringsRoundTrip.

(** *** Values written in place *)

Section ValueRoundTrip.
Import Exchange.

Lemma appended_write k b s : appended k s (Serializer.write k b s) = b.
Proof.
  unfold appended, Serializer.write. cbn [Serializer.serializers Serializer.set_serializers].
  unfold Serializer.upd. replace (Serializer.Kind_eqb k k) with true by (destruct k; reflexivity).
  apply drop_app_length.
Qed.

Ltac read_tag Hpos :=
  unfold Deserializer.ReadValue; unfold Deserializer.bind at 1;
  unfold Deserializer.ReadUint32; rewrite Hpos;
  rewrite ReadUint32_WriteUint32 by (vm_compute; split; [discriminate | reflexivity]);
  cbv beta iota; cbn [Flags.Z_of_ValueType Flags.ValueType_of_Z]; cbv beta iota.

(** X11: values written in place are read back.  For a small integer
    within [int32_t], an oddball (false, true, null, undefined) or a heap
    number, [ReadValue] applied to the bytes that [WriteValue] appended
    consumes exactly those bytes and returns the value: the oddball itself;
    for a small integer the number that [NewNumberFromInt] makes of it (the
    same Smi where it is a valid Smi); for a heap number the number that
    [NewNumber] makes of its eight bytes (a heap number with these bytes, or
    the Smi that the double is). *)
Theorem value_round_trip scfg dcfg s object k v rest d container index :
  immediate dcfg s object = Some v ->
  Deserializer.position_ d
  = appended k s (Serializer.WriteValue scfg object k s) ++ rest ->
  Deserializer.ReadValue dcfg container index d
  = Deserializer.Done v (Deserializer.set_position_ rest d).
Proof.
  unfold immediate, Serializer.WriteValue. intros Hv Hpos.
  destruct object as [value | a].
  - destruct ((-2147483648 <=? value) && (value <? 2147483648)) eqn:E; [| discriminate Hv].
    injection Hv as <-. apply andb_true_iff in E as [E1 E2].
    apply Z.leb_le in E1. apply Z.ltb_lt in E2.
    rewrite appended_write, <- app_assoc in Hpos.
    read_tag Hpos.
    unfold Deserializer.bind, Deserializer.ReadZigZag.
    cbn [Deserializer.position_ Deserializer.set_position_].
    rewrite ReadZigZag_WriteZigZag by lia. reflexivity.
  - destruct (Serializer.heap_at s a) as [[] | bits | | | | | | | | |];
      try discriminate Hv.
    + injection Hv as <-. rewrite appended_write in Hpos.
      rewrite <- (app_nil_r (Codec.WriteUint32 _)), <- app_assoc in Hpos.
      read_tag Hpos. reflexivity.
    + injection Hv as <-. rewrite appended_write in Hpos.
      rewrite <- (app_nil_r (Codec.WriteUint32 _)), <- app_assoc in Hpos.
      read_tag Hpos. reflexivity.
    + injection Hv as <-. rewrite appended_write in Hpos.
      rewrite <- (app_nil_r (Codec.WriteUint32 _)), <- app_assoc in Hpos.
      read_tag Hpos. reflexivity.
    + injection Hv as <-. rewrite appended_write in Hpos.
      rewrite <- (app_nil_r (Codec.WriteUint32 _)), <- app_assoc in Hpos.
      read_tag Hpos. reflexivity.
    + destruct (length bits =? 8)%nat eqn:E; [| discriminate Hv].
      injection Hv as <-. apply Nat.eqb_eq in E.
      rewrite appended_write, <- app_assoc in Hpos.
      read_tag Hpos.
      unfold Deserializer.bind, Deserializer.ReadDouble, Codec.ReadDouble, Codec.WriteDouble.
      cbn [Deserializer.position_ Deserializer.set_position_].
      rewrite take_ge by lia. rewrite <- E, ReadRawBytes_app. reflexivity.
Qed.

Lemma value_round_trip_witness :
  Deserializer.ReadValue Fixtures.dcfg None 0
    (Deserializer.new_deserializer 0 []
       (appended Serializer.KObject (Serializer.new_serializer Fixtures.ab_heap)
          (Serializer.WriteValue Fixtures.scfg (Serializer.Smi (-5)) Serializer.KObject
             (Serializer.new_serializer Fixtures.ab_heap)) ++ []))
  = Deserializer.Done (Deserializer.VInt (-5))
      (Deserializer.set_position_ []
         (Deserializer.new_deserializer 0 []
            (appended Serializer.KObject (Serializer.new_serializer Fixtures.ab_heap)
               (Serializer.WriteValue Fixtures.scfg (Serializer.Smi (-5))
                  Serializer.KObject (Serializer.new_serializer Fixtures.ab_heap))
             ++ []))).
Proof.
  apply (value_round_trip Fixtures.scfg Fixtures.dcfg
           (Serializer.new_serializer Fixtures.ab_heap) (Serializer.Smi (-5))
           Serializer.KObject (Deserializer.VInt (-5)) []).
  - reflexivity.
  - reflexivity.
Defined.

End ValueRoundTrip.

(** *** Deferred references *)

Section DeferredSlots.
Import Codec Flags Deserializer.

Lemma table_get_Done t i s v s' :
  table_get t i s = Done v s' ->
  0 <= i /\ tables s t !! Z.to_nat i = Some v /\ s' = s.
Proof.
  unfold table_get, in_bounds. destruct (0 <=? i) eqn:E1; [| discriminate].
  destruct (i <? Z.of_nat (length (tables s t))) eqn:E2; [| discriminate].
  simpl. intros H. injection H as <- <-.
  apply Z.leb_le in E1. apply Z.ltb_lt in E2.
  split; [exact E1 |]. split; [| reflexivity].
  destruct (lookup_lt_is_Some_2 (tables s t) (Z.to_nat i)) as [x Hx]; [lia |].
  rewrite Hx. f_equal. symmetry. apply nth_lookup_Some. exact Hx.
Qed.


Lemma slots_kept_refl w s : slots_kept w s s.
Proof. repeat split. Qed.

Lemma heap_set_other s a o0 o :
  heap s !! a = Some o0 ->
  match o0 with HPropertyArray _ | HContext _ _ _ _ | HFixedArray _ => false | _ => true end
  = true ->
  match o with HPropertyArray _ | HContext _ _ _ _ | HFixedArray _ => false | _ => true end
  = true ->
  slots_kept None s (set_heap (<[a := o]> (heap s)) s).
Proof.
  intros Ha H0 H1. split; [reflexivity |].
  assert (Hl : (a < length (heap s))%nat) by (apply lookup_lt_Some in Ha; exact Ha).
  split.
  - intros c. unfold is_slot_container. cbn [heap set_heap]. unfold addr in *.
    destruct (decide (c = a)) as [Heq | Hne].
    + subst c. rewrite list_lookup_insert_eq by exact Hl. rewrite Ha.
      destruct o0, o; try discriminate; reflexivity.
    + rewrite list_lookup_insert_ne by (intros E; apply Hne; symmetry; exact E).
      reflexivity.
  - intros c i Hc _. unfold slot_at, is_slot_container in *. cbn [heap set_heap].
    unfold addr in *.
    destruct (decide (c = a)) as [Heq | Hne].
    + subst c. rewrite Ha in Hc. destruct o0; try discriminate.
    + rewrite list_lookup_insert_ne by (intros E; apply Hne; symmetry; exact E).
      reflexivity.
Qed.


Lemma slots_kept_trans w s s1 s2 :
  slots_kept w s s1 -> slots_kept None s1 s2 -> slots_kept w s s2.
Proof.
  intros (A1 & A2 & A3) (B1 & B2 & B3). split; [congruence |]. split.
  - intros c. rewrite B2. apply A2.
  - intros c i Hc Hw. rewrite B3; [apply A3; assumption | | discriminate].
    rewrite A2. exact Hc.
Qed.

Lemma slots_kept_weaken w s s' : slots_kept None s s' -> slots_kept w s s'.
Proof.
  intros (A1 & A2 & A3). split; [exact A1 |]. split; [exact A2 |].
  intros c i Hc _. apply A3; [exact Hc | discriminate].
Qed.

Lemma store_slot_Done c i v s u s' :
  store_slot c i v s = Done u s' ->
  is_slot_container s c = true
  /\ slot_at s' c i = Some v
  /\ slots_kept (Some (c, i)) s s'.
Proof.
  unfold store_slot. intros H.
  apply bind_Done in H as (o & s0 & Hg & H). apply heap_get_Done in Hg as [Ho ->].
  assert (Hl : (c < length (heap s))%nat) by (apply lookup_lt_Some in Ho; exact Ho).
  assert (Hgen : forall (vals : list Value) (wrap : list Value -> HeapObject),
            o = wrap vals ->
            (forall l, is_slot_container (set_heap (<[c := wrap l]> (heap s)) s) c = true) ->
            (forall l j, slot_at (set_heap (<[c := wrap l]> (heap s)) s) c j
                         = if j <? 0 then None else l !! Z.to_nat j) ->
            (forall j, slot_at s c j = if j <? 0 then None else vals !! Z.to_nat j) ->
            is_slot_container s c = true ->
            (if in_bounds i vals
             then heap_set c (wrap (<[Z.to_nat i := v]> vals))
             else crash SlotOutOfBounds) s = Done u s' ->
            slot_at s' c i = Some v /\ slots_kept (Some (c, i)) s s').
  { intros vals wrap -> Hk Hs Hs0 Hc0 Hrun.
    unfold in_bounds in Hrun.
    destruct (0 <=? i) eqn:E1; [| discriminate Hrun].
    destruct (i <? Z.of_nat (length vals)) eqn:E2; [| discriminate Hrun].
    simpl in Hrun. unfold heap_set, modify in Hrun. injection Hrun as _ <-.
    apply Z.leb_le in E1. apply Z.ltb_lt in E2.
    split.
    - rewrite Hs. replace (i <? 0) with false by (symmetry; apply Z.ltb_ge; lia).
      apply list_lookup_insert_eq. lia.
    - split; [reflexivity |]. split.
      + intros c'. unfold is_slot_container. cbn [heap set_heap]. unfold addr in *.
        destruct (decide (c' = c)) as [Heq | Hne].
        * subst c'. specialize (Hk (<[Z.to_nat i := v]> vals)).
          unfold is_slot_container in Hk. cbn [heap set_heap] in Hk.
          unfold addr in *. rewrite Hk.
          unfold is_slot_container in Hc0. unfold addr in *. symmetry. exact Hc0.
        * rewrite list_lookup_insert_ne by (intros E; apply Hne; symmetry; exact E).
          reflexivity.
      + intros c' j Hc' Hw. unfold addr in *.
        destruct (decide (c' = c)) as [Heq | Hne].
        * subst c'. rewrite Hs, Hs0.
          destruct (j <? 0) eqn:Ej; [reflexivity |].
          apply list_lookup_insert_ne. intros E. apply Hw. f_equal. f_equal.
          apply Z.ltb_ge in Ej. lia.
        * unfold slot_at. cbn [heap set_heap]. unfold addr in *.
          rewrite list_lookup_insert_ne by (intros E; apply Hne; symmetry; exact E).
          reflexivity. }
  assert (Hk : forall o', is_slot_container (set_heap (<[c := o']> (heap s)) s) c
                          = match o' with
                            | HPropertyArray _ | HContext _ _ _ _ | HFixedArray _ => true
                            | _ => false
                            end).
  { intros o'. unfold is_slot_container. cbn [heap set_heap]. unfold addr in *.
    rewrite list_lookup_insert_eq by exact Hl. reflexivity. }
  assert (Hs : forall o' j, slot_at (set_heap (<[c := o']> (heap s)) s) c j
                            = if j <? 0 then None
                              else match o' with
                                   | HPropertyArray vals | HFixedArray vals =>
                                       vals !! Z.to_nat j
                                   | HContext _ _ _ slots => slots !! Z.to_nat j
                                   | _ => None
                                   end).
  { intros o' j. unfold slot_at. cbn [heap set_heap]. unfold addr in *.
    rewrite list_lookup_insert_eq by exact Hl. reflexivity. }
  assert (Hs0 : forall j, slot_at s c j
                          = if j <? 0 then None
                            else match o with
                                 | HPropertyArray vals | HFixedArray vals =>
                                     vals !! Z.to_nat j
                                 | HContext _ _ _ slots => slots !! Z.to_nat j
                                 | _ => None
                                 end).
  { intros j. unfold slot_at. unfold addr in *. rewrite Ho. reflexivity. }
  assert (Hc : is_slot_container s c
               = match o with
                 | HPropertyArray _ | HContext _ _ _ _ | HFixedArray _ => true
                 | _ => false
                 end).
  { unfold is_slot_container. unfold addr in *. rewrite Ho. reflexivity. }
  destruct o as [| | ty prev names slots | vals | vals | | | | | |];
    try discriminate H; (split; [rewrite Hc; reflexivity |]).
  - apply (Hgen slots (HContext ty prev names)); try reflexivity; try exact H.
    + intros l. rewrite Hk. reflexivity.
    + intros l j. rewrite Hs. reflexivity.
    + exact Hs0.
    + rewrite Hc. reflexivity.
  - apply (Hgen vals HPropertyArray); try reflexivity; try exact H.
    + intros l. rewrite Hk. reflexivity.
    + intros l j. rewrite Hs. reflexivity.
    + exact Hs0.
    + rewrite Hc. reflexivity.
  - apply (Hgen vals HFixedArray); try reflexivity; try exact H.
    + intros l. rewrite Hk. reflexivity.
    + intros l j. rewrite Hs. reflexivity.
    + exact Hs0.
    + rewrite Hc. reflexivity.
Qed.


Lemma heap_set_Done a o s u s' :
  heap_set a o s = Done u s' -> s' = set_heap (<[a := o]> (heap s)) s.
Proof. unfold heap_set, modify. intros H. injection H as _ <-. reflexivity. Qed.

Lemma set_prototype_Done m p s u s' :
  set_prototype m p s = Done u s' -> slots_kept None s s'.
Proof.
  unfold set_prototype. intros H.
  apply bind_Done in H as (o & s0 & Hg & H). apply heap_get_Done in Hg as [Ho ->].
  destruct o; try discriminate H.
  apply heap_set_Done in H as ->.
  eapply heap_set_other; [exact Ho | reflexivity | reflexivity].
Qed.

Lemma SetFunctionPrototype_Done f p s b s' :
  SetFunctionPrototype f p s = Done b s' -> slots_kept None s s'.
Proof.
  unfold SetFunctionPrototype. intros H.
  apply bind_Done in H as (o & s0 & Hg & H). apply heap_get_Done in Hg as [Ho ->].
  destruct o as [| | | | | | m props | | | |]; try discriminate H.
  apply bind_Done in H as (o & s0 & Hg & H). apply heap_get_Done in Hg as [Hm ->].
  destruct o as [| ds proto ctor flag | | | | | | | | |]; try discriminate H.
  apply bind_Done in H as ([] & s1 & Hs & H). apply heap_set_Done in Hs as ->.
  assert (K1 : slots_kept None s
                 (set_heap (<[m := HMap ds proto ctor true]> (heap s)) s))
    by (eapply heap_set_other; [exact Hm | reflexivity | reflexivity]).
  destruct ctor as [c |].
  - injection H as _ <-. exact K1.
  - apply bind_Done in H as ([] & s2 & Hs & H). apply heap_set_Done in Hs as ->.
    apply bind_Done in H as (o & s3 & Hg & H). apply heap_get_Done in Hg as [Hf ->].
    destruct o as [| | | | | fd | | | | |]; try discriminate H.
    apply bind_Done in H as ([] & s4 & Hs & H). apply heap_set_Done in Hs as ->.
    injection H as _ <-.
    set (s1 := set_heap (<[m := HMap ds proto None true]> (heap s)) s) in *.
    set (s2 := set_heap (<[m := HMap ds proto (Some f) true]> (heap s1)) s1) in *.
    assert (K2 : slots_kept None s1 s2).
    { apply (heap_set_other s1 m (HMap ds proto None true)); [| reflexivity | reflexivity].
      subst s1. cbn [heap set_heap]. apply list_lookup_insert_eq.
      apply lookup_lt_Some in Hm. exact Hm. }
    eapply slots_kept_trans; [exact K1 |].
    eapply slots_kept_trans; [exact K2 |].
    eapply heap_set_other; [exact Hf | reflexivity | reflexivity].
Qed.

Lemma lookup_Done t message id s r s1 :
  bind (gets (fun s => counts s t))
    (fun count =>
       if count <=? id then bind (Throw message) (fun _ => ret None)
       else bind (table_get t id) (fun v => ret (Some v))) s
  = Done r s1 ->
  match r with
  | None => has_error s1 = true
  | Some v => s1 = s /\ 0 <= id /\ tables s t !! Z.to_nat id = Some v
  end.
Proof.
  unfold bind at 1, gets. destruct (counts s t <=? id).
  - destruct (Throw_outcome message s) as (s' & Ht & Hm & _).
    unfold bind. rewrite Ht. unfold ret. intros H. injection H as <- <-.
    unfold has_error. rewrite Hm. reflexivity.
  - intros H. apply bind_Done in H as (v & s0 & Hg & H).
    apply table_get_Done in Hg as (H0 & Hv & ->).
    unfold ret in H. injection H as <- <-. auto.
Qed.


Lemma resolved_earlier s s1 s' r :
  tables s1 = tables s ->
  (forall c, is_slot_container s1 c = is_slot_container s c) ->
  resolved s1 s' r -> resolved s s' r.
Proof.
  destruct r as [[[c i] ty] id]. unfold resolved. intros Ht Hk H Hc.
  rewrite <- Hk in Hc. destruct (H Hc) as (t & v & H1 & H2 & H3 & H4).
  exists t, v. rewrite <- Ht. auto.
Qed.

(** One round of the loop: the target is looked up and written. *)
Lemma deferred_step container index ty id (k : M Ctl) s c s' :
  or_return
    (match ty with
     | FUNCTION_ID =>
         bind (gets (fun s => counts s TFunction))
           (fun count =>
              if count <=? id
              then bind (Throw "Invalid function reference") (fun _ => ret None)
              else bind (table_get TFunction id) (fun v => ret (Some v)))
     | CLASS_ID =>
         bind (gets (fun s => counts s TClass))
           (fun count =>
              if count <=? id
              then bind (Throw "Invalid class reference") (fun _ => ret None)
              else bind (table_get TClass id) (fun v => ret (Some v)))
     | ARRAY_ID =>
         bind (gets (fun s => counts s TArray))
           (fun count =>
              if count <=? id
              then bind (Throw "Invalid array reference") (fun _ => ret None)
              else bind (table_get TArray id) (fun v => ret (Some v)))
     | OBJECT_ID =>
         bind (gets (fun s => counts s TObject))
           (fun count =>
              if count <=? id
              then bind (Throw "Invalid object reference") (fun _ => ret None)
              else bind (table_get TObject id) (fun v => ret (Some v)))
     | _ => crash Unreachable
     end)
    (fun target =>
       bind (heap_get container)
         (fun o =>
            or_return
              (match o with
               | HPropertyArray _ | HContext _ _ _ _ | HFixedArray _ =>
                   bind (store_slot container index target) (fun _ => ret (Some tt))
               | HJSFunction _ =>
                   bind (cast_ref target)
                     (fun prototype =>
                        bind (SetFunctionPrototype container prototype)
                          (fun ok =>
                             if ok then ret (Some tt)
                             else bind (Throw "Can't reuse function prototype")
                                    (fun _ => ret None)))
               | HMap _ _ _ _ =>
                   bind (cast_ref target)
                     (fun prototype =>
                        bind (set_prototype container (VRef prototype))
                          (fun _ => ret (Some tt)))
               | _ => crash Unreachable
               end)
              (fun _ => k))) s
  = Done c s' ->
  (c = Return /\ has_error s' = true)
  \/ exists s1,
       k s1 = Done c s'
       /\ slots_kept (Some (container, index)) s s1
       /\ resolved s s1 (container, index, ty, id).
Proof.
  intros H. unfold or_return at 1 in H.
  apply bind_Done in H as (r & s0 & Hlook & H).
  assert (Hr : match r with
               | None => has_error s0 = true
               | Some v => s0 = s /\ 0 <= id
                           /\ exists t, table_of ty = Some t
                                         /\ tables s t !! Z.to_nat id = Some v
               end).
  { destruct ty; try discriminate Hlook;
      apply lookup_Done in Hlook; destruct r as [v |]; try exact Hlook;
      destruct Hlook as (-> & H0 & Hv); (split; [reflexivity |]); (split; [exact H0 |]);
      eexists; (split; [reflexivity | exact Hv]). }
  destruct r as [target |].
  2: { left. unfold ret in H. injection H as <- <-. split; [reflexivity | exact Hr]. }
  destruct Hr as (-> & Hid & t & Htab & Hv).
  apply bind_Done in H as (o & s0 & Hg & H). apply heap_get_Done in Hg as [Ho ->].
  unfold or_return in H. apply bind_Done in H as (r & s1 & Hstep & H).
  assert (Hslot : forall u s2,
            store_slot container index target s = Done u s2 ->
            slots_kept (Some (container, index)) s s2
            /\ resolved s s2 (container, index, ty, id)).
  { intros u s2 Hs. apply store_slot_Done in Hs as (_ & Hat & Hk).
    split; [exact Hk |]. intros _. exists t, target. auto. }
  assert (Hother : forall s2,
            is_slot_container s container = false ->
            slots_kept None s s2 ->
            slots_kept (Some (container, index)) s s2
            /\ resolved s s2 (container, index, ty, id)).
  { intros s2 Hc Hk. split; [apply slots_kept_weaken; exact Hk |].
    intros Hc'. rewrite Hc in Hc'. discriminate Hc'. }
  assert (Hc : is_slot_container s container
               = match o with
                 | HPropertyArray _ | HContext _ _ _ _ | HFixedArray _ => true
                 | _ => false
                 end).
  { unfold is_slot_container. unfold addr in *. rewrite Ho. reflexivity. }
  destruct o; try discriminate Hstep.
  - (* a map: the prototype *)
    apply bind_Done in Hstep as (p & s2 & Hcast & Hstep).
    destruct target; try discriminate Hcast. injection Hcast as <- <-.
    apply bind_Done in Hstep as (u & s3 & Hset & Hstep).
    unfold ret in Hstep. injection Hstep as <- <-.
    right. exists s3. split; [exact H |].
    apply Hother; [exact Hc |]. eapply set_prototype_Done. exact Hset.
  - (* a context *)
    apply bind_Done in Hstep as (u & s2 & Hs & Hstep).
    unfold ret in Hstep. injection Hstep as <- <-.
    right. exists s2. split; [exact H |]. eapply Hslot. exact Hs.
  - (* a property array *)
    apply bind_Done in Hstep as (u & s2 & Hs & Hstep).
    unfold ret in Hstep. injection Hstep as <- <-.
    right. exists s2. split; [exact H |]. eapply Hslot. exact Hs.
  - (* a fixed array *)
    apply bind_Done in Hstep as (u & s2 & Hs & Hstep).
    unfold ret in Hstep. injection Hstep as <- <-.
    right. exists s2. split; [exact H |]. eapply Hslot. exact Hs.
  - (* a function: the prototype *)
    apply bind_Done in Hstep as (p & s2 & Hcast & Hstep).
    destruct target; try discriminate Hcast. injection Hcast as <- <-.
    apply bind_Done in Hstep as (ok & s3 & Hset & Hstep).
    destruct ok.
    + unfold ret in Hstep. injection Hstep as <- <-.
      right. exists s3. split; [exact H |].
      apply Hother; [exact Hc |]. eapply SetFunctionPrototype_Done. exact Hset.
    + left. apply bind_Done in Hstep as (u & s4 & Ht & Hstep).
      assert (He4 : has_error s4 = true).
      { destruct (Throw_outcome "Can't reuse function prototype" s3)
          as (s5 & Ht' & Hm & _).
        rewrite Ht in Ht'. injection Ht' as _ E. rewrite E.
        unfold has_error. rewrite Hm. reflexivity. }
      unfold ret in Hstep. injection Hstep as <- <-.
      unfold ret in H. injection H as <- <-. split; [reflexivity | exact He4].
Qed.

Lemma loop_resolves refs : forall s c s',
  ProcessDeferredReferences_loop refs s = Done c s' ->
  NoDup (List.map slot_of refs) ->
  match c with
  | Return => has_error s' = true
  | Next =>
      tables s' = tables s
      /\ (forall a, is_slot_container s' a = is_slot_container s a)
      /\ (forall a i, is_slot_container s a = true ->
            (a, i) ∉ List.map slot_of refs -> slot_at s' a i = slot_at s a i)
      /\ Forall (resolved s s') refs
  end.
Proof.
  induction refs as [| [[[container index] ty] id] rest IH]; intros s c s' H Hnd.
  - cbn [ProcessDeferredReferences_loop] in H. unfold ret in H. injection H as <- <-.
    repeat split. constructor.
  - cbn [ProcessDeferredReferences_loop] in H. cbv zeta in H.
    apply deferred_step in H as [[-> He] | (s1 & Hk & (K1 & K2 & K3) & Hres)];
      [exact He |].
    cbn [List.map slot_of] in Hnd. apply NoDup_cons in Hnd as [Hnot Hnd].
    specialize (IH s1 c s' Hk Hnd). destruct c; [| exact IH].
    destruct IH as (I1 & I2 & I3 & I4).
    split; [congruence |]. split; [intros a; rewrite I2; apply K2 |].
    split.
    + intros a i Ha Hni. cbn [List.map slot_of] in Hni.
      apply not_elem_of_cons in Hni as [Hne Hni].
      rewrite I3; [| rewrite K2; exact Ha | exact Hni].
      apply K3; [exact Ha |]. intros E. apply Hne. injection E as -> ->. reflexivity.
    + constructor.
      * intros Hc. destruct (Hres Hc) as (t & v & H1 & H2 & H3 & H4).
        exists t, v. split; [exact H1 |]. split; [exact H2 |]. split; [exact H3 |].
        rewrite I3; [exact H4 | rewrite K2; exact Hc | exact Hnot].
      * eapply Forall_impl; [exact I4 |]. intros r Hr.
        eapply resolved_earlier; [exact K1 | exact K2 | exact Hr].
Qed.

(** X12: deferred references are resolved.  When
    [ProcessDeferredReferences] ends without an error and the deferred
    references name distinct slots, every reference into a PropertyArray, a
    Context or a FixedArray is resolved: the slot holds the entity that the
    table of the reference's type has under the reference's id.  The list
    of deferred references is then empty and the tables are as before. *)
Theorem deferred_references_resolved s s' :
  ProcessDeferredReferences s = Done tt s' ->
  has_error s' = false ->
  NoDup (List.map slot_of (deferred_references_ s)) ->
  Forall (resolved s s') (deferred_references_ s)
  /\ deferred_references_ s' = []
  /\ tables s' = tables s.
Proof.
  unfold ProcessDeferredReferences. intros H He Hnd.
  unfold bind at 1, gets in H. destruct (has_error s) eqn:E.
  { unfold ret in H. injection H as <-. rewrite E in He. discriminate He. }
  unfold bind at 1, gets in H.
  apply bind_Done in H as (c & s1 & Hloop & H).
  pose proof (loop_resolves _ _ _ _ Hloop Hnd) as Hl.
  destruct c.
  - destruct Hl as (L1 & L2 & L3 & L4).
    unfold modify in H. injection H as <-.
    split; [| split; [reflexivity | exact L1]].
    eapply Forall_impl; [exact L4 |].
    intros [[[a i] ty] id] Hr Hc. destruct (Hr Hc) as (t & v & H1 & H2 & H3 & H4).
    exists t, v. auto.
  - unfold ret in H. injection H as <-. rewrite Hl in He. discriminate He.
Qed.

End DeferredSlots.

Section DeferredSlotsWitness.
Import Codec Flags Deserializer.
Lemma deferred_references_resolved_witness :
  Forall (resolved (Fixtures.tables_read Fixtures.forward_reference)
            (Fixtures.references_processed Fixtures.forward_reference))
    (deferred_references_ (Fixtures.tables_read Fixtures.forward_reference))
  /\ deferred_references_ (Fixtures.references_processed Fixtures.forward_reference) = []
  /\ tables (Fixtures.references_processed Fixtures.forward_reference)
     = tables (Fixtures.tables_read Fixtures.forward_reference).
Proof.
  apply (deferred_references_resolved (Fixtures.tables_read Fixtures.forward_reference)).
  - vm_compute. reflexivity.
  - vm_compute. reflexivity.
  - apply (@bool_decide_unpack _ (NoDup_dec _)). vm_compute. exact I.
Defined.

End DeferredSlotsWitness.

(** *** The result of TakeSnapshot *)

Section SnapshotResult.
Import Codec Flags Serializer.

Lemma has_error_after_Throw message s : has_error (Throw message s) = true.
Proof. unfold Throw. destruct (has_error s) eqn:E; [exact E | reflexivity]. Qed.

Lemma WriteSnapshot_buffer cfg s :
  has_error (WriteSnapshot cfg s) = false ->
  exists rest, data_out (WriteSnapshot cfg s) = Some (kMagicNumber cfg ++ rest).
Proof.
  unfold WriteSnapshot. cbv zeta.
  set (s2 := SerializePendingItems cfg s).
  destruct (has_error s2) eqn:E; [intros H; rewrite E in H; discriminate H |].
  intros _. cbn [data_out set_data_out]. unfold WriteRawBytes at 1.
  eexists. reflexivity.
Qed.

Lemma discover_exports_false cfg fuel exports : forall s s',
  discover_exports cfg fuel exports s = Some (false, s') -> has_error s' = true.
Proof.
  induction exports as [| e rest IH]; intros s s' E; simpl in E.
  - discriminate E.
  - destruct (export_object e) as [object |].
    + destruct (Discovery cfg fuel (HeapRef object) s) as [s2 |]; [| discriminate E].
      exact (IH s2 s' E).
    + injection E as <-. apply has_error_after_Throw.
Qed.

(** X13: the result of [TakeSnapshot] tells whether an error is recorded:
    it is false exactly when the serializer has an error message, and when
    it is true the buffer handed out starts with the magic number. *)
Theorem TakeSnapshot_result cfg fuel exports s ok s' :
  TakeSnapshot cfg fuel exports s = Some (ok, s') ->
  ok = negb (has_error s')
  /\ (ok = true -> exists rest, data_out s' = Some (kMagicNumber cfg ++ rest)).
Proof.
  unfold TakeSnapshot.
  destruct (0 <? Z.of_nat (size (ids s KString))).
  { intros H. injection H as <- <-. rewrite has_error_after_Throw.
    split; [reflexivity | discriminate]. }
  destruct (discover_exports cfg fuel exports _) as [[found s1] |] eqn:E;
    [| discriminate].
  destruct found.
  - cbv zeta.
    set (s3 := WriteSnapshot cfg _).
    destruct (has_error s3) eqn:E3; intros H; injection H as <- <-; rewrite E3.
    + split; [reflexivity | discriminate].
    + split; [reflexivity |]. intros _. apply WriteSnapshot_buffer. exact E3.
  - intros H. injection H as <- <-. split; [| discriminate].
    rewrite (discover_exports_false _ _ _ _ _ E). reflexivity.
Qed.

Lemma TakeSnapshot_result_witness :
  true = negb (has_error Fixtures.closure_state)
  /\ (true = true ->
      exists rest,
        data_out Fixtures.closure_state = Some (kMagicNumber Fixtures.scfg ++ rest)).
Proof.
  apply (TakeSnapshot_result Fixtures.scfg 8 Fixtures.closure_exports
           (new_serializer Fixtures.closure_heap)).
  vm_compute. reflexivity.
Defined.

End SnapshotResult.

(** *** Discovery ends *)

Section DiscoveryTerminates.
Import Codec Flags Serializer.

Lemma sum_below_le n g g' :
  (forall a, (a < n)%nat -> (g' a <= g a)%nat) -> (sum_below n g' <= sum_below n g)%nat.
Proof.
  induction n as [| n IH]; intros H; simpl; [lia |].
  specialize (IH (fun a Ha => H a ltac:(lia))). specialize (H n ltac:(lia)). lia.
Qed.

Lemma sum_below_drop n g g' a :
  (a < n)%nat ->
  (forall a', (a' < n)%nat -> a' <> a -> (g' a' <= g a')%nat) ->
  g' a = 0%nat ->
  (sum_below n g' + g a <= sum_below n g)%nat.
Proof.
  induction n as [| n IH]; intros Ha H H0; [lia |].
  simpl. destruct (decide (a = n)) as [-> | Hne].
  - rewrite H0.
    assert (sum_below n g' <= sum_below n g)%nat; [| lia].
    apply sum_below_le. intros a' Ha'. apply H; lia.
  - assert (sum_below n g' + g a <= sum_below n g)%nat
      by (apply IH; [lia | intros a' Ha' Hn; apply H; lia | exact H0]).
    specialize (H n ltac:(lia) ltac:(lia)). lia.
Qed.

Lemma grows_refl s : grows 0 s s.
Proof.
  split; [reflexivity |]. split; [reflexivity |].
  exists []. rewrite app_nil_r. split; [reflexivity | simpl; lia].
Qed.

Lemma grows_trans n m s s1 s2 :
  grows n s s1 -> grows m s1 s2 -> grows (n + m) s s2.
Proof.
  intros (A1 & A2 & p1 & A3 & A4) (B1 & B2 & p2 & B3 & B4).
  split; [congruence |]. split.
  - intros k Hk. rewrite B2, A2 by exact Hk. reflexivity.
  - exists (p1 ++ p2). rewrite B3, A3, <- app_assoc, length_app.
    split; [reflexivity | lia].
Qed.

Lemma grows_le n m s s' : (n <= m)%nat -> grows n s s' -> grows m s s'.
Proof.
  intros Hle (A1 & A2 & p & A3 & A4). split; [exact A1 |]. split; [exact A2 |].
  exists p. split; [exact A3 | lia].
Qed.

Lemma grows_Throw message s : grows 0 s (Throw message s).
Proof.
  unfold Throw. destruct (has_error s); [apply grows_refl |].
  split; [reflexivity |]. split; [reflexivity |].
  exists []. rewrite app_nil_r. split; [reflexivity | simpl; lia].
Qed.

Lemma grows_push v s : grows 1 s (push v s).
Proof.
  split; [reflexivity |]. split; [reflexivity |].
  exists [v]. split; [reflexivity | simpl; lia].
Qed.

Lemma grows_push_all l : forall s, grows (length l) s (push_all l s).
Proof.
  induction l as [| v l IH]; intros s; simpl; [apply grows_refl |].
  change (S (length l)) with (1 + length l)%nat.
  eapply grows_trans; [apply grows_push | apply IH].
Qed.

Lemma grows_potential n s s' :
  grows n s s' -> discovery_potential s' = discovery_potential s.
Proof.
  intros (A1 & A2 & _). unfold discovery_potential. rewrite A1.
  assert (E : forall a, (if discovered s' a then 0%nat else discovery_weight s' a)
                        = (if discovered s a then 0%nat else discovery_weight s a)).
  { intros a. unfold discovered, discovery_weight, heap_at, known. rewrite A1.
    destruct (heap s !! a) as [o |]; [| reflexivity].
    destruct o as [| | | | b f | | | | | |]; try reflexivity; simpl.
    - destruct b; rewrite A2 by discriminate; reflexivity.
    - rewrite A2 by discriminate. reflexivity.
    - rewrite A2 by discriminate. reflexivity. }
  apply Nat.le_antisymm; apply sum_below_le; intros a _; rewrite E; lia.
Qed.

Lemma grows_settles n s s' : grows 0 s s' -> n = 0%nat -> settles s s'.
Proof.
  intros H ->. pose proof (grows_potential _ _ _ H) as Hp.
  destruct H as (A1 & A2 & p & A3 & A4).
  split; [exact A1 |]. exists p. split; [exact A3 | lia].
Qed.


(** The three ways [InsertIntoIndexMap] can end. *)
Lemma InsertIntoIndexMap_cases k a id s :
  (exists id', InsertIntoIndexMap k a id s = (true, id', Throw "Too many objects" s))
  \/ (exists id', InsertIntoIndexMap k a id s
                  = (true, id', set_ids (upd (ids s) k (ids s k)) s))
  \/ (ids s k !! a = None
      /\ exists id', InsertIntoIndexMap k a id s
                     = (false, id', set_ids (upd (ids s) k (<[a := id']> (ids s k))) s)).
Proof.
  unfold InsertIntoIndexMap.
  destruct (kMaxUint32 <=? wrap32 (Z.of_nat (size (ids s k)))); [left; eauto |].
  unfold LookupOrInsert. destruct (ids s k !! a) as [index |] eqn:E.
  - right. left. eauto.
  - right. right. split; [reflexivity | eauto].
Qed.

Lemma upd_same_ids (s : State) k : forall k', upd (ids s) k (ids s k) k' = ids s k'.
Proof. intros k'. unfold upd. destruct (Kind_eqb k k') eqn:E; [| reflexivity].
  destruct k, k'; try discriminate E; reflexivity. Qed.

Lemma upd_other_ids (s : State) k m k' : k' <> k -> upd (ids s) k m k' = ids s k'.
Proof.
  intros Hne. unfold upd. destruct (Kind_eqb k k') eqn:E; [| reflexivity].
  exfalso. apply Hne. destruct k, k'; try discriminate E; reflexivity.
Qed.

Lemma grows_same_ids s k : grows 0 s (set_ids (upd (ids s) k (ids s k)) s).
Proof.
  split; [reflexivity |]. split; [intros k' _; apply upd_same_ids |].
  exists []. rewrite app_nil_r. split; [reflexivity | simpl; lia].
Qed.

Lemma grows_context_id s m :
  grows 0 s (set_ids (upd (ids s) KContext m) s).
Proof.
  split; [reflexivity |]. split; [intros k' Hk; apply upd_other_ids; exact Hk |].
  exists []. rewrite app_nil_r. split; [reflexivity | simpl; lia].
Qed.

Lemma grows_DiscoverContext c : forall s,
  grows (context_weight c) s (DiscoverContext c s).
Proof.
  induction c as [| | a kind previous IH locals]; intros s;
    try (simpl; apply grows_refl).
  cbn [DiscoverContext context_weight].
  set (s1 := if IsLocal previous then DiscoverContext previous s else s).
  assert (H1 : grows (context_weight previous) s s1).
  { subst s1. destruct (IsLocal previous); [apply IH |].
    eapply grows_le; [| apply grows_refl]. lia. }
  replace (length locals + context_weight previous)%nat
    with (context_weight previous + (0 + length locals))%nat by lia.
  eapply grows_trans; [exact H1 |].
  destruct (InsertIntoIndexMap_cases KContext a 0 s1)
    as [[id' ->] | [[id' ->] | [_ [id' ->]]]].
  - eapply grows_le; [| apply grows_Throw]. lia.
  - eapply grows_le; [| apply grows_same_ids]. lia.
  - cbv beta iota zeta.
    set (s2 := set_ids (upd (ids s1) KContext (<[a := id']> (ids s1 KContext))) s1).
    set (s3 := set_contexts_ (contexts_ s2 ++ [LocalContext a kind previous locals]) s2).
    assert (H2 : grows 0 s1 s2) by apply grows_context_id.
    assert (H3 : grows 0 s2 s3).
    { split; [reflexivity |]. split; [reflexivity |].
      exists []. rewrite app_nil_r. split; [reflexivity | simpl; lia]. }
    pose proof (grows_push_all (List.map snd locals) s3) as H4.
    rewrite length_map in H4.
    exact (grows_trans _ _ _ _ _ H2 (grows_trans _ _ _ _ _ H3 H4)).
Qed.

Lemma grows_DiscoverSource f s : grows 0 s (DiscoverSource f s).
Proof.
  unfold DiscoverSource. cbv zeta.
  match goal with
  | |- grows 0 s (match full_source_ ?s1 with _ => _ end) =>
      assert (H1 : grows 0 s s1)
  end.
  { split; [reflexivity |]. split; [reflexivity |].
    exists []. rewrite app_nil_r. split; [reflexivity | simpl; lia]. }
  change 0%nat with (0 + 0)%nat. eapply grows_trans; [exact H1 |].
  destruct (full_source_ _).
  - destruct (negb _); [apply grows_Throw | apply grows_refl].
  - split; [reflexivity |]. split; [reflexivity |].
    exists []. rewrite app_nil_r. split; [reflexivity | simpl; lia].
Qed.

Lemma grows_DiscoverContextAndPrototype f s :
  grows (context_weight (context f) + 1) s (DiscoverContextAndPrototype f s).
Proof.
  unfold DiscoverContextAndPrototype. cbv zeta.
  match goal with
  | |- grows _ s (if _ then _ else if _ then push _ ?s1 else _) =>
      assert (H1 : grows (context_weight (context f)) s s1)
  end.
  { destruct (context f) as [| | a [| |] previous locals];
      try (eapply grows_le; [| apply grows_refl]; lia);
      apply grows_DiscoverContext. }
  eapply grows_trans; [exact H1 |].
  destruct (has_prototype_slot f && has_non_instance_prototype f).
  - eapply grows_le; [| apply grows_Throw]. lia.
  - destruct (has_prototype_slot f && has_instance_prototype f).
    + apply grows_push.
    + eapply grows_le; [| apply grows_refl]. lia.
Qed.


Lemma kind_of_in_heap s a k : kind_of (heap_at s a) = Some k -> (a < length (heap s))%nat.
Proof.
  unfold heap_at. destruct (heap s !! a) as [o |] eqn:E; [| discriminate].
  intros _. apply lookup_lt_Some in E. exact E.
Qed.

(** Entering an object into its identity map pays its weight. *)
Lemma insert_pays k a id' s :
  kind_of (heap_at s a) = Some k -> ids s k !! a = None ->
  (discovery_potential (set_ids (upd (ids s) k (<[a := id']> (ids s k))) s)
   + discovery_weight s a <= discovery_potential s)%nat.
Proof.
  intros Hk Hnew. unfold discovery_potential. cbn [heap set_ids].
  assert (Hkk : forall m, upd (ids s) k m k = m).
  { intros m. unfold upd. replace (Kind_eqb k k) with true by (destruct k; reflexivity).
    reflexivity. }
  assert (Hd : discovered s a = false).
  { unfold discovered, known. rewrite Hk, Hnew. reflexivity. }
  pose proof (sum_below_drop (length (heap s))
                (fun a0 => if discovered s a0 then 0%nat else discovery_weight s a0)
                (fun a0 =>
                   if discovered (set_ids (upd (ids s) k (<[a := id']> (ids s k))) s) a0
                   then 0%nat
                   else discovery_weight
                          (set_ids (upd (ids s) k (<[a := id']> (ids s k))) s) a0)
                a) as H.
  cbv beta in H. rewrite Hd in H. apply H; clear H.
  - eapply kind_of_in_heap. exact Hk.
  - intros a' _ Hne.
    assert (E : discovered (set_ids (upd (ids s) k (<[a := id']> (ids s k))) s) a'
                = discovered s a').
    { unfold discovered, known.
      change (heap_at (set_ids (upd (ids s) k (<[a := id']> (ids s k))) s) a')
        with (heap_at s a').
      cbn [ids set_ids].
      destruct (kind_of (heap_at s a')) as [k' |]; [| reflexivity].
      unfold upd. destruct (Kind_eqb k k') eqn:Ek; [| reflexivity].
      assert (k = k') as <- by (destruct k, k'; try discriminate Ek; reflexivity).
      rewrite lookup_insert_ne by (intros E; apply Hne; symmetry; exact E).
      reflexivity. }
    rewrite E. unfold discovery_weight, heap_at. cbn [heap set_ids]. lia.
  - unfold discovered, heap_at, known in *. cbn [heap ids set_ids].
    rewrite Hk, Hkk, lookup_insert_eq. reflexivity.
Qed.

Lemma settles_new k a id' n s s' :
  kind_of (heap_at s a) = Some k -> ids s k !! a = None ->
  grows n (set_ids (upd (ids s) k (<[a := id']> (ids s k))) s) s' ->
  (n <= discovery_weight s a)%nat ->
  settles s s'.
Proof.
  intros Hk Hnew Hg Hn.
  pose proof (insert_pays k a id' s Hk Hnew) as Hp.
  pose proof (grows_potential _ _ _ Hg) as He.
  destruct Hg as (A1 & _ & p & A3 & A4).
  split; [exact A1 |]. exists p. split; [exact A3 |]. lia.
Qed.

Lemma settles_found s s' : grows 0 s s' -> settles s s'.
Proof. intros H. eapply grows_settles; [exact H | reflexivity]. Qed.

Lemma grows_add_item k a s : grows 0 s (add_item k a s).
Proof.
  split; [reflexivity |]. split; [reflexivity |].
  exists []. rewrite app_nil_r. split; [reflexivity | simpl; lia].
Qed.

Lemma settles_DiscoverFunction a f s :
  heap_at s a = HJSFunction false f -> settles s (DiscoverFunction a f s).
Proof.
  intros Ha. unfold DiscoverFunction.
  destruct (InsertIntoIndexMap_cases KFunction a 0 s)
    as [[id' ->] | [[id' ->] | [Hnew [id' ->]]]]; cbv beta iota zeta.
  - apply settles_found, grows_Throw.
  - apply settles_found, grows_same_ids.
  - eapply (settles_new KFunction a id' (0 + (context_weight (context f) + 1 + 0)));
      [rewrite Ha; reflexivity | exact Hnew | | unfold discovery_weight; rewrite Ha; lia].
    eapply grows_trans; [apply grows_add_item |].
    eapply grows_trans; [apply grows_DiscoverContextAndPrototype | apply grows_DiscoverSource].
Qed.

Lemma settles_DiscoverClass a f s :
  heap_at s a = HJSFunction true f -> settles s (DiscoverClass a f s).
Proof.
  intros Ha. unfold DiscoverClass.
  destruct (InsertIntoIndexMap_cases KClass a 0 s)
    as [[id' ->] | [[id' ->] | [Hnew [id' ->]]]]; cbv beta iota zeta.
  - apply settles_found, grows_Throw.
  - apply settles_found, grows_same_ids.
  - eapply (settles_new KClass a id' (0 + (context_weight (context f) + 1 + 0)));
      [rewrite Ha; reflexivity | exact Hnew | | unfold discovery_weight; rewrite Ha; lia].
    eapply grows_trans; [apply grows_add_item |].
    eapply grows_trans; [apply grows_DiscoverContextAndPrototype | apply grows_DiscoverSource].
Qed.

Lemma settles_DiscoverArray a kind length elements s :
  heap_at s a = HJSArray kind length elements ->
  settles s (DiscoverArray a kind length elements s).
Proof.
  intros Ha. unfold DiscoverArray.
  destruct (InsertIntoIndexMap_cases KArray a 0 s)
    as [[id' ->] | [[id' ->] | [Hnew [id' ->]]]]; cbv beta iota zeta.
  - apply settles_found, grows_Throw.
  - apply settles_found, grows_same_ids.
  - eapply (settles_new KArray a id' (0 + Z.to_nat length));
      [rewrite Ha; reflexivity | exact Hnew | | unfold discovery_weight; rewrite Ha; lia].
    eapply grows_trans; [apply grows_add_item |].
    destruct kind.
    + eapply grows_le; [| apply grows_push_all]. rewrite length_map, length_seq. lia.
    + eapply grows_le; [| apply grows_push_all]. rewrite length_map, length_seq. lia.
    + eapply grows_le; [| apply grows_Throw]. lia.
Qed.

Lemma settles_DiscoverObject cfg a map fast properties s :
  heap_at s a = HJSObject map fast properties ->
  settles s (DiscoverObject cfg a map fast properties s).
Proof.
  intros Ha. unfold DiscoverObject.
  destruct (InsertIntoIndexMap_cases KObject a 0 s)
    as [[id' ->] | [[id' ->] | [Hnew [id' ->]]]]; cbv beta iota zeta.
  - apply settles_found, grows_Throw.
  - apply settles_found, grows_same_ids.
  - set (s1 := set_ids (upd (ids s) KObject (<[a := id']> (ids s KObject))) s).
    set (s2 := add_item KObject a s1).
    set (s3 := if negb fast then Throw "Dictionary mode objects not supported" s2 else s2).
    assert (H3 : grows 0 s1 s3).
    { change 0%nat with (0 + 0)%nat. eapply grows_trans; [apply grows_add_item |].
      subst s3. destruct (negb fast); [apply grows_Throw | apply grows_refl]. }
    assert (Hm : heap_at s3 map = heap_at s map).
    { unfold heap_at. destruct H3 as (-> & _). reflexivity. }
    rewrite Hm.
    assert (Hk : kind_of (heap_at s a) = Some KObject) by (rewrite Ha; reflexivity).
    destruct (heap_at s map) as [| | | | | | | | | descriptors prototype |] eqn:Em;
      try (apply (settles_new KObject a id' 0 s s3 Hk Hnew H3); lia).
    set (s4 := if negb (Object_eqb prototype (HeapRef (initial_object_prototype cfg)))
               then push prototype s3 else s3).
    assert (H4 : grows 1 s3 s4).
    { subst s4.
      destruct (negb (Object_eqb prototype (HeapRef (initial_object_prototype cfg))));
        [apply grows_push |].
      eapply grows_le; [| apply grows_refl]. lia. }
    pose proof (grows_push_all (property_values descriptors properties) s4) as H5.
    unfold property_values in H5 at 1. rewrite length_map, length_seq in H5.
    apply (settles_new KObject a id' (0 + (1 + length descriptors)) s _ Hk Hnew).
    + exact (grows_trans _ _ _ _ _ H3 (grows_trans _ _ _ _ _ H4 H5)).
    + unfold discovery_weight. rewrite Ha, Em. lia.
Qed.


Lemma settles_refl s : settles s s.
Proof. apply settles_found, grows_refl. Qed.

(** One round of the loop pops the front and is paid for. *)
Lemma Discovery_step_measure cfg object q s :
  discovery_queue_ s = object :: q ->
  heap (Discovery_step cfg object s) = heap s
  /\ (length (discovery_queue_ (Discovery_step cfg object s))
       + discovery_potential (Discovery_step cfg object s)
       <= length q + discovery_potential s)%nat
  /\ (discovery_potential (Discovery_step cfg object s) <= discovery_potential s)%nat.
Proof.
  intros Hq. unfold Discovery_step.
  match goal with
  | |- context [set_discovery_queue_ (tail (discovery_queue_ ?s1)) ?s1] =>
      set (mid := s1)
  end.
  assert (Hs : settles s mid).
  { subst mid. destruct object as [v | a]; [apply settles_refl |].
    destruct (heap_at s a) as [| | | | b f | | | | | |] eqn:Ha;
      try apply settles_refl; try (apply settles_found, grows_Throw).
    - destruct b; [apply settles_DiscoverClass | apply settles_DiscoverFunction]; exact Ha.
    - apply settles_DiscoverObject. exact Ha.
    - apply settles_DiscoverArray. exact Ha. }
  destruct Hs as (Hh & p & Hp & Hle).
  split; [exact Hh |].
  assert (E : discovery_potential (set_discovery_queue_ (tail (discovery_queue_ mid)) mid)
              = discovery_potential mid) by reflexivity.
  rewrite E. cbn [discovery_queue_ set_discovery_queue_].
  rewrite Hp, Hq. cbn [app tail]. rewrite length_app. split; lia.
Qed.

Lemma Discovery_loop_total cfg fuel : forall s,
  (length (discovery_queue_ s) + discovery_potential s <= fuel)%nat ->
  exists s',
    Discovery_loop cfg fuel s = Some s'
    /\ discovery_queue_ s' = []
    /\ heap s' = heap s
    /\ (discovery_potential s' <= discovery_potential s)%nat.
Proof.
  induction fuel as [| fuel IH]; intros s Hm.
  - destruct (discovery_queue_ s) as [| o q] eqn:Hq; [| simpl in Hm; lia].
    exists s. simpl. rewrite Hq.
    split; [reflexivity |]. split; [reflexivity |]. split; [reflexivity | lia].
  - cbn [Discovery_loop]. destruct (discovery_queue_ s) as [| o q] eqn:Hq.
    + exists s.
      split; [reflexivity |]. split; [exact Hq |]. split; [reflexivity | lia].
    + destruct (Discovery_step_measure cfg o q s Hq) as (Hh & Hle & Hpot).
      destruct (IH (Discovery_step cfg o s)) as (s' & Hrun & H1 & H2 & H3).
      { simpl in Hm. lia. }
      exists s'. split; [exact Hrun |]. split; [exact H1 |].
      split; [congruence | lia].
Qed.

Lemma Discovery_total cfg fuel start s :
  discovery_queue_ s = [] ->
  (discovery_potential s < fuel)%nat ->
  exists s',
    Discovery cfg fuel start s = Some s'
    /\ discovery_queue_ s' = []
    /\ heap s' = heap s
    /\ (discovery_potential s' <= discovery_potential s)%nat.
Proof.
  intros Hq Hf. unfold Discovery.
  assert (E : discovery_potential (push start s) = discovery_potential s) by reflexivity.
  destruct (Discovery_loop_total cfg fuel (push start s)) as (s' & Hrun & H1 & H2 & H3).
  { rewrite E. unfold push. cbn [discovery_queue_ set_discovery_queue_].
    rewrite Hq. simpl. lia. }
  exists s'. split; [exact Hrun |]. split; [exact H1 |].
  split; [exact H2 | lia].
Qed.

Lemma discover_exports_total cfg fuel exports : forall s,
  discovery_queue_ s = [] ->
  (discovery_potential s < fuel)%nat ->
  exists r, discover_exports cfg fuel exports s = Some r.
Proof.
  induction exports as [| e rest IH]; intros s Hq Hf; simpl; [eauto |].
  destruct (export_object e) as [object |]; [| eauto].
  destruct (Discovery_total cfg fuel (HeapRef object) s Hq Hf)
    as (s' & -> & H1 & H2 & H3).
  apply IH; [exact H1 | lia].
Qed.

(** X14: [TakeSnapshot] returns.  Discovery ends on every heap, cyclic
    ones included: an object pushes values only when it gets its id, so
    with more fuel than the weight of the objects that have no id yet,
    every run of [Discovery] empties its queue and [TakeSnapshot] gives a
    result. *)
Theorem TakeSnapshot_returns cfg fuel exports s :
  discovery_queue_ s = [] ->
  (discovery_potential s < fuel)%nat ->
  exists ok s', TakeSnapshot cfg fuel exports s = Some (ok, s').
Proof.
  intros Hq Hf. unfold TakeSnapshot.
  destruct (0 <? Z.of_nat (size (ids s KString))); [eauto |].
  cbv zeta.
  match goal with
  | |- context [discover_exports cfg fuel exports ?s0] =>
      destruct (discover_exports_total cfg fuel exports s0 Hq Hf) as [[found s1] ->]
  end.
  destruct found; [| eauto].
  destruct (has_error _); eauto.
Qed.

Lemma TakeSnapshot_returns_witness :
  exists ok s',
    TakeSnapshot Fixtures.scfg 8 Fixtures.ab_exports (new_serializer Fixtures.ab_heap)
    = Some (ok, s').
Proof.
  apply (TakeSnapshot_returns Fixtures.scfg 8 Fixtures.ab_exports
           (new_serializer Fixtures.ab_heap)).
  - reflexivity.
  - vm_compute. lia.
Defined.

End DiscoveryTerminates.

(** ** The tables of a snapshot *)

Section SnapshotTables.
Import Codec Flags Serializer.

Ltac inert := try (intros; assumption); try (apply Throw_inert; intros; assumption).

Ltac framed lemma := apply lemma; inert.

Ltac listing lemma :=
  match goal with
  | |- listed ?k _ => apply (lemma (listed k)); inert
  end.

Lemma TakeSnapshot_cases cfg fuel exports s ok s' :
  TakeSnapshot cfg fuel exports s = Some (ok, s') ->
  (0 < Z.of_nat (size (ids s KString))
   /\ ok = false /\ s' = Throw "Can't reuse WebSnapshotSerializer" s)
  \/ (size (ids s KString) = 0%nat
      /\ exists s1,
           (discover_exports cfg fuel exports
              (set_items (fun _ => []) (set_contexts_ [] s)) = Some (false, s1)
            /\ ok = false /\ s' = s1)
           \/ (discover_exports cfg fuel exports
                 (set_items (fun _ => []) (set_contexts_ [] s)) = Some (true, s1)
               /\ s' = WriteSnapshot cfg
                         (serialize_exports cfg exports (SerializeSource cfg s1))
               /\ ok = negb (has_error s'))).
Proof.
  unfold TakeSnapshot.
  destruct (0 <? Z.of_nat (size (ids s KString))) eqn:E0.
  { intros H. injection H as <- <-. left. apply Z.ltb_lt in E0. auto. }
  apply Z.ltb_ge in E0.
  destruct (discover_exports cfg fuel exports _) as [[found s1] |] eqn:E;
    [| discriminate].
  intros H. right. split; [lia |]. exists s1. destruct found.
  - right. cbv zeta in H. split; [reflexivity |].
    destruct (has_error (WriteSnapshot cfg _)) eqn:E3; injection H as <- <-;
      rewrite E3; auto.
  - left. injection H as <- <-. auto.
Qed.

(** The tables of objects. *)

Lemma listed_insert k a s :
  listed k s ->
  ids s k !! a = None ->
  listed k (add_item k a
              (set_ids (upd (ids s) k (<[a := Z.of_nat (size (ids s k))]> (ids s k))) s)).
Proof.
  intros [Hsize Hids] E.
  assert (Hnot : a ∉ items s k).
  { intros Hin. apply list_elem_of_lookup in Hin as [i Hi].
    assert (ids s k !! a = Some (Z.of_nat i)) as E' by (apply Hids; eauto).
    rewrite E in E'. discriminate. }
  assert (Hi' : ids (add_item k a
              (set_ids (upd (ids s) k (<[a := Z.of_nat (size (ids s k))]> (ids s k))) s)) k
          = <[a := Z.of_nat (size (ids s k))]> (ids s k))
    by (destruct k; reflexivity).
  assert (Hl' : items (add_item k a
              (set_ids (upd (ids s) k (<[a := Z.of_nat (size (ids s k))]> (ids s k))) s)) k
          = items s k ++ [a])
    by (destruct k; reflexivity).
  unfold listed. rewrite Hi', Hl'. split.
  { rewrite map_size_insert_None by exact E. rewrite Hsize, length_app. simpl. lia. }
  intros a' id'. split.
  - intros H. destruct (decide (a = a')) as [<- | Hne].
    + rewrite lookup_insert_eq in H. injection H as <-.
      exists (length (items s k)). rewrite Hsize. split; [reflexivity |].
      rewrite lookup_app_r by lia. rewrite Nat.sub_diag. reflexivity.
    + rewrite lookup_insert_ne in H by exact Hne.
      apply Hids in H as (i & -> & Hi). exists i. split; [reflexivity |].
      apply lookup_app_l_Some. exact Hi.
  - intros (i & -> & Hi). apply lookup_app_Some in Hi as [Hi | [Hge Hi]].
    + assert (a <> a') by (intros <-; apply Hnot, list_elem_of_lookup; eauto).
      rewrite lookup_insert_ne by assumption. apply Hids. eauto.
    + apply list_lookup_singleton_Some in Hi as [Hi <-].
      rewrite lookup_insert_eq. f_equal. rewrite Hsize. lia.
Qed.

Lemma listed_same_ids k' k s :
  listed k' s -> listed k' (set_ids (upd (ids s) k (ids s k)) s).
Proof.
  intros H. unfold listed. cbn [ids items set_ids]. rewrite upd_same_ids. exact H.
Qed.

(** Entering an object into its table: the id and the place in the list
    go together. *)
Lemma listed_enter k' k a s :
  is_item_kind k' = true ->
  listed k' s ->
  listed k' (if (InsertIntoIndexMap k a 0 s).1.1
             then (InsertIntoIndexMap k a 0 s).2
             else add_item k a (InsertIntoIndexMap k a 0 s).2).
Proof.
  intros Hk H. unfold InsertIntoIndexMap.
  destruct (kMaxUint32 <=? _); cbn [fst snd].
  { destruct k'; try discriminate Hk; listing Throw_frame. }
  unfold LookupOrInsert. destruct (ids s k !! a) as [index |] eqn:E; cbn [fst snd].
  - apply listed_same_ids, H.
  - destruct k, k'; try discriminate Hk; try exact H; apply listed_insert; assumption.
Qed.

Lemma listed_Discovery_step cfg object k s :
  is_item_kind k = true -> listed k s -> listed k (Discovery_step cfg object s).
Proof.
  intros Hk H. unfold Discovery_step. cbv zeta.
  assert (HT : forall message s0, listed k s0 -> listed k (Throw message s0)).
  { intros message s0 H0. destruct k; try discriminate Hk;
      listing Throw_frame. }
  assert (HP : forall l s0, listed k s0 -> listed k (push_all l s0)).
  { intros l s0 H0. destruct k; try discriminate Hk;
      listing push_all_frame. }
  assert (HC : forall f s0, listed k s0 ->
                 listed k (DiscoverSource f (DiscoverContextAndPrototype f s0))).
  { intros f s0 H0. destruct k; try discriminate Hk;
      listing DiscoverSource_frame;
      listing DiscoverContextAndPrototype_frame. }
  assert (HQ : forall q s0, listed k s0 -> listed k (set_discovery_queue_ q s0))
    by (intros q s0 H0; exact H0).
  apply HQ.
  destruct object as [z | a]; [exact H |].
  destruct (heap_at s a) as [| | | | [|] f | map fast properties
                             | kind length elements | | | |];
    try exact H; try (apply HT, H).
  - unfold DiscoverClass.
    pose proof (listed_enter k KClass a s Hk H) as H1.
    destruct (InsertIntoIndexMap KClass a 0 s) as [[found id] s1]; cbn [fst snd] in H1.
    destruct found; [exact H1 |]. cbv zeta. apply HC, H1.
  - unfold DiscoverFunction.
    pose proof (listed_enter k KFunction a s Hk H) as H1.
    destruct (InsertIntoIndexMap KFunction a 0 s) as [[found id] s1]; cbn [fst snd] in H1.
    destruct found; [exact H1 |]. cbv zeta. apply HC, H1.
  - unfold DiscoverObject.
    pose proof (listed_enter k KObject a s Hk H) as H1.
    destruct (InsertIntoIndexMap KObject a 0 s) as [[found id] s1]; cbn [fst snd] in H1.
    destruct found; [exact H1 |]. cbv zeta.
    assert (H3 : listed k (if negb fast
                           then Throw "Dictionary mode objects not supported"
                                  (add_item KObject a s1)
                           else add_item KObject a s1))
      by (destruct (negb fast); [apply HT, H1 | exact H1]).
    destruct (heap_at _ map); try exact H3.
    apply HP. destruct (negb (Object_eqb _ _)); [apply HQ, H3 | exact H3].
  - unfold DiscoverArray.
    pose proof (listed_enter k KArray a s Hk H) as H1.
    destruct (InsertIntoIndexMap KArray a 0 s) as [[found id] s1]; cbn [fst snd] in H1.
    destruct found; [exact H1 |]. cbv zeta.
    destruct kind; try (apply HP, H1). apply HT, H1.
Qed.

Lemma listed_Discovery_loop cfg k fuel : forall s s',
  is_item_kind k = true ->
  Discovery_loop cfg fuel s = Some s' -> listed k s -> listed k s'.
Proof.
  induction fuel as [| fuel IH]; intros s s' Hk E H; simpl in E.
  - destruct (discovery_queue_ s); [| discriminate E]. injection E as <-. exact H.
  - destruct (discovery_queue_ s) as [| object q]; [injection E as <-; exact H |].
    eapply IH; [exact Hk | exact E | apply listed_Discovery_step; assumption].
Qed.

Lemma listed_discover_exports cfg k fuel exports : forall s ok s',
  is_item_kind k = true ->
  discover_exports cfg fuel exports s = Some (ok, s') -> listed k s -> listed k s'.
Proof.
  induction exports as [| e rest IH]; intros s ok s' Hk E H; simpl in E.
  - injection E as _ <-. exact H.
  - destruct (export_object e) as [object |].
    + destruct (Discovery cfg fuel (HeapRef object) s) as [s1 |] eqn:E1;
        [| discriminate E].
      eapply IH; [exact Hk | exact E |].
      eapply listed_Discovery_loop; [exact Hk | exact E1 | exact H].
    + injection E as _ <-.
      destruct k; try discriminate Hk; listing Throw_frame.
Qed.

(** X15: after [TakeSnapshot] on a serializer without ids, the functions,
    classes, arrays and objects that [SerializePendingItems] writes are
    the ones that have an id, each once, and the one at position [i] of
    its list has the id [i]. *)
Theorem items_listed_by_id cfg fuel exports s ok s' k :
  (forall k', ids s k' = ∅) ->
  is_item_kind k = true ->
  TakeSnapshot cfg fuel exports s = Some (ok, s') ->
  listed k s'.
Proof.
  intros Hnew Hk E.
  apply TakeSnapshot_cases in E as [(H0 & _) | (_ & s1 & E)].
  { rewrite Hnew, map_size_empty in H0. simpl in H0. lia. }
  assert (Hstart : listed k (set_items (fun _ => []) (set_contexts_ [] s))).
  { split; cbn [ids items set_items set_contexts_].
    - rewrite Hnew. apply map_size_empty.
    - intros a id. rewrite Hnew. split.
      + intros H. rewrite lookup_empty in H. discriminate H.
      + intros (i & _ & H). rewrite lookup_nil in H. discriminate H. }
  destruct E as [(E & _ & ->) | (E & -> & _)];
    pose proof (listed_discover_exports _ _ _ _ _ _ _ Hk E Hstart) as H1;
    [exact H1 |].
  destruct k; try discriminate Hk;
    listing WriteSnapshot_frame;
    listing serialize_exports_frame;
    listing SerializeSource_frame.
Qed.

Lemma items_listed_by_id_witness :
  Forall (fun k => listed k Fixtures.closure_state) [KFunction; KClass; KArray; KObject].
Proof.
  assert (H : forall k, is_item_kind k = true -> listed k Fixtures.closure_state).
  { intros k Hk.
    apply (items_listed_by_id Fixtures.scfg 8 Fixtures.closure_exports
             (new_serializer Fixtures.closure_heap) true);
      [reflexivity | exact Hk | vm_compute; reflexivity]. }
  constructor; [apply H; reflexivity |].
  constructor; [apply H; reflexivity |].
  constructor; [apply H; reflexivity |].
  constructor; [apply H; reflexivity |].
  constructor.
Defined.

(** The export count. *)

Lemma discover_exports_objects cfg fuel exports : forall s s',
  discover_exports cfg fuel exports s = Some (true, s') ->
  Forall (fun e => is_Some (export_object e)) exports.
Proof.
  induction exports as [| e rest IH]; intros s s' E; simpl in E; [constructor |].
  destruct (export_object e) as [object |] eqn:Ee; [| discriminate E].
  destruct (Discovery cfg fuel (HeapRef object) s) as [s1 |]; [| discriminate E].
  constructor; [rewrite Ee; eauto | exact (IH s1 s' E)].
Qed.

Lemma SerializeExport_count cfg object name s :
  export_count_ (SerializeExport cfg object name s) = wrap32 (export_count_ s + 1).
Proof.
  unfold SerializeExport. cbv zeta.
  set (P := fun s' : State => export_count_ s' = wrap32 (export_count_ s + 1)).
  change (P (let '(string_id, s0) :=
                SerializeString cfg name 0
                  (set_export_count_ (wrap32 (export_count_ s + 1)) s) in
             match heap_at (write KExport (WriteUint32 string_id) s0) object with
             | HJSPrimitiveWrapper export_value =>
                 WriteValue cfg export_value KExport
                   (write KExport (WriteUint32 string_id) s0)
             | _ => WriteValue cfg (HeapRef object) KExport
                      (write KExport (WriteUint32 string_id) s0)
             end)).
  assert (H1 : P (SerializeString cfg name 0
                    (set_export_count_ (wrap32 (export_count_ s + 1)) s)).2).
  { framed (SerializeString_frame P). reflexivity. }
  destruct (SerializeString cfg name 0 _) as [string_id s0]. simpl in H1.
  destruct (heap_at _ object); framed (WriteValue_frame P).
Qed.

Lemma serialize_exports_count cfg exports : forall n s,
  Forall (fun e => is_Some (export_object e)) exports ->
  export_count_ s = wrap32 n ->
  export_count_ (serialize_exports cfg exports s)
  = wrap32 (n + Z.of_nat (length exports)).
Proof.
  induction exports as [| e rest IH]; intros n s Hall Hn; simpl.
  - rewrite Z.add_0_r. exact Hn.
  - inversion Hall as [| ? ? [object Ho] Hrest]; subst. rewrite Ho.
    rewrite (IH (n + 1)); [f_equal; lia | exact Hrest |].
    rewrite SerializeExport_count, Hn. unfold wrap32.
    rewrite Zplus_mod_idemp_l. reflexivity.
Qed.

(** X16: when [TakeSnapshot] succeeds on a serializer whose export count is
    0, the export count is the number of entries of the export list
    (modulo 2^32). *)
Theorem export_count_counts_exports cfg fuel exports s s' :
  export_count_ s = 0 ->
  TakeSnapshot cfg fuel exports s = Some (true, s') ->
  export_count_ s' = wrap32 (Z.of_nat (length exports)).
Proof.
  intros H0 E.
  apply TakeSnapshot_cases in E as [(_ & E & _) | (_ & s1 & E)]; [discriminate E |].
  destruct E as [(_ & E & _) | (E & -> & _)]; [discriminate E |].
  set (P := fun s0 : State => export_count_ s0 = 0).
  assert (H1 : P s1).
  { eapply (discover_exports_frame P); [.. | exact E |]; inert. }
  set (Q := fun s0 : State =>
              export_count_ s0 = wrap32 (Z.of_nat (length exports))).
  change (Q (WriteSnapshot cfg (serialize_exports cfg exports (SerializeSource cfg s1)))).
  framed (WriteSnapshot_frame Q).
  unfold Q. rewrite (serialize_exports_count cfg exports 0); [reflexivity | |].
  - exact (discover_exports_objects _ _ _ _ _ E).
  - change (P (SerializeSource cfg s1)). framed (SerializeSource_frame P).
Qed.

Lemma export_count_counts_exports_witness :
  export_count_ Fixtures.closure_state
  = wrap32 (Z.of_nat (length Fixtures.closure_exports)).
Proof.
  apply (export_count_counts_exports Fixtures.scfg 8 Fixtures.closure_exports
           (new_serializer Fixtures.closure_heap)).
  - reflexivity.
  - vm_compute. reflexivity.
Defined.

(** The id of the source. *)

Lemma SerializeString_first cfg a s :
  ids s KString = ∅ -> (SerializeString cfg a 0 s).1 = 0.
Proof.
  intros H. unfold SerializeString, InsertIntoIndexMap. rewrite H, map_size_empty.
  change (kMaxUint32 <=? wrap32 (Z.of_nat 0)) with false.
  unfold LookupOrInsert. rewrite lookup_empty, map_size_empty.
  cbv beta iota. destruct (heap_at _ a) as [| | [|] chars | | | | | | | |]; reflexivity.
Qed.

Lemma SerializeSource_first cfg s :
  ids s KString = ∅ -> source_id_ s = 0 -> source_id_ (SerializeSource cfg s) = 0.
Proof.
  intros Hids H0. unfold SerializeSource.
  destruct (source_intervals_ s) as [| interval intervals]; [exact H0 |].
  cbv zeta.
  destruct (SerializeSource_loop _ _ _ _) as [c ok].
  destruct (negb ok).
  { set (P := fun s0 : State => source_id_ s0 = 0).
    change (P (Throw "Cannot construct source string" (set_source_offsets (offsets c) s))).
    framed (Throw_frame P). }
  destruct (source_string c) as [| unit units].
  - change (source_id_ (set_source_offsets (offsets c) s)) with (source_id_ s).
    rewrite H0.
    pose proof (SerializeString_first cfg (empty_string cfg)
                  (set_source_offsets (offsets c) s) Hids) as H.
    destruct (SerializeString cfg _ 0 _) as [id s2]. simpl in H. subst id. reflexivity.
  - unfold allocate.
    change (source_id_ (set_heap _ (set_source_offsets (offsets c) s)))
      with (source_id_ s).
    rewrite H0.
    match goal with
    | |- context [SerializeString cfg ?a 0 ?s1] =>
        pose proof (SerializeString_first cfg a s1 Hids) as H;
        destruct (SerializeString cfg a 0 s1) as [id s2]
    end.
    simpl in H. subst id. reflexivity.
Qed.

(** X17: [TakeSnapshot] on a serializer whose source id is 0 leaves the
    source id at 0: the string table is empty when [SerializeSource]
    enters the source string. *)
Theorem source_is_string_zero cfg fuel exports s ok s' :
  source_id_ s = 0 ->
  TakeSnapshot cfg fuel exports s = Some (ok, s') ->
  source_id_ s' = 0.
Proof.
  intros H0 E.
  set (P := fun s0 : State => source_id_ s0 = 0).
  apply TakeSnapshot_cases in E as [(_ & _ & ->) | (Hsize & s1 & E)].
  { change (P (Throw "Can't reuse WebSnapshotSerializer" s)). framed (Throw_frame P). }
  apply map_size_empty_inv in Hsize.
  set (Q := fun s0 : State => ids s0 KString = ∅ /\ source_id_ s0 = 0).
  assert (H1 : forall found, discover_exports cfg fuel exports
                 (set_items (fun _ => []) (set_contexts_ [] s)) = Some (found, s1) ->
               Q s1).
  { intros found E1.
    eapply (discover_exports_frame Q); [.. | exact E1 |]; inert;
      try (intros k m s0 Hk HQ; destruct k; try discriminate Hk; exact HQ).
    split; assumption. }
  destruct E as [(E & _ & ->) | (E & -> & _)]; [exact (proj2 (H1 _ E)) |].
  destruct (H1 _ E) as [Hids Hid].
  change (P (WriteSnapshot cfg (serialize_exports cfg exports (SerializeSource cfg s1)))).
  framed (WriteSnapshot_frame P).
  framed (serialize_exports_frame P).
  apply SerializeSource_first; assumption.
Qed.

Lemma source_is_string_zero_witness : source_id_ Fixtures.closure_state = 0.
Proof.
  apply (source_is_string_zero Fixtures.scfg 8 Fixtures.closure_exports
           (new_serializer Fixtures.closure_heap) true).
  - reflexivity.
  - vm_compute. reflexivity.
Defined.

(** X18: a call of [TakeSnapshot] that returns false hands out no buffer:
    the output is what it was before the call. *)
Theorem failed_snapshot_hands_out_nothing cfg fuel exports s s' :
  TakeSnapshot cfg fuel exports s = Some (false, s') ->
  data_out s' = data_out s.
Proof.
  intros E.
  set (P := fun s0 : State => data_out s0 = data_out s).
  change (P s').
  apply TakeSnapshot_cases in E as [(_ & _ & ->) | (_ & s1 & E)].
  { framed (Throw_frame P). reflexivity. }
  assert (H1 : forall found, discover_exports cfg fuel exports
                 (set_items (fun _ => []) (set_contexts_ [] s)) = Some (found, s1) ->
               P s1).
  { intros found E1.
    eapply (discover_exports_frame P); [.. | exact E1 |]; inert.
    reflexivity. }
  destruct E as [(E & _ & ->) | (E & -> & Hok)]; [exact (H1 _ E) |].
  specialize (H1 _ E).
  symmetry in Hok. apply negb_false_iff in Hok. revert Hok.
  unfold WriteSnapshot. cbv zeta.
  set (s3 := SerializePendingItems cfg _).
  destruct (has_error s3) eqn:E3.
  - intros _. subst s3. framed (SerializePendingItems_frame P).
    framed (serialize_exports_frame P). framed (SerializeSource_frame P).
  - intros Hok. change (has_error s3 = true) in Hok. rewrite E3 in Hok. discriminate Hok.
Qed.

Lemma failed_snapshot_hands_out_nothing_witness :
  data_out Fixtures.unsupported_state = data_out (new_serializer Fixtures.ab_heap).
Proof.
  apply (failed_snapshot_hands_out_nothing Fixtures.scfg 8 Fixtures.unsupported_exports).
  vm_compute. reflexivity.
Defined.

End SnapshotTables.
